(** * fuzzy-filter-fun: the pixel-buffer library [src/lib/imageProcessing.ts]

    A shallow embedding of the image-processing functions and the
    properties stated about them.

    - A JavaScript [number] is an IEEE-754 binary64 value: Rocq's primitive
      [float].  Quantities that the source only ever uses as small integers
      (array indices, widths, heights, histogram counts, byte samples read
      from a [Uint8ClampedArray]) are kept in [nat]/[Z]; they are converted
      with [Z2F] where the source does real arithmetic on them (division,
      square root, multiplication by a fractional weight).
    - [Math.cos], [Math.sin], [Math.log], [Math.exp] and [Math.atan2] are
      implementation-approximated in ECMAScript; they are parameters
      ([MathLib]).
    - Typed arrays live in a heap; an [ImageData] is a reference to its
      sample array together with its width and height. *)

From Stdlib Require Import ZArith List Lia Bool Floats.
From stdpp Require Import base option list gmap sorting.

Set Warnings "-inexact-float".
Open Scope Z_scope.

(** ** JavaScript numbers *)

Module JS.

(** An integer as a [number]; exact below 2^53. *)
Definition Z2F (z : Z) : float :=
  if z <? 0 then PrimFloat.opp (PrimFloat.of_uint63 (Uint63.of_Z (- z)))
  else PrimFloat.of_uint63 (Uint63.of_Z z).

Definition N2F (n : nat) : float := Z2F (Z.of_nat n).

Definition is_neg_zero (x : float) : bool :=
  match PrimFloat.classify x with NZero => true | _ => false end.

(** [Math.min] and [Math.max] of two arguments: NaN if either is NaN,
    and -0 is smaller than +0. *)
Definition Math_min (a b : float) : float :=
  if PrimFloat.is_nan a || PrimFloat.is_nan b then nan
  else if (a <? b)%float then a
  else if (b <? a)%float then b
  else if is_neg_zero a then a else b.

Definition Math_max (a b : float) : float :=
  if PrimFloat.is_nan a || PrimFloat.is_nan b then nan
  else if (a <? b)%float then b
  else if (b <? a)%float then a
  else if is_neg_zero a then b else a.

(** [Math.round]: the nearest integer, ties towards +infinity; NaN,
    infinities, zeros and integers are returned as they are, and a
    negative argument that rounds to zero gives -0. *)
Definition Math_round (x : float) : float :=
  match Prim2SF x with
  | S754_finite s m e =>
      if 0 <=? e then x
      else
        let d := 2 ^ (- e) in
        let n := if s then Z.neg m else Z.pos m in
        let r := (2 * n + d) / (2 * d) in
        if r =? 0 then (if s then (-0)%float else 0%float) else Z2F r
  | _ => x
  end.

(** The conversion applied by a store into a [Uint8ClampedArray]
    (ToUint8Clamp): NaN becomes 0, the value is clamped to [0,255] and
    rounded to the nearest integer, ties to even. *)
Definition ToUint8Clamp (x : float) : Z :=
  match Prim2SF x with
  | S754_nan => 0
  | S754_zero _ => 0
  | S754_infinity s => if s then 0 else 255
  | S754_finite s m e =>
      if s then 0
      else if 0 <=? e then Z.min 255 (Z.pos m * 2 ^ e)
      else
        let d := 2 ^ (- e) in
        let f := Z.pos m / d in
        let r2 := 2 * (Z.pos m mod d) in
        if 255 <=? f then 255
        else if r2 <? d then f
        else if d <? r2 then f + 1
        else if Z.even f then f else f + 1
  end.

(** The functions of [Math] whose results ECMAScript leaves to the
    implementation. *)
Class MathLib := {
  Math_cos : float -> float;
  Math_sin : float -> float;
  Math_log : float -> float;
  Math_exp : float -> float;
  Math_atan2 : float -> float -> float;
}.

Definition Math_PI : float := 3.141592653589793%float.

(** [Math.fround], the conversion applied by a store into a
    [Float32Array]: the nearest binary32 value, ties to even. *)
Definition fround (x : float) : float :=
  match Prim2SF x with
  | S754_finite s m e => SF2Prim (binary_round 24 128 s m e)
  | _ => x
  end.

(** The remainder [a % b] of two numbers: exact, with the sign of [a]. *)
Definition rem (a b : float) : float :=
  match Prim2SF a, Prim2SF b with
  | S754_nan, _ | _, S754_nan => nan
  | S754_infinity _, _ => nan
  | _, S754_zero _ => nan
  | _, S754_infinity _ => a
  | S754_zero _, _ => a
  | S754_finite sa ma ea, S754_finite _ mb eb =>
      let e := Z.min ea eb in
      let r := (Z.pos ma * 2 ^ (ea - e)) mod (Z.pos mb * 2 ^ (eb - e)) in
      if r =? 0 then (if sa then (-0)%float else 0%float)
      else SF2Prim (binary_normalize prec emax (if sa then - r else r) e false)
  end.

End JS.
Import JS.

(** ** Loops *)

(** The values taken by [i] in [for (let i = start; i < stop; i += step)]. *)
Definition steps (start stop step : nat) : list nat :=
  (λ k, start + k * step)%nat <$> seq 0 ((stop - start + (step - 1)) / step)%nat.

(** ** The heap of typed arrays *)

Definition loc := positive.

Inductive cell :=
  | U8 (samples : list Z)        (* Uint8ClampedArray *)
  | F64 (values : list float).   (* Float64Array *)

Record state := State {
  heap : gmap loc cell;
  draws : list float;            (* the results of the coming calls of Math.random *)
}.

Inductive error :=
  | TypeError            (* a property of undefined was read *)
  | InvalidStateError    (* ImageData: bad sample-array length *)
  | IndexSizeError       (* ImageData: bad width or height *)
  | OutOfDraws           (* the sequence of random draws is used up *)
  | OutOfFuel.           (* a loop ran longer than the model follows it *)

Definition M (A : Type) : Type := state -> error + A * state.

#[global] Instance M_ret : MRet M := λ A a s, inr (a, s).
#[global] Instance M_bind : MBind M := λ A B f m s,
  match m s with
  | inl e => inl e
  | inr (a, s') => f a s'
  end.

Definition throw {A} (e : error) : M A := λ _, inl e.

Definition alloc (c : cell) : M loc := λ s,
  let l := fresh (dom (heap s)) in
  inr (l, State (<[l := c]> (heap s)) (draws s)).

Definition read_u8 (l : loc) : M (list Z) := λ s,
  match heap s !! l with
  | Some (U8 a) => inr (a, s)
  | _ => inl TypeError
  end.

Definition read_f64 (l : loc) : M (list float) := λ s,
  match heap s !! l with
  | Some (F64 a) => inr (a, s)
  | _ => inl TypeError
  end.

Definition write_cell (l : loc) (c : cell) : M unit := λ s,
  inr (tt, State (<[l := c]> (heap s)) (draws s)).

(** [Math.random()]: the next draw of the sequence. *)
Definition Math_random : M float := λ s,
  match draws s with
  | [] => inl OutOfDraws
  | r :: rs => inr (r, State (heap s) rs)
  end.

(** ** Image Data Helpers *)

Record ImageData := { data : loc; width : nat; height : nat }.

(** A sample read in an arithmetic context: an index out of range reads
    [undefined], which arithmetic turns into NaN. *)
Definition sample (a : list Z) (i : nat) : float :=
  from_option Z2F nan (a !! i).

(** A store [a[i] = v] into a [Uint8ClampedArray]; out of range it does
    nothing, as stdpp's insert. *)
Definition store (i : nat) (v : float) (a : list Z) : list Z :=
  <[i := ToUint8Clamp v]> a.

(** The platform's constructor [new ImageData(data, sw, sh)] (HTML
    Standard): the length of [data] must be a non-zero multiple of 4, the
    number of pixels a multiple of [sw], and [sh] the resulting height. *)
Definition new_ImageData_from (d : loc) (sw sh : nat) : M ImageData :=
  a ← read_u8 d;
  let len := length a in
  if ((len =? 0) || negb (len mod 4 =? 0))%nat then throw InvalidStateError
  else if ((sw =? 0) || negb ((len / 4) mod sw =? 0))%nat then throw IndexSizeError
  else if negb ((len / 4) / sw =? sh)%nat then throw IndexSizeError
  else mret {| data := d; width := sw; height := sh |}.

(** The platform's constructor [new ImageData(sw, sh)]: transparent black;
    a zero width or height is an [IndexSizeError]. *)
Definition new_ImageData (sw sh : nat) : M ImageData :=
  if ((sw =? 0) || (sh =? 0))%nat then throw IndexSizeError
  else
    d ← alloc (U8 (replicate (4 * sw * sh) 0));
    mret {| data := d; width := sw; height := sh |}.

Definition cloneImageData (img : ImageData) : M ImageData :=
  a ← read_u8 (data img);
  d ← alloc (U8 a);                      (* new Uint8ClampedArray(img.data) *)
  new_ImageData_from d (width img) (height img).

(** The loops of the source write into the array of their own fresh
    clone [out]; [update_data out f] runs such a loop nest [f] on it. *)
Definition update_data (out : ImageData) (f : list Z -> list Z) : M unit :=
  a ← read_u8 (data out);
  write_cell (data out) (U8 (f a)).

(** ** Conversion *)

Definition luma (r g b : float) : float :=
  Math_round (0.299 * r + 0.587 * g + 0.114 * b)%float.

Definition toGrayscale_loop (a : list Z) : list Z :=
  foldl (λ out i,
           let g := luma (sample out i) (sample out (i + 1)) (sample out (i + 2)) in
           store (i + 2) g (store (i + 1) g (store i g out)))
        a (steps 0 (length a) 4).

Definition toGrayscale (img : ImageData) : M ImageData :=
  out ← cloneImageData img;
  update_data out toGrayscale_loop;;
  mret out.

(** ** Noise *)

Fixpoint for_each {A} (l : list A) (body : A -> M unit) : M unit :=
  match l with
  | [] => mret tt
  | x :: l' => body x;; for_each l' body
  end.

Definition data_length (img : ImageData) : M nat :=
  a ← read_u8 (data img); mret (length a).

(** [let u = 0; while (u === 0) u = Math.random();]: the first draw that
    is not zero. *)
Fixpoint first_nonzero (rs : list float) : option (float * list float) :=
  match rs with
  | [] => None
  | r :: rs' => if (r =? 0)%float then first_nonzero rs' else Some (r, rs')
  end.

Definition draw_nonzero : M float := λ s,
  match first_nonzero (draws s) with
  | None => inl OutOfDraws
  | Some (u, rs) => inr (u, State (heap s) rs)
  end.

Section Noise.
Context `{ML : MathLib}.

Definition randGaussian : M float :=
  u ← draw_nonzero;
  v ← draw_nonzero;
  mret (PrimFloat.sqrt (-2.0 * Math_log u) * Math_cos (2.0 * Math_PI * v))%float.

Definition addUniformNoise (img : ImageData) (percentage : float) : M ImageData :=
  out ← cloneImageData img;
  let amount := (percentage / 100 * 255)%float in
  n ← data_length out;
  for_each (steps 0 n 4) (λ i,
    for_each (seq 0 3) (λ c,
      r ← Math_random;
      update_data out (λ a,
        store (i + c)
          (Math_max 0 (Math_min 255 (sample a (i + c) + (r - 0.5) * 2 * amount)))%float a)));;
  mret out.

Definition addGaussianNoise (img : ImageData) (percentage : float) : M ImageData :=
  out ← cloneImageData img;
  let sigma := (percentage / 100 * 80)%float in
  n ← data_length out;
  for_each (steps 0 n 4) (λ i,
    for_each (seq 0 3) (λ c,
      g ← randGaussian;
      update_data out (λ a,
        store (i + c)
          (Math_max 0 (Math_min 255 (Math_round (sample a (i + c) + g * sigma))))%float a)));;
  mret out.

Definition addSaltPepperNoise (img : ImageData) (percentage : float) : M ImageData :=
  out ← cloneImageData img;
  let prob := (percentage / 100)%float in
  n ← data_length out;
  for_each (steps 0 n 4) (λ i,
    r ← Math_random;
    if (r <? prob / 2)%float then
      update_data out (λ a, store (i + 2) 0 (store (i + 1) 0 (store i 0 a)))
    else if (r <? prob)%float then
      update_data out (λ a, store (i + 2) 255 (store (i + 1) 255 (store i 255 a)))
    else mret tt);;
  mret out.

(** The dispatch of the noise panel ([applyNoise] of SpatialFilterTab). *)
Inductive NoiseType := uniform | gaussian | salt_pepper.

Definition applyNoise (noiseType : NoiseType) (src : ImageData) (noisePercent : float)
  : M ImageData :=
  match noiseType with
  | uniform => addUniformNoise src noisePercent
  | salt_pepper => addSaltPepperNoise src noisePercent
  | gaussian => addGaussianNoise src noisePercent
  end.

End Noise.

(** ** Histogram *)

(** [let min = 255, max = 0; for (i = c; ...) {...}] of [normalizeImage]. *)
Definition channel_min_max (a : list Z) (c : nat) : Z * Z :=
  foldl (λ '(mn, mx) i,
           let v := a !!! i in
           (if v <? mn then v else mn, if mx <? v then v else mx))
        (255, 0) (steps c (length a) 4).

Definition normalize_channel (a : list Z) (c : nat) : list Z :=
  let '(mn, mx) := channel_min_max a c in
  let range := if mx - mn =? 0 then 1 else mx - mn in      (* max - min || 1 *)
  foldl (λ out i,
           store i (Math_round (Z2F (out !!! i - mn) / Z2F range * 255))%float out)
        a (steps c (length a) 4).

Definition normalizeImage_loop (a : list Z) : list Z :=
  foldl normalize_channel a (seq 0 3).

Definition normalizeImage (img : ImageData) : M ImageData :=
  out ← cloneImageData img;
  update_data out normalizeImage_loop;;
  mret out.

(** [hist[out.data[i]]++] over the samples of channel [c]. *)
Definition histogram (a : list Z) (c : nat) : list Z :=
  foldl (λ hist i, let v := Z.to_nat (a !!! i) in <[v := hist !!! v + 1]> hist)
        (replicate 256 0) (steps c (length a) 4).

Definition cumulative (hist : list Z) : list Z :=
  foldl (λ cdf i, <[i := cdf !!! (i - 1)%nat + hist !!! i]> cdf)
        (<[0%nat := hist !!! 0%nat]> (replicate 256 0)) (seq 1 255).

(** [cdf.find(v => v > 0) || 0] *)
Definition cdf_min (cdf : list Z) : Z :=
  default 0 (List.find (λ v, 0 <? v) cdf).

Definition equalize_channel (totalPixels : nat) (a : list Z) (c : nat) : list Z :=
  let hist := histogram a c in
  let cdf := cumulative hist in
  let cdfMin := cdf_min cdf in
  foldl (λ out i,
           store i
             (Math_round (Z2F (cdf !!! Z.to_nat (out !!! i) - cdfMin)
                          / Z2F (Z.of_nat totalPixels - cdfMin) * 255))%float out)
        a (steps c (length a) 4).

Definition equalizeImage_loop (totalPixels : nat) (a : list Z) : list Z :=
  foldl (equalize_channel totalPixels) a (seq 0 3).

Definition equalizeImage (img : ImageData) : M ImageData :=
  out ← cloneImageData img;
  let totalPixels := (width img * height img)%nat in
  update_data out (equalizeImage_loop totalPixels);;
  mret out.

(** ** Spatial Filters *)

(** A sample read at an index computed with signed arithmetic. *)
Definition sample_at (a : list Z) (i : Z) : float :=
  if i <? 0 then nan else sample a (Z.to_nat i).

(** [Math.min(n - 1, Math.max(0, v))] *)
Definition clamp_coord (n : nat) (v : Z) : Z := Z.min (Z.of_nat n - 1) (Z.max 0 v).

(** [kernel[ky][kx]]; a missing entry is [undefined], NaN in a product. *)
Definition kernel_at (kernel : list (list float)) (ky kx : nat) : float :=
  from_option id nan (kernel !! ky ≫= (.!! kx)).

(** [for (let c = 0; c < 3; c++) out.data[idx + c] = v(c)] *)
Definition write_rgb (idx : nat) (v : nat -> float) (out : list Z) : list Z :=
  foldl (λ o c, store (idx + c) (v c) o) out (seq 0 3).

Definition kernel_sum (kernel : list (list float)) : float :=
  foldl (λ acc row, foldl (λ acc v, acc + v)%float acc row) 0%float kernel.

(** The three sums of the kernel window at [(x, y)]. *)
Definition window_sums (w h : nat) (src : list Z) (kernel : list (list float))
    (kh kw hh hw : nat) (x y : nat) : list float :=
  foldl (λ sums ky,
    foldl (λ sums kx,
      let px := clamp_coord w (Z.of_nat x + Z.of_nat kx - Z.of_nat hw) in
      let py := clamp_coord h (Z.of_nat y + Z.of_nat ky - Z.of_nat hh) in
      let idx := (py * Z.of_nat w + px) * 4 in
      foldl (λ sums c,
               <[c := (from_option id nan (sums !! c)
                       + sample_at src (idx + Z.of_nat c) * kernel_at kernel ky kx)%float]> sums)
            sums (seq 0 3))
      sums (seq 0 kw))
    [0; 0; 0]%float (seq 0 kh).

Definition convolve_loop (w h : nat) (kernel : list (list float)) (kw : nat)
    (normalize : bool) (src out : list Z) : list Z :=
  let kh := length kernel in
  let hh := (kh / 2)%nat in
  let hw := (kw / 2)%nat in
  let ksum := if normalize then kernel_sum kernel else 0%float in
  let ksum := if (ksum =? 0)%float then 1%float else ksum in
  foldl (λ out y,
    foldl (λ out x,
      let sums := window_sums w h src kernel kh kw hh hw x y in
      let idx := ((y * w + x) * 4)%nat in
      write_rgb idx (λ c,
        let s := from_option id nan (sums !! c) in
        Math_max 0 (Math_min 255 (Math_round (if normalize then s / ksum else s)))%float) out)
      out (seq 0 w))
    out (seq 0 h).

Definition convolve (img : ImageData) (kernel : list (list float)) (normalize : bool)
  : M ImageData :=
  out ← cloneImageData img;
  match kernel with
  | [] => throw TypeError                       (* kernel[0].length *)
  | row0 :: _ =>
      src ← read_u8 (data img);
      update_data out (convolve_loop (width img) (height img) kernel (length row0) normalize src);;
      mret out
  end.

(** [Array.from({ length: size }, () => Array(size).fill(1))] *)
Definition averageFilter (img : ImageData) (size : Z) : M ImageData :=
  let kernel := replicate (Z.to_nat size) (replicate (Z.to_nat size) 1%float) in
  convolve img kernel true.

(** The values of [k] in [for (let k = -half; k <= half; k++)]. *)
Definition offsets (half : Z) : list Z :=
  (λ k, Z.of_nat k - half) <$> seq 0 (Z.to_nat (2 * half + 1)).

Section Gaussian.
Context `{ML : MathLib}.

Definition gaussian_kernel (size : Z) : list (list float) :=
  let sigma := (Z2F size / 6)%float in
  let half := size / 2 in
  (λ y, (λ x, Math_exp (- Z2F (x * x + y * y) / (2 * sigma * sigma))%float) <$> offsets half)
    <$> offsets half.

Definition gaussianFilter (img : ImageData) (size : Z) : M ImageData :=
  convolve img (gaussian_kernel size) true.

End Gaussian.

(** The samples of channel [c] pushed for the pixel [(x, y)]. *)
Definition neighborhood (w h : nat) (src : list Z) (half : Z) (x y c : nat) : list Z :=
  ky ← offsets half;
  kx ← offsets half;
  let px := clamp_coord w (Z.of_nat x + kx) in
  let py := clamp_coord h (Z.of_nat y + ky) in
  let idx := (py * Z.of_nat w + px) * 4 in
  [src !!! Z.to_nat (idx + Z.of_nat c)].

(** [channels[c].sort((a, b) => a - b)] *)
Definition sort_ascending (l : list Z) : list Z := merge_sort Z.le l.

Definition medianFilter_loop (w h : nat) (half : Z) (src out : list Z) : list Z :=
  foldl (λ out y,
    foldl (λ out x,
      let idx := ((y * w + x) * 4)%nat in
      write_rgb idx (λ c,
        let sorted := sort_ascending (neighborhood w h src half x y c) in
        from_option Z2F nan (sorted !! (length sorted / 2)%nat)) out)
      out (seq 0 w))
    out (seq 0 h).

Definition medianFilter (img : ImageData) (size : Z) : M ImageData :=
  out ← cloneImageData img;
  let half := size / 2 in
  src ← read_u8 (data img);
  update_data out (medianFilter_loop (width img) (height img) half src);;
  mret out.

(** [Math.min(255, Math.sqrt(gx ** 2 + gy ** 2))]; [v ** 2] is taken as
    [v * v]: the operands are samples, whose squares are exact. *)
Definition magnitude (gx gy : float) : float :=
  Math_min 255 (PrimFloat.sqrt (gx * gx + gy * gy)).

(** The loop shared by [sobelFilter] and [prewittFilter]. *)
Definition gradient_loop (gx gy out : list Z) : list Z :=
  foldl (λ out i,
           let mag := magnitude (sample gx i) (sample gy i) in
           store (i + 2) mag (store (i + 1) mag (store i mag out)))
        out (steps 0 (length out) 4).

Definition gradientFilter (kx ky : list (list float)) (img : ImageData) : M ImageData :=
  gray ← toGrayscale img;
  gx ← convolve gray kx false;
  gy ← convolve gray ky false;
  out ← cloneImageData img;
  gxd ← read_u8 (data gx);
  gyd ← read_u8 (data gy);
  update_data out (gradient_loop gxd gyd);;
  mret out.

Definition sobel_kx : list (list float) := [[-1; 0; 1]; [-2; 0; 2]; [-1; 0; 1]]%float.
Definition sobel_ky : list (list float) := [[-1; -2; -1]; [0; 0; 0]; [1; 2; 1]]%float.
Definition prewitt_kx : list (list float) := [[-1; 0; 1]; [-1; 0; 1]; [-1; 0; 1]]%float.
Definition prewitt_ky : list (list float) := [[-1; -1; -1]; [0; 0; 0]; [1; 1; 1]]%float.

Definition sobelFilter (img : ImageData) : M ImageData :=
  gradientFilter sobel_kx sobel_ky img.

Definition prewittFilter (img : ImageData) : M ImageData :=
  gradientFilter prewitt_kx prewitt_ky img.

Definition robertsFilter_loop (w h : nat) (gray out : list Z) : list Z :=
  foldl (λ out y,
    foldl (λ out x,
      let i00 := ((y * w + x) * 4)%nat in
      let i01 := ((y * w + x + 1) * 4)%nat in
      let i10 := (((y + 1) * w + x) * 4)%nat in
      let i11 := (((y + 1) * w + x + 1) * 4)%nat in
      let gx := (sample gray i00 - sample gray i11)%float in
      let gy := (sample gray i01 - sample gray i10)%float in
      let mag := magnitude gx gy in
      store (i00 + 2) mag (store (i00 + 1) mag (store i00 mag out)))
      out (seq 0 (w - 1)))
    out (seq 0 (h - 1)).

Definition robertsFilter (img : ImageData) : M ImageData :=
  gray ← toGrayscale img;
  out ← cloneImageData img;
  g ← read_u8 (data gray);
  update_data out (robertsFilter_loop (width img) (height img) g);;
  mret out.

(** ** Vocabulary of the properties *)

Definition is_byte (v : Z) : Prop := 0 <= v <= 255.

(** [img] is a pixel buffer of the heap of [s], with samples [a]. *)
Definition valid (s : state) (img : ImageData) (a : list Z) : Prop :=
  heap s !! data img = Some (U8 a) /\
  length a = (4 * width img * height img)%nat /\
  (0 < width img)%nat /\ (0 < height img)%nat.

(** Every array of [s] is an array of [s'], with the same contents. *)
Definition extends (s s' : state) : Prop :=
  forall l, l ∈ dom (heap s) -> heap s' !! l = heap s !! l.

(** Run in [s] on the buffer [img], [m] returns a buffer with a new sample
    array holding [b], of the width and height of [img], and leaves the
    arrays of [s] as they were. *)
Definition yields (m : M ImageData) (s : state) (img : ImageData) (b : list Z) : Prop :=
  exists out s',
    m s = inr (out, s') /\
    (data out ∉ dom (heap s)) /\
    valid s' out b /\ width out = width img /\ height out = height img /\
    extends s s'.

(** The three colour samples of pixel [k]. *)
Definition rgb (b : list Z) (k : nat) : list Z := take 3 (drop (4 * k) b).

(** The samples of channel [c] take the value [v]. *)
Definition attains (a : list Z) (c : nat) (v : Z) : Prop :=
  exists k, a !! (4 * k + c)%nat = Some v.

(** Each colour channel attains both extremes. *)
Definition full_range (a : list Z) : Prop :=
  forall c, (c < 3)%nat -> attains a c 0 /\ attains a c 255.

(** Channel [c] holds [v] at every pixel. *)
Definition constant_channel (a : list Z) (c : nat) (v : Z) : Prop :=
  forall k, (4 * k + c < length a)%nat -> a !! (4 * k + c)%nat = Some v.

(** The window of the spec's sentence on the median filter, for comparison
    with [neighborhood]: [size] columns by [size] rows of edge-clamped
    samples, anchored as the kernel of [convolve] is, and its lower-middle
    element. *)
Definition window_by_size (w h : nat) (src : list Z) (size : nat) (x y c : nat) : list Z :=
  ky ← seq 0 size;
  kx ← seq 0 size;
  let px := clamp_coord w (Z.of_nat x + Z.of_nat kx - Z.of_nat (size / 2)) in
  let py := clamp_coord h (Z.of_nat y + Z.of_nat ky - Z.of_nat (size / 2)) in
  let idx := (py * Z.of_nat w + px) * 4 in
  [src !!! Z.to_nat (idx + Z.of_nat c)].

Definition lower_middle (l : list Z) : option Z :=
  sort_ascending l !! ((length l - 1) / 2)%nat.

(** ** FFT (2D) *)

(** The 32-bit integer that [<<], [>>], [&] and [^] produce. *)
Definition int32 (z : Z) : Z := (z + 2 ^ 31) mod 2 ^ 32 - 2 ^ 31.

(** An element of a [Float64Array] read in arithmetic: out of range it is
    [undefined], that is NaN. *)
Definition f64_get (a : list float) (i : nat) : float := default nan (a !! i).

(** [for (; j & bit; bit >>= 1) j ^= bit;]: [bit] is shifted right at each
    turn, so 32 turns are enough to see the loop end. *)
Fixpoint clear_bits (turns : nat) (j bit : Z) : Z * Z :=
  match turns with
  | O => (j, bit)
  | S turns' =>
      if Z.land j bit =? 0 then (j, bit)
      else clear_bits turns' (int32 (Z.lxor j bit)) (int32 (Z.shiftr bit 1))
  end.

Definition swap (a : list float) (i j : nat) : list float :=
  <[j := f64_get a i]> (<[i := f64_get a j]> a).

(** The bit-reversal loop of [fft1d]; the state is [(j, re, im)]. *)
Definition bit_reversal (n : nat) (re im : list float) : list float * list float :=
  let '(_, re, im) :=
    foldl (λ '(j, re, im) i,
             let bit := int32 (Z.shiftr (Z.of_nat n) 1) in
             let '(j, bit) := clear_bits 32 j bit in
             let j := int32 (Z.lxor j bit) in
             if Z.of_nat i <? j
             then (j, swap re i (Z.to_nat j), swap im i (Z.to_nat j))
             else (j, re, im))
          (0, re, im) (seq 1 (n - 1)) in
  (re, im).

Section FFT.
Context `{ML : MathLib}.

(** The loop [for (let j = 0; j < len / 2; j++)] of one block starting at
    [i]; the state is [(curRe, curIm, re, im)]. *)
Definition butterflies (len i : nat) (wRe wIm : float) (re im : list float)
  : list float * list float :=
  let half := (len / 2)%nat in
  let '(_, _, re, im) :=
    foldl (λ '(curRe, curIm, re, im) j,
             let uRe := f64_get re (i + j) in
             let uIm := f64_get im (i + j) in
             let vRe := (f64_get re (i + j + half) * curRe - f64_get im (i + j + half) * curIm)%float in
             let vIm := (f64_get re (i + j + half) * curIm + f64_get im (i + j + half) * curRe)%float in
             let re := <[(i + j)%nat := (uRe + vRe)%float]> re in
             let im := <[(i + j)%nat := (uIm + vIm)%float]> im in
             let re := <[(i + j + half)%nat := (uRe - vRe)%float]> re in
             let im := <[(i + j + half)%nat := (uIm - vIm)%float]> im in
             let newCurRe := (curRe * wRe - curIm * wIm)%float in
             let curIm := (curRe * wIm + curIm * wRe)%float in
             (newCurRe, curIm, re, im))
          (1%float, 0%float, re, im) (seq 0 half) in
  (re, im).

(** [for (let len = 2; len <= n; len <<= 1)]: [len] is doubled as a 32-bit
    integer.  [None]: the source does not leave the loop ([len] has
    wrapped around to a value that is not positive). *)
Fixpoint stages (turns : nat) (n : nat) (invert : bool) (len : Z) (re im : list float)
  : option (list float * list float) :=
  if Z.of_nat n <? len then Some (re, im)
  else if len <=? 0 then None
  else
    match turns with
    | O => None
    | S turns' =>
        let angle := (2 * Math_PI / Z2F len * (if invert then -1 else 1))%float in
        let wRe := Math_cos angle in
        let wIm := Math_sin angle in
        let '(re, im) :=
          foldl (λ '(re, im) i, butterflies (Z.to_nat len) i wRe wIm re im)
                (re, im) (steps 0 n (Z.to_nat len)) in
        stages turns' n invert (int32 (len * 2)) re im
    end.

(** [fft1d(re, im, invert)], on the contents of the two arrays. *)
Definition fft1d (re im : list float) (invert : bool) : option (list float * list float) :=
  let n := length re in
  if (n <=? 1)%nat then Some (re, im)
  else
    let '(re, im) := bit_reversal n re im in
    match stages 32 n invert 2 re im with
    | None => None
    | Some (re, im) =>
        if invert
        then Some ((λ v, v / N2F n)%float <$> re, (λ v, v / N2F n)%float <$> im)
        else Some (re, im)
    end.

End FFT.

(** [let p = 1; while (p < n) p <<= 1;] *)
Fixpoint nextPow2_loop (turns : nat) (n : nat) (p : Z) : option Z :=
  if p <? Z.of_nat n then
    match turns with
    | O => None
    | S turns' => nextPow2_loop turns' n (int32 (p * 2))
    end
  else Some p.

Definition nextPow2 (n : nat) : option nat := Z.to_nat <$> nextPow2_loop 33 n 1.

Record FFTResult := {
  re : list loc;
  im : list loc;
  fft_width : nat;
  fft_height : nat;
  originalWidth : nat;
  originalHeight : nat;
}.

(** Matrices local to a call: the rows [re[y]] as lists. *)
Abbreviation matrix := (list (list float)).

(** [m[y][x]]; [None] when [m[y]] is [undefined] (a TypeError). *)
Definition entry (m : matrix) (y x : nat) : option float :=
  row ← m !! y; Some (f64_get row x).

Definition set_entry (m : matrix) (y x : nat) (v : float) : matrix :=
  alter (λ row, <[x := v]> row) y m.

Definition lift {A} (e : error) (o : option A) : M A :=
  match o with
  | Some a => mret a
  | None => throw e
  end.

Fixpoint alloc_rows (rows : matrix) : M (list loc) :=
  match rows with
  | [] => mret []
  | row :: rows' => l ← alloc (F64 row); ls ← alloc_rows rows'; mret (l :: ls)
  end.

Fixpoint read_rows (ls : list loc) : M matrix :=
  match ls with
  | [] => mret []
  | l :: ls' => row ← read_f64 l; rows ← read_rows ls'; mret (row :: rows)
  end.

Section FFT2D.
Context `{ML : MathLib}.

(** [for (let y = 0; y < h; y++) fft1d(re[y], im[y], invert)] *)
Definition fft_rows (h : nat) (invert : bool) (mre mim : matrix) : option (matrix * matrix) :=
  foldl (λ (acc : option (matrix * matrix)) y,
           match acc with
           | None => None
           | Some (mre, mim) =>
               rowRe ← mre !! y;
               rowIm ← mim !! y;
               match fft1d rowRe rowIm invert with
               | None => None
               | Some (r, i) => Some (<[y := r]> mre, <[y := i]> mim)
               end
           end)
        (Some (mre, mim)) (seq 0 h).

(** The column pass: each column is copied into [colRe], [colIm],
    transformed, and copied back. *)
Definition fft_cols (w h : nat) (invert : bool) (mre mim : matrix) : option (matrix * matrix) :=
  foldl (λ (acc : option (matrix * matrix)) x,
           match acc with
           | None => None
           | Some (mre, mim) =>
               colRe ← mapM (λ y, entry mre y x) (seq 0 h);
               colIm ← mapM (λ y, entry mim y x) (seq 0 h);
               match fft1d colRe colIm invert with
               | None => None
               | Some (colRe, colIm) =>
                   Some (foldl (λ '(mre, mim) y,
                                  (set_entry mre y x (f64_get colRe y),
                                   set_entry mim y x (f64_get colIm y)))
                               (mre, mim) (seq 0 h))
               end
           end)
        (Some (mre, mim)) (seq 0 w).

(** The rows of [re] as [fft2d] initialises them. *)
Definition shifted_rows (iw ih w h : nat) (gray : list Z) : matrix :=
  (λ y, (λ x, if ((y <? ih) && (x <? iw))%nat
              then (sample gray ((y * iw + x) * 4)
                    * (if ((x + y) mod 2 =? 0)%nat then 1 else -1))%float
              else 0%float) <$> seq 0 w) <$> seq 0 h.

(** Rows are put in the heap with the contents they have at the end of
    the call; the scratch columns [colRe], [colIm] are not kept. *)
Definition fft2d (img : ImageData) : M FFTResult :=
  gray ← toGrayscale img;
  w ← lift OutOfFuel (nextPow2 (width img));
  h ← lift OutOfFuel (nextPow2 (height img));
  g ← read_u8 (data gray);
  let mre := shifted_rows (width img) (height img) w h g in
  let mim := replicate h (replicate w 0%float) in
  p ← lift OutOfFuel (fft_rows h false mre mim);
  p ← lift OutOfFuel (fft_cols w h false p.1 p.2);
  lre ← alloc_rows p.1;
  lim ← alloc_rows p.2;
  mret {| re := lre; im := lim; fft_width := w; fft_height := h;
          originalWidth := width img; originalHeight := height img |}.

Definition ifft2d_loop (ow oh : nat) (mre : matrix) (out : list Z) : option (list Z) :=
  foldl (λ acc y,
    foldl (λ acc x,
      out ← acc;
      v ← entry mre y x;
      let val := Math_max 0 (Math_min 255 (Math_round (PrimFloat.abs v))) in
      let idx := ((y * ow + x) * 4)%nat in
      Some (store (idx + 3) 255 (store (idx + 2) val (store (idx + 1) val (store idx val out)))))
      acc (seq 0 ow))
    (Some out) (seq 0 oh).

(** A pass that reads a row that is not there is a TypeError; a pass that
    does not end is [OutOfFuel]. *)
Definition run_pass (rows_needed : nat) (mre mim : matrix) (r : option (matrix * matrix))
  : M (matrix * matrix) :=
  match r with
  | Some p => mret p
  | None =>
      if ((rows_needed <=? length mre) && (rows_needed <=? length mim))%nat
      then throw OutOfFuel else throw TypeError
  end.

Definition ifft2d (fft : FFTResult) : M ImageData :=
  let w := fft_width fft in
  let h := fft_height fft in
  let ow := originalWidth fft in
  let oh := originalHeight fft in
  mre ← read_rows (re fft);               (* fft.re.map(r => new Float64Array(r)) *)
  mim ← read_rows (im fft);
  p ← run_pass h mre mim (fft_cols w h true mre mim);
  p ← run_pass h p.1 p.2 (fft_rows h true p.1 p.2);
  out ← new_ImageData ow oh;
  a ← read_u8 (data out);
  b ← lift TypeError (ifft2d_loop ow oh p.1 a);
  write_cell (data out) (U8 b);;
  mret out.

End FFT2D.

Inductive PassType := low | high.

(** [Math.sqrt((x - cx) ** 2 + (y - cy) ** 2)] with [cx = w / 2],
    [cy = h / 2]; [v ** 2] is taken as [v * v]. *)
Definition distance (w h x y : nat) : float :=
  let cx := (N2F w / 2)%float in
  let cy := (N2F h / 2)%float in
  PrimFloat.sqrt ((N2F x - cx) * (N2F x - cx) + (N2F y - cy) * (N2F y - cy)).

(** [type === 'low' ? dist <= radius : dist >= radius] *)
Definition passes (type : PassType) (radius : float) (w h x y : nat) : bool :=
  let dist := distance w h x y in
  match type with
  | low => (dist <=? radius)%float
  | high => (radius <=? dist)%float
  end.

Definition pass (type : PassType) (radius : float) (w h x y : nat) : float :=
  if passes type radius w h x y then 1%float else 0%float.

Definition mask_loop (type : PassType) (radius : float) (w h : nat) (m : matrix)
  : option matrix :=
  foldl (λ acc y,
    foldl (λ acc x,
      m ← acc;
      v ← entry m y x;
      Some (set_entry m y x (v * pass type radius w h x y)%float))
      acc (seq 0 w))
    (Some m) (seq 0 h).

Definition applyFrequencyFilter (fft : FFTResult) (radius : float) (type : PassType)
  : M FFTResult :=
  let w := fft_width fft in
  let h := fft_height fft in
  mre ← read_rows (re fft);
  mim ← read_rows (im fft);
  mre' ← lift TypeError (mask_loop type radius w h mre);
  mim' ← lift TypeError (mask_loop type radius w h mim);
  lre ← alloc_rows mre';
  lim ← alloc_rows mim';
  mret {| re := lre; im := lim; fft_width := w; fft_height := h;
          originalWidth := originalWidth fft; originalHeight := originalHeight fft |}.

(** The row arrays [ls] hold the rows of the matrix [m]. *)
Definition rows_in (s : state) (ls : list loc) (m : matrix) : Prop :=
  Forall2 (λ l row, heap s !! l = Some (F64 row)) ls m.

(** [fft] is a spectrum of the heap of [s]: [fft_height] rows of
    [fft_width] coefficients in each of [re] and [im]. *)
Definition valid_spectrum (s : state) (fft : FFTResult) (mre mim : matrix) : Prop :=
  rows_in s (re fft) mre /\ rows_in s (im fft) mim /\
  length mre = fft_height fft /\ length mim = fft_height fft /\
  Forall (λ row, length row = fft_width fft) mre /\
  Forall (λ row, length row = fft_width fft) mim.

(** A binary64 value that is zero or finite; one that is not NaN and has
    the sign [sx]. *)
Definition sf_finite (x : spec_float) : Prop :=
  match x with
  | S754_zero _ | S754_finite _ _ _ => True
  | _ => False
  end.

Definition sf_signed (sx : bool) (x : spec_float) : Prop :=
  match x with
  | S754_nan => False
  | S754_zero s | S754_infinity s | S754_finite s _ _ => s = sx
  end.

(** ** Canny, and the dispatch of the filter panel *)

(** An element of a [Float32Array] read in a comparison. *)
Definition f32_get (a : list float) (i : nat) : float := default nan (a !! i).

(** A store into a [Float32Array]. *)
Definition f32_set (i : nat) (v : float) (a : list float) : list float :=
  <[i := fround v]> a.

Section Canny.
Context `{ML : MathLib}.

(** The first loop: [(magnitude, direction, maxMag)]. *)
Definition canny_gradient (w h : nat) (gx gy : list Z)
  : list float * list float * float :=
  foldl (λ acc y,
    foldl (λ '(magnitude, direction, maxMag) x,
      let idx := ((y * w + x) * 4)%nat in
      let mx := (sample gx idx - 128)%float in
      let my := (sample gy idx - 128)%float in
      let m := PrimFloat.sqrt (mx * mx + my * my) in
      (f32_set (y * w + x) m magnitude,
       f32_set (y * w + x) (Math_atan2 my mx) direction,
       if (maxMag <? m)%float then m else maxMag))
      acc (seq 0 w))
    (replicate (w * h) 0%float, replicate (w * h) 0%float, 0%float) (seq 0 h).

(** Non-max suppression. *)
Definition canny_suppress (w h : nat) (magnitude direction : list float) : list float :=
  foldl (λ suppressed y,
    foldl (λ suppressed x,
      let idx := (y * w + x)%nat in
      let angle := rem (f32_get direction idx * 180 / Math_PI + 180) 180 in
      let '(n1, n2) :=
        if ((angle <? 22.5) || (157.5 <=? angle))%float
        then (f32_get magnitude (idx - 1), f32_get magnitude (idx + 1))
        else if (angle <? 67.5)%float
        then (f32_get magnitude ((y - 1) * w + x + 1), f32_get magnitude ((y + 1) * w + x - 1))
        else if (angle <? 112.5)%float
        then (f32_get magnitude ((y - 1) * w + x), f32_get magnitude ((y + 1) * w + x))
        else (f32_get magnitude ((y - 1) * w + x - 1), f32_get magnitude ((y + 1) * w + x + 1)) in
      f32_set idx
        (if ((n1 <=? f32_get magnitude idx) && (n2 <=? f32_get magnitude idx))%float
         then f32_get magnitude idx else 0%float) suppressed)
      suppressed (seq 1 (w - 2)))
    (replicate (w * h) 0%float) (seq 1 (h - 2)).

Definition canny_threshold (w h : nat) (suppressed : list float) (maxMag : float)
    (out : list Z) : list Z :=
  let highThresh := (maxMag * 0.15)%float in
  let lowThresh := (highThresh * 0.4)%float in
  foldl (λ out y,
    foldl (λ out x,
      let idx := (y * w + x)%nat in
      let val := if (highThresh <=? f32_get suppressed idx)%float then 255%float
                 else if (lowThresh <=? f32_get suppressed idx)%float then 128%float
                 else 0%float in
      let oi := (idx * 4)%nat in
      store (oi + 3) 255 (store (oi + 2) val (store (oi + 1) val (store oi val out))))
      out (seq 0 w))
    out (seq 0 h).

Definition canny_loop (w h : nat) (gx gy : list Z) (out : list Z) : list Z :=
  let '(magnitude, direction, maxMag) := canny_gradient w h gx gy in
  let suppressed := canny_suppress w h magnitude direction in
  canny_threshold w h suppressed maxMag out.

Definition cannyEdgeDetector (img : ImageData) (kernelSize : Z) : M ImageData :=
  gray ← toGrayscale img;
  blurred ← gaussianFilter gray kernelSize;
  gx ← convolve blurred sobel_kx false;
  gy ← convolve blurred sobel_ky false;
  out ← cloneImageData img;
  gxd ← read_u8 (data gx);
  gyd ← read_u8 (data gy);
  update_data out (canny_loop (width img) (height img) gxd gyd);;
  mret out.





End Canny.

(** A matrix of [h] rows of [w] entries. *)
Definition shaped (w h : nat) (m : matrix) : Prop :=
  length m = h /\ Forall (λ row, length row = w) m.

(** ** Vocabulary of the proofs *)

(** The state after [cloneImageData], and the buffer it returns: one new
    array, a copy of the samples. *)
Definition cloned (s : state) (a : list Z) : state :=
  State (<[fresh (dom (heap s)) := U8 a]> (heap s)) (draws s).

Definition clone_of (s : state) (img : ImageData) : ImageData :=
  {| data := fresh (dom (heap s)); width := width img; height := height img |}.

(** A loop body that works on one array and on the sequence of draws,
    followed as a partial function on the two ([None]: the draws ran
    out); [run_steps] is the loop over [l]. *)
Definition step_fun := list Z -> list float -> option (list Z * list float).

Fixpoint run_steps {A} (st : A -> step_fun) (l : list A) : step_fun := λ a rs,
  match l with
  | [] => Some (a, rs)
  | x :: l' =>
      match st x a rs with
      | Some (a', rs') => run_steps st l' a' rs'
      | None => None
      end
  end.

(** The command [m] does to the array at [d], and to the draws, what
    [st] says. *)
Definition refines (d : loc) (m : M unit) (st : step_fun) : Prop :=
  forall h a rs, h !! d = Some (U8 a) ->
    m (State h rs) =
    match st a rs with
    | Some (a', rs') => inr (tt, State (<[d := U8 a']> h) rs')
    | None => inl OutOfDraws
    end.

(** [st] keeps the length of the array and the samples at the indices in
    [P]. *)
Definition frame (P : nat -> Prop) (st : step_fun) : Prop :=
  forall a rs a' rs', st a rs = Some (a', rs') ->
    length a' = length a /\ forall j, P j -> a' !! j = a !! j.

(** [st] succeeds on draws of measure [k] at least, and uses up at most
    [k] of the measure. *)
Definition costs (mu : list float -> nat) (k : nat) (st : step_fun) : Prop :=
  forall a rs, (k <= mu rs)%nat ->
    exists a' rs', st a rs = Some (a', rs') /\ (mu rs - k <= mu rs')%nat.

Definition nonzero_count (rs : list float) : nat :=
  length (filter (λ r, (r =? 0)%float = false) rs).

(** The bodies of the three noise loops, for the pixel that starts at
    sample [i]. *)
Section NoiseSteps.
Context `{ML : MathLib}.

Definition uniform_step (amount : float) (i : nat) : step_fun :=
  run_steps (λ (c : nat) a rs,
    match rs with
    | [] => None
    | r :: rs' =>
        Some (store (i + c)
                (Math_max 0 (Math_min 255 (sample a (i + c) + (r - 0.5) * 2 * amount)))%float a,
              rs')
    end) (seq 0 3).

Definition gaussian_step (sigma : float) (i : nat) : step_fun :=
  run_steps (λ (c : nat) a rs,
    match first_nonzero rs with
    | None => None
    | Some (u, rs1) =>
        match first_nonzero rs1 with
        | None => None
        | Some (v, rs2) =>
            let g := (PrimFloat.sqrt (-2.0 * Math_log u) * Math_cos (2.0 * Math_PI * v))%float in
            Some (store (i + c)
                    (Math_max 0 (Math_min 255 (Math_round (sample a (i + c) + g * sigma))))%float a,
                  rs2)
        end
    end) (seq 0 3).

(** The value forced on the three colour samples of a pixel by the draw
    [r], if any. *)
Definition sp_outcome (prob r : float) : option float :=
  if (r <? prob / 2)%float then Some 0%float
  else if (r <? prob)%float then Some 255%float
  else None.

Definition sp_step (prob : float) (i : nat) : step_fun := λ a rs,
  match rs with
  | [] => None
  | r :: rs' =>
      Some (match sp_outcome prob r with
            | Some v => store (i + 2) v (store (i + 1) v (store i v a))
            | None => a
            end, rs')
  end.

End NoiseSteps.

(** How many draws a noise variant needs for [npix] pixels: one per colour
    sample, one per pixel, or two non-zero draws per colour sample. *)
Definition draws_suffice (nt : NoiseType) (npix : nat) (rs : list float) : Prop :=
  match nt with
  | uniform => (3 * npix <= length rs)%nat
  | salt_pepper => (1 * npix <= length rs)%nat
  | gaussian => (6 * npix <= nonzero_count rs)%nat
  end.


(** The 256 values of a sample. *)
Definition bytes : list Z := Z.of_nat <$> seq 0 256.

(** The pairs [(y, x)] visited by [for (y ...) for (x ...)]. *)
Definition pairs (ys xs : list nat) : list (nat * nat) :=
  y ← ys; (λ x, (y, x)) <$> xs.

(** A row and a matrix after the mask loop. *)
Definition masked_row (type : PassType) (radius : float) (w h y : nat) (n : nat)
    (row : list float) : list float :=
  foldl (λ row x, alter (λ v, v * pass type radius w h x y)%float x row) row (seq 0 n).

Definition masked (type : PassType) (radius : float) (w h : nat) (n : nat) (m : matrix) : matrix :=
  foldl (λ m y, alter (masked_row type radius w h y w) y m) m (seq 0 n).

Section RoundTrip.
Context `{ML : MathLib}.

(** [ifft2d(fft2d(img))] *)
Definition round_trip (img : ImageData) : M ImageData :=
  fft ← fft2d img; ifft2d fft.

End RoundTrip.

(** ** Closed examples *)

(** A [Math] library for closed examples: the examples below never call
    it. *)
Definition no_math : MathLib :=
  {| Math_cos := λ x, x; Math_sin := λ x, x; Math_log := λ x, x; Math_exp := λ x, x;
     Math_atan2 := λ y x, x |}.

(** One pixel at location 1, and one random draw. *)
Definition one_pixel (r g b al : Z) : state :=
  State {[ 1%positive := U8 [r; g; b; al] ]} [0.75%float].

Definition img_1x1 : ImageData := {| data := 1%positive; width := 1; height := 1 |}.

(** An opaque grey pixel of level [v]. *)
Definition px (v : Z) : list Z := [v; v; v; 255].

(** A 603x1 grey buffer: one pixel each of levels 0, 1 and 2, and 600
    white pixels. *)
Definition levels_603 : list Z := px 0 ++ px 1 ++ px 2 ++ concat (replicate 600 (px 255)).

Definition img_603 : ImageData := {| data := 1%positive; width := 603; height := 1 |}.

Definition heap_603 : state := State {[ 1%positive := U8 levels_603 ]} [].

(** A row of three grey pixels. *)
Definition row_20_10_30 : list Z := px 20 ++ px 10 ++ px 30.

Definition img_3x1 : ImageData := {| data := 1%positive; width := 3; height := 1 |}.

Definition heap_3x1 : state := State {[ 1%positive := U8 row_20_10_30 ]} [].

(** A 2x2 buffer with two coloured pixels in its second row, and a header
    of height 0 for the same array. *)
Definition colours_2x2 : list Z :=
  [10; 10; 10; 255;  0; 0; 0; 255;  10; 50; 10; 255;  0; 0; 90; 255].

Definition img_2x2 : ImageData := {| data := 1%positive; width := 2; height := 2 |}.

Definition heap_2x2 (a : list Z) : state := State {[ 1%positive := U8 a ]} [].


(** A 1x1 spectrum, alone and next to a pixel. *)
Definition spectrum_1x1 : FFTResult :=
  {| re := [1%positive]; im := [2%positive]; fft_width := 1; fft_height := 1;
     originalWidth := 1; originalHeight := 1 |}.

Definition heap_spectrum_1x1 : state :=
  State (<[2%positive := F64 [0%float]]> {[ 1%positive := F64 [128%float] ]}) [].



(** A 2x2 spectrum: the rows of [re] at locations 1 and 2, those of [im]
    at 3 and 4. *)
Definition spectrum_2x2 : FFTResult :=
  {| re := [1%positive; 2%positive]; im := [3%positive; 4%positive];
     fft_width := 2; fft_height := 2; originalWidth := 2; originalHeight := 2 |}.

Definition re_2x2 : matrix := [[10; 20]; [30; 40]]%float.

Definition im_2x2 : matrix := [[1; 2]; [3; 4]]%float.

Definition heap_spectrum_2x2 : state :=
  State (<[4%positive := F64 [3; 4]%float]>
           (<[3%positive := F64 [1; 2]%float]>
              (<[2%positive := F64 [30; 40]%float]> {[ 1%positive := F64 [10; 20]%float ]})))
        [].

(** * The rest of the library *)

(** ** Pixel accessors *)

(** [data[i]] and [data[i] = v] at an index computed with signed
    arithmetic: outside the array the read is [undefined] and the store
    does nothing. *)
Definition get_at (a : list Z) (i : Z) : option Z :=
  if i <? 0 then None else a !! Z.to_nat i.

Definition set_at (i : Z) (v : float) (a : list Z) : list Z :=
  if i <? 0 then a else store (Z.to_nat i) v a.

(** [(y * img.width + x) * 4] *)
Definition pixel_index (img : ImageData) (x y : Z) : Z :=
  (y * Z.of_nat (width img) + x) * 4.

Definition getPixel (img : ImageData) (x y : Z)
  : M (option Z * option Z * option Z * option Z) :=
  d ← read_u8 (data img);
  let i := pixel_index img x y in
  mret (get_at d i, get_at d (i + 1), get_at d (i + 2), get_at d (i + 3)).

(** [a = 255] is the default of the last parameter. *)
Definition setPixel (img : ImageData) (x y : Z) (r g b : float) (a : option float) : M unit :=
  let a := default 255%float a in
  let i := pixel_index img x y in
  update_data img (λ d, set_at (i + 3) a (set_at (i + 2) b (set_at (i + 1) g (set_at i r d)))).

(** [isGrayscale]: [!==] on two samples, either of which is [undefined]
    past the end of the array. *)
Definition isGrayscale_scan (a : list Z) : bool :=
  forallb (λ i, negb (negb (bool_decide (a !! i = a !! (i + 1)%nat))
                      || negb (bool_decide (a !! (i + 1)%nat = a !! (i + 2)%nat))))
          (steps 0 (length a) 4).

Definition isGrayscale (imageData : ImageData) : M bool :=
  a ← read_u8 (data imageData);
  mret (isGrayscale_scan a).

(** Every pixel has equal red, green and blue samples. *)
Definition achromatic (a : list Z) : Prop :=
  forall k, (4 * k + 3 < length a)%nat -> exists v, rgb a k = [v; v; v].

(** Channel [c] has two samples that differ. *)
Definition two_levels (a : list Z) (c : nat) : Prop :=
  exists k k' v v', a !! (4 * k + c)%nat = Some v /\ a !! (4 * k' + c)%nat = Some v' /\ v <> v'.

(** A channel as one pass of [normalizeImage] leaves it: with both
    extremes in it, or 0 everywhere. *)
Definition settled (b : list Z) (n c : nat) : Prop :=
  (attains b c 0 /\ attains b c 255) \/ (forall k, (k < n)%nat -> b !! (4 * k + c)%nat = Some 0).

(** ** Rounding to an integer, and array indices *)

(** The integer that [Math.round] returns on a finite number. *)
Definition round_Z (x : float) : Z :=
  match Prim2SF x with
  | S754_finite s m e =>
      let n := if s then Z.neg m else Z.pos m in
      if 0 <=? e then n * 2 ^ e
      else let d := 2 ^ (- e) in (2 * n + d) / (2 * d)
  | _ => 0
  end.

(** The value of a finite number, scaled by [2^1074] to an integer. *)
Definition scaled (x : spec_float) : Z :=
  match x with
  | S754_finite s m e => (if s then Z.neg m else Z.pos m) * 2 ^ (e + 1074)
  | _ => 0
  end.

(** The bytes as numbers. *)
Definition byte_floats : list float := Z2F <$> bytes.

(** Checked on all bytes: [v + 0.5] and [v - 0.5] are the numbers
    [(2v + 1) / 2] and [(2v - 1) / 2]. *)
Definition half_steps_exact (v : Z) : bool :=
  match Prim2SF (Z2F v + 0.5) with
  | S754_finite false m e => (e <? 0) && (Z.pos m * 2 ^ (e + 1074) =? (2 * v + 1) * 2 ^ 1073)
  | _ => false
  end
  && ((v =? 0)
      || match Prim2SF (Z2F v - 0.5) with
         | S754_finite false m e => Z.pos m * 2 ^ (e + 1074) =? (2 * v - 1) * 2 ^ 1073
         | _ => false
         end).

(** The weighted sum of [toGrayscale], and the check made on all triples
    of bytes: the sum lies within one half of one of the three samples
    from below, and of one of them from above. *)
Definition luma_sum (r g b : float) : float := (0.299 * r + 0.587 * g + 0.114 * b)%float.

Definition luma_in_bounds (fr fg fb : float) : bool :=
  let x := luma_sum fr fg fb in
  (0 <=? x)%float
  && ((fr - 0.5 <=? x) || (fg - 0.5 <=? x) || (fb - 0.5 <=? x))%float
  && ((x <? fr + 0.5) || (x <? fg + 0.5) || (x <? fb + 0.5))%float.

(** ** computeHistogram *)

(** An element of a JavaScript array of counts: an integer, NaN, or a
    hole of the array. *)
Inductive Element := Count (n : Z) | NaN_element | hole.

(** [a[k]++] on such an array.  A key that is not an array index names
    a property besides the elements; an index past the end extends the
    array, and the new element is [undefined + 1], NaN. *)
Definition increment (k : option Z) (a : list Element) : list Element :=
  match k with
  | None => a
  | Some k =>
      let i := Z.to_nat k in
      match a !! i with
      | Some (Count n) => <[i := Count (n + 1)]> a
      | Some _ => <[i := NaN_element]> a
      | None => a ++ replicate (i - length a) hole ++ [NaN_element]
      end
  end.

(** The array index that a key is, if it is one: an integer from 0 to
    2^32 - 2. *)
Definition index_of_sample (v : option Z) : option Z :=
  v ≫= λ v, if (0 <=? v) && (v <? 2 ^ 32 - 1) then Some v else None.

Definition array_index (x : float) : option Z :=
  match Prim2SF x with
  | S754_zero _ => Some 0
  | S754_finite false m e =>
      if 0 <=? e then (if Z.pos m * 2 ^ e <? 2 ^ 32 - 1 then Some (Z.pos m * 2 ^ e) else None)
      else
        let d := 2 ^ (- e) in
        if (Z.pos m mod d =? 0) && (Z.pos m / d <? 2 ^ 32 - 1) then Some (Z.pos m / d) else None
  | _ => None
  end.

(** The fields [r], [g], [b], [gray] and [isGray] of the result. *)
Record Histogram := {
  hist_r : list Element;
  hist_g : list Element;
  hist_b : list Element;
  hist_gray : list Element;
  isGray : bool;
}.

Definition computeHistogram_loop (a : list Z) : Histogram :=
  foldl (λ h i,
           let grayVal := Math_round (0.299 * sample a i + 0.587 * sample a (i + 1)
                                      + 0.114 * sample a (i + 2))%float in
           {| hist_r := increment (index_of_sample (a !! i)) (hist_r h);
              hist_g := increment (index_of_sample (a !! (i + 1)%nat)) (hist_g h);
              hist_b := increment (index_of_sample (a !! (i + 2)%nat)) (hist_b h);
              hist_gray := increment (array_index grayVal) (hist_gray h);
              isGray := if negb (bool_decide (a !! i = a !! (i + 1)%nat))
                           || negb (bool_decide (a !! (i + 1)%nat = a !! (i + 2)%nat))
                        then false else isGray h |})
        {| hist_r := replicate 256 (Count 0); hist_g := replicate 256 (Count 0);
           hist_b := replicate 256 (Count 0); hist_gray := replicate 256 (Count 0);
           isGray := true |}
        (steps 0 (length a) 4).

Definition computeHistogram (img : ImageData) : M Histogram :=
  a ← read_u8 (data img);
  mret (computeHistogram_loop a).

(** The number of the pixels [k < n] whose level [f k] is [v], and the
    256 bins of the levels [f]. *)
Definition pixels_at (f : nat -> Z) (n : nat) (v : Z) : Z :=
  Z.of_nat (length (filter (λ k, f k = v) (seq 0 n))).

Definition bins (f : nat -> Z) (n : nat) : list Element :=
  (λ v, Count (pixels_at f n v)) <$> bytes.


(** The three sums of a kernel window all of whose pixels have the colour
    [colour], and the sample that an unnormalised [convolve] with a 3 x 3
    kernel stores for a window of grey level [v]. *)
Definition flat_sums (kernel : list (list float)) (kh kw : nat) (colour : nat -> Z)
  : list float :=
  foldl (λ sums ky,
    foldl (λ sums kx,
      foldl (λ sums c,
               <[c := (from_option id nan (sums !! c)
                       + Z2F (colour c) * kernel_at kernel ky kx)%float]> sums)
            sums (seq 0 3))
      sums (seq 0 kw))
    [0; 0; 0]%float (seq 0 kh).

Definition flat_response (kernel : list (list float)) (v : Z) : Z :=
  ToUint8Clamp
    (Math_max 0 (Math_min 255 (Math_round (from_option id nan (flat_sums kernel 3 3 (λ _, v) !! 0%nat))))).

(** The sum that a window of [n] rows and [n] columns of the sample [v]
    gives under the kernel of [averageFilter], and the sample stored for
    it. *)
Definition box_sum (n : nat) (v : Z) : float :=
  foldl (λ acc _, foldl (λ acc _, acc + Z2F v * 1)%float acc (seq 0 n)) 0%float (seq 0 n).

Definition box_average (n : nat) (v : Z) : Z :=
  let ksum := kernel_sum (replicate n (replicate n 1%float)) in
  let ksum := if (ksum =? 0)%float then 1%float else ksum in
  ToUint8Clamp (Math_max 0 (Math_min 255 (Math_round (box_sum n v / ksum)))).


(** ** The spectrum as an image, the filter of the frequency panel, the hybrid *)

Section Spectrum.
Context `{ML : MathLib}.

(** [v ** 2] on a coefficient of the spectrum.  ECMAScript leaves the
    result of an exponentiation to the implementation, so the operation
    is a parameter. *)
Variable square : float -> float.

(** The first loop of [fftToImage]: [(magnitudes, maxLog)]. *)
Definition fftToImage_magnitudes (w h : nat) (mre mim : matrix) : option (list float * float) :=
  foldl (λ acc y,
    foldl (λ acc x,
      p ← acc;
      vr ← entry mre y x;
      vi ← entry mim y x;
      let mag := PrimFloat.sqrt (square vr + square vi) in
      let logMag := Math_log (1 + mag) in
      Some (<[(y * w + x)%nat := logMag]> p.1,
            if (p.2 <? logMag)%float then logMag else p.2))
      acc (seq 0 w))
    (Some (replicate (w * h) 0%float, 0%float)) (seq 0 h).

(** The second loop; [maxLog || 1] replaces a zero or a NaN by 1. *)
Definition fftToImage_loop (w h : nat) (magnitudes : list float) (maxLog : float)
    (out : list Z) : list Z :=
  let scale := if (maxLog =? 0)%float || PrimFloat.is_nan maxLog then 1%float else maxLog in
  foldl (λ out y,
    foldl (λ out x,
      let val := Math_round (f64_get magnitudes (y * w + x) / scale * 255) in
      let idx := ((y * w + x) * 4)%nat in
      store (idx + 3) 255 (store (idx + 2) val (store (idx + 1) val (store idx val out))))
      out (seq 0 w))
    out (seq 0 h).

Definition fftToImage (fft : FFTResult) : M ImageData :=
  let w := fft_width fft in
  let h := fft_height fft in
  mre ← read_rows (re fft);
  mim ← read_rows (im fft);
  p ← lift TypeError (fftToImage_magnitudes w h mre mim);
  out ← new_ImageData w h;
  a ← read_u8 (data out);
  write_cell (data out) (U8 (fftToImage_loop w h p.1 p.2 a));;
  mret out.

End Spectrum.

Section Frequency.
Context `{ML : MathLib}.

(** FrequencyFilterTab: the spectrum of the loaded image is filtered and
    transformed back, [ifft2d(applyFrequencyFilter(fft2d(img), radius, type))]. *)
Definition frequency_filter (img : ImageData) (radius : float) (type : PassType)
  : M ImageData :=
  fft ← fft2d img;
  filtered ← applyFrequencyFilter fft radius type;
  ifft2d filtered.

(** The spectrum that the frequency panels show when an image is
    loaded, [fftToImage(fft2d(img))]. *)
Definition spectrum_view (square : float -> float) (img : ImageData) : M ImageData :=
  fft ← fft2d img;
  fftToImage square fft.

(** The loop of [createHybridImage]: row [y] of each combined matrix is
    pushed as zeros and then filled with the sums. *)
Definition combine_loop (w h : nat) (re1 im1 re2 im2 : matrix) : option (matrix * matrix) :=
  foldl (λ acc y,
    foldl (λ acc x,
      p ← acc;
      r1 ← entry re1 y x;
      r2 ← entry re2 y x;
      i1 ← entry im1 y x;
      i2 ← entry im2 y x;
      Some (set_entry p.1 y x (r1 + r2), set_entry p.2 y x (i1 + i2)))
      ((λ p, (p.1 ++ [replicate w 0%float], p.2 ++ [replicate w 0%float])) <$> acc)
      (seq 0 w))
    (Some ([], [])) (seq 0 h).

(** The combined rows are put in the heap with the contents they have at
    the end of the loop. *)
Definition createHybridImage (fft1 fft2 : FFTResult) (img1Mode img2Mode : PassType)
    (radius1 radius2 : float) : M ImageData :=
  filtered1 ← applyFrequencyFilter fft1 radius1 img1Mode;
  filtered2 ← applyFrequencyFilter fft2 radius2 img2Mode;
  let w := Nat.min (fft_width filtered1) (fft_width filtered2) in
  let h := Nat.min (fft_height filtered1) (fft_height filtered2) in
  let ow := Nat.min (originalWidth filtered1) (originalWidth filtered2) in
  let oh := Nat.min (originalHeight filtered1) (originalHeight filtered2) in
  re1 ← read_rows (re filtered1);
  im1 ← read_rows (im filtered1);
  re2 ← read_rows (re filtered2);
  im2 ← read_rows (im filtered2);
  p ← lift TypeError (combine_loop w h re1 im1 re2 im2);
  combinedRe ← alloc_rows p.1;
  combinedIm ← alloc_rows p.2;
  ifft2d {| re := combinedRe; im := combinedIm; fft_width := w; fft_height := h;
            originalWidth := ow; originalHeight := oh |}.

End Frequency.

(** The sums, coefficient by coefficient, of the first [h] rows and [w]
    columns of two matrices. *)
Definition corner_sum (w h : nat) (m1 m2 : matrix) : matrix :=
  (λ y, (λ x, (f64_get (m1 !!! y) x + f64_get (m2 !!! y) x)%float) <$> seq 0 w) <$> seq 0 h.


(** The number of the pixels [k < n] whose level [f k] is at most [v];
    [m] is the lowest of the levels [f]. *)
Definition pixels_upto (f : nat -> Z) (n : nat) (v : Z) : Z :=
  Z.of_nat (length (filter (λ k, f k <= v) (seq 0 n))).

Definition lowest (f : nat -> Z) (n : nat) (m : Z) : Prop :=
  (exists k, (k < n)%nat /\ f k = m) /\ forall k, (k < n)%nat -> m <= f k.

(** * Properties *)

(** ** Facts about binary64 numbers *)

Lemma is_nan_spec (x : float) :
  PrimFloat.is_nan x = match Prim2SF x with S754_nan => true | _ => false end.
Proof.
  unfold PrimFloat.is_nan. rewrite FloatAxioms.eqb_spec. unfold SFeqb.
  destruct (Prim2SF x) as [s|s| |s m e]; try reflexivity.
  - by destruct s.
  - simpl. rewrite Z.compare_refl, Pos.compare_cont_refl. by destruct s.
Qed.

Lemma SFcompare_antisym (a b : spec_float) :
  SFcompare b a = CompOpp <$> SFcompare a b.
Proof.
  destruct a as [sa|sa| |sa ma ea], b as [sb|sb| |sb mb eb]; simpl; try reflexivity;
    try (by destruct sa); try (by destruct sb); try (by destruct sa, sb).
  pose proof (Pos.compare_cont_antisym ma mb Eq) as Hm. simpl in Hm.
  f_equal. destruct sa, sb; try reflexivity.
  - rewrite (Z.compare_antisym ea eb).
    destruct (ea ?= eb) eqn:E; simpl; try reflexivity.
    by rewrite <- Hm.
  - rewrite (Z.compare_antisym ea eb).
    destruct (ea ?= eb) eqn:E; simpl; try reflexivity.
    by rewrite <- Hm.
Qed.

Lemma SFcompare_not_nan (a b : spec_float) :
  a <> S754_nan -> b <> S754_nan -> exists c, SFcompare a b = Some c.
Proof.
  intros Ha Hb. destruct a as [sa|sa| |sa ma ea], b as [sb|sb| |sb mb eb]; simpl; try done; eauto.
Qed.

(** For two numbers, [a <= b] or [b <= a]; both hold exactly when
    [a == b]. *)
Lemma leb_total (a b : float) :
  PrimFloat.is_nan a = false -> PrimFloat.is_nan b = false ->
  ((a <=? b) || (b <=? a))%float = true.
Proof.
  rewrite !is_nan_spec, !leb_spec. unfold SFleb. intros Ha Hb.
  rewrite (SFcompare_antisym (Prim2SF a) (Prim2SF b)).
  destruct (SFcompare_not_nan (Prim2SF a) (Prim2SF b)) as [c ->].
  - intros E. by rewrite E in Ha.
  - intros E. by rewrite E in Hb.
  - by destruct c.
Qed.

Lemma leb_both (a b : float) :
  ((a <=? b) && (b <=? a))%float = (a =? b)%float.
Proof.
  rewrite !leb_spec, FloatAxioms.eqb_spec. unfold SFleb, SFeqb.
  rewrite (SFcompare_antisym (Prim2SF a) (Prim2SF b)).
  destruct (SFcompare (Prim2SF a) (Prim2SF b)) as [[| |]|]; reflexivity.
Qed.

(** *** Rounding never yields NaN, and integers below 2^63 are finite *)

Lemma iter_pos_invariant {A} (P : A -> Prop) (f : A -> A) :
  (forall x, P x -> P (f x)) -> forall n x, P x -> P (SpecFloat.iter_pos f n x).
Proof.
  intros Hf. induction n as [n IH|n IH|]; intros x Hx; simpl; auto.
Qed.

Lemma shr_1_bounds (b : Z) mrs : 0 <= shr_m mrs <= b -> 0 <= shr_m (shr_1 mrs) <= b.
Proof.
  destruct mrs as [m r s]. simpl. intros Hm.
  destruct m as [|[p|p|]|p]; simpl; lia.
Qed.

Lemma shr_record_of_loc_m m l : shr_m (shr_record_of_loc m l) = m.
Proof. by destruct l as [|[| |]]. Qed.

Lemma shr_fexp_bounds prec emax m e l :
  0 <= m ->
  let '(mrs, e') := shr_fexp prec emax m e l in
  0 <= shr_m mrs <= m /\ e' <= Z.max e (fexp prec emax (Zdigits2 m + e)).
Proof.
  intros Hm. unfold shr_fexp, shr.
  destruct (fexp prec emax (Zdigits2 m + e) - e) as [|p|p] eqn:E.
  - rewrite shr_record_of_loc_m. lia.
  - split; [|lia].
    apply (iter_pos_invariant (λ mrs, 0 <= shr_m mrs <= m)); [apply shr_1_bounds|].
    rewrite shr_record_of_loc_m. lia.
  - rewrite shr_record_of_loc_m. lia.
Qed.

Lemma round_nearest_even_bounds m l : 0 <= m -> 0 <= round_nearest_even m l <= m + 1.
Proof.
  intros Hm. unfold round_nearest_even.
  destruct l as [|[| |]]; try lia. destruct (Z.even m); lia.
Qed.

Lemma binary_round_aux_signed prec emax sx mx ex lx :
  0 <= mx -> sf_signed sx (binary_round_aux prec emax sx mx ex lx).
Proof.
  intros Hm. unfold binary_round_aux.
  pose proof (shr_fexp_bounds prec emax mx ex lx Hm) as H1.
  destruct (shr_fexp prec emax mx ex lx) as [mrs' e'].
  pose proof (round_nearest_even_bounds (shr_m mrs') (loc_of_shr_record mrs') (proj1 (proj1 H1))) as Hr.
  pose proof (shr_fexp_bounds prec emax _ e' loc_Exact (proj1 Hr)) as H2.
  destruct (shr_fexp prec emax _ e' loc_Exact) as [mrs'' e''].
  destruct (shr_m mrs'') as [|p|p]; simpl; [reflexivity| |lia].
  by destruct (e'' <=? emax - prec).
Qed.

Lemma digits2_pos_lower p : 2 ^ (Z.pos (digits2_pos p) - 1) <= Z.pos p.
Proof.
  induction p as [p IH|p IH|]; simpl digits2_pos.
  - rewrite Pos2Z.inj_succ. replace (Z.succ (Z.pos (digits2_pos p)) - 1)
      with (Z.succ (Z.pos (digits2_pos p) - 1)) by lia.
    rewrite Z.pow_succ_r by lia. lia.
  - rewrite Pos2Z.inj_succ. replace (Z.succ (Z.pos (digits2_pos p)) - 1)
      with (Z.succ (Z.pos (digits2_pos p) - 1)) by lia.
    rewrite Z.pow_succ_r by lia. lia.
  - simpl. lia.
Qed.

Lemma Zdigits2_le m k : 0 <= k -> 0 <= m < 2 ^ k -> Zdigits2 m <= k.
Proof.
  intros Hk [H0 Hm]. destruct m as [|p|p]; simpl; [lia| |lia].
  pose proof (digits2_pos_lower p) as Hp.
  destruct (Z_le_gt_dec (Z.pos (digits2_pos p)) k) as [|Hgt]; [assumption|exfalso].
  assert (2 ^ k <= 2 ^ (Z.pos (digits2_pos p) - 1)) by (apply Z.pow_le_mono_r; lia).
  lia.
Qed.

(** Rounding a mantissa below 2^115 at an exponent that is not positive
    stays within the finite range of binary64. *)
Lemma binary_round_aux_finite sx mx ex lx :
  0 <= mx < 2 ^ 115 -> ex <= 0 ->
  sf_finite (binary_round_aux prec emax sx mx ex lx).
Proof.
  intros [Hm0 Hm] He. unfold binary_round_aux.
  pose proof (shr_fexp_bounds prec emax mx ex lx Hm0) as H1.
  destruct (shr_fexp prec emax mx ex lx) as [mrs' e'].
  destruct H1 as [[H1a H1b] H1e].
  pose proof (round_nearest_even_bounds (shr_m mrs') (loc_of_shr_record mrs') H1a) as Hr.
  pose proof (shr_fexp_bounds prec emax _ e' loc_Exact (proj1 Hr)) as H2.
  destruct (shr_fexp prec emax _ e' loc_Exact) as [mrs'' e''].
  destruct H2 as [[H2a _] H2e].
  assert (Hd1 : Zdigits2 mx <= 115) by (apply Zdigits2_le; lia).
  assert (Hd2 : Zdigits2 (round_nearest_even (shr_m mrs') (loc_of_shr_record mrs')) <= 116).
  { apply Zdigits2_le; [lia|]. split; [lia|].
    change (2 ^ 116) with (2 * 2 ^ 115). lia. }
  unfold fexp, SpecFloat.emin, prec, emax in *.
  destruct (shr_m mrs'') as [|p|p]; simpl; [exact I| |lia].
  replace (e'' <=? 1024 - 53) with true; [exact I|]. symmetry. apply Z.leb_le. lia.
Qed.

Lemma shl_align_bounds mx ex ex' :
  ex - 52 <= ex' ->
  let '(mz, ez) := shl_align mx ex ex' in
  Z.pos mz <= Z.pos mx * 2 ^ 52 /\ ez <= ex.
Proof.
  intros He. unfold shl_align. destruct (ex' - ex) as [|d|d] eqn:E.
  - split; [|lia]. assert (1 <= 2 ^ 52) by (vm_compute; discriminate). nia.
  - split; [|lia]. assert (1 <= 2 ^ 52) by (vm_compute; discriminate). nia.
  - split; [|lia].
    change (Pos.iter xO mx d) with (shift (Z.pos d) mx).
    rewrite shift_equiv by lia. rewrite Z.shiftl_mul_pow2 by lia.
    apply Z.mul_le_mono_nonneg_l; [lia|]. apply Z.pow_le_mono_r; lia.
Qed.

Lemma binary_normalize_finite m :
  0 <= m < 2 ^ 63 -> sf_finite (binary_normalize prec emax m 0 false).
Proof.
  intros [H0 Hm]. destruct m as [|p|p]; [exact I| |lia].
  unfold binary_normalize, binary_round.
  pose proof (shl_align_bounds p 0 (fexp prec emax (Z.pos (digits2_pos p) + 0))) as Hs.
  destruct (shl_align p 0 _) as [mz ez].
  destruct Hs as [Hmz Hez].
  { unfold fexp, SpecFloat.emin, prec, emax. lia. }
  apply binary_round_aux_finite; [|lia]. split; [lia|].
  change (2 ^ 115) with (2 ^ 63 * 2 ^ 52). 
  assert (0 < 2 ^ 52) by (vm_compute; reflexivity). nia.
Qed.

Lemma N2F_finite n : sf_finite (Prim2SF (N2F n)).
Proof.
  unfold N2F, Z2F. replace (Z.of_nat n <? 0) with false by (symmetry; apply Z.ltb_ge; lia).
  rewrite of_uint63_spec. apply binary_normalize_finite.
  rewrite Uint63.of_Z_spec. apply Z.mod_pos_bound. reflexivity.
Qed.

Lemma sf_signed_number sx x : sf_signed sx x -> x <> S754_nan.
Proof. by destruct x. Qed.

Lemma sf_finite_number x : sf_finite x -> x <> S754_nan.
Proof. by destruct x. Qed.

Lemma binary_normalize_number m e : binary_normalize prec emax m e false <> S754_nan.
Proof.
  destruct m as [|p|p]; simpl; [done| |].
  - unfold binary_round. destruct (shl_align p e _) as [mz ez].
    eapply sf_signed_number, binary_round_aux_signed. lia.
  - unfold binary_round. destruct (shl_align p e _) as [mz ez].
    eapply sf_signed_number, binary_round_aux_signed. lia.
Qed.

(** A finite number minus a number is a number. *)
Lemma SFsub_number a b :
  sf_finite a -> b <> S754_nan -> SF64sub a b <> S754_nan.
Proof.
  intros Ha Hb. unfold SF64sub, SFsub.
  destruct a as [sa|sa| |sa ma ea]; try done;
    destruct b as [sb|sb| |sb mb eb]; try done.
  - by destruct sa, sb.
  - apply binary_normalize_number.
Qed.

(** A number divided by 2 is a number. *)
Lemma SFdiv_two_number a :
  a <> S754_nan -> SF64div a (Prim2SF 2) <> S754_nan.
Proof.
  intros Ha. change (Prim2SF 2) with (S754_finite false 4503599627370496 (-51)).
  unfold SF64div, SFdiv. destruct a as [sa|sa| |sa ma ea]; try done.
  destruct (SFdiv_core_binary prec emax (Z.pos ma) ea 4503599627370496 (-51))
    as [[mz ez] lz] eqn:E.
  eapply sf_signed_number, binary_round_aux_signed.
  unfold SFdiv_core_binary in E.
  match type of E with
  | (let '(q, r) := Z.div_eucl ?m' ?m2 in _) = _ =>
      assert (Hq : 0 <= fst (Z.div_eucl m' m2));
      [ change (fst (Z.div_eucl m' m2)) with (m' / m2); apply Z.div_pos; [|reflexivity]
      | destruct (Z.div_eucl m' m2) as [q r]; inversion E; subst; exact Hq ]
  end.
  destruct (ea - -51 - _) as [|p|p]; [lia| |lia].
  apply Z.shiftl_nonneg. lia.
Qed.

(** The square of a number is a number that is not negative. *)
Lemma SFmul_self a : a <> S754_nan -> sf_signed false (SF64mul a a).
Proof.
  intros Ha. unfold SF64mul, SFmul. destruct a as [sa|sa| |sa ma ea]; try done.
  - by destruct sa.
  - by destruct sa.
  - replace false with (xorb sa sa) by (by destruct sa).
    apply binary_round_aux_signed. lia.
Qed.

Lemma SFadd_nonneg a b :
  sf_signed false a -> sf_signed false b -> sf_signed false (SF64add a b).
Proof.
  intros Ha Hb. unfold SF64add, SFadd.
  destruct a as [sa|sa| |sa ma ea]; try done; destruct b as [sb|sb| |sb mb eb]; try done;
    simpl in Ha, Hb; subst; try done.
  simpl. unfold binary_round.
  destruct (shl_align _ _ _) as [mz ez]. apply binary_round_aux_signed. lia.
Qed.

Lemma SFsqrt_nonneg a : sf_signed false a -> SF64sqrt a <> S754_nan.
Proof.
  intros Ha. unfold SF64sqrt, SFsqrt.
  destruct a as [sa|sa| |sa ma ea]; try done; simpl in Ha; subst; try done.
  destruct (SFsqrt_core_binary prec emax (Z.pos ma) ea) as [[mz ez] lz] eqn:E.
  eapply sf_signed_number, binary_round_aux_signed.
  unfold SFsqrt_core_binary in E.
  match type of E with
  | (let (q, r) := Z.sqrtrem ?m' in _) = _ =>
      pose proof (Z.sqrtrem_sqrt m') as Hs;
      destruct (Z.sqrtrem m') as [q r]; simpl in Hs; inversion E; subst;
      apply Z.sqrt_nonneg
  end.
Qed.

(** The distance of a coordinate from the centre is never NaN. *)
Lemma distance_number w h x y : PrimFloat.is_nan (distance w h x y) = false.
Proof.
  rewrite is_nan_spec. unfold distance. cbv zeta.
  assert (Hd : forall n c, Prim2SF (N2F n - N2F c / 2)%float <> S754_nan).
  { intros n c. rewrite sub_spec, div_spec.
    apply SFsub_number; [apply N2F_finite|].
    apply SFdiv_two_number, sf_finite_number, N2F_finite. }
  assert (Hsq : forall u, Prim2SF u <> S754_nan -> sf_signed false (Prim2SF (u * u)%float)).
  { intros u Hu. rewrite mul_spec. by apply SFmul_self. }
  pose proof (SFsqrt_nonneg _ (SFadd_nonneg _ _ (Hsq _ (Hd x w)) (Hsq _ (Hd y h)))) as H.
  rewrite <- add_spec, <- sqrt_spec in H.
  by destruct (Prim2SF _).
Qed.

(** ** The heap and the constructors *)

Lemma bind_inr {A B} (m : M A) (f : A -> M B) s a s' :
  m s = inr (a, s') -> (m ≫= f) s = f a s'.
Proof. unfold mbind, M_bind. intros ->. reflexivity. Qed.


Lemma bind_inv {A B} (m : M A) (f : A -> M B) s b s'' :
  (m ≫= f) s = inr (b, s'') -> exists a s', m s = inr (a, s') /\ f a s' = inr (b, s'').
Proof.
  unfold mbind, M_bind. destruct (m s) as [e|[a s']]; [discriminate|]. eauto.
Qed.

Lemma read_u8_ok s l a : heap s !! l = Some (U8 a) -> read_u8 l s = inr (a, s).
Proof. unfold read_u8. intros ->. reflexivity. Qed.

Lemma read_u8_inv s l a s' : read_u8 l s = inr (a, s') -> heap s !! l = Some (U8 a) /\ s' = s.
Proof.
  unfold read_u8. destruct (heap s !! l) as [[b|b]|]; intros H; inversion H; subst; auto.
Qed.

Lemma ctor_check (len sw sh : nat) :
  (((len =? 0) || negb (len mod 4 =? 0)) = false /\
   ((sw =? 0) || negb ((len / 4) mod sw =? 0)) = false /\
   negb ((len / 4) / sw =? sh) = false)%nat
  <-> (len = 4 * sw * sh /\ 0 < sw /\ 0 < sh)%nat.
Proof.
  rewrite !orb_false_iff, !negb_false_iff, !Nat.eqb_neq, !Nat.eqb_eq.
  split.
  - intros [[Hl H4] [[Hw Hm] Hh]].
    assert (E4 : (len = 4 * (len / 4))%nat).
    { pose proof (Nat.div_mod len 4). lia. }
    assert (Ew : (len / 4 = sw * (len / 4 / sw))%nat).
    { pose proof (Nat.div_mod (len / 4) sw Hw). lia. }
    subst sh. remember (len / 4)%nat as p. remember (p / sw)%nat as q.
    clear Heqp Heqq H4 Hm. subst p len.
    repeat split; [lia | lia |].
    destruct q; [|lia]. exfalso. rewrite Nat.mul_0_r in Hl. lia.
  - intros (-> & Hw & Hh).
    assert (E : (4 * sw * sh / 4 = sw * sh)%nat).
    { replace (4 * sw * sh)%nat with ((sw * sh) * 4)%nat by lia. apply Nat.div_mul. lia. }
    assert (Hmod4 : ((4 * sw * sh) mod 4 = 0)%nat).
    { replace (4 * sw * sh)%nat with ((sw * sh) * 4)%nat by lia. apply Nat.Div0.mod_mul. }
    rewrite E. repeat split; try lia.
    + replace (sw * sh)%nat with (sh * sw)%nat by lia. apply Nat.Div0.mod_mul.
    + replace (sw * sh)%nat with (sh * sw)%nat by lia. apply Nat.div_mul. lia.
Qed.

Lemma new_ImageData_from_ok s d sw sh a :
  heap s !! d = Some (U8 a) -> (length a = 4 * sw * sh)%nat -> (0 < sw)%nat -> (0 < sh)%nat ->
  new_ImageData_from d sw sh s = inr ({| data := d; width := sw; height := sh |}, s).
Proof.
  intros Hd Hl Hw Hh. unfold new_ImageData_from.
  rewrite (bind_inr _ _ _ _ _ (read_u8_ok _ _ _ Hd)).
  destruct (proj2 (ctor_check (length a) sw sh)) as (-> & -> & ->); auto.
Qed.

Lemma new_ImageData_from_inv s d sw sh out s' :
  new_ImageData_from d sw sh s = inr (out, s') ->
  exists a, heap s !! d = Some (U8 a) /\ (length a = 4 * sw * sh)%nat /\ (0 < sw)%nat /\ (0 < sh)%nat /\
            out = {| data := d; width := sw; height := sh |} /\ s' = s.
Proof.
  unfold new_ImageData_from. intros H.
  apply bind_inv in H as (a & s1 & Hr & H). apply read_u8_inv in Hr as [Hd ->].
  exists a.
  destruct ((length a =? 0) || negb (length a mod 4 =? 0))%nat eqn:E1; [discriminate|].
  destruct ((sw =? 0) || negb ((length a / 4) mod sw =? 0))%nat eqn:E2; [discriminate|].
  destruct (negb ((length a / 4) / sw =? sh))%nat eqn:E3; [discriminate|].
  inversion H; subst.
  destruct (proj1 (ctor_check (length a) sw sh)) as (? & ? & ?); auto 10.
Qed.

Lemma fresh_not_in (s : state) : fresh (dom (heap s)) ∉ dom (heap s).
Proof. apply is_fresh. Qed.

Lemma fresh_lookup (s : state) : heap s !! fresh (dom (heap s)) = None.
Proof. apply not_elem_of_dom, is_fresh. Qed.

Lemma cloneImageData_ok s img a :
  valid s img a -> cloneImageData img s = inr (clone_of s img, cloned s a).
Proof.
  intros (Hd & Hl & Hw & Hh). unfold cloneImageData.
  rewrite (bind_inr _ _ _ _ _ (read_u8_ok _ _ _ Hd)).
  unfold alloc. unfold mbind at 1, M_bind at 1. cbv zeta.
  apply new_ImageData_from_ok with (a := a); auto. simpl. apply lookup_insert_eq.
Qed.

Lemma cloneImageData_inv s img out s' :
  cloneImageData img s = inr (out, s') ->
  exists a, valid s img a /\ out = clone_of s img /\ s' = cloned s a.
Proof.
  unfold cloneImageData. intros H.
  apply bind_inv in H as (a & s1 & Hr & H). apply read_u8_inv in Hr as [Hd ->].
  apply bind_inv in H as (d & s1 & Ha & H). unfold alloc in Ha. inversion Ha; subst. clear Ha.
  apply new_ImageData_from_inv in H as (b & Hb & Hl & Hw & Hh & -> & ->).
  simpl in Hb. rewrite lookup_insert_eq in Hb. inversion Hb; subst.
  exists b. unfold valid. auto 10.
Qed.

Lemma cloned_valid s img a : valid s img a -> valid (cloned s a) (clone_of s img) a.
Proof.
  intros (Hd & Hl & Hw & Hh). unfold valid, cloned, clone_of. simpl.
  rewrite lookup_insert_eq. auto.
Qed.

Lemma cloned_old s a l : l ∈ dom (heap s) -> heap (cloned s a) !! l = heap s !! l.
Proof.
  intros Hl. unfold cloned. simpl. apply lookup_insert_ne.
  intros <-. exact (fresh_not_in s Hl).
Qed.

(** ** Loops that draw random numbers

    A loop body that works on the array at [d] and on the sequence of
    draws is followed as a partial function on the two ([None]: the draws
    ran out). *)

Lemma refines_ret d : refines d (mret tt) (λ a rs, Some (a, rs)).
Proof.
  intros h a rs Hd. unfold mret, M_ret. by rewrite insert_id.
Qed.

Lemma refines_update out f :
  refines (data out) (update_data out f) (λ a rs, Some (f a, rs)).
Proof.
  intros h a rs Hd. unfold update_data.
  rewrite (bind_inr _ _ _ a (State h rs)); [reflexivity|].
  by apply read_u8_ok.
Qed.

Lemma refines_random d (k : float -> M unit) (st : float -> step_fun) :
  (forall r, refines d (k r) (st r)) ->
  refines d (r ← Math_random; k r)
            (λ a rs, match rs with [] => None | r :: rs' => st r a rs' end).
Proof.
  intros Hk h a rs Hd. destruct rs as [|r rs]; [reflexivity|].
  unfold mbind, M_bind, Math_random. simpl. by apply Hk.
Qed.

Lemma refines_nonzero d (k : float -> M unit) (st : float -> step_fun) :
  (forall r, refines d (k r) (st r)) ->
  refines d (r ← draw_nonzero; k r)
            (λ a rs, match first_nonzero rs with None => None | Some (r, rs') => st r a rs' end).
Proof.
  intros Hk h a rs Hd. unfold mbind, M_bind, draw_nonzero. simpl.
  destruct (first_nonzero rs) as [[r rs']|]; [|reflexivity]. by apply Hk.
Qed.

Lemma refines_for_each {A} d (body : A -> M unit) (st : A -> step_fun) l :
  (forall x, refines d (body x) (st x)) ->
  refines d (for_each l body) (run_steps st l).
Proof.
  intros Hb. induction l as [|x l IH]; intros h a rs Hd; simpl.
  - by apply refines_ret.
  - unfold mbind, M_bind. rewrite (Hb x h a rs Hd).
    destruct (st x a rs) as [[a' rs']|]; [|reflexivity].
    rewrite (IH (<[d := U8 a']> h) a' rs') by apply lookup_insert_eq.
    destruct (run_steps st l a' rs') as [[a'' rs'']|]; [|reflexivity].
    by rewrite insert_insert_eq.
Qed.

(** A function of the shape
    [const out = cloneImageData(img); for (...) {...}; return out]. *)
Lemma clone_loop_run img s a (loop : ImageData -> nat -> M unit) (st : nat -> step_fun) :
  valid s img a ->
  (forall out n, refines (data out) (loop out n) (st n)) ->
  (out ← cloneImageData img; n ← data_length out; loop out n;; mret out) s =
  match st (length a) a (draws s) with
  | Some (b, rs') =>
      inr (clone_of s img, State (<[fresh (dom (heap s)) := U8 b]> (heap s)) rs')
  | None => inl OutOfDraws
  end.
Proof.
  intros Hv Hl.
  rewrite (bind_inr _ _ _ _ _ (cloneImageData_ok _ _ _ Hv)).
  assert (Hd : heap (cloned s a) !! data (clone_of s img) = Some (U8 a))
    by apply (cloned_valid _ _ _ Hv).
  unfold data_length.
  unfold mbind at 1, M_bind at 1. unfold mbind at 1, M_bind at 1.
  rewrite (read_u8_ok _ _ _ Hd). unfold mret at 1, M_ret at 1.
  unfold mbind, M_bind. unfold cloned in *. simpl in *.
  rewrite (Hl (clone_of s img) (length a) _ a (draws s) Hd).
  destruct (st (length a) a (draws s)) as [[b rs']|]; [|reflexivity].
  unfold mret, M_ret. by rewrite insert_insert_eq.
Qed.

Lemma length_store i v a : length (store i v a) = length a.
Proof. apply length_insert. Qed.

Lemma store_lookup_eq i v a : (i < length a)%nat -> store i v a !! i = Some (ToUint8Clamp v).
Proof. apply list_lookup_insert_eq. Qed.

Lemma store_lookup_ne i j v a : i ≠ j -> store i v a !! j = a !! j.
Proof. apply list_lookup_insert_ne. Qed.

Ltac stores :=
  repeat first
    [ rewrite length_store
    | rewrite store_lookup_ne by lia
    | rewrite store_lookup_eq by (rewrite ?length_store; lia) ].

Lemma steps_4 n : steps 0 (4 * n) 4 = (λ k, 0 + k * 4)%nat <$> seq 0 n.
Proof.
  unfold steps. do 2 f_equal.
  replace (4 * n - 0 + (4 - 1))%nat with (3 + n * 4)%nat by lia.
  rewrite Nat.div_add by lia. reflexivity.
Qed.

Lemma steps_from c n : (c < 4)%nat -> steps c (4 * n) 4 = (λ k, c + k * 4)%nat <$> seq 0 n.
Proof.
  intros Hc. unfold steps. do 2 f_equal.
  destruct n as [|n]; [by replace (4 * 0 - c + (4 - 1))%nat with 3%nat by lia|].
  replace (4 * S n - c + (4 - 1))%nat with ((7 - c) + n * 4)%nat by lia.
  rewrite Nat.div_add by lia.
  replace ((7 - c) / 4)%nat with 1%nat; [lia|].
  apply (Nat.div_unique _ 4 1 (3 - c)); lia.
Qed.

(** *** What a step leaves alone, and how many draws it needs *)

Lemma frame_run_steps {A} P (st : A -> step_fun) l :
  (forall x, x ∈ l -> frame P (st x)) -> frame P (run_steps st l).
Proof.
  induction l as [|x l IH]; intros Hst a rs a' rs' H; simpl in H.
  - inversion H; subst. auto.
  - destruct (st x a rs) as [[a1 rs1]|] eqn:E; [|discriminate].
    apply (Hst x) in E as [El Ej]; [|by left].
    apply IH in H as [Hl Hj]; [|intros y Hy; apply Hst; by right].
    split; [congruence|]. intros j Pj. rewrite Hj, Ej; auto.
Qed.

Lemma costs_run_steps {A} mu k (st : A -> step_fun) l :
  (forall x, costs mu k (st x)) -> costs mu (k * length l) (run_steps st l).
Proof.
  intros Hst. induction l as [|x l IH]; intros a rs Hmu; simpl in *.
  - exists a, rs. split; [reflexivity|lia].
  - destruct (Hst x a rs) as (a1 & rs1 & E & H1); [lia|]. rewrite E.
    destruct (IH a1 rs1) as (a2 & rs2 & E2 & H2); [lia|].
    exists a2, rs2. split; [exact E2|lia].
Qed.

Lemma first_nonzero_count rs :
  (1 <= nonzero_count rs)%nat ->
  exists u rs', first_nonzero rs = Some (u, rs') /\ (nonzero_count rs - 1 <= nonzero_count rs')%nat.
Proof.
  unfold nonzero_count. induction rs as [|r rs IH]; simpl; [lia|].
  rewrite filter_cons. destruct (r =? 0)%float eqn:E.
  - rewrite decide_False by discriminate. exact IH.
  - rewrite decide_True by reflexivity. simpl. intros _. exists r, rs. split; [reflexivity|lia].
Qed.

(** ** Noise: the loops as steps *)

Section NoiseStepFacts.
Context `{ML : MathLib}.

Lemma addUniformNoise_run img p s a :
  valid s img a ->
  addUniformNoise img p s =
  match run_steps (uniform_step (p / 100 * 255)) (steps 0 (length a) 4) a (draws s) with
  | Some (b, rs') =>
      inr (clone_of s img, State (<[fresh (dom (heap s)) := U8 b]> (heap s)) rs')
  | None => inl OutOfDraws
  end.
Proof.
  intros Hv. unfold addUniformNoise.
  apply (clone_loop_run img s a _
           (λ n, run_steps (uniform_step (p / 100 * 255)) (steps 0 n 4)) Hv).
  intros out n. apply refines_for_each. intros i.
  apply refines_for_each. intros c.
  apply (refines_random (data out) _ (λ r a rs, Some (_, rs))).
  intros r. apply refines_update.
Qed.

Lemma addGaussianNoise_run img p s a :
  valid s img a ->
  addGaussianNoise img p s =
  match run_steps (gaussian_step (p / 100 * 80)) (steps 0 (length a) 4) a (draws s) with
  | Some (b, rs') =>
      inr (clone_of s img, State (<[fresh (dom (heap s)) := U8 b]> (heap s)) rs')
  | None => inl OutOfDraws
  end.
Proof.
  intros Hv. unfold addGaussianNoise.
  apply (clone_loop_run img s a _
           (λ n, run_steps (gaussian_step (p / 100 * 80)) (steps 0 n 4)) Hv).
  intros out n. apply refines_for_each. intros i.
  apply refines_for_each. intros c.
  intros h a0 rs Hd. unfold randGaussian, mbind, M_bind, draw_nonzero. simpl.
  destruct (first_nonzero rs) as [[u rs1]|]; [|reflexivity]. simpl.
  destruct (first_nonzero rs1) as [[v rs2]|]; [|reflexivity]. simpl.
  unfold mret, M_ret, update_data, mbind, M_bind, read_u8, write_cell. simpl.
  rewrite Hd. reflexivity.
Qed.

Lemma addSaltPepperNoise_run img p s a :
  valid s img a ->
  addSaltPepperNoise img p s =
  match run_steps (sp_step (p / 100)) (steps 0 (length a) 4) a (draws s) with
  | Some (b, rs') =>
      inr (clone_of s img, State (<[fresh (dom (heap s)) := U8 b]> (heap s)) rs')
  | None => inl OutOfDraws
  end.
Proof.
  intros Hv. unfold addSaltPepperNoise.
  apply (clone_loop_run img s a _
           (λ n, run_steps (sp_step (p / 100)) (steps 0 n 4)) Hv).
  intros out n. apply refines_for_each. intros i.
  apply (refines_random (data out) _
           (λ r a rs, Some (match sp_outcome (p / 100) r with
                            | Some v => store (i + 2) v (store (i + 1) v (store i v a))
                            | None => a
                            end, rs))).
  intros r. unfold sp_outcome.
  destruct (r <? p / 100 / 2)%float; [apply refines_update|].
  destruct (r <? p / 100)%float; [apply refines_update|].
  apply refines_ret.
Qed.

End NoiseStepFacts.

Lemma alpha_index_ne (i c j : nat) :
  (i mod 4 = 0)%nat -> (c < 3)%nat -> (j mod 4 = 3)%nat -> (i + c)%nat ≠ j.
Proof.
  intros Hi Hc Hj E. subst j.
  rewrite Nat.Div0.add_mod, Hi, Nat.add_0_l, Nat.Div0.mod_mod, Nat.mod_small in Hj; lia.
Qed.

Lemma alpha_index_ne0 (i j : nat) : (i mod 4 = 0)%nat -> (j mod 4 = 3)%nat -> i ≠ j.
Proof. intros Hi Hj E. subst j. lia. Qed.

Lemma in_steps_4_mod i n : i ∈ steps 0 (4 * n) 4 -> (i mod 4 = 0)%nat.
Proof.
  rewrite steps_4. intros (k & -> & Hk)%list_elem_of_fmap.
  rewrite Nat.add_0_l. apply Nat.Div0.mod_mul.
Qed.

Lemma in_steps_4 i n : i ∈ steps 0 (4 * n) 4 -> exists k, (i = 0 + k * 4 /\ k < n)%nat.
Proof.
  rewrite steps_4. intros (k & -> & Hk)%list_elem_of_fmap.
  apply elem_of_seq in Hk. exists k. split; [reflexivity|lia].
Qed.

Lemma length_steps_4 n : length (steps 0 (4 * n) 4) = n.
Proof. rewrite steps_4, length_fmap. apply length_seq. Qed.

(** A loop over the pixels whose steps need [k] draws each and leave the
    alpha samples alone. *)
Lemma pixel_loop_alpha (st : nat -> step_fun) mu k n a rs :
  (forall i, costs mu k (st i)) ->
  (forall i, (i mod 4 = 0)%nat -> frame (λ j, j mod 4 = 3)%nat (st i)) ->
  (k * n <= mu rs)%nat ->
  exists b rs', run_steps st (steps 0 (4 * n) 4) a rs = Some (b, rs') /\
                length b = length a /\ forall j, (j mod 4 = 3)%nat -> b !! j = a !! j.
Proof.
  intros Hc Hf Hmu.
  destruct (costs_run_steps mu k st (steps 0 (4 * n) 4) Hc a rs) as (b & rs' & E & _).
  { by rewrite length_steps_4. }
  exists b, rs'. split; [exact E|].
  refine (frame_run_steps _ st _ _ a rs b rs' E).
  intros i Hi. apply Hf. by apply in_steps_4_mod in Hi.
Qed.

Section NoiseFacts.
Context `{ML : MathLib}.

Lemma uniform_step_costs amount i : costs length 3 (uniform_step amount i).
Proof.
  apply (costs_run_steps length 1 _ (seq 0 3)).
  intros c a [|r rs] H; simpl in H; [lia|]. eexists _, _. split; [reflexivity|simpl; lia].
Qed.

Lemma uniform_step_frame amount i :
  (i mod 4 = 0)%nat -> frame (λ j, j mod 4 = 3)%nat (uniform_step amount i).
Proof.
  intros Hi. apply frame_run_steps. intros c Hc%elem_of_seq a [|r rs] a' rs' H; [discriminate|].
  inversion H; subst. split; [apply length_store|].
  intros j Hj. apply store_lookup_ne, alpha_index_ne; [exact Hi|lia|exact Hj].
Qed.

Lemma gaussian_step_costs sigma i : costs nonzero_count 6 (gaussian_step sigma i).
Proof.
  apply (costs_run_steps nonzero_count 2 _ (seq 0 3)).
  intros c a rs H.
  destruct (first_nonzero_count rs) as (u & rs1 & -> & H1); [lia|].
  destruct (first_nonzero_count rs1) as (v & rs2 & -> & H2); [lia|].
  eexists _, _. split; [reflexivity|lia].
Qed.

Lemma gaussian_step_frame sigma i :
  (i mod 4 = 0)%nat -> frame (λ j, j mod 4 = 3)%nat (gaussian_step sigma i).
Proof.
  intros Hi. apply frame_run_steps. intros c Hc%elem_of_seq a rs a' rs' H.
  destruct (first_nonzero rs) as [[u rs1]|]; [|discriminate].
  destruct (first_nonzero rs1) as [[v rs2]|]; [|discriminate].
  inversion H; subst. split; [apply length_store|].
  intros j Hj. apply store_lookup_ne, alpha_index_ne; [exact Hi|lia|exact Hj].
Qed.

Lemma sp_step_costs prob i : costs length 1 (sp_step prob i).
Proof.
  intros a [|r rs] H; simpl in H; [lia|]. eexists _, _. split; [reflexivity|simpl; lia].
Qed.

Lemma sp_step_frame prob i :
  (i mod 4 = 0)%nat -> frame (λ j, j mod 4 = 3)%nat (sp_step prob i).
Proof.
  intros Hi a [|r rs] a' rs' H; [discriminate|]. inversion H; subst.
  destruct (sp_outcome prob r) as [v|]; [|auto].
  split; [by rewrite !length_store|].
  intros j Hj.
  rewrite !store_lookup_ne; [reflexivity| | |].
  - by apply alpha_index_ne0.
  - apply alpha_index_ne; [exact Hi|lia|exact Hj].
  - apply alpha_index_ne; [exact Hi|lia|exact Hj].
Qed.

End NoiseFacts.

Lemma rgb_lookup b k c : (c < 3)%nat -> rgb b k !! c = b !! (4 * k + c)%nat.
Proof. intros Hc. unfold rgb. rewrite lookup_take_lt by lia. apply lookup_drop. Qed.

Lemma rgb_length b k : (4 * k + 3 <= length b)%nat -> length (rgb b k) = 3%nat.
Proof. intros H. unfold rgb. rewrite length_take, length_drop. lia. Qed.

Lemma rgb_eq b k x y z :
  b !! (4 * k)%nat = Some x -> b !! (4 * k + 1)%nat = Some y -> b !! (4 * k + 2)%nat = Some z ->
  rgb b k = [x; y; z].
Proof.
  intros Hx Hy Hz. apply list_eq. intros i.
  destruct (decide (i < 3)%nat) as [Hi|Hi].
  - rewrite rgb_lookup by exact Hi.
    destruct i as [|[|[|i]]]; simpl; [by rewrite Nat.add_0_r| done | done | lia].
  - rewrite !lookup_ge_None_2; [done| simpl; lia |].
    unfold rgb. rewrite length_take. lia.
Qed.

Lemma rgb_ext a b k :
  length b = length a ->
  (forall c, (c < 3)%nat -> b !! (4 * k + c)%nat = a !! (4 * k + c)%nat) -> rgb b k = rgb a k.
Proof.
  intros Hl H. apply list_eq. intros i.
  destruct (decide (i < 3)%nat) as [Hi|Hi].
  - rewrite !rgb_lookup by exact Hi. by apply H.
  - unfold rgb. rewrite !lookup_take_ge by lia. done.
Qed.

Section SaltPepper.
Context `{ML : MathLib}.

Lemma sp_run prob cnt : forall m a rs b rs',
  run_steps (sp_step prob) ((λ k, 0 + k * 4)%nat <$> seq m cnt) a rs = Some (b, rs') ->
  length b = length a /\
  forall k c, (c < 3)%nat -> (4 * k + 3 <= length a)%nat ->
    b !! (4 * k + c)%nat =
    if decide (m <= k < m + cnt)%nat then
      match rs !! (k - m)%nat with
      | Some r =>
          match sp_outcome prob r with
          | Some v => Some (ToUint8Clamp v)
          | None => a !! (4 * k + c)%nat
          end
      | None => None
      end
    else a !! (4 * k + c)%nat.
Proof.
  induction cnt as [|cnt IH]; intros m a rs b rs' H.
  - simpl in H. inversion H; subst. split; [reflexivity|].
    intros k c Hc Hk. rewrite decide_False by lia. reflexivity.
  - rewrite <- cons_seq, fmap_cons in H. simpl in H.
    destruct rs as [|r rs1]; [discriminate|]. simpl in H.
    match type of H with run_steps _ _ ?x _ = _ => set (a1 := x) in * end.
    assert (Hl1 : length a1 = length a).
    { subst a1. destruct (sp_outcome prob r); [by rewrite !length_store|reflexivity]. }
    apply IH in H as [Hl Hb].
    split; [congruence|].
    intros k c Hc Hk. rewrite Hb by (rewrite ?Hl1; lia).
    destruct (decide (S m <= k < S m + cnt)%nat) as [Hin|Hout].
    + rewrite decide_True by lia.
      replace (k - m)%nat with (S (k - S m)) by lia.
      change ((r :: rs1) !! S (k - S m)) with (rs1 !! (k - S m)%nat).
      destruct (rs1 !! (k - S m)%nat) as [r'|]; [|reflexivity].
      destruct (sp_outcome prob r') as [v'|]; [reflexivity|].
      subst a1. destruct (sp_outcome prob r) as [v|]; [|reflexivity]. by stores.
    + destruct (decide (k = m)) as [->|Hne].
      * rewrite decide_True by lia. rewrite Nat.sub_diag.
        change ((r :: rs1) !! 0%nat) with (Some r). cbv beta iota.
        subst a1. destruct (sp_outcome prob r) as [v|]; [|reflexivity].
        destruct c as [|[|[|c]]]; [| | |lia].
        -- replace (4 * m + 0)%nat with (m * 4)%nat by lia. by stores.
        -- replace (4 * m + 1)%nat with (m * 4 + 1)%nat by lia. by stores.
        -- replace (4 * m + 2)%nat with (m * 4 + 2)%nat by lia. by stores.
      * rewrite decide_False by lia.
        subst a1. destruct (sp_outcome prob r) as [v|]; [|reflexivity]. by stores.
Qed.

End SaltPepper.

(** ** Noise: the claims *)

(** What the function that cloned [img] in [s] and then wrote the samples
    [b] into its clone leaves behind. *)
Lemma clone_result s img a b rs' :
  valid s img a -> length b = length a ->
  let out := clone_of s img in
  let s' := State (<[fresh (dom (heap s)) := U8 b]> (heap s)) rs' in
  (data out ∉ dom (heap s)) /\
  valid s' out b /\ width out = width img /\ height out = height img /\
  heap s' !! data img = Some (U8 a) /\
  (forall l, l ∈ dom (heap s) -> heap s' !! l = heap s !! l).
Proof.
  intros (Hd & Hl & Hw & Hh) Hb. simpl.
  assert (Hold : forall l, l ∈ dom (heap s) ->
                   <[fresh (dom (heap s)) := U8 b]> (heap s) !! l = heap s !! l).
  { intros l Hin. apply lookup_insert_ne. intros <-. exact (fresh_not_in s Hin). }
  repeat split; auto.
  - apply fresh_not_in.
  - simpl. apply lookup_insert_eq.
  - simpl. rewrite Hb. exact Hl.
  - rewrite Hold; [exact Hd|]. apply elem_of_dom. eauto.
Qed.

(** C9: for every buffer, percentage and sequence of random draws (long
    enough for the variant), each of the three noise variants returns a
    buffer [out] whose sample array is new ([data out] is not an array of
    the heap before the call), with the width and height of the input,
    in which the alpha sample of every pixel is the input's; the sample
    array of the input, and every other array that existed before the
    call, is unchanged. *)
Theorem noise_keeps_alpha_and_input `{ML : MathLib}
    (nt : NoiseType) (img : ImageData) (p : float) (s : state) (a : list Z) :
  valid s img a ->
  draws_suffice nt (width img * height img) (draws s) ->
  exists out s' b,
    applyNoise nt img p s = inr (out, s') /\
    (data out ∉ dom (heap s)) /\
    valid s' out b /\ width out = width img /\ height out = height img /\
    (forall k, (k < width img * height img)%nat -> b !! (4 * k + 3)%nat = a !! (4 * k + 3)%nat) /\
    heap s' !! data img = Some (U8 a) /\
    (forall l, l ∈ dom (heap s) -> heap s' !! l = heap s !! l).
Proof.
  intros Hv Hdr.
  assert (Hlen : length a = (4 * (width img * height img))%nat).
  { destruct Hv as (_ & Hl & _). lia. }
  assert (Halpha : forall k, ((4 * k + 3) mod 4 = 3)%nat).
  { intros k. rewrite Nat.add_comm, Nat.mul_comm, Nat.Div0.mod_add. reflexivity. }
  assert (Hpost : forall st mu c,
            (forall i, costs mu c (st i)) ->
            (forall i, (i mod 4 = 0)%nat -> frame (λ j, j mod 4 = 3)%nat (st i)) ->
            (c * (width img * height img) <= mu (draws s))%nat ->
            exists out s' b,
              match run_steps st (steps 0 (length a) 4) a (draws s) with
              | Some (b, rs') =>
                  inr (clone_of s img, State (<[fresh (dom (heap s)) := U8 b]> (heap s)) rs')
              | None => inl OutOfDraws
              end = inr (out, s') /\
              (data out ∉ dom (heap s)) /\
              valid s' out b /\ width out = width img /\ height out = height img /\
              (forall k, (k < width img * height img)%nat ->
                         b !! (4 * k + 3)%nat = a !! (4 * k + 3)%nat) /\
              heap s' !! data img = Some (U8 a) /\
              (forall l, l ∈ dom (heap s) -> heap s' !! l = heap s !! l)).
  { intros st mu c Hc Hf Hmu. rewrite Hlen.
    destruct (pixel_loop_alpha st mu c _ a (draws s) Hc Hf Hmu) as (b & rs' & -> & Hb & Hj).
    destruct (clone_result s img a b rs' Hv Hb) as (H1 & H2 & H3 & H4 & H5 & H6).
    exists (clone_of s img), (State (<[fresh (dom (heap s)) := U8 b]> (heap s)) rs'), b.
    repeat split; auto; try apply H2. }
  destruct nt; simpl in *.
  - rewrite (addUniformNoise_run img p s a Hv).
    apply (Hpost _ length 3%nat); auto using uniform_step_costs, uniform_step_frame.
  - rewrite (addGaussianNoise_run img p s a Hv).
    apply (Hpost _ nonzero_count 6%nat); auto using gaussian_step_costs, gaussian_step_frame.
  - rewrite (addSaltPepperNoise_run img p s a Hv).
    apply (Hpost _ length 1%nat); auto using sp_step_costs, sp_step_frame.
Qed.

Lemma noise_keeps_alpha_and_input_witness :
  exists out s' b,
    applyNoise (ML := no_math) salt_pepper img_1x1 50 (one_pixel 10 20 30 40) = inr (out, s') /\
    (data out ∉ dom (heap (one_pixel 10 20 30 40))) /\
    valid s' out b /\ width out = 1%nat /\ height out = 1%nat /\
    (forall k, (k < 1 * 1)%nat -> b !! (4 * k + 3)%nat = [10; 20; 30; 40] !! (4 * k + 3)%nat) /\
    heap s' !! 1%positive = Some (U8 [10; 20; 30; 40]) /\
    (forall l, l ∈ dom (heap (one_pixel 10 20 30 40)) ->
               heap s' !! l = heap (one_pixel 10 20 30 40) !! l).
Proof.
  apply (noise_keeps_alpha_and_input (ML := no_math) salt_pepper img_1x1 50
           (one_pixel 10 20 30 40) [10; 20; 30; 40]).
  - unfold valid. simpl. repeat split; try reflexivity; lia.
  - simpl. lia.
Defined.

(** C7: for every buffer and every sequence of random draws (at least one
    per pixel), salt-and-pepper noise at percentage [p] decides once per
    pixel, by the pixel's single draw [r]: with [prob = p/100] the three
    colour samples are all forced to 0 when [r < prob/2], all forced to
    255 when [prob/2 <= r < prob], and left as they are otherwise (for a
    uniform draw in the unit interval with [0 <= p <= 100], two events of
    probability p/200 each).  At percentage 100, draws being below 1 as
    [Math.random] promises, every output triple is (0,0,0) or
    (255,255,255). *)
Theorem salt_pepper_decides_per_pixel
    (img : ImageData) (p : float) (s : state) (a : list Z) :
  valid s img a ->
  (width img * height img <= length (draws s))%nat ->
  exists out s' b,
    addSaltPepperNoise img p s = inr (out, s') /\
    valid s' out b /\ width out = width img /\ height out = height img /\
    (forall k r, (k < width img * height img)%nat -> draws s !! k = Some r ->
       let prob := (p / 100)%float in
       ((r <? prob / 2)%float = true -> rgb b k = [0; 0; 0]) /\
       ((r <? prob / 2)%float = false -> (r <? prob)%float = true ->
        rgb b k = [255; 255; 255]) /\
       ((r <? prob / 2)%float = false -> (r <? prob)%float = false ->
        rgb b k = rgb a k)) /\
    (p = 100%float ->
     Forall (λ r, (r <? 1)%float = true) (draws s) ->
     forall k, (k < width img * height img)%nat ->
               rgb b k = [0; 0; 0] \/ rgb b k = [255; 255; 255]).
Proof.
  intros Hv Hdr.
  assert (Hlen : length a = (4 * (width img * height img))%nat).
  { destruct Hv as (_ & Hl & _). lia. }
  rewrite (addSaltPepperNoise_run img p s a Hv), Hlen.
  destruct (costs_run_steps length 1 (sp_step (p / 100)) (steps 0 (4 * (width img * height img)) 4)
              (sp_step_costs (p / 100)) a (draws s)) as (b & rs' & E & _).
  { rewrite length_steps_4. lia. }
  rewrite E. rewrite steps_4 in E. apply sp_run in E as [Hb Hpix].
  destruct (clone_result s img a b rs' Hv Hb) as (H1 & H2 & H3 & H4 & H5 & H6).
  exists (clone_of s img), (State (<[fresh (dom (heap s)) := U8 b]> (heap s)) rs'), b.
  assert (Hcase : forall k r, (k < width img * height img)%nat -> draws s !! k = Some r ->
            forall c, (c < 3)%nat ->
              b !! (4 * k + c)%nat =
              match sp_outcome (p / 100) r with
              | Some v => Some (ToUint8Clamp v)
              | None => a !! (4 * k + c)%nat
              end).
  { intros k r Hk Hr c Hc. rewrite Hpix by lia.
    rewrite decide_True by lia. rewrite Nat.sub_0_r, Hr. reflexivity. }
  split; [reflexivity|]. split; [exact H2|]. split; [exact H3|]. split; [exact H4|].
  split.
  - intros k r Hk Hr prob. subst prob. pose proof (Hcase k r Hk Hr) as Hc.
    unfold sp_outcome in Hc. repeat split.
    + intros E1. rewrite E1 in Hc.
      apply rgb_eq; [rewrite <- (Nat.add_0_r (4 * k))| |]; apply Hc; lia.
    + intros E1 E2. rewrite E1, E2 in Hc.
      apply rgb_eq; [rewrite <- (Nat.add_0_r (4 * k))| |]; apply Hc; lia.
    + intros E1 E2. rewrite E1, E2 in Hc. apply rgb_ext; [exact Hb|exact Hc].
  - intros -> Hunit k Hk.
    destruct (draws s !! k) as [r|] eqn:Hr.
    2:{ apply lookup_ge_None in Hr. lia. }
    pose proof (Hcase k r Hk Hr) as Hc. unfold sp_outcome in Hc.
    change (100 / 100)%float with 1%float in Hc.
    change (1 / 2)%float with 0.5%float in Hc.
    assert (H1r : (r <? 1)%float = true).
    { rewrite Forall_forall in Hunit. apply Hunit.
      eapply list_elem_of_lookup_2. exact Hr. }
    rewrite H1r in Hc.
    destruct (r <? 0.5)%float; [left|right];
      (apply rgb_eq; [rewrite <- (Nat.add_0_r (4 * k))| |]; apply Hc; lia).
Qed.

Lemma salt_pepper_decides_per_pixel_witness :
  exists out s' b,
    addSaltPepperNoise img_1x1 100 (one_pixel 10 20 30 40) = inr (out, s') /\
    valid s' out b /\ width out = 1%nat /\ height out = 1%nat /\
    (forall k r, (k < 1 * 1)%nat -> [0.75%float] !! k = Some r ->
       let prob := (100 / 100)%float in
       ((r <? prob / 2)%float = true -> rgb b k = [0; 0; 0]) /\
       ((r <? prob / 2)%float = false -> (r <? prob)%float = true ->
        rgb b k = [255; 255; 255]) /\
       ((r <? prob / 2)%float = false -> (r <? prob)%float = false ->
        rgb b k = rgb [10; 20; 30; 40] k)) /\
    (100%float = 100%float ->
     Forall (λ r, (r <? 1)%float = true) [0.75%float] ->
     forall k, (k < 1 * 1)%nat -> rgb b k = [0; 0; 0] \/ rgb b k = [255; 255; 255]).
Proof.
  apply (salt_pepper_decides_per_pixel img_1x1 100 (one_pixel 10 20 30 40) [10; 20; 30; 40]).
  - unfold valid. simpl. repeat split; try reflexivity; lia.
  - simpl. lia.
Defined.

(** ** Functions of the shape [out = clone(img); loops on out; return out] *)

Lemma clone_update_run img s a (f : list Z -> list Z) :
  valid s img a ->
  (out ← cloneImageData img; update_data out f;; mret out) s =
  inr (clone_of s img, State (<[fresh (dom (heap s)) := U8 (f a)]> (heap s)) (draws s)).
Proof.
  intros Hv.
  rewrite (bind_inr _ _ _ _ _ (cloneImageData_ok _ _ _ Hv)).
  unfold update_data, mbind, M_bind, read_u8, write_cell, mret, M_ret, cloned. simpl.
  rewrite lookup_insert_eq. simpl. by rewrite insert_insert_eq.
Qed.

Lemma clone_update_inv img s (f : list Z -> list Z) out s' :
  (out ← cloneImageData img; update_data out f;; mret out) s = inr (out, s') ->
  exists a, valid s img a.
Proof.
  intros H. apply bind_inv in H as (o & s1 & Hc & _).
  apply cloneImageData_inv in Hc as (a & Hv & _). eauto.
Qed.

Lemma foldl_fixed {A B} (f : A -> B -> A) (a : A) (l : list B) :
  (forall x, x ∈ l -> f a x = a) -> foldl f a l = a.
Proof.
  induction l as [|x l IH]; intros H; simpl; [reflexivity|].
  rewrite H by (by left). apply IH. intros y Hy. apply H. by right.
Qed.

(** ** Normalize *)

Lemma byte_cases (P : Z -> bool) :
  forallb P bytes = true -> forall v, is_byte v -> P v = true.
Proof.
  intros H v [H0 H255]. rewrite forallb_forall in H. apply H.
  apply list_elem_of_In. unfold bytes. apply list_elem_of_fmap.
  exists (Z.to_nat v). split; [lia|]. apply elem_of_seq. lia.
Qed.

(** With [min = 0] and [range = 255] the rescaling gives every byte back. *)
Lemma rescale_full_range v :
  is_byte v -> ToUint8Clamp (Math_round (Z2F (v - 0) / Z2F 255 * 255))%float = v.
Proof.
  intros Hv. apply Z.eqb_eq.
  apply (byte_cases (λ v, ToUint8Clamp (Math_round (Z2F (v - 0) / Z2F 255 * 255))%float =? v));
    [vm_compute; reflexivity | exact Hv].
Qed.

Lemma min_max_fold (a : list Z) (l : list nat) : forall mn0 mx0,
  let '(mn, mx) :=
    foldl (λ '(mn, mx) i,
             let v := a !!! i in
             (if v <? mn then v else mn, if mx <? v then v else mx)) (mn0, mx0) l in
  (mn = mn0 \/ exists i, i ∈ l /\ mn = a !!! i) /\ mn <= mn0 /\ (forall i, i ∈ l -> mn <= a !!! i) /\
  (mx = mx0 \/ exists i, i ∈ l /\ mx = a !!! i) /\ mx0 <= mx /\ (forall i, i ∈ l -> a !!! i <= mx).
Proof.
  induction l as [|i l IH]; intros mn0 mx0; simpl.
  - repeat split; auto; try lia; intros i Hi; inversion Hi.
  - specialize (IH (if a !!! i <? mn0 then a !!! i else mn0) (if mx0 <? a !!! i then a !!! i else mx0)).
    destruct (foldl _ _ l) as [mn mx].
    destruct IH as (Hmn & Hle & Hall & Hmx & Hge & Hallx).
    repeat split.
    + destruct Hmn as [->|(j & Hj & ->)].
      * destruct (a !!! i <? mn0); [right; exists i; split; [by left|reflexivity] | by left].
      * right. exists j. split; [by right|reflexivity].
    + destruct (a !!! i <? mn0) eqn:E; lia.
    + intros j Hj. apply elem_of_cons in Hj as [->|Hj]; [|by apply Hall].
      destruct (a !!! i <? mn0) eqn:E; lia.
    + destruct Hmx as [->|(j & Hj & ->)].
      * destruct (mx0 <? a !!! i); [right; exists i; split; [by left|reflexivity] | by left].
      * right. exists j. split; [by right|reflexivity].
    + destruct (mx0 <? a !!! i) eqn:E; lia.
    + intros j Hj. apply elem_of_cons in Hj as [->|Hj]; [|by apply Hallx].
      destruct (mx0 <? a !!! i) eqn:E; lia.
Qed.

Lemma lookup_total_byte (a : list Z) i : Forall is_byte a -> is_byte (a !!! i).
Proof.
  intros Ha. destruct (a !! i) as [v|] eqn:E.
  - rewrite (list_lookup_total_correct _ _ _ E).
    rewrite Forall_forall in Ha. apply Ha. by eapply list_elem_of_lookup_2.
  - rewrite list_lookup_total_alt, E. simpl. unfold is_byte. lia.
Qed.

Lemma in_steps_from c n i :
  (c < 4)%nat -> i ∈ steps c (4 * n) 4 <-> exists k, (k < n)%nat /\ i = (4 * k + c)%nat.
Proof.
  intros Hc. rewrite steps_from by exact Hc. rewrite list_elem_of_fmap. split.
  - intros (k & -> & Hk). apply elem_of_seq in Hk. exists k. split; lia.
  - intros (k & Hk & ->). exists k. split; [lia|]. apply elem_of_seq. lia.
Qed.

Lemma channel_min_max_full (a : list Z) n c :
  length a = (4 * n)%nat -> Forall is_byte a -> (c < 3)%nat ->
  attains a c 0 -> attains a c 255 -> channel_min_max a c = (0, 255).
Proof.
  intros Hl Ha Hc [k0 H0] [k1 H1]. unfold channel_min_max.
  pose proof (min_max_fold a (steps c (length a) 4) 255 0) as H.
  destruct (foldl _ _ _) as [mn mx].
  destruct H as (Hmn & _ & Hall & Hmx & _ & Hallx).
  assert (Hin : forall k v, a !! (4 * k + c)%nat = Some v ->
                  (4 * k + c)%nat ∈ steps c (length a) 4 /\ a !!! (4 * k + c)%nat = v).
  { intros k v Hk. split; [|by apply list_lookup_total_correct].
    rewrite Hl. apply in_steps_from; [lia|]. exists k. split; [|reflexivity].
    apply lookup_lt_Some in Hk. lia. }
  destruct (Hin k0 0 H0) as [Hi0 Hv0]. destruct (Hin k1 255 H1) as [Hi1 Hv1].
  pose proof (Hall _ Hi0) as Hlo. pose proof (Hallx _ Hi1) as Hhi.
  rewrite Hv0 in Hlo. rewrite Hv1 in Hhi.
  assert (0 <= mn).
  { destruct Hmn as [->|(j & _ & ->)]; [lia|]. apply (lookup_total_byte a j Ha). }
  assert (mx <= 255).
  { destruct Hmx as [->|(j & _ & ->)]; [lia|]. apply (lookup_total_byte a j Ha). }
  f_equal; lia.
Qed.

Lemma normalize_channel_full (a : list Z) n c :
  length a = (4 * n)%nat -> Forall is_byte a -> (c < 3)%nat ->
  attains a c 0 -> attains a c 255 -> normalize_channel a c = a.
Proof.
  intros Hl Ha Hc H0 H1. unfold normalize_channel.
  rewrite (channel_min_max_full a n c Hl Ha Hc H0 H1).
  change (if 255 - 0 =? 0 then 1 else 255 - 0) with 255.
  apply foldl_fixed. intros i Hi.
  rewrite Hl in Hi. apply in_steps_from in Hi as (k & Hk & ->); [|lia].
  unfold store. apply list_insert_id'. intros Hlt.
  rewrite rescale_full_range by (by apply lookup_total_byte).
  apply list_lookup_lookup_total_lt. exact Hlt.
Qed.

Lemma normalizeImage_loop_full (a : list Z) n :
  length a = (4 * n)%nat -> Forall is_byte a -> full_range a -> normalizeImage_loop a = a.
Proof.
  intros Hl Ha Hf. unfold normalizeImage_loop. apply foldl_fixed.
  intros c Hc%elem_of_seq. destruct (Hf c) as [H0 H1]; [lia|].
  apply (normalize_channel_full a n c); auto. lia.
Qed.

Lemma normalizeImage_run img s a :
  valid s img a ->
  normalizeImage img s =
  inr (clone_of s img,
       State (<[fresh (dom (heap s)) := U8 (normalizeImage_loop a)]> (heap s)) (draws s)).
Proof. apply clone_update_run. Qed.

Lemma equalizeImage_run img s a :
  valid s img a ->
  equalizeImage img s =
  inr (clone_of s img,
       State (<[fresh (dom (heap s)) :=
                  U8 (equalizeImage_loop (width img * height img) a)]> (heap s)) (draws s)).
Proof. apply clone_update_run. Qed.

(** C6 (normalize): on every buffer in which each colour channel attains
    both 0 and 255, normalizing the result of normalize gives a buffer
    with the same samples as normalizing once (both have the samples of
    the input). *)
Theorem normalize_idempotent_full_range (img : ImageData) (s : state) (a : list Z) :
  valid s img a -> Forall is_byte a -> full_range a ->
  exists out1 s1 out2 s2 b,
    normalizeImage img s = inr (out1, s1) /\
    normalizeImage out1 s1 = inr (out2, s2) /\
    valid s1 out1 b /\ valid s2 out2 b /\ heap s2 !! data out1 = Some (U8 b) /\ b = a.
Proof.
  intros Hv Ha Hf.
  assert (Hn : normalizeImage_loop a = a).
  { destruct Hv as (_ & Hl & _).
    apply (normalizeImage_loop_full a (width img * height img)); auto. lia. }
  pose proof (normalizeImage_run img s a Hv) as H1. rewrite Hn in H1.
  destruct (clone_result s img a a (draws s) Hv eq_refl) as (_ & Hv1 & _).
  pose proof (normalizeImage_run _ _ a Hv1) as H2. rewrite Hn in H2.
  destruct (clone_result _ _ a a (draws s) Hv1 eq_refl) as (_ & Hv2 & _ & _ & Hold & _).
  eexists _, _, _, _, a.
  split; [exact H1|]. split; [exact H2|]. split; [exact Hv1|]. split; [exact Hv2|].
  split; [exact Hold|reflexivity].
Qed.

Lemma Forall_is_byte_dec (l : list Z) :
  forallb (λ v, (0 <=? v) && (v <=? 255)) l = true -> Forall is_byte l.
Proof.
  rewrite forallb_forall, Forall_forall. intros H v Hv%list_elem_of_In.
  apply H in Hv. unfold is_byte. lia.
Qed.

Lemma normalize_idempotent_full_range_witness :
  exists out1 s1 out2 s2 b,
    normalizeImage img_603 heap_603 = inr (out1, s1) /\
    normalizeImage out1 s1 = inr (out2, s2) /\
    valid s1 out1 b /\ valid s2 out2 b /\ heap s2 !! data out1 = Some (U8 b) /\ b = levels_603.
Proof.
  apply (normalize_idempotent_full_range img_603 heap_603 levels_603).
  - unfold valid. simpl. repeat split; try reflexivity; lia.
  - apply Forall_is_byte_dec. vm_compute. reflexivity.
  - intros c Hc. split; [exists 0%nat | exists 3%nat];
      destruct c as [|[|[|c]]]; try reflexivity; lia.
Defined.

(** C6, as stated, fails for equalize: the buffer [levels_603] attains 0
    and 255 in every channel; equalizing it once maps level 1 to 0 and
    level 2 to 1, and equalizing the result maps that 1 to 0. *)
Lemma equalize_twice_differs :
  valid heap_603 img_603 levels_603 /\ Forall is_byte levels_603 /\ full_range levels_603 /\
  exists out1 s1 out2 s2 b1 b2,
    equalizeImage img_603 heap_603 = inr (out1, s1) /\
    equalizeImage out1 s1 = inr (out2, s2) /\
    valid s1 out1 b1 /\ valid s2 out2 b2 /\
    rgb b1 2 = [1; 1; 1] /\ rgb b2 2 = [0; 0; 0].
Proof.
  assert (Hv : valid heap_603 img_603 levels_603).
  { unfold valid. simpl. repeat split; try reflexivity; lia. }
  split; [exact Hv|]. split; [apply Forall_is_byte_dec; vm_compute; reflexivity|].
  split.
  { intros c Hc. split; [exists 0%nat | exists 3%nat];
      destruct c as [|[|[|c]]]; try reflexivity; lia. }
  pose proof (equalizeImage_run img_603 heap_603 levels_603 Hv) as H1.
  assert (Hl1 : length (equalizeImage_loop (width img_603 * height img_603) levels_603)
                = length levels_603) by (vm_compute; reflexivity).
  destruct (clone_result heap_603 img_603 levels_603 _ (draws heap_603) Hv Hl1)
    as (_ & Hv1 & _).
  pose proof (equalizeImage_run _ _ _ Hv1) as H2.
  assert (Hl2 : length (equalizeImage_loop (width (clone_of heap_603 img_603)
                                            * height (clone_of heap_603 img_603))
                          (equalizeImage_loop (width img_603 * height img_603) levels_603))
                = length (equalizeImage_loop (width img_603 * height img_603) levels_603))
    by (vm_compute; reflexivity).
  destruct (clone_result _ _ _ _ (draws heap_603) Hv1 Hl2) as (_ & Hv2 & _).
  eexists _, _, _, _, _, _.
  split; [exact H1|]. split; [exact H2|]. split; [exact Hv1|]. split; [exact Hv2|].
  split; vm_compute; reflexivity.
Qed.

(** ** Equalize on a flat buffer *)

(** Two flat buffers run through the code: a 1x1 buffer of colour
    (100,100,100) and a 2x2 buffer of colour (10,20,30) both come back
    black. *)
Lemma equalize_flat_examples :
  (exists out s', equalizeImage img_1x1 (one_pixel 100 100 100 255) = inr (out, s') /\
                  heap s' !! data out = Some (U8 [0; 0; 0; 255])) /\
  (exists out s',
     equalizeImage {| data := 1%positive; width := 2; height := 2 |}
       (State {[ 1%positive := U8 [10; 20; 30; 255; 10; 20; 30; 255;
                                   10; 20; 30; 255; 10; 20; 30; 255] ]} [])
     = inr (out, s') /\
     heap s' !! data out = Some (U8 [0; 0; 0; 255; 0; 0; 0; 255; 0; 0; 0; 255; 0; 0; 0; 255])).
Proof.
  split; eexists _, _; split; vm_compute; reflexivity.
Qed.

(** ** Loops that write whole pixels *)

Lemma foldl_length {B} (f : list Z -> B -> list Z) (a : list Z) (l : list B) :
  (forall o x, length (f o x) = length o) -> length (foldl f a l) = length a.
Proof.
  intros Hf. revert a. induction l as [|x l IH]; intros a; simpl; [reflexivity|].
  by rewrite IH, Hf.
Qed.

Lemma store3_length i v0 v1 v2 out :
  length (store (i + 2) v2 (store (i + 1) v1 (store i v0 out))) = length out.
Proof. by rewrite !length_store. Qed.

Lemma store3_lookup i v0 v1 v2 out j :
  (i + 3 <= length out)%nat ->
  store (i + 2) v2 (store (i + 1) v1 (store i v0 out)) !! j =
  if decide (i <= j < i + 3)%nat
  then Some (ToUint8Clamp (match (j - i)%nat with 0%nat => v0 | 1%nat => v1 | _ => v2 end))
  else out !! j.
Proof.
  intros Hi. destruct (decide (i <= j < i + 3)%nat) as [Hj|Hj].
  - destruct (j - i)%nat as [|[|d]] eqn:E.
    + replace j with i by lia. by stores.
    + replace j with (i + 1)%nat by lia. by stores.
    + replace j with (i + 2)%nat by lia. by stores.
  - by stores.
Qed.

Lemma length_write_rgb idx v out : length (write_rgb idx v out) = length out.
Proof. unfold write_rgb. simpl. by rewrite !length_store. Qed.

Lemma write_rgb_lookup idx v out j :
  (idx + 3 <= length out)%nat ->
  write_rgb idx v out !! j =
  if decide (idx <= j < idx + 3)%nat then Some (ToUint8Clamp (v (j - idx)%nat)) else out !! j.
Proof.
  intros Hi. unfold write_rgb. simpl. rewrite Nat.add_0_r.
  rewrite store3_lookup by exact Hi.
  destruct (decide (idx <= j < idx + 3)%nat) as [Hj|Hj]; [|reflexivity].
  destruct (j - idx)%nat as [|[|[|d]]] eqn:E; try reflexivity. lia.
Qed.

(** A loop whose turn [x] writes the [n] samples that start at [pos x],
    the first samples of a pixel. *)
Section WriteLoop.
Context {A : Type} (n : nat) (pos : A -> nat) (V : A -> nat -> Z) (body : list Z -> A -> list Z).
Hypothesis block : (n <= 4)%nat.
Hypothesis body_length : forall o x, length (body o x) = length o.
Hypothesis body_lookup : forall o x j,
  (pos x + n <= length o)%nat ->
  body o x !! j = if decide (pos x <= j < pos x + n)%nat then Some (V x (j - pos x)%nat) else o !! j.

Lemma write_loop_length a l : length (foldl body a l) = length a.
Proof. apply foldl_length, body_length. Qed.

Lemma write_loop_other a l j :
  (forall x, x ∈ l -> (pos x + n <= length a)%nat) ->
  (forall x, x ∈ l -> ~ (pos x <= j < pos x + n)%nat) ->
  foldl body a l !! j = a !! j.
Proof.
  induction l as [|y l IH] using rev_ind; intros Hin Hj; [reflexivity|].
  rewrite foldl_snoc, body_lookup.
  - rewrite decide_False by (apply Hj, elem_of_app; right; by left).
    apply IH; intros x Hx; [apply Hin|apply Hj]; apply elem_of_app; by left.
  - rewrite write_loop_length. apply Hin, elem_of_app. right. by left.
Qed.

Lemma write_loop_written a l x c :
  x ∈ l -> (c < n)%nat ->
  (forall y, y ∈ l -> (pos y + n <= length a)%nat) ->
  (forall y, y ∈ l -> (pos y mod 4 = 0)%nat) ->
  (forall y, y ∈ l -> pos y = pos x -> V y c = V x c) ->
  foldl body a l !! (pos x + c)%nat = Some (V x c).
Proof.
  intros Hx Hc. induction l as [|y l IH] using rev_ind; intros Hin Hmod Hsame; [inversion Hx|].
  assert (Hy : y ∈ l ++ [y]) by (apply elem_of_app; right; by left).
  rewrite foldl_snoc, body_lookup by (rewrite write_loop_length; by apply Hin).
  destruct (decide (pos y <= pos x + c < pos y + n)%nat) as [Hr|Hr].
  - assert (E : pos y = pos x).
    { pose proof (Hmod y Hy) as My. pose proof (Hmod x Hx) as Mx.
      pose proof (Nat.div_mod (pos y) 4). pose proof (Nat.div_mod (pos x) 4). lia. }
    rewrite E. replace (pos x + c - pos x)%nat with c by lia.
    f_equal. by apply Hsame.
  - apply elem_of_app in Hx as [Hx|Hx%list_elem_of_singleton].
    + apply IH; [exact Hx | | |]; intros z Hz; [apply Hin|apply Hmod|apply Hsame];
        apply elem_of_app; by left.
    + subst y. lia.
Qed.

End WriteLoop.

Lemma foldl_pairs {B} (f : B -> nat -> nat -> B) (a : B) (ys xs : list nat) :
  foldl (λ o y, foldl (λ o x, f o y x) o xs) a ys
  = foldl (λ o p, f o p.1 p.2) a (pairs ys xs).
Proof.
  unfold pairs. revert a. induction ys as [|y ys IH]; intros a; [reflexivity|].
  rewrite bind_cons, foldl_app, foldl_fmap. simpl. apply IH.
Qed.

Lemma elem_of_pairs ys xs y x : (y, x) ∈ pairs ys xs <-> y ∈ ys /\ x ∈ xs.
Proof.
  unfold pairs. rewrite list_elem_of_bind. split.
  - intros (y' & Hp & Hy). apply list_elem_of_fmap in Hp as (x' & E & Hx).
    inversion E; subst. auto.
  - intros [Hy Hx]. exists y. split; [|exact Hy]. apply list_elem_of_fmap. eauto.
Qed.

(** ** Operations that return a new buffer *)

Lemma extends_refl s : extends s s.
Proof. by intros l Hl. Qed.

Lemma extends_dom s s' l : extends s s' -> l ∈ dom (heap s) -> l ∈ dom (heap s').
Proof.
  intros He Hl. apply elem_of_dom. rewrite (He l Hl). by apply elem_of_dom.
Qed.

Lemma extends_trans s1 s2 s3 : extends s1 s2 -> extends s2 s3 -> extends s1 s3.
Proof.
  intros H12 H23 l Hl. rewrite (H23 l), (H12 l); auto. by apply (extends_dom s1).
Qed.

Lemma extends_valid s s' img a : extends s s' -> valid s img a -> valid s' img a.
Proof.
  intros He (Hd & Hrest). split; [|exact Hrest].
  rewrite (He (data img)); [exact Hd|]. apply elem_of_dom. eauto.
Qed.

Lemma extends_insert_fresh s c rs :
  extends s (State (<[fresh (dom (heap s)) := c]> (heap s)) rs).
Proof.
  intros l Hl. simpl. apply lookup_insert_ne. intros <-. exact (fresh_not_in s Hl).
Qed.

Lemma yields_clone_update img s a (f : list Z -> list Z) :
  valid s img a -> length (f a) = length a ->
  yields (out ← cloneImageData img; update_data out f;; mret out) s img (f a).
Proof.
  intros Hv Hl. exists (clone_of s img), (State (<[fresh (dom (heap s)) := U8 (f a)]> (heap s)) (draws s)).
  destruct (clone_result s img a (f a) (draws s) Hv Hl) as (H1 & H2 & H3 & H4 & _ & H6).
  split; [by apply clone_update_run|]. auto 10.
Qed.

Lemma yields_inv m s img b :
  yields m s img b ->
  exists out s', m s = inr (out, s') /\ valid s' out b /\ extends s s' /\
                 width out = width img /\ height out = height img /\ (data out ∉ dom (heap s)).
Proof. intros (out & s' & E & F & V & W & H & X). eauto 10. Qed.

(** *** Grayscale *)

Lemma toGrayscale_loop_length a : length (toGrayscale_loop a) = length a.
Proof. apply foldl_length. intros o i. apply store3_length. Qed.

Lemma toGrayscale_yields img s a :
  valid s img a -> yields (toGrayscale img) s img (toGrayscale_loop a).
Proof. intros Hv. apply yields_clone_update; [exact Hv|apply toGrayscale_loop_length]. Qed.

(** *** Normalize and equalize *)

Lemma normalizeImage_loop_length a : length (normalizeImage_loop a) = length a.
Proof.
  apply foldl_length. intros o c. unfold normalize_channel.
  destruct (channel_min_max o c) as [mn mx].
  apply foldl_length. intros o' i. apply length_store.
Qed.

Lemma equalizeImage_loop_length n a : length (equalizeImage_loop n a) = length a.
Proof.
  apply foldl_length. intros o c. unfold equalize_channel.
  apply foldl_length. intros o' i. apply length_store.
Qed.

Lemma normalizeImage_yields img s a :
  valid s img a -> yields (normalizeImage img) s img (normalizeImage_loop a).
Proof. intros Hv. apply yields_clone_update; [exact Hv|apply normalizeImage_loop_length]. Qed.

Lemma equalizeImage_yields img s a :
  valid s img a ->
  yields (equalizeImage img) s img (equalizeImage_loop (width img * height img) a).
Proof.
  intros Hv. apply (yields_clone_update img s a (equalizeImage_loop (width img * height img)));
    [exact Hv|apply equalizeImage_loop_length].
Qed.

(** *** Convolution and median *)

Lemma convolve_loop_length w h kernel kw nz src out :
  length (convolve_loop w h kernel kw nz src out) = length out.
Proof.
  unfold convolve_loop. apply foldl_length. intros o y.
  apply foldl_length. intros o' x. apply length_write_rgb.
Qed.

Lemma medianFilter_loop_length w h half src out :
  length (medianFilter_loop w h half src out) = length out.
Proof.
  unfold medianFilter_loop. apply foldl_length. intros o y.
  apply foldl_length. intros o' x. apply length_write_rgb.
Qed.

(** [out = clone(img); src = img.data; loops on out reading src]. *)
Lemma yields_clone_read_update img s a (f : list Z -> list Z -> list Z) :
  valid s img a -> (forall src o, length (f src o) = length o) ->
  yields (out ← cloneImageData img; src ← read_u8 (data img); update_data out (f src);; mret out)
         s img (f a a).
Proof.
  intros Hv Hl.
  assert (E : (out ← cloneImageData img; src ← read_u8 (data img); update_data out (f src);; mret out) s
              = (out ← cloneImageData img; update_data out (f a);; mret out) s).
  { assert (Hread : read_u8 (data img) (cloned s a) = inr (a, cloned s a)).
    { apply read_u8_ok. rewrite cloned_old; [apply Hv|].
      apply elem_of_dom. destruct Hv as [-> _]. eauto. }
    rewrite !(bind_inr _ _ _ _ _ (cloneImageData_ok _ _ _ Hv)).
    by rewrite (bind_inr (read_u8 (data img)) _ _ _ _ Hread). }
  unfold yields. rewrite E. by apply yields_clone_update.
Qed.

Lemma convolve_yields img kernel nz s a :
  valid s img a -> kernel <> [] ->
  yields (convolve img kernel nz) s img
         (convolve_loop (width img) (height img) kernel (length (default [] (head kernel))) nz a a).
Proof.
  intros Hv Hk. destruct kernel as [|row0 rest]; [done|]. simpl.
  assert (E : convolve img (row0 :: rest) nz s =
              (out ← cloneImageData img; src ← read_u8 (data img);
               update_data out (convolve_loop (width img) (height img) (row0 :: rest)
                                  (length row0) nz src);; mret out) s).
  { unfold convolve. reflexivity. }
  unfold yields. rewrite E.
  apply (yields_clone_read_update img s a
           (convolve_loop (width img) (height img) (row0 :: rest) (length row0) nz) Hv).
  intros src o. apply convolve_loop_length.
Qed.

Lemma convolve_empty_kernel img nz s a :
  valid s img a -> convolve img [] nz s = inl TypeError.
Proof.
  intros Hv. unfold convolve.
  by rewrite (bind_inr _ _ _ _ _ (cloneImageData_ok _ _ _ Hv)).
Qed.

Lemma medianFilter_yields img size s a :
  valid s img a ->
  yields (medianFilter img size) s img
         (medianFilter_loop (width img) (height img) (size / 2) a a).
Proof.
  intros Hv.
  apply (yields_clone_read_update img s a
           (medianFilter_loop (width img) (height img) (size / 2)) Hv).
  intros src o. apply medianFilter_loop_length.
Qed.

(** *** Loops over the pixels [(x, y)] that write the three colours *)

Lemma pixel_index_bound w h x y :
  (x < w)%nat -> (y < h)%nat -> ((y * w + x) * 4 + 4 <= 4 * w * h)%nat.
Proof. intros Hx Hy. nia. Qed.

Lemma pixel_index_inj w x y x' y' :
  (x < w)%nat -> (x' < w)%nat -> ((y * w + x) * 4 = (y' * w + x') * 4)%nat -> x = x' /\ y = y'.
Proof.
  intros Hx Hx' E. assert (E' : (y * w + x = y' * w + x')%nat) by lia. clear E.
  assert (y = y').
  { destruct (Nat.lt_trichotomy y y') as [H|[H|H]]; [exfalso|exact H|exfalso].
    - assert ((y + 1) * w <= y' * w)%nat by (apply Nat.mul_le_mono_r; lia). lia.
    - assert ((y' + 1) * w <= y * w)%nat by (apply Nat.mul_le_mono_r; lia). lia. }
  subst y'. split; [lia|reflexivity].
Qed.

Lemma pixel_writes_lookup w h (G : nat -> nat -> nat -> float) (a : list Z) :
  length a = (4 * w * h)%nat ->
  let b := foldl (λ o y, foldl (λ o x, write_rgb ((y * w + x) * 4) (G x y) o) o (seq 0 w))
                 a (seq 0 h) in
  length b = length a /\
  (forall x y c, (x < w)%nat -> (y < h)%nat -> (c < 3)%nat ->
     b !! ((y * w + x) * 4 + c)%nat = Some (ToUint8Clamp (G x y c))) /\
  (forall k, b !! (4 * k + 3)%nat = a !! (4 * k + 3)%nat).
Proof.
  intros Hl b. subst b.
  rewrite (foldl_pairs (λ o y x, write_rgb ((y * w + x) * 4) (G x y) o)).
  set (pos := λ p : nat * nat, ((p.1 * w + p.2) * 4)%nat).
  set (V := λ (p : nat * nat) (c : nat), ToUint8Clamp (G p.2 p.1 c)).
  set (body := λ (o : list Z) (p : nat * nat), write_rgb ((p.1 * w + p.2) * 4) (G p.2 p.1) o).
  assert (Hbl : forall o p, length (body o p) = length o)
    by (intros; apply length_write_rgb).
  assert (Hbk : forall o p j, (pos p + 3 <= length o)%nat ->
            body o p !! j = if decide (pos p <= j < pos p + 3)%nat
                            then Some (V p (j - pos p)%nat) else o !! j)
    by (intros o p j Hp; apply write_rgb_lookup; exact Hp).
  assert (Hin : forall p, p ∈ pairs (seq 0 h) (seq 0 w) -> (p.2 < w)%nat /\ (p.1 < h)%nat).
  { intros [y x] [Hy%elem_of_seq Hx%elem_of_seq]%elem_of_pairs. simpl. lia. }
  assert (Hbound : forall p, p ∈ pairs (seq 0 h) (seq 0 w) -> (pos p + 3 <= length a)%nat).
  { intros p Hp. destruct (Hin p Hp) as [Hx Hy].
    pose proof (pixel_index_bound w h _ _ Hx Hy). unfold pos. cbv beta. lia. }
  split; [apply (write_loop_length body Hbl)|]. split.
  - intros x y c Hx Hy Hc.
    apply (write_loop_written 3 pos V body ltac:(lia) Hbl Hbk a _ (y, x) c); auto.
    + apply elem_of_pairs. split; apply elem_of_seq; lia.
    + intros p _. unfold pos. apply Nat.Div0.mod_mul.
    + intros [y' x'] Hp E. destruct (Hin _ Hp) as [Hx' _].
      unfold pos in E. unfold V. cbn [fst snd] in *.
      destruct (pixel_index_inj w x' y' x y Hx' Hx E) as [-> ->]. reflexivity.
  - intros k. apply (write_loop_other 3 pos V body Hbl Hbk); [exact Hbound|].
    intros p _. unfold pos. cbv beta. lia.
Qed.

(** *** Median *)

Lemma clamp_store_byte v : is_byte v -> ToUint8Clamp (Z2F v) = v.
Proof.
  intros Hv. apply Z.eqb_eq.
  apply (byte_cases (λ v, ToUint8Clamp (Z2F v) =? v)); [vm_compute; reflexivity | exact Hv].
Qed.

Lemma length_offsets half : length (offsets half) = Z.to_nat (2 * half + 1).
Proof. unfold offsets. by rewrite length_fmap, length_seq. Qed.

Lemma length_bind_const {A B} (f : A -> list B) (l : list A) n :
  (forall x, length (f x) = n) -> length (l ≫= f) = (length l * n)%nat.
Proof.
  intros Hf. induction l as [|x l IH]; [reflexivity|].
  rewrite bind_cons, length_app, IH, Hf. simpl. lia.
Qed.

Lemma length_neighborhood w h src half x y c :
  length (neighborhood w h src half x y c)
  = (Z.to_nat (2 * half + 1) * Z.to_nat (2 * half + 1))%nat.
Proof.
  unfold neighborhood.
  rewrite (length_bind_const _ _ (Z.to_nat (2 * half + 1) * 1)%nat).
  - rewrite length_offsets. lia.
  - intros ky. rewrite (length_bind_const _ _ 1%nat); [by rewrite length_offsets|done].
Qed.

Lemma neighborhood_bytes w h src half x y c :
  Forall is_byte src -> Forall is_byte (neighborhood w h src half x y c).
Proof.
  intros Hs. apply Forall_forall. intros v Hv. unfold neighborhood in Hv.
  apply list_elem_of_bind in Hv as (ky & Hv & _).
  apply list_elem_of_bind in Hv as (kx & Hv & _).
  apply list_elem_of_singleton in Hv. subst v. by apply lookup_total_byte.
Qed.

(** C8 (as the code has it): for every buffer of byte samples and every
    size >= 0, each R/G/B sample of the median filter's output is the
    element at index [n / 2] of the sorted neighbourhood of the pixel for
    that channel, where the neighbourhood holds the edge-clamped samples
    at offsets [-half .. half] in both directions, [half = floor(size/2)]:
    [n = (2*half+1)^2] samples, which is [size*size] when [size] is odd.
    [n] is always odd, so that element is the exact middle.  Alpha samples
    are the input's. *)
Theorem median_is_middle_of_clamped_window
    (img : ImageData) (size : Z) (s : state) (a : list Z) :
  valid s img a -> Forall is_byte a -> 0 <= size ->
  exists b,
    yields (medianFilter img size) s img b /\
    (forall x y c, (x < width img)%nat -> (y < height img)%nat -> (c < 3)%nat ->
       let window := neighborhood (width img) (height img) a (size / 2) x y c in
       let n := length window in
       Z.of_nat n = (2 * (size / 2) + 1) * (2 * (size / 2) + 1) /\
       (Z.odd size = true -> Z.of_nat n = size * size) /\
       n = (2 * (n / 2) + 1)%nat /\
       exists sorted v,
         Sorted Z.le sorted /\ sorted ≡ₚ window /\
         sorted !! (n / 2)%nat = Some v /\
         b !! ((y * width img + x) * 4 + c)%nat = Some v) /\
    (forall k, b !! (4 * k + 3)%nat = a !! (4 * k + 3)%nat).
Proof.
  intros Hv Ha Hsize.
  exists (medianFilter_loop (width img) (height img) (size / 2) a a).
  split; [by apply medianFilter_yields|].
  assert (Hl : length a = (4 * width img * height img)%nat) by apply Hv.
  destruct (pixel_writes_lookup (width img) (height img)
              (λ x y c,
                 let sorted := sort_ascending (neighborhood (width img) (height img) a (size / 2) x y c) in
                 from_option Z2F nan (sorted !! (length sorted / 2)%nat)) a Hl)
    as (_ & Hpix & Halpha).
  split; [|exact Halpha].
  intros x y c Hx Hy Hc window n.
  assert (Hhalf : 0 <= size / 2) by (apply Z.div_pos; lia).
  assert (Hn : Z.of_nat n = (2 * (size / 2) + 1) * (2 * (size / 2) + 1)).
  { subst n window. rewrite length_neighborhood. lia. }
  assert (Hodd : n = (2 * (n / 2) + 1)%nat).
  { assert (E : n = (2 * (2 * Z.to_nat (size / 2) * (Z.to_nat (size / 2) + 1)) + 1)%nat) by nia.
    rewrite E at 2.
    replace (2 * (2 * Z.to_nat (size / 2) * (Z.to_nat (size / 2) + 1)) + 1)%nat
      with (1 + (2 * Z.to_nat (size / 2) * (Z.to_nat (size / 2) + 1)) * 2)%nat by lia.
    rewrite Nat.div_add by lia. simpl. lia. }
  split; [exact Hn|]. split.
  { intros Hos. rewrite Hn.
    assert (size = 2 * (size / 2) + 1); [|congruence].
    rewrite (Z.div_mod size 2) at 1 by lia. rewrite Zmod_odd, Hos. reflexivity. }
  split; [exact Hodd|].
  pose proof (merge_sort_Permutation Z.le window) as Hperm.
  assert (Hlen : length (sort_ascending window) = n).
  { unfold sort_ascending. by rewrite Hperm. }
  destruct (sort_ascending window !! (n / 2)%nat) as [v|] eqn:Ev.
  2:{ apply lookup_ge_None in Ev. lia. }
  exists (sort_ascending window), v.
  split; [apply Sorted_merge_sort; apply _|]. split; [exact Hperm|]. split; [exact Ev|].
  rewrite Hpix by assumption. cbv zeta. fold window. rewrite Hlen, Ev. simpl.
  f_equal. apply clamp_store_byte.
  assert (Hb : Forall is_byte window) by (by apply neighborhood_bytes).
  rewrite Forall_forall in Hb. apply Hb.
  rewrite <- Hperm. by eapply list_elem_of_lookup_2.
Qed.

Lemma valid_3x1 : valid heap_3x1 img_3x1 row_20_10_30.
Proof. unfold valid. simpl. repeat split; try reflexivity; lia. Qed.

Lemma median_is_middle_of_clamped_window_witness :
  exists b,
    yields (medianFilter img_3x1 3) heap_3x1 img_3x1 b /\
    (forall x y c, (x < 3)%nat -> (y < 1)%nat -> (c < 3)%nat ->
       let window := neighborhood 3 1 row_20_10_30 (3 / 2) x y c in
       let n := length window in
       Z.of_nat n = (2 * (3 / 2) + 1) * (2 * (3 / 2) + 1) /\
       (Z.odd 3 = true -> Z.of_nat n = 3 * 3) /\
       n = (2 * (n / 2) + 1)%nat /\
       exists sorted v,
         Sorted Z.le sorted /\ sorted ≡ₚ window /\
         sorted !! (n / 2)%nat = Some v /\
         b !! ((y * 3 + x) * 4 + c)%nat = Some v) /\
    (forall k, b !! (4 * k + 3)%nat = row_20_10_30 !! (4 * k + 3)%nat).
Proof.
  apply (median_is_middle_of_clamped_window img_3x1 3 heap_3x1 row_20_10_30).
  - exact valid_3x1.
  - apply Forall_is_byte_dec. reflexivity.
  - lia.
Defined.

(** C8, as stated, fails at an even size.  On the row of grey levels
    20, 10, 30 with size 2 the filter collects 9 samples for the middle
    pixel, not 2x2, and returns 20; the lower-middle element of the 2x2
    edge-clamped window is 10. *)
Lemma median_even_size_window :
  length (neighborhood 3 1 row_20_10_30 (2 / 2) 1 0 0) = 9%nat /\
  length (window_by_size 3 1 row_20_10_30 2 1 0 0) = (2 * 2)%nat /\
  lower_middle (window_by_size 3 1 row_20_10_30 2 1 0 0) = Some 10 /\
  exists out s' b,
    medianFilter img_3x1 2 heap_3x1 = inr (out, s') /\
    heap s' !! data out = Some (U8 b) /\
    rgb b 1 = [20; 20; 20].
Proof.
  split; [reflexivity|]. split; [reflexivity|]. split; [vm_compute; reflexivity|].
  eexists _, _, _. split; [vm_compute; reflexivity|].
  split; vm_compute; reflexivity.
Qed.

(** ** Sequencing operations *)

Lemma yields_bind (m : M ImageData) (k : ImageData -> M ImageData) s img0 b img b' :
  yields m s img0 b ->
  (forall out s', valid s' out b -> extends s s' ->
                  width out = width img0 -> height out = height img0 ->
                  yields (k out) s' img b') ->
  yields (m ≫= k) s img b'.
Proof.
  intros (out & s' & E & F & V & W & H & X) Hk.
  destruct (Hk out s' V X W H) as (out' & s'' & E' & F' & V' & W' & H' & X').
  exists out', s''. split; [by rewrite (bind_inr _ _ _ _ _ E)|].
  split; [intros Hin; apply F'; by apply (extends_dom s)|].
  split; [exact V'|]. split; [exact W'|]. split; [exact H'|].
  by apply (extends_trans s s' s'').
Qed.

Lemma read_in_clone s a l1 a1 :
  heap s !! l1 = Some (U8 a1) -> read_u8 l1 (cloned s a) = inr (a1, cloned s a).
Proof.
  intros H1. apply read_u8_ok. rewrite cloned_old; [exact H1|]. apply elem_of_dom. eauto.
Qed.

Lemma yields_clone_read1 img s a l1 a1 (f : list Z -> list Z -> list Z) :
  valid s img a -> heap s !! l1 = Some (U8 a1) ->
  (forall o, length (f a1 o) = length o) ->
  yields (out ← cloneImageData img; x ← read_u8 l1; update_data out (f x);; mret out)
         s img (f a1 a).
Proof.
  intros Hv H1 Hl.
  assert (E : (out ← cloneImageData img; x ← read_u8 l1; update_data out (f x);; mret out) s
              = (out ← cloneImageData img; update_data out (f a1);; mret out) s).
  { rewrite !(bind_inr _ _ _ _ _ (cloneImageData_ok _ _ _ Hv)).
    by rewrite (bind_inr (read_u8 l1) _ _ _ _ (read_in_clone s a l1 a1 H1)). }
  unfold yields. rewrite E. by apply yields_clone_update.
Qed.

Lemma yields_clone_read2 img s a l1 a1 l2 a2 (f : list Z -> list Z -> list Z -> list Z) :
  valid s img a -> heap s !! l1 = Some (U8 a1) -> heap s !! l2 = Some (U8 a2) ->
  (forall o, length (f a1 a2 o) = length o) ->
  yields (out ← cloneImageData img; x ← read_u8 l1; y ← read_u8 l2;
          update_data out (f x y);; mret out)
         s img (f a1 a2 a).
Proof.
  intros Hv H1 H2 Hl.
  assert (E : (out ← cloneImageData img; x ← read_u8 l1; y ← read_u8 l2;
               update_data out (f x y);; mret out) s
              = (out ← cloneImageData img; update_data out (f a1 a2);; mret out) s).
  { rewrite !(bind_inr _ _ _ _ _ (cloneImageData_ok _ _ _ Hv)).
    rewrite (bind_inr (read_u8 l1) _ _ _ _ (read_in_clone s a l1 a1 H1)).
    by rewrite (bind_inr (read_u8 l2) _ _ _ _ (read_in_clone s a l2 a2 H2)). }
  unfold yields. rewrite E. by apply yields_clone_update.
Qed.

(** ** Edge detectors *)

Lemma gradient_loop_length gx gy out : length (gradient_loop gx gy out) = length out.
Proof. apply foldl_length. intros o i. apply store3_length. Qed.

Lemma robertsFilter_loop_length w h gray out :
  length (robertsFilter_loop w h gray out) = length out.
Proof.
  apply foldl_length. intros o y. apply foldl_length. intros o' x. apply store3_length.
Qed.

Lemma store3_same_lookup i v out j :
  (i + 3 <= length out)%nat ->
  store (i + 2) v (store (i + 1) v (store i v out)) !! j =
  if decide (i <= j < i + 3)%nat then Some (ToUint8Clamp v) else out !! j.
Proof.
  intros Hi. rewrite store3_lookup by exact Hi.
  destruct (decide (i <= j < i + 3)%nat); [|reflexivity].
  by destruct (j - i)%nat as [|[|d]].
Qed.

Lemma gradient_loop_lookup gx gy (a : list Z) n :
  length a = (4 * n)%nat ->
  let b := gradient_loop gx gy a in
  (forall k c, (k < n)%nat -> (c < 3)%nat ->
     b !! (4 * k + c)%nat
     = Some (ToUint8Clamp (magnitude (sample gx (4 * k)) (sample gy (4 * k))))) /\
  (forall k, b !! (4 * k + 3)%nat = a !! (4 * k + 3)%nat).
Proof.
  intros Hl b. subst b. unfold gradient_loop. rewrite Hl.
  set (V := λ (i c : nat), ToUint8Clamp (magnitude (sample gx i) (sample gy i))).
  set (body := λ (out : list Z) (i : nat),
         let mag := magnitude (sample gx i) (sample gy i) in
         store (i + 2) mag (store (i + 1) mag (store i mag out))).
  assert (Hbl : forall o i, length (body o i) = length o) by (intros; apply store3_length).
  assert (Hbk : forall o i j, (i + 3 <= length o)%nat ->
            body o i !! j = if decide (i <= j < i + 3)%nat then Some (V i (j - i)%nat) else o !! j).
  { intros o i j Hi. unfold body, V. cbv zeta. by apply store3_same_lookup. }
  assert (Hin : forall i, i ∈ steps 0 (4 * n) 4 -> exists k, (k < n)%nat /\ i = (4 * k)%nat).
  { intros i (k & Hk & ->)%in_steps_from; [|lia]. exists k. split; [exact Hk|lia]. }
  split.
  - intros k c Hk Hc.
    apply (write_loop_written 3 (λ i, i) V body ltac:(lia) Hbl Hbk a _ (4 * k)%nat c); auto.
    + apply in_steps_from; [lia|]. exists k. split; [exact Hk|lia].
    + intros i (k' & Hk' & ->)%Hin. lia.
    + intros i (k' & Hk' & ->)%Hin. rewrite Nat.mul_comm. apply Nat.Div0.mod_mul.
  - intros k. apply (write_loop_other 3 (λ i, i) V body Hbl Hbk).
    + intros i (k' & Hk' & ->)%Hin. lia.
    + intros i (k' & Hk' & ->)%Hin. lia.
Qed.

Lemma robertsFilter_loop_lookup w h gray (a : list Z) :
  length a = (4 * w * h)%nat ->
  let b := robertsFilter_loop w h gray a in
  (forall x y c, (x < w - 1)%nat -> (y < h - 1)%nat -> (c < 3)%nat ->
     b !! ((y * w + x) * 4 + c)%nat
     = Some (ToUint8Clamp
               (magnitude
                  (sample gray ((y * w + x) * 4) - sample gray (((y + 1) * w + x + 1) * 4))
                  (sample gray ((y * w + x + 1) * 4) - sample gray (((y + 1) * w + x) * 4))))) /\
  (forall x y c, (x < w)%nat -> (y < h)%nat -> (c < 3)%nat -> (x = w - 1 \/ y = h - 1)%nat ->
     b !! ((y * w + x) * 4 + c)%nat = a !! ((y * w + x) * 4 + c)%nat) /\
  (forall k, b !! (4 * k + 3)%nat = a !! (4 * k + 3)%nat).
Proof.
  intros Hl b. subst b. unfold robertsFilter_loop.
  set (mag := λ (y x : nat),
         magnitude
           (sample gray ((y * w + x) * 4) - sample gray (((y + 1) * w + x + 1) * 4))
           (sample gray ((y * w + x + 1) * 4) - sample gray (((y + 1) * w + x) * 4))).
  rewrite (foldl_pairs (λ o y x,
             store ((y * w + x) * 4 + 2) (mag y x)
               (store ((y * w + x) * 4 + 1) (mag y x) (store ((y * w + x) * 4) (mag y x) o)))).
  set (pos := λ p : nat * nat, ((p.1 * w + p.2) * 4)%nat).
  set (V := λ (p : nat * nat) (c : nat), ToUint8Clamp (mag p.1 p.2)).
  set (body := λ (o : list Z) (p : nat * nat),
         store ((p.1 * w + p.2) * 4 + 2) (mag p.1 p.2)
           (store ((p.1 * w + p.2) * 4 + 1) (mag p.1 p.2)
              (store ((p.1 * w + p.2) * 4) (mag p.1 p.2) o))).
  assert (Hbl : forall o p, length (body o p) = length o) by (intros; apply store3_length).
  assert (Hbk : forall o p j, (pos p + 3 <= length o)%nat ->
            body o p !! j = if decide (pos p <= j < pos p + 3)%nat
                            then Some (V p (j - pos p)%nat) else o !! j).
  { intros o p j Hp. unfold body, V. by apply store3_same_lookup. }
  assert (Hin : forall p, p ∈ pairs (seq 0 (h - 1)) (seq 0 (w - 1)) ->
                          (p.2 < w - 1)%nat /\ (p.1 < h - 1)%nat).
  { intros [y x] [Hy%elem_of_seq Hx%elem_of_seq]%elem_of_pairs. simpl. lia. }
  assert (Hbound : forall p, p ∈ pairs (seq 0 (h - 1)) (seq 0 (w - 1)) ->
                             (pos p + 3 <= length a)%nat).
  { intros p Hp. destruct (Hin p Hp) as [Hx Hy].
    assert (Hx' : (p.2 < w)%nat) by lia. assert (Hy' : (p.1 < h)%nat) by lia.
    pose proof (pixel_index_bound w h _ _ Hx' Hy'). unfold pos. cbv beta. lia. }
  split; [|split].
  - intros x y c Hx Hy Hc.
    apply (write_loop_written 3 pos V body ltac:(lia) Hbl Hbk a _ (y, x) c); auto.
    + apply elem_of_pairs. split; apply elem_of_seq; lia.
    + intros p _. unfold pos. apply Nat.Div0.mod_mul.
    + intros [y' x'] Hp E. destruct (Hin _ Hp) as [Hx' _].
      unfold pos in E. unfold V. cbn [fst snd] in *.
      destruct (pixel_index_inj w x' y' x y) as [-> ->]; [lia|lia|exact E|reflexivity].
  - intros x y c Hx Hy Hc Hedge.
    apply (write_loop_other 3 pos V body Hbl Hbk); [exact Hbound|].
    intros [y' x'] Hp Hr. destruct (Hin _ Hp) as [Hx' Hy'].
    unfold pos in Hr. cbn [fst snd] in *.
    destruct (pixel_index_inj w x' y' x y) as [-> ->]; [lia|lia|lia|lia].
  - intros k. apply (write_loop_other 3 pos V body Hbl Hbk); [exact Hbound|].
    intros p _. unfold pos. cbv beta. lia.
Qed.

Lemma gradientFilter_yields kx ky img s a :
  valid s img a -> kx <> [] -> ky <> [] ->
  let gray := toGrayscale_loop a in
  let gxd := convolve_loop (width img) (height img) kx
               (length (default [] (head kx))) false gray gray in
  let gyd := convolve_loop (width img) (height img) ky
               (length (default [] (head ky))) false gray gray in
  yields (gradientFilter kx ky img) s img (gradient_loop gxd gyd a).
Proof.
  intros Hv Hkx Hky gray gxd gyd. unfold gradientFilter.
  eapply yields_bind; [by apply toGrayscale_yields|].
  intros g s1 Vg X1 Wg Hg. fold gray in Vg.
  eapply yields_bind; [by apply (convolve_yields g kx false s1 gray)|].
  rewrite Wg, Hg. fold gxd.
  intros gx s2 Vgx X2 _ _.
  eapply yields_bind.
  { apply (convolve_yields g ky false s2 gray); [|exact Hky]. by apply (extends_valid s1). }
  rewrite Wg, Hg. fold gyd.
  intros gy s3 Vgy X3 _ _.
  apply (yields_clone_read2 img s3 a (data gx) gxd (data gy) gyd gradient_loop).
  - apply (extends_valid s s3); [|exact Hv].
    by apply (extends_trans s s1 s3), (extends_trans s1 s2 s3).
  - apply (extends_valid s2 s3 gx gxd X3 Vgx).
  - apply Vgy.
  - intros o. apply gradient_loop_length.
Qed.

Lemma robertsFilter_yields img s a :
  valid s img a ->
  yields (robertsFilter img) s img
         (robertsFilter_loop (width img) (height img) (toGrayscale_loop a) a).
Proof.
  intros Hv. unfold robertsFilter.
  eapply yields_bind; [by apply toGrayscale_yields|].
  intros g s1 Vg X1 _ _.
  apply (yields_clone_read1 img s1 a (data g) (toGrayscale_loop a)
           (robertsFilter_loop (width img) (height img))).
  - by apply (extends_valid s).
  - apply Vg.
  - intros o. apply robertsFilter_loop_length.
Qed.

Lemma rgb_all b k m :
  (forall c, (c < 3)%nat -> b !! (4 * k + c)%nat = Some m) -> rgb b k = [m; m; m].
Proof.
  intros H. apply rgb_eq; [rewrite <- (Nat.add_0_r (4 * k))| |]; apply H; lia.
Qed.

(** C5: what the three detectors write.  Each first converts to grey.
    Sobel and Prewitt take, at every pixel, the red samples [gx], [gy] of
    the two unnormalized convolutions of the grey buffer as [convolve]
    stores them (rounded and clamped to [0,255]), and write
    [min(255, sqrt(gx^2 + gy^2))] into the three colours.  Roberts takes
    the two diagonal differences of grey samples and writes
    [min(255, sqrt(gx^2 + gy^2))] into the three colours of the pixels
    that are not in the last column or the last row: its loops stop at
    [width - 1] and [height - 1], and its output starts as a copy of the
    input, not of the grey buffer.  So the pixels of the last column and
    of the last row keep the colours of the input, and where one of them
    is not grey in the input the output of Roberts is not achromatic.
    Alpha is the input's throughout. *)
Theorem edge_detectors_write_magnitude (img : ImageData) (s : state) (a : list Z) :
  valid s img a ->
  let w := width img in
  let h := height img in
  let gray := toGrayscale_loop a in
  let response := λ kernel, convolve_loop w h kernel 3 false gray gray in
  (exists b,
     yields (sobelFilter img) s img b /\
     forall k, (k < w * h)%nat ->
       let m := ToUint8Clamp (magnitude (sample (response sobel_kx) (4 * k))
                                        (sample (response sobel_ky) (4 * k))) in
       rgb b k = [m; m; m] /\ b !! (4 * k + 3)%nat = a !! (4 * k + 3)%nat) /\
  (exists b,
     yields (prewittFilter img) s img b /\
     forall k, (k < w * h)%nat ->
       let m := ToUint8Clamp (magnitude (sample (response prewitt_kx) (4 * k))
                                        (sample (response prewitt_ky) (4 * k))) in
       rgb b k = [m; m; m] /\ b !! (4 * k + 3)%nat = a !! (4 * k + 3)%nat) /\
  (exists b,
     yields (robertsFilter img) s img b /\
     (forall x y, (x < w - 1)%nat -> (y < h - 1)%nat ->
        let gx := (sample gray ((y * w + x) * 4)
                   - sample gray (((y + 1) * w + x + 1) * 4))%float in
        let gy := (sample gray ((y * w + x + 1) * 4)
                   - sample gray (((y + 1) * w + x) * 4))%float in
        let m := ToUint8Clamp (magnitude gx gy) in
        rgb b (y * w + x) = [m; m; m]) /\
     (forall x y, (x < w)%nat -> (y < h)%nat -> (x = w - 1 \/ y = h - 1)%nat ->
        rgb b (y * w + x) = rgb a (y * w + x)) /\
     (forall k, b !! (4 * k + 3)%nat = a !! (4 * k + 3)%nat) /\
     (forall x y, (x < w)%nat -> (y < h)%nat -> (x = w - 1 \/ y = h - 1)%nat ->
        (forall m, rgb a (y * w + x) <> [m; m; m]) -> ~ achromatic b)).
Proof.
  intros Hv w h gray response.
  assert (Hl : length a = (4 * (w * h))%nat).
  { destruct Hv as (_ & Hl & _). subst w h. lia. }
  assert (Hgrad : forall kx ky, kx <> [] -> ky <> [] ->
            length (default [] (head kx)) = 3%nat -> length (default [] (head ky)) = 3%nat ->
            exists b,
              yields (gradientFilter kx ky img) s img b /\
              forall k, (k < w * h)%nat ->
                let m := ToUint8Clamp (magnitude (sample (response kx) (4 * k))
                                                 (sample (response ky) (4 * k))) in
                rgb b k = [m; m; m] /\ b !! (4 * k + 3)%nat = a !! (4 * k + 3)%nat).
  { intros kx ky Hkx Hky H3x H3y.
    pose proof (gradientFilter_yields kx ky img s a Hv Hkx Hky) as Hy.
    cbv zeta in Hy. rewrite H3x, H3y in Hy. fold w h gray in Hy.
    eexists. split; [exact Hy|].
    destruct (gradient_loop_lookup (response kx) (response ky) a (w * h) Hl) as [Hpix Halpha].
    intros k Hk m. split; [|apply Halpha].
    apply rgb_all. intros c Hc. by apply Hpix. }
  split; [apply Hgrad; done|]. split; [apply Hgrad; done|].
  eexists. split; [by apply robertsFilter_yields|].
  destruct (robertsFilter_loop_lookup w h gray a) as (Hin & Hedge & Halpha).
  { destruct Hv as (_ & Hl' & _). exact Hl'. }
  assert (Hborder : forall x y, (x < w)%nat -> (y < h)%nat -> (x = w - 1 \/ y = h - 1)%nat ->
            rgb (robertsFilter_loop w h gray a) (y * w + x) = rgb a (y * w + x)).
  { intros x y Hx Hy He. apply rgb_ext.
    + apply robertsFilter_loop_length.
    + intros c Hc.
      replace (4 * (y * w + x) + c)%nat with ((y * w + x) * 4 + c)%nat by lia.
      by apply Hedge. }
  split; [|split; [exact Hborder|split; [exact Halpha|]]].
  - intros x y Hx Hy gx gy m. apply rgb_all. intros c Hc.
    replace (4 * (y * w + x) + c)%nat with ((y * w + x) * 4 + c)%nat by lia.
    by apply Hin.
  - intros x y Hx Hy He Hcol Hach.
    destruct (Hach (y * w + x)%nat) as [v Ev].
    + rewrite robertsFilter_loop_length, Hl.
      pose proof (pixel_index_bound w h x y Hx Hy). lia.
    + rewrite Hborder in Ev by assumption. by apply (Hcol v).
Qed.

Lemma valid_2x2 a : length a = 16%nat -> valid (heap_2x2 a) img_2x2 a.
Proof. intros Hl. unfold valid. simpl. repeat split; lia. Qed.

Lemma edge_detectors_write_magnitude_witness :
  let w := 2%nat in
  let h := 2%nat in
  let gray := toGrayscale_loop colours_2x2 in
  let response := λ kernel, convolve_loop w h kernel 3 false gray gray in
  (exists b,
     yields (sobelFilter img_2x2) (heap_2x2 colours_2x2) img_2x2 b /\
     forall k, (k < w * h)%nat ->
       let m := ToUint8Clamp (magnitude (sample (response sobel_kx) (4 * k))
                                        (sample (response sobel_ky) (4 * k))) in
       rgb b k = [m; m; m] /\ b !! (4 * k + 3)%nat = colours_2x2 !! (4 * k + 3)%nat) /\
  (exists b,
     yields (prewittFilter img_2x2) (heap_2x2 colours_2x2) img_2x2 b /\
     forall k, (k < w * h)%nat ->
       let m := ToUint8Clamp (magnitude (sample (response prewitt_kx) (4 * k))
                                        (sample (response prewitt_ky) (4 * k))) in
       rgb b k = [m; m; m] /\ b !! (4 * k + 3)%nat = colours_2x2 !! (4 * k + 3)%nat) /\
  (exists b,
     yields (robertsFilter img_2x2) (heap_2x2 colours_2x2) img_2x2 b /\
     (forall x y, (x < w - 1)%nat -> (y < h - 1)%nat ->
        let gx := (sample gray ((y * w + x) * 4)
                   - sample gray (((y + 1) * w + x + 1) * 4))%float in
        let gy := (sample gray ((y * w + x + 1) * 4)
                   - sample gray (((y + 1) * w + x) * 4))%float in
        let m := ToUint8Clamp (magnitude gx gy) in
        rgb b (y * w + x) = [m; m; m]) /\
     (forall x y, (x < w)%nat -> (y < h)%nat -> (x = w - 1 \/ y = h - 1)%nat ->
        rgb b (y * w + x) = rgb colours_2x2 (y * w + x)) /\
     (forall k, b !! (4 * k + 3)%nat = colours_2x2 !! (4 * k + 3)%nat) /\
     (forall x y, (x < w)%nat -> (y < h)%nat -> (x = w - 1 \/ y = h - 1)%nat ->
        (forall m, rgb colours_2x2 (y * w + x) <> [m; m; m]) -> ~ achromatic b)).
Proof.
  apply (edge_detectors_write_magnitude img_2x2 (heap_2x2 colours_2x2) colours_2x2).
  apply valid_2x2. reflexivity.
Defined.

(** C5 on a 2x2 buffer: Roberts writes the magnitude into the top-left
    pixel only; the other three pixels keep their colours, (10,50,10) and
    (0,0,90) are not grey, and [isGrayscale] answers [false] on the
    output.  Sobel and Prewitt overwrite all four pixels of the same
    buffer, and [isGrayscale] answers [true] on their outputs. *)
Lemma roberts_border_keeps_colour :
  (exists out s',
     robertsFilter img_2x2 (heap_2x2 colours_2x2) = inr (out, s') /\
     heap s' !! data out
     = Some (U8 [33; 33; 33; 255;  0; 0; 0; 255;  10; 50; 10; 255;  0; 0; 90; 255]) /\
     exists s'', isGrayscale out s' = inr (false, s'')) /\
  (exists out s' s'',
     sobelFilter img_2x2 (heap_2x2 colours_2x2) = inr (out, s') /\
     isGrayscale out s' = inr (true, s'')) /\
  (exists out s' s'',
     prewittFilter img_2x2 (heap_2x2 colours_2x2) = inr (out, s') /\
     isGrayscale out s' = inr (true, s'')).
Proof.
  split; [|split].
  - eexists _, _. split; [vm_compute; reflexivity|].
    split; [vm_compute; reflexivity|]. eexists. vm_compute. reflexivity.
  - eexists _, _, _. split; vm_compute; reflexivity.
  - eexists _, _, _. split; vm_compute; reflexivity.
Qed.

(** The responses that Sobel and Prewitt combine are the stored ones: on
    a bright-to-dark vertical edge the horizontal response of Prewitt is
    negative, is stored as 0, and the output is black. *)
Lemma prewitt_negative_response_is_dropped :
  exists out s',
    prewittFilter img_2x2
      (heap_2x2 [10; 10; 10; 255;  0; 0; 0; 255;  10; 10; 10; 255;  0; 0; 0; 255])
    = inr (out, s') /\
    heap s' !! data out
    = Some (U8 [0; 0; 0; 255;  0; 0; 0; 255;  0; 0; 0; 255;  0; 0; 0; 255]).
Proof.
  eexists _, _. split; vm_compute; reflexivity.
Qed.

(** ** Spectra in the heap *)

Lemma read_rows_ok s ls m : rows_in s ls m -> read_rows ls s = inr (m, s).
Proof.
  induction 1 as [|l row ls m Hl _ IH]; [reflexivity|]. simpl.
  unfold mbind, M_bind, read_f64. rewrite Hl, IH. reflexivity.
Qed.

Lemma alloc_extends c s l s' : alloc c s = inr (l, s') ->
  (l ∉ dom (heap s)) /\ heap s' !! l = Some c /\ extends s s' /\ draws s' = draws s.
Proof.
  unfold alloc. intros H. inversion H; subst. clear H. simpl.
  split; [apply fresh_not_in|]. split; [apply lookup_insert_eq|].
  split; [apply extends_insert_fresh|reflexivity].
Qed.

Lemma alloc_rows_ok (m : matrix) : forall s,
  exists ls s', alloc_rows m s = inr (ls, s') /\
    rows_in s' ls m /\ extends s s' /\ draws s' = draws s /\
    Forall (λ l, l ∉ dom (heap s)) ls.
Proof.
  induction m as [|row m IH]; intros s.
  - exists [], s. simpl. split; [reflexivity|]. split; [constructor|].
    split; [apply extends_refl|]. split; [reflexivity|constructor].
  - simpl. destruct (alloc (F64 row) s) as [e|[l s1]] eqn:Ea; [discriminate Ea|].
    destruct (alloc_extends _ _ _ _ Ea) as (Hf & Hl & X1 & D1).
    destruct (IH s1) as (ls & s2 & E & Hr & X2 & D2 & Hfs).
    exists (l :: ls), s2. unfold mbind, M_bind. rewrite Ea, E.
    split; [reflexivity|]. split.
    { constructor; [|exact Hr]. rewrite (X2 l); [exact Hl|]. apply elem_of_dom. eauto. }
    split; [by apply (extends_trans s s1 s2)|]. split; [congruence|].
    constructor; [exact Hf|].
    eapply Forall_impl; [exact Hfs|]. intros l' Hn Hin. apply Hn. by apply (extends_dom s).
Qed.

Lemma rows_in_extends s s' ls m : extends s s' -> rows_in s ls m -> rows_in s' ls m.
Proof.
  intros X H. eapply Forall2_impl; [exact H|]. intros l row Hl. simpl in *.
  rewrite (X l); [exact Hl|]. apply elem_of_dom. eauto.
Qed.

Lemma valid_spectrum_extends s s' fft mre mim :
  extends s s' -> valid_spectrum s fft mre mim -> valid_spectrum s' fft mre mim.
Proof.
  intros X (H1 & H2 & H3). split; [by apply (rows_in_extends s)|].
  split; [by apply (rows_in_extends s)|exact H3].
Qed.

(** ** Loops that update a list in place, index by index *)

Lemma foldl_alter_lookup {A} (upd : nat -> A -> A) (l : list A) (n i : nat) :
  foldl (λ l i, alter (upd i) i l) l (seq 0 n) !! i
  = if decide (i < n)%nat then upd i <$> (l !! i) else l !! i.
Proof.
  induction n as [|n IH]; [reflexivity|].
  rewrite seq_S, foldl_snoc. simpl.
  destruct (decide (i = n)) as [->|Hne].
  - rewrite list_lookup_alter_eq, IH.
    rewrite decide_False by lia. by rewrite decide_True by lia.
  - rewrite list_lookup_alter_ne by done. rewrite IH.
    destruct (decide (i < n)%nat); [by rewrite decide_True by lia|by rewrite decide_False by lia].
Qed.

Lemma foldl_alter_length {A} (upd : nat -> A -> A) (l : list A) (idxs : list nat) :
  length (foldl (λ l i, alter (upd i) i l) l idxs) = length l.
Proof.
  revert l. induction idxs as [|i idxs IH]; intros l; [reflexivity|].
  simpl. by rewrite IH, length_alter.
Qed.

Lemma insert_get_alter (g : float -> float) (row : list float) (x : nat) :
  <[x := g (f64_get row x)]> row = alter g x row.
Proof.
  unfold f64_get. destruct (row !! x) as [v|] eqn:E.
  - simpl. apply list_eq. intros j. destruct (decide (j = x)) as [->|Hne].
    + rewrite list_lookup_insert_eq by (by eapply lookup_lt_Some).
      by rewrite list_lookup_alter_eq, E.
    + rewrite list_lookup_insert_ne by done. by rewrite list_lookup_alter_ne by done.
  - apply lookup_ge_None in E. rewrite list_insert_ge by exact E.
    apply list_eq. intros j. destruct (decide (j = x)) as [->|Hne].
    + rewrite list_lookup_alter_eq. by rewrite !lookup_ge_None_2.
    + by rewrite list_lookup_alter_ne.
Qed.

(** ** Radial masking *)

Lemma length_masked_row type radius w h y n row :
  length (masked_row type radius w h y n row) = length row.
Proof. apply (foldl_alter_length (λ x v, v * pass type radius w h x y)%float). Qed.

Lemma length_masked type radius w h n m : length (masked type radius w h n m) = length m.
Proof. apply (foldl_alter_length (λ y, masked_row type radius w h y w)). Qed.

Lemma mask_inner type radius w h y n (m : matrix) :
  (y < length m)%nat ->
  foldl (λ (acc : option matrix) x,
           m ← acc; v ← entry m y x;
           Some (set_entry m y x (v * pass type radius w h x y)%float))
        (Some m) (seq 0 n)
  = Some (alter (masked_row type radius w h y n) y m).
Proof.
  intros Hy. induction n as [|n IH].
  - simpl. f_equal. symmetry. by apply list_alter_id.
  - rewrite seq_S, foldl_snoc, IH. simpl.
    destruct (lookup_lt_is_Some_2 m y Hy) as [row Hrow].
    unfold entry. rewrite list_lookup_alter_eq, Hrow. simpl.
    f_equal. unfold set_entry. rewrite list_alter_alter_eq.
    apply list_alter_ext; [|reflexivity]. intros row' Hrow' . simpl.
    unfold masked_row. rewrite seq_S, foldl_snoc. simpl.
    rewrite Hrow in Hrow'. inversion Hrow'; subst row'.
    apply (insert_get_alter (λ v, v * pass type radius w h n y)%float).
Qed.

Lemma mask_outer type radius w h n (m : matrix) :
  (n <= length m)%nat ->
  foldl (λ (acc : option matrix) y,
    foldl (λ (acc : option matrix) x,
      m ← acc; v ← entry m y x;
      Some (set_entry m y x (v * pass type radius w h x y)%float))
      acc (seq 0 w))
    (Some m) (seq 0 n)
  = Some (masked type radius w h n m).
Proof.
  unfold masked. induction n as [|n IH]; intros Hn; [reflexivity|].
  rewrite !seq_S, !foldl_snoc, IH by lia. simpl.
  apply mask_inner. fold (masked type radius w h n m). rewrite length_masked. lia.
Qed.

Lemma mask_loop_masked type radius w h (m : matrix) :
  (h <= length m)%nat -> mask_loop type radius w h m = Some (masked type radius w h h m).
Proof. apply mask_outer. Qed.

Lemma masked_lookup type radius w h (m : matrix) y x row v :
  (y < h)%nat -> (x < w)%nat -> m !! y = Some row -> row !! x = Some v ->
  exists row', masked type radius w h h m !! y = Some row' /\
               row' !! x = Some (v * pass type radius w h x y)%float.
Proof.
  intros Hy Hx Hrow Hv. exists (masked_row type radius w h y w row). split.
  - unfold masked. rewrite (foldl_alter_lookup (λ y, masked_row type radius w h y w)).
    rewrite decide_True by exact Hy. by rewrite Hrow.
  - unfold masked_row.
    rewrite (foldl_alter_lookup (λ x v, v * pass type radius w h x y)%float).
    rewrite decide_True by exact Hx. by rewrite Hv.
Qed.

Lemma masked_shape type radius w h (m : matrix) :
  Forall (λ row, length row = w) m ->
  Forall (λ row, length row = w) (masked type radius w h h m).
Proof.
  intros H. apply Forall_lookup. intros y row' Hrow'.
  unfold masked in Hrow'.
  rewrite (foldl_alter_lookup (λ y, masked_row type radius w h y w)) in Hrow'.
  rewrite Forall_lookup in H.
  destruct (decide (y < h)%nat).
  - destruct (m !! y) as [row|] eqn:E; [|discriminate]. simpl in Hrow'.
    inversion Hrow'; subst. rewrite length_masked_row. by apply (H y).
  - by apply (H y).
Qed.

Lemma applyFrequencyFilter_spec fft radius type s mre mim :
  valid_spectrum s fft mre mim ->
  exists out s',
    applyFrequencyFilter fft radius type s = inr (out, s') /\
    valid_spectrum s' out
      (masked type radius (fft_width fft) (fft_height fft) (fft_height fft) mre)
      (masked type radius (fft_width fft) (fft_height fft) (fft_height fft) mim) /\
    fft_width out = fft_width fft /\ fft_height out = fft_height fft /\
    originalWidth out = originalWidth fft /\ originalHeight out = originalHeight fft /\
    Forall (λ l, l ∉ dom (heap s)) (re out ++ im out) /\
    extends s s'.
Proof.
  intros (Hre & Him & Hlre & Hlim & Hwre & Hwim).
  unfold applyFrequencyFilter.
  rewrite (bind_inr _ _ _ _ _ (read_rows_ok _ _ _ Hre)).
  rewrite (bind_inr _ _ _ _ _ (read_rows_ok _ _ _ Him)).
  rewrite !mask_loop_masked by lia. simpl.
  set (w := fft_width fft). set (h := fft_height fft).
  unfold mbind at 1, M_bind at 1, mret at 1, M_ret at 1.
  unfold mbind at 1, M_bind at 1, mret at 1, M_ret at 1.
  destruct (alloc_rows_ok (masked type radius w h h mre) s) as (lre & s1 & E1 & R1 & X1 & _ & F1).
  destruct (alloc_rows_ok (masked type radius w h h mim) s1) as (lim & s2 & E2 & R2 & X2 & _ & F2).
  rewrite (bind_inr _ _ _ _ _ E1), (bind_inr _ _ _ _ _ E2).
  eexists _, s2. split; [reflexivity|]. simpl.
  split.
  { split; [by apply (rows_in_extends s1)|]. split; [exact R2|].
    rewrite !length_masked. repeat split; auto using masked_shape. }
  repeat split; try reflexivity.
  - apply Forall_app. split; [exact F1|].
    eapply Forall_impl; [exact F2|]. intros l Hn Hin. apply Hn. by apply (extends_dom s).
  - by apply (extends_trans s s1 s2).
Qed.

Lemma valid_spectrum_1x1 :
  valid_spectrum heap_spectrum_1x1 spectrum_1x1 [[128%float]] [[0%float]].
Proof.
  unfold valid_spectrum, rows_in. simpl.
  repeat split; try reflexivity; repeat constructor.
Qed.

(** ** Every operation returns a well-formed buffer *)


Lemma offsets_nonempty half : 0 <= half -> offsets half <> [].
Proof.
  intros Hh E. apply (f_equal length) in E. rewrite length_offsets in E. simpl in E. lia.
Qed.

Lemma gaussianFilter_yields `{ML : MathLib} img size s a :
  valid s img a -> 0 <= size -> exists b, yields (gaussianFilter img size) s img b.
Proof.
  intros Hv Hs. eexists. unfold gaussianFilter. apply convolve_yields; [exact Hv|].
  unfold gaussian_kernel. intros E. apply fmap_nil_inv in E.
  revert E. apply offsets_nonempty. apply Z.div_pos; lia.
Qed.

Lemma canny_threshold_length w h suppressed maxMag out :
  length (canny_threshold w h suppressed maxMag out) = length out.
Proof.
  unfold canny_threshold. apply foldl_length. intros o y.
  apply foldl_length. intros o' x. by rewrite !length_store.
Qed.

Lemma canny_loop_length `{ML : MathLib} w h gx gy out :
  length (canny_loop w h gx gy out) = length out.
Proof.
  unfold canny_loop. destruct (canny_gradient w h gx gy) as [[mag dir] mx].
  apply canny_threshold_length.
Qed.




(** ** The inverse transform returns a buffer *)

Lemma foldl_invariant {A B} (P : A -> Prop) (f : A -> B -> A) (a : A) (l : list B) :
  P a -> (forall a x, P a -> P (f a x)) -> P (foldl f a l).
Proof.
  intros Ha Hf. revert a Ha. induction l as [|x l IH]; intros a Ha; simpl; auto.
Qed.

Lemma swap_length a i j : length (swap a i j) = length a.
Proof. unfold swap. by rewrite !length_insert. Qed.

Lemma bit_reversal_length n re0 im0 :
  length (bit_reversal n re0 im0).1 = length re0 /\
  length (bit_reversal n re0 im0).2 = length im0.
Proof.
  unfold bit_reversal.
  match goal with
  | |- context [foldl ?f ?a ?l] =>
      pose proof (foldl_invariant
                    (λ st : Z * list float * list float,
                       length st.1.2 = length re0 /\ length st.2 = length im0) f a l) as H
  end.
  destruct (foldl _ _ _) as [[j re1] im1]. cbn [fst snd] in *. apply H; [done|].
  intros [[j' r] i] x [Hr Hi]. cbn [fst snd] in *.
  destruct (clear_bits 32 j' _) as [j2 bit].
  destruct (Z.of_nat x <? _); cbn [fst snd]; by rewrite ?swap_length.
Qed.

Lemma int32_small z : - 2 ^ 31 <= z < 2 ^ 31 -> int32 z = z.
Proof. intros Hz. unfold int32. rewrite Z.mod_small; lia. Qed.

Section FFTShape.
Context `{ML : MathLib}.

Lemma butterflies_length len i wRe wIm re0 im0 :
  length (butterflies len i wRe wIm re0 im0).1 = length re0 /\
  length (butterflies len i wRe wIm re0 im0).2 = length im0.
Proof.
  unfold butterflies.
  match goal with
  | |- context [foldl ?f ?a ?l] =>
      pose proof (foldl_invariant
                    (λ st : float * float * list float * list float,
                       length st.1.2 = length re0 /\ length st.2 = length im0) f a l) as H
  end.
  destruct (foldl _ _ _) as [[[cr ci] re1] im1]. cbn [fst snd] in *. apply H; [done|].
  intros [[[cr' ci'] r] i'] x [Hr Hi]. cbn [fst snd] in *. by rewrite !length_insert.
Qed.

Lemma stages_total n invert : forall turns len re0 im0,
  0 < len -> Z.of_nat n < 2 ^ 30 -> Z.of_nat n < len * 2 ^ Z.of_nat turns ->
  exists re1 im1, stages turns n invert len re0 im0 = Some (re1, im1) /\
                  length re1 = length re0 /\ length im1 = length im0.
Proof.
  induction turns as [|turns IH]; intros len re0 im0 Hlen Hn Hlt.
  - simpl in *. replace (Z.of_nat n <? len) with true by (symmetry; apply Z.ltb_lt; lia).
    eauto.
  - simpl. destruct (Z.of_nat n <? len) eqn:E; [eauto|].
    apply Z.ltb_ge in E.
    replace (len <=? 0) with false by (symmetry; apply Z.leb_gt; lia).
    match goal with
    | |- context [foldl ?f ?a ?l] =>
        pose proof (foldl_invariant
                      (λ st : list float * list float,
                         length st.1 = length re0 /\ length st.2 = length im0) f a l) as H
    end.
    destruct (foldl _ _ _) as [re1 im1]. simpl in H.
    destruct H as [Hr Hi]; [done| |].
    { intros [r i] x [Hr Hi]. simpl in *.
      destruct (butterflies_length (Z.to_nat len) x
                  (Math_cos (2 * Math_PI / Z2F len * (if invert then -1 else 1))%float)
                  (Math_sin (2 * Math_PI / Z2F len * (if invert then -1 else 1))%float) r i)
        as [H1 H2].
      destruct (butterflies _ _ _ _ r i) as [r' i']. simpl in *. split; congruence. }
    rewrite int32_small by lia.
    destruct (IH (len * 2) re1 im1) as (re2 & im2 & E2 & Hr2 & Hi2); [lia|lia| |].
    { rewrite Nat2Z.inj_succ, Z.pow_succ_r in Hlt by lia. lia. }
    exists re2, im2. split; [exact E2|]. split; congruence.
Qed.

Lemma fft1d_total re0 im0 invert :
  Z.of_nat (length re0) < 2 ^ 30 ->
  exists re1 im1, fft1d re0 im0 invert = Some (re1, im1) /\
                  length re1 = length re0 /\ length im1 = length im0.
Proof.
  intros Hn. unfold fft1d. destruct (length re0 <=? 1)%nat; [eauto|].
  destruct (bit_reversal_length (length re0) re0 im0) as [Hr Hi].
  destruct (bit_reversal (length re0) re0 im0) as [re1 im1]. cbn [fst snd] in *.
  destruct (stages_total (length re0) invert 32 2 re1 im1) as (re2 & im2 & -> & Hr2 & Hi2);
    [lia|exact Hn| |].
  { change (2 * 2 ^ Z.of_nat 32) with (2 ^ 30 * 8). lia. }
  destruct invert; eexists _, _; (split; [reflexivity|]); rewrite ?length_fmap; split; congruence.
Qed.

Lemma shaped_insert w h (m : matrix) y row :
  shaped w h m -> length row = w -> shaped w h (<[y := row]> m).
Proof.
  intros [Hl Hw] Hr. split; [by rewrite length_insert|].
  apply Forall_insert; assumption.
Qed.

Lemma shaped_set_entry w h (m : matrix) y x v :
  shaped w h m -> shaped w h (set_entry m y x v).
Proof.
  intros [Hl Hw]. unfold set_entry. split; [by rewrite length_alter|].
  apply Forall_alter; [exact Hw|]. intros row Hr. by rewrite length_insert.
Qed.

Lemma shaped_row w h (m : matrix) y :
  shaped w h m -> (y < h)%nat -> exists row, m !! y = Some row /\ length row = w.
Proof.
  intros [Hl Hw] Hy. destruct (lookup_lt_is_Some_2 m y) as [row Hrow]; [lia|].
  exists row. split; [exact Hrow|]. rewrite Forall_lookup in Hw. by apply (Hw y).
Qed.

Lemma fft_rows_total w h invert (mre mim : matrix) :
  Z.of_nat w < 2 ^ 30 -> shaped w h mre -> shaped w h mim ->
  exists mre' mim', fft_rows h invert mre mim = Some (mre', mim') /\
                    shaped w h mre' /\ shaped w h mim'.
Proof.
  intros Hw Sre Sim. unfold fft_rows.
  assert (H : forall n, (n <= h)%nat ->
            exists mre' mim',
              foldl (λ (acc : option (matrix * matrix)) y,
                       match acc with
                       | None => None
                       | Some (mre, mim) =>
                           rowRe ← mre !! y;
                           rowIm ← mim !! y;
                           match fft1d rowRe rowIm invert with
                           | None => None
                           | Some (r, i) => Some (<[y := r]> mre, <[y := i]> mim)
                           end
                       end) (Some (mre, mim)) (seq 0 n) = Some (mre', mim') /\
              shaped w h mre' /\ shaped w h mim').
  { induction n as [|n IH]; intros Hn; [by exists mre, mim|].
    destruct IH as (m1 & m2 & E & S1 & S2); [lia|].
    rewrite seq_S, foldl_snoc, E. simpl.
    destruct (shaped_row w h m1 n S1) as (r1 & -> & L1); [lia|].
    destruct (shaped_row w h m2 n S2) as (r2 & -> & L2); [lia|]. simpl.
    destruct (fft1d_total r1 r2 invert) as (r1' & r2' & -> & L1' & L2'); [lia|].
    eexists _, _. split; [reflexivity|].
    split; apply shaped_insert; auto; congruence. }
  by apply H.
Qed.

Lemma column_total w h (m : matrix) x :
  shaped w h m -> exists col, mapM (λ y, entry m y x) (seq 0 h) = Some col /\ length col = h.
Proof.
  intros Sm.
  destruct (mapM (λ y, entry m y x) (seq 0 h)) as [col|] eqn:E.
  - exists col. split; [reflexivity|]. apply length_mapM in E. by rewrite length_seq in E.
  - exfalso. apply mapM_None in E. apply Exists_exists in E as (y & Hy & Hn).
    apply elem_of_seq in Hy. destruct (shaped_row w h m y Sm) as (row & Hrow & _); [lia|].
    unfold entry in Hn. by rewrite Hrow in Hn.
Qed.

Lemma fft_cols_total w h invert (mre mim : matrix) :
  Z.of_nat h < 2 ^ 30 -> shaped w h mre -> shaped w h mim ->
  exists mre' mim', fft_cols w h invert mre mim = Some (mre', mim') /\
                    shaped w h mre' /\ shaped w h mim'.
Proof.
  intros Hh Sre Sim. unfold fft_cols.
  assert (H : forall n,
            exists mre' mim',
              foldl (λ (acc : option (matrix * matrix)) x,
                       match acc with
                       | None => None
                       | Some (mre, mim) =>
                           colRe ← mapM (λ y, entry mre y x) (seq 0 h);
                           colIm ← mapM (λ y, entry mim y x) (seq 0 h);
                           match fft1d colRe colIm invert with
                           | None => None
                           | Some (colRe, colIm) =>
                               Some (foldl (λ '(mre, mim) y,
                                              (set_entry mre y x (f64_get colRe y),
                                               set_entry mim y x (f64_get colIm y)))
                                           (mre, mim) (seq 0 h))
                           end
                       end) (Some (mre, mim)) (seq 0 n) = Some (mre', mim') /\
              shaped w h mre' /\ shaped w h mim').
  { induction n as [|n IH]; [by exists mre, mim|].
    destruct IH as (m1 & m2 & E & S1 & S2).
    rewrite seq_S, foldl_snoc, E. simpl.
    destruct (column_total w h m1 n S1) as (c1 & -> & L1).
    destruct (column_total w h m2 n S2) as (c2 & -> & L2). simpl.
    destruct (fft1d_total c1 c2 invert) as (c1' & c2' & -> & _ & _); [lia|].
    match goal with
    | |- context [foldl ?f ?a ?l] =>
        pose proof (foldl_invariant
                      (λ st : matrix * matrix, shaped w h st.1 /\ shaped w h st.2) f a l) as H;
        destruct (foldl f a l) as [m1' m2']
    end. simpl in H.
    exists m1', m2'. split; [reflexivity|]. apply H; [done|].
    intros [a1 a2] y [Ha1 Ha2]. simpl in *. split; by apply shaped_set_entry. }
  apply H.
Qed.

Lemma ifft2d_loop_total w h ow oh (mre : matrix) (out : list Z) :
  shaped w h mre -> (oh <= h)%nat ->
  exists out', ifft2d_loop ow oh mre out = Some out' /\ length out' = length out.
Proof.
  intros Sm Hoh. unfold ifft2d_loop.
  assert (H : forall n, (n <= oh)%nat ->
            exists out',
              foldl (λ (acc : option (list Z)) y,
                foldl (λ (acc : option (list Z)) x,
                  out ← acc;
                  v ← entry mre y x;
                  let val := Math_max 0 (Math_min 255 (Math_round (PrimFloat.abs v))) in
                  let idx := ((y * ow + x) * 4)%nat in
                  Some (store (idx + 3) 255
                          (store (idx + 2) val (store (idx + 1) val (store idx val out)))))
                  acc (seq 0 ow))
                (Some out) (seq 0 n) = Some out' /\ length out' = length out).
  { induction n as [|n IH]; intros Hn; [by exists out|].
    destruct IH as (o1 & E & L1); [lia|].
    rewrite seq_S, foldl_snoc, E. simpl.
    destruct (shaped_row w h mre n Sm) as (row & Hrow & _); [lia|].
    match goal with
    | |- context [foldl ?f ?a ?l] =>
        pose proof (foldl_invariant
                      (λ acc : option (list Z),
                         exists o, acc = Some o /\ length o = length out) f a l) as H
    end.
    destruct H as (o2 & -> & L2); [by exists o1| |by exists o2].
    intros acc x (o & -> & Lo). simpl. unfold entry. rewrite Hrow. simpl.
    eexists. split; [reflexivity|]. by rewrite !length_store. }
  by apply H.
Qed.

End FFTShape.

Section Inverse.
Context `{ML : MathLib}.

(** The sample that [ifft2d] writes for the coefficient [v]. *)
Lemma ifft2d_loop_lookup w h ow oh (mre : matrix) (a : list Z) :
  shaped w h mre -> (oh <= h)%nat -> length a = (4 * ow * oh)%nat ->
  exists b,
    ifft2d_loop ow oh mre a = Some b /\ length b = length a /\
    forall x y, (x < ow)%nat -> (y < oh)%nat ->
      exists v,
        entry mre y x = Some v /\
        (forall c, (c < 3)%nat ->
           b !! ((y * ow + x) * 4 + c)%nat
           = Some (ToUint8Clamp (Math_max 0 (Math_min 255 (Math_round (PrimFloat.abs v)))))) /\
        b !! ((y * ow + x) * 4 + 3)%nat = Some 255.
Proof.
  intros Sm Hoh Hl.
  set (val := λ p : nat * nat,
         Math_max 0 (Math_min 255 (Math_round (PrimFloat.abs (f64_get (mre !!! p.1) p.2))))).
  set (pos := λ p : nat * nat, ((p.1 * ow + p.2) * 4)%nat).
  set (V := λ (p : nat * nat) (c : nat), if (c <? 3)%nat then ToUint8Clamp (val p) else 255).
  set (body := λ (o : list Z) (p : nat * nat),
         store (pos p + 3) 255
           (store (pos p + 2) (val p) (store (pos p + 1) (val p) (store (pos p) (val p) o)))).
  assert (Hbl : forall o p, length (body o p) = length o)
    by (intros; unfold body; by rewrite !length_store).
  assert (Hbk : forall o p j, (pos p + 4 <= length o)%nat ->
            body o p !! j = if decide (pos p <= j < pos p + 4)%nat
                            then Some (V p (j - pos p)%nat) else o !! j).
  { intros o p j Hp. unfold body, V.
    destruct (decide (pos p <= j < pos p + 4)%nat) as [Hj|Hj]; [|by stores].
    destruct (j - pos p)%nat as [|[|[|[|d]]]] eqn:E; [| | | |lia].
    - replace j with (pos p) by lia. by stores.
    - replace j with (pos p + 1)%nat by lia. by stores.
    - replace j with (pos p + 2)%nat by lia. by stores.
    - replace j with (pos p + 3)%nat by lia. by stores. }
  assert (Hrun : forall l o, (forall p, p ∈ l -> (p.1 < h)%nat) ->
            foldl (λ (acc : option (list Z)) (p : nat * nat),
                     out ← acc;
                     v ← entry mre p.1 p.2;
                     let val := Math_max 0 (Math_min 255 (Math_round (PrimFloat.abs v))) in
                     let idx := ((p.1 * ow + p.2) * 4)%nat in
                     Some (store (idx + 3) 255
                             (store (idx + 2) val (store (idx + 1) val (store idx val out)))))
                  (Some o) l
            = Some (foldl body o l)).
  { induction l as [|p l IH]; intros o Hp; [reflexivity|].
    cbn [foldl]. destruct (shaped_row w h mre p.1 Sm) as (row & Hrow & _); [apply Hp; by left|].
    assert (E : entry mre p.1 p.2 = Some (f64_get (mre !!! p.1) p.2)).
    { unfold entry. by rewrite Hrow, (list_lookup_total_correct _ _ _ Hrow). }
    rewrite E. cbn [mbind option_bind].
    rewrite IH by (intros q Hq; apply Hp; by right). reflexivity. }
  assert (Hin : forall p, p ∈ pairs (seq 0 oh) (seq 0 ow) -> (p.2 < ow)%nat /\ (p.1 < oh)%nat).
  { intros [y x] [Hy%elem_of_seq Hx%elem_of_seq]%elem_of_pairs. simpl. lia. }
  assert (Hbound : forall p, p ∈ pairs (seq 0 oh) (seq 0 ow) -> (pos p + 4 <= length a)%nat).
  { intros p Hp. destruct (Hin p Hp) as [Hx Hy].
    pose proof (pixel_index_bound ow oh _ _ Hx Hy). unfold pos. cbv beta. lia. }
  exists (foldl body a (pairs (seq 0 oh) (seq 0 ow))).
  split.
  { unfold ifft2d_loop.
    rewrite (foldl_pairs (λ (acc : option (list Z)) y x,
               out ← acc;
               v ← entry mre y x;
               let val := Math_max 0 (Math_min 255 (Math_round (PrimFloat.abs v))) in
               let idx := ((y * ow + x) * 4)%nat in
               Some (store (idx + 3) 255
                       (store (idx + 2) val (store (idx + 1) val (store idx val out)))))).
    apply Hrun. intros p Hp. destruct (Hin p Hp). lia. }
  split; [apply (write_loop_length body Hbl)|].
  intros x y Hx Hy.
  destruct (shaped_row w h mre y Sm) as (row & Hrow & _); [lia|].
  exists (f64_get row x). split; [unfold entry; by rewrite Hrow|].
  assert (Hw : forall c, (c < 4)%nat ->
            foldl body a (pairs (seq 0 oh) (seq 0 ow)) !! ((y * ow + x) * 4 + c)%nat
            = Some (V (y, x) c)).
  { intros c Hc.
    change ((y * ow + x) * 4 + c)%nat with (pos (y, x) + c)%nat.
    apply (write_loop_written 4 pos V body ltac:(lia) Hbl Hbk a _ (y, x) c);
      [|exact Hc|exact Hbound| |].
    - apply elem_of_pairs. split; apply elem_of_seq; lia.
    - intros p _. unfold pos. apply Nat.Div0.mod_mul.
    - intros [y' x'] Hp E. destruct (Hin _ Hp) as [Hx' _].
      unfold pos in E. unfold V, val. cbn [fst snd] in *.
      destruct (pixel_index_inj ow x' y' x y Hx' Hx E) as [-> ->]. reflexivity. }
  split.
  - intros c Hc. rewrite Hw by lia. unfold V, val. cbn [fst snd].
    rewrite (list_lookup_total_correct _ _ _ Hrow).
    by replace (c <? 3)%nat with true by (symmetry; apply Nat.ltb_lt; lia).
  - rewrite Hw by lia. reflexivity.
Qed.

Lemma ifft2d_result fft s mre mim :
  valid_spectrum s fft mre mim ->
  (0 < originalWidth fft)%nat -> (0 < originalHeight fft)%nat ->
  (originalHeight fft <= fft_height fft)%nat ->
  Z.of_nat (fft_width fft) < 2 ^ 30 -> Z.of_nat (fft_height fft) < 2 ^ 30 ->
  exists c1 c2 r1 r2 out s' b,
    fft_cols (fft_width fft) (fft_height fft) true mre mim = Some (c1, c2) /\
    fft_rows (fft_height fft) true c1 c2 = Some (r1, r2) /\
    shaped (fft_width fft) (fft_height fft) r1 /\
    ifft2d_loop (originalWidth fft) (originalHeight fft) r1
      (replicate (4 * originalWidth fft * originalHeight fft) 0) = Some b /\
    ifft2d fft s = inr (out, s') /\
    (data out ∉ dom (heap s)) /\
    valid s' out b /\
    width out = originalWidth fft /\ height out = originalHeight fft /\
    extends s s'.
Proof.
  intros (Rre & Rim & Lre & Lim & Wre & Wim) Hw Hh Hoh Hw30 Hh30.
  destruct (fft_cols_total (fft_width fft) (fft_height fft) true mre mim)
    as (c1 & c2 & Ec & Sc1 & Sc2); [lia|done|done|].
  destruct (fft_rows_total (fft_width fft) (fft_height fft) true c1 c2)
    as (r1 & r2 & Er & Sr1 & Sr2); [lia|done|done|].
  set (ow := originalWidth fft) in *. set (oh := originalHeight fft) in *.
  destruct (ifft2d_loop_total (fft_width fft) (fft_height fft) ow oh r1
              (replicate (4 * ow * oh) 0)) as (b & Eb & Lb); [done|done|].
  set (l := fresh (dom (heap s))).
  exists c1, c2, r1, r2, {| data := l; width := ow; height := oh |},
         (State (<[l := U8 b]> (<[l := U8 (replicate (4 * ow * oh) 0)]> (heap s))) (draws s)), b.
  split; [exact Ec|]. split; [exact Er|]. split; [exact Sr1|]. split; [exact Eb|].
  split.
  { unfold ifft2d, mbind, M_bind.
    rewrite (read_rows_ok _ _ _ Rre), (read_rows_ok _ _ _ Rim), Ec.
    cbn [run_pass mret M_ret fst snd]. rewrite Er.
    cbn [run_pass mret M_ret fst snd]. unfold new_ImageData. fold ow oh.
    replace ((ow =? 0) || (oh =? 0))%nat with false
      by (symmetry; apply orb_false_iff; split; apply Nat.eqb_neq; lia).
    unfold mbind, M_bind, alloc, mret, M_ret. fold l.
    cbn [data]. unfold read_u8. cbn [heap]. rewrite lookup_insert_eq.
    rewrite Eb. reflexivity. }
  split; [apply fresh_not_in|].
  split.
  { split; [cbn [heap data]; apply lookup_insert_eq|].
    cbn [width height]. rewrite Lb, length_replicate. repeat split; lia. }
  split; [reflexivity|]. split; [reflexivity|].
  intros k Hk. cbn [heap].
  assert (k <> l) by (intros ->; exact (fresh_not_in s Hk)).
  by rewrite !lookup_insert_ne.
Qed.


End Inverse.

(** ** The forward transform returns a spectrum *)

Lemma nextPow2_loop_total n : forall turns p,
  0 < p -> Z.of_nat n <= 2 ^ 29 -> Z.of_nat n <= p * 2 ^ Z.of_nat turns ->
  p < 2 * Z.of_nat n \/ p = 1 ->
  exists q, nextPow2_loop turns n p = Some q /\
            Z.of_nat n <= q /\ 0 < q /\ (q < 2 * Z.of_nat n \/ q = 1).
Proof.
  induction turns as [|turns IH]; intros p Hp Hn Hfuel Hinv.
  - simpl in *. replace (p <? Z.of_nat n) with false by (symmetry; apply Z.ltb_ge; lia).
    exists p. auto with lia.
  - simpl. destruct (p <? Z.of_nat n) eqn:E.
    + apply Z.ltb_lt in E. rewrite int32_small by lia.
      apply IH; [lia|lia| |lia].
      rewrite Nat2Z.inj_succ, Z.pow_succ_r in Hfuel by lia. lia.
    + apply Z.ltb_ge in E. exists p. auto with lia.
Qed.

Lemma nextPow2_total n :
  Z.of_nat n <= 2 ^ 29 ->
  exists p, nextPow2 n = Some p /\ (n <= p)%nat /\ (0 < p)%nat /\ Z.of_nat p < 2 ^ 30.
Proof.
  intros Hn. unfold nextPow2.
  destruct (nextPow2_loop_total n 33 1) as (q & -> & H1 & H2 & H3); [lia|lia| |lia|].
  { change (1 * 2 ^ Z.of_nat 33) with (2 ^ 29 * 16). lia. }
  exists (Z.to_nat q). split; [reflexivity|]. lia.
Qed.

Lemma shaped_shifted_rows iw ih w h gray : shaped w h (shifted_rows iw ih w h gray).
Proof.
  unfold shifted_rows. split; [by rewrite length_fmap, length_seq|].
  apply Forall_fmap, Forall_forall. intros y _. simpl.
  by rewrite length_fmap, length_seq.
Qed.

Lemma shaped_zero w h : shaped w h (replicate h (replicate w 0%float)).
Proof.
  split; [apply length_replicate|].
  apply Forall_replicate. apply length_replicate.
Qed.

Lemma shaped_valid_spectrum s fft mre mim :
  rows_in s (re fft) mre -> rows_in s (im fft) mim ->
  shaped (fft_width fft) (fft_height fft) mre ->
  shaped (fft_width fft) (fft_height fft) mim ->
  valid_spectrum s fft mre mim.
Proof. intros ? ? [? ?] [? ?]. unfold valid_spectrum. auto 10. Qed.

Section Forward.
Context `{ML : MathLib}.

Lemma fft2d_result img s a :
  valid s img a ->
  Z.of_nat (width img) <= 2 ^ 29 -> Z.of_nat (height img) <= 2 ^ 29 ->
  exists w h r1 r2 mre mim fft s',
    nextPow2 (width img) = Some w /\ nextPow2 (height img) = Some h /\
    fft_rows h false (shifted_rows (width img) (height img) w h (toGrayscale_loop a))
             (replicate h (replicate w 0%float)) = Some (r1, r2) /\
    fft_cols w h false r1 r2 = Some (mre, mim) /\
    fft2d img s = inr (fft, s') /\
    valid_spectrum s' fft mre mim /\
    fft_width fft = w /\ fft_height fft = h /\
    originalWidth fft = width img /\ originalHeight fft = height img /\
    (height img <= h)%nat /\ Z.of_nat w < 2 ^ 30 /\ Z.of_nat h < 2 ^ 30 /\
    extends s s'.
Proof.
  intros Hv Hw Hh.
  destruct (nextPow2_total (width img) Hw) as (w & Ew & _ & _ & Hw30).
  destruct (nextPow2_total (height img) Hh) as (h & Eh & Hhh & _ & Hh30).
  destruct (toGrayscale_yields img s a Hv)
    as (gray & s1 & Eg & _ & (Hg & _) & _ & _ & X1).
  destruct (fft_rows_total w h false
              (shifted_rows (width img) (height img) w h (toGrayscale_loop a))
              (replicate h (replicate w 0%float)))
    as (r1 & r2 & Er & Sr1 & Sr2); [lia|apply shaped_shifted_rows|apply shaped_zero|].
  destruct (fft_cols_total w h false r1 r2) as (mre & mim & Ec & Sre & Sim); [lia|done|done|].
  destruct (alloc_rows_ok mre s1) as (lre & s2 & Ea1 & R1 & X2 & _ & _).
  destruct (alloc_rows_ok mim s2) as (lim & s3 & Ea2 & R2 & X3 & _ & _).
  exists w, h, r1, r2, mre, mim,
         {| re := lre; im := lim; fft_width := w; fft_height := h;
            originalWidth := width img; originalHeight := height img |}, s3.
  split; [exact Ew|]. split; [exact Eh|]. split; [exact Er|]. split; [exact Ec|].
  split.
  { unfold fft2d. rewrite (bind_inr _ _ _ _ _ Eg). rewrite Ew, Eh.
    cbn [lift]. unfold mbind at 1 2, M_bind at 1 2. cbn [mret M_ret].
    rewrite (bind_inr _ _ _ _ _ (read_u8_ok _ _ _ Hg)). rewrite Er.
    cbn [lift]. unfold mbind at 1, M_bind at 1. cbn [mret M_ret fst snd]. rewrite Ec.
    cbn [lift]. unfold mbind at 1, M_bind at 1. cbn [mret M_ret fst snd].
    rewrite (bind_inr _ _ _ _ _ Ea1), (bind_inr _ _ _ _ _ Ea2). reflexivity. }
  split.
  { apply shaped_valid_spectrum; cbn [re im fft_width fft_height]; try done.
    by apply (rows_in_extends s2 s3). }
  repeat (split; [reflexivity || assumption|]).
  eauto using extends_trans.
Qed.

End Forward.

(** ** C1: the transform and back *)

Lemma ToUint8Clamp_byte x : is_byte (ToUint8Clamp x).
Proof.
  unfold ToUint8Clamp, is_byte. destruct (Prim2SF x) as [s|s| |s m e]; try lia.
  - destruct s; lia.
  - destruct s; [lia|]. destruct (0 <=? e) eqn:He.
    + apply Z.leb_le in He. pose proof (Z.pow_nonneg 2 e). nia.
    + assert (0 < 2 ^ (- e)) by (apply Z.pow_pos_nonneg; lia).
      pose proof (Z.div_pos (Z.pos m) (2 ^ (- e))).
      destruct (255 <=? Z.pos m / 2 ^ (- e)) eqn:Hf; [lia|]. apply Z.leb_gt in Hf.
      repeat match goal with |- context [if ?c then _ else _] => destruct c end; lia.
Qed.

(** A grey level goes through [Math.abs], [Math.round], the two clamps
    and the store unchanged. *)
Lemma magnitude_of_byte v :
  is_byte v ->
  ToUint8Clamp (Math_max 0 (Math_min 255 (Math_round (PrimFloat.abs (Z2F v * 1))))) = v.
Proof.
  intros Hv. apply Z.eqb_eq.
  apply (byte_cases
           (λ v, ToUint8Clamp
                   (Math_max 0 (Math_min 255 (Math_round (PrimFloat.abs (Z2F v * 1))))) =? v));
    [vm_compute; reflexivity | exact Hv].
Qed.

Lemma toGrayscale_loop_1x1 r g b al :
  exists m, is_byte m /\ toGrayscale_loop [r; g; b; al] = [m; m; m; al].
Proof.
  eexists. split; [|reflexivity]. apply ToUint8Clamp_byte.
Qed.

Section RoundTripFacts.
Context `{ML : MathLib}.

Lemma fft_rows_1x1 invert v u : fft_rows 1 invert [[v]] [[u]] = Some ([[v]], [[u]]).
Proof. reflexivity. Qed.

Lemma fft_cols_1x1 invert v u : fft_cols 1 1 invert [[v]] [[u]] = Some ([[v]], [[u]]).
Proof. reflexivity. Qed.

(** The part of C1 that holds for every Math library: for every pixel
    buffer (of width and height at most 2^29), [ifft2d (fft2d img)]
    returns a new buffer of the width and height of [img] in which every
    pixel has three equal colour samples and alpha 255, whatever the alpha
    of the input; on a 1x1 buffer, where no cosine or sine is used, the
    colour samples are those of the grey conversion, exactly.  How far the
    colour samples of a larger buffer are from the grey conversion depends
    on the values of [Math_cos] and [Math_sin] and on the rounding of the
    butterflies, and is not settled here. *)
Theorem round_trip_is_grey_and_opaque img s a :
  valid s img a ->
  Z.of_nat (width img) <= 2 ^ 29 -> Z.of_nat (height img) <= 2 ^ 29 ->
  exists b,
    yields (round_trip img) s img b /\
    (forall k, (k < width img * height img)%nat ->
       exists m, rgb b k = [m; m; m] /\ b !! (4 * k + 3)%nat = Some 255) /\
    (width img = 1%nat -> height img = 1%nat -> rgb b 0 = rgb (toGrayscale_loop a) 0).
Proof.
  intros Hv Hw Hh.
  destruct (fft2d_result img s a Hv Hw Hh)
    as (w & h & r1 & r2 & mre & mim & fft & s1 &
        Ew & Eh & Er & Ec & Ef & Vs & Fw & Fh & Ow & Oh & Hhh & Hw30 & Hh30 & X1).
  pose proof Hv as (_ & Hl & Wpos & Hpos).
  destruct (ifft2d_result fft s1 mre mim Vs)
    as (c1 & c2 & q1 & q2 & out & s2 & b & Ec' & Er' & Sq & Eb & Ei & Hfresh & Vo & Wo & Ho & X2);
    [lia..|].
  rewrite Fw, Fh, Ow, Oh in *. clear Fw Fh Ow Oh.
  destruct (ifft2d_loop_lookup w h (width img) (height img) q1
              (replicate (4 * width img * height img) 0) Sq Hhh)
    as (b' & Eb' & Lb & Hpix); [apply length_replicate|].
  rewrite Eb in Eb'. inversion Eb'; subst b'. clear Eb'.
  exists b. split; [|split].
  - exists out, s2. split; [unfold round_trip; by rewrite (bind_inr _ _ _ _ _ Ef)|].
    split; [intros Hd; apply Hfresh; by apply (extends_dom s s1)|].
    split; [exact Vo|]. split; [exact Wo|]. split; [exact Ho|].
    by apply (extends_trans s s1 s2).
  - intros k Hk.
    assert (Hx : (k mod width img < width img)%nat) by (apply Nat.mod_upper_bound; lia).
    assert (Hy : (k / width img < height img)%nat)
      by (apply Nat.Div0.div_lt_upper_bound; lia).
    destruct (Hpix _ _ Hx Hy) as (v & _ & Hrgb & Halpha).
    assert (Ek : ((k / width img * width img + k mod width img) * 4 = 4 * k)%nat).
    { pose proof (Nat.div_mod_eq k (width img)). lia. }
    eexists. split.
    + apply rgb_all. intros c Hc. rewrite <- Ek. by apply Hrgb.
    + rewrite <- Ek. exact Halpha.
  - intros W1 H1. rewrite W1, H1 in *.
    assert (w = 1%nat) by (cbv in Ew; congruence).
    assert (h = 1%nat) by (cbv in Eh; congruence). subst w h.
    destruct a as [|r [|g [|bl [|al [|? ?]]]]]; try (simpl in Hl; lia).
    destruct (toGrayscale_loop_1x1 r g bl al) as (m & Hm & Eg).
    rewrite Eg in *.
    change (shifted_rows 1 1 1 1 [m; m; m; al]) with [[(Z2F m * 1)%float]] in Er.
    change (replicate 1 (replicate 1 0%float)) with [[0%float]] in Er.
    rewrite fft_rows_1x1 in Er. inversion Er; subst r1 r2. clear Er.
    rewrite fft_cols_1x1 in Ec. inversion Ec; subst mre mim. clear Ec.
    rewrite fft_cols_1x1 in Ec'. inversion Ec'; subst c1 c2. clear Ec'.
    rewrite fft_rows_1x1 in Er'. inversion Er'; subst q1 q2. clear Er'.
    destruct (Hpix 0%nat 0%nat) as (v & Ev & Hrgb & _); [lia|lia|].
    cbv [entry] in Ev. simpl in Ev. inversion Ev; subst v. clear Ev.
    transitivity [m; m; m]; [|reflexivity].
    apply rgb_all. intros c Hc.
    etransitivity; [exact (Hrgb c Hc)|]. f_equal. by apply magnitude_of_byte.
Qed.

End RoundTripFacts.

Lemma round_trip_is_grey_and_opaque_witness :
  exists b,
    yields (round_trip (ML := no_math) img_1x1) (one_pixel 10 20 30 40) img_1x1 b /\
    (forall k, (k < 1 * 1)%nat ->
       exists m, rgb b k = [m; m; m] /\ b !! (4 * k + 3)%nat = Some 255) /\
    (1%nat = 1%nat -> 1%nat = 1%nat -> rgb b 0 = rgb (toGrayscale_loop [10; 20; 30; 40]) 0).
Proof.
  apply (round_trip_is_grey_and_opaque (ML := no_math) img_1x1 (one_pixel 10 20 30 40)
           [10; 20; 30; 40]).
  - unfold valid. simpl. repeat split; lia.
  - simpl. lia.
  - simpl. lia.
Defined.

(** The alpha sample does not make the round trip: the 1x1 buffer
    (100, 100, 100) with alpha 0 comes back as (100, 100, 100) with alpha
    255, while the grey conversion keeps alpha 0. *)
Lemma round_trip_alpha_differs :
  exists gray s1 out s2,
    toGrayscale img_1x1 (one_pixel 100 100 100 0) = inr (gray, s1) /\
    heap s1 !! data gray = Some (U8 [100; 100; 100; 0]) /\
    round_trip (ML := no_math) img_1x1 (one_pixel 100 100 100 0) = inr (out, s2) /\
    heap s2 !! data out = Some (U8 [100; 100; 100; 255]).
Proof.
  eexists _, _, _, _.
  split; [vm_compute; reflexivity|]. split; [vm_compute; reflexivity|].
  split; [vm_compute; reflexivity|]. vm_compute. reflexivity.
Qed.

(** ** C10: the buffers that are returned *)






(** ** C3: what is rejected and what is not *)














(** ** C2: equalize on a channel with one level *)

Lemma spike_lookup (v i : nat) (n : Z) :
  (i < 256)%nat -> <[v := n]> (replicate 256 0) !!! i = if decide (i = v) then n else 0.
Proof.
  intros Hi. destruct (decide (i = v)) as [->|Hne].
  - apply list_lookup_total_insert_eq. by rewrite length_replicate.
  - rewrite list_lookup_total_insert_ne by congruence.
    apply list_lookup_total_correct, lookup_replicate_2. exact Hi.
Qed.

Lemma histogram_constant a n c v :
  length a = (4 * n)%nat -> (c < 4)%nat -> is_byte v -> constant_channel a c v ->
  histogram a c = <[Z.to_nat v := Z.of_nat n]> (replicate 256 0).
Proof.
  intros Hl Hc Hv Hconst. unfold histogram. rewrite Hl, steps_from, foldl_fmap by exact Hc.
  assert (H : forall m, (m <= n)%nat ->
            foldl (λ hist k, let v := Z.to_nat (a !!! (c + k * 4)%nat) in
                             <[v := hist !!! v + 1]> hist) (replicate 256 0) (seq 0 m)
            = <[Z.to_nat v := Z.of_nat m]> (replicate 256 0)).
  { induction m as [|m IH]; intros Hm.
    - cbn [seq foldl]. symmetry. apply list_insert_id, lookup_replicate_2.
      unfold is_byte in Hv. lia.
    - rewrite seq_S, foldl_snoc, IH by lia. cbv zeta.
      assert (E : a !!! (c + (0 + m) * 4)%nat = v).
      { apply list_lookup_total_correct.
        replace (c + (0 + m) * 4)%nat with (4 * m + c)%nat by lia.
        apply Hconst. lia. }
      rewrite E.
      rewrite list_lookup_total_insert_eq, list_insert_insert_eq
        by (rewrite length_replicate; unfold is_byte in Hv; lia).
      f_equal. lia. }
  by apply H.
Qed.

Lemma cumulative_spike (v : nat) (n : Z) :
  (v < 256)%nat ->
  length (cumulative (<[v := n]> (replicate 256 0))) = 256%nat /\
  forall i, (i < 256)%nat ->
    cumulative (<[v := n]> (replicate 256 0)) !!! i = if (v <=? i)%nat then n else 0.
Proof.
  intros Hv. unfold cumulative. set (hist := <[v := n]> (replicate 256 0)).
  assert (H : forall m, (m <= 255)%nat ->
            let cdf := foldl (λ cdf i, <[i := cdf !!! (i - 1)%nat + hist !!! i]> cdf)
                             (<[0%nat := hist !!! 0%nat]> (replicate 256 0)) (seq 1 m) in
            length cdf = 256%nat /\
            forall i, (i <= m)%nat -> cdf !!! i = if (v <=? i)%nat then n else 0).
  { induction m as [|m IH]; intros Hm cdf; subst cdf.
    - cbn [seq foldl]. split; [by rewrite length_insert, length_replicate|].
      intros i Hi. replace i with 0%nat by lia.
      rewrite list_lookup_total_insert_eq by (rewrite length_replicate; lia).
      unfold hist. rewrite spike_lookup by lia.
      destruct (decide (0%nat = v)) as [<-|Hne]; [reflexivity|].
      by replace (v <=? 0)%nat with false by (symmetry; apply Nat.leb_gt; lia).
    - rewrite seq_S, foldl_snoc. destruct (IH ltac:(lia)) as [Hlen Hval].
      set (cdf := foldl _ _ (seq 1 m)) in *.
      split; [by rewrite length_insert|].
      intros i Hi. destruct (decide (i = S m)) as [->|Hne].
      + replace (1 + m)%nat with (S m) by lia.
        rewrite list_lookup_total_insert_eq by lia.
        replace (S m - 1)%nat with m by lia. rewrite Hval by lia.
        unfold hist. rewrite spike_lookup by lia.
        destruct (decide (S m = v)) as [<-|Hd].
        * replace (S m <=? m)%nat with false by (symmetry; apply Nat.leb_gt; lia).
          by rewrite Nat.leb_refl.
        * destruct (v <=? m)%nat eqn:E1.
          -- apply Nat.leb_le in E1.
             replace (v <=? S m)%nat with true by (symmetry; apply Nat.leb_le; lia). lia.
          -- apply Nat.leb_gt in E1.
             replace (v <=? S m)%nat with false by (symmetry; apply Nat.leb_gt; lia). lia.
      + rewrite list_lookup_total_insert_ne by lia. apply Hval. lia. }
  destruct (H 255%nat ltac:(lia)) as [Hlen Hval].
  split; [exact Hlen|]. intros i Hi. apply Hval. lia.
Qed.

Lemma find_first {A} (P : A -> bool) (l : list A) : forall i y,
  l !! i = Some y -> P y = true ->
  (forall j x, (j < i)%nat -> l !! j = Some x -> P x = false) ->
  List.find P l = Some y.
Proof.
  induction l as [|z l IH]; intros i y Hi Hy Hbefore; [inversion Hi|].
  destruct i as [|i]; simpl in *.
  - inversion Hi; subst. by rewrite Hy.
  - rewrite (Hbefore 0%nat z) by (lia || reflexivity).
    apply (IH i); auto. intros j x Hj Hx. apply (Hbefore (S j)); [lia|exact Hx].
Qed.

Lemma cdf_min_spike (v : nat) (n : Z) :
  (v < 256)%nat -> 0 < n -> cdf_min (cumulative (<[v := n]> (replicate 256 0))) = n.
Proof.
  intros Hv Hn. destruct (cumulative_spike v n Hv) as [Hlen Hval].
  unfold cdf_min. rewrite (find_first _ _ v n); [reflexivity| | |].
  - rewrite list_lookup_lookup_total_lt by lia. rewrite Hval by lia.
    by rewrite Nat.leb_refl.
  - by apply Z.ltb_lt.
  - intros j x Hj Hx. apply list_lookup_total_correct in Hx.
    rewrite Hval in Hx by lia.
    replace (v <=? j)%nat with false in Hx by (symmetry; apply Nat.leb_gt; lia).
    subst x. reflexivity.
Qed.

Lemma equalize_channel_constant a n c v :
  length a = (4 * n)%nat -> (0 < n)%nat -> (c < 3)%nat -> is_byte v ->
  constant_channel a c v ->
  length (equalize_channel n a c) = length a /\
  (forall k, (k < n)%nat -> equalize_channel n a c !! (4 * k + c)%nat = Some 0) /\
  (forall j, (j mod 4 <> c)%nat -> equalize_channel n a c !! j = a !! j).
Proof.
  intros Hl Hn Hc Hv Hconst. unfold equalize_channel.
  rewrite (histogram_constant a n c v Hl ltac:(lia) Hv Hconst).
  assert (Hv' : (Z.to_nat v < 256)%nat) by (unfold is_byte in Hv; lia).
  rewrite cdf_min_spike by lia.
  destruct (cumulative_spike (Z.to_nat v) (Z.of_nat n) Hv') as [_ Hcdf].
  set (cdf := cumulative _) in *.
  rewrite Hl, steps_from, foldl_fmap by lia. rewrite Z.sub_diag.
  assert (H : forall m, (m <= n)%nat ->
            let b := foldl (λ out k,
                       store (c + k * 4)
                         (Math_round (Z2F (cdf !!! Z.to_nat (out !!! (c + k * 4)%nat) - Z.of_nat n)
                                      / Z2F 0 * 255))%float out) a (seq 0 m) in
            length b = length a /\
            (forall k, (k < m)%nat -> b !! (4 * k + c)%nat = Some 0) /\
            (forall j, (forall k, (k < m)%nat -> j <> (4 * k + c)%nat) -> b !! j = a !! j)).
  { induction m as [|m IH]; intros Hm b; subst b.
    - cbn [seq foldl]. split; [reflexivity|]. split; [intros k Hk; lia|reflexivity].
    - rewrite seq_S, foldl_snoc. destruct (IH ltac:(lia)) as (Hlen & Hdone & Hrest).
      set (b := foldl _ _ (seq 0 m)) in *.
      assert (E : b !!! (c + (0 + m) * 4)%nat = v).
      { apply list_lookup_total_correct.
        replace (c + (0 + m) * 4)%nat with (4 * m + c)%nat by lia.
        rewrite Hrest by (intros k Hk; lia). apply Hconst. lia. }
      rewrite E, Hcdf, Nat.leb_refl, Z.sub_diag by lia.
      replace (c + (0 + m) * 4)%nat with (4 * m + c)%nat by lia.
      split; [by rewrite length_store|]. split.
      + intros k Hk. destruct (decide (k = m)) as [->|Hne].
        * rewrite store_lookup_eq by lia. reflexivity.
        * rewrite store_lookup_ne by lia. apply Hdone. lia.
      + intros j Hj. rewrite store_lookup_ne by (specialize (Hj m); lia).
        apply Hrest. intros k Hk. apply Hj. lia. }
  destruct (H n ltac:(lia)) as (Hlen & Hdone & Hrest).
  split; [by rewrite Hlen|]. split; [exact Hdone|].
  intros j Hj. apply Hrest. intros k Hk ->. apply Hj.
  rewrite Nat.add_comm, Nat.mul_comm, Nat.Div0.mod_add. apply Nat.mod_small. lia.
Qed.

Lemma constant_channel_kept a b c v :
  length b = length a -> (forall k, b !! (4 * k + c)%nat = a !! (4 * k + c)%nat) ->
  constant_channel a c v -> constant_channel b c v.
Proof. intros Hl Hb Ha k Hk. rewrite Hb. apply Ha. lia. Qed.

Lemma mod4_of n c : (c < 4)%nat -> ((4 * n + c) mod 4 = c)%nat.
Proof.
  intros Hc. rewrite Nat.add_comm, Nat.mul_comm, Nat.Div0.mod_add. by apply Nat.mod_small.
Qed.

Lemma equalizeImage_loop_flat a n r g b :
  length a = (4 * n)%nat -> (0 < n)%nat ->
  is_byte r -> is_byte g -> is_byte b ->
  constant_channel a 0 r -> constant_channel a 1 g -> constant_channel a 2 b ->
  let out := equalizeImage_loop n a in
  length out = length a /\
  forall k, (k < n)%nat ->
    rgb out k = [0; 0; 0] /\ out !! (4 * k + 3)%nat = a !! (4 * k + 3)%nat.
Proof.
  intros Hl Hn Hr Hg Hb C0 C1 C2 out. subst out.
  unfold equalizeImage_loop. cbn [seq foldl].
  destruct (equalize_channel_constant a n 0 r Hl Hn ltac:(lia) Hr C0) as (L1 & D1 & R1).
  set (a1 := equalize_channel n a 0) in *.
  assert (C1' : constant_channel a1 1 g).
  { apply (constant_channel_kept a); [exact L1| |exact C1].
    intros k. apply R1. rewrite mod4_of; lia. }
  assert (C2' : constant_channel a1 2 b).
  { apply (constant_channel_kept a); [exact L1| |exact C2].
    intros k. apply R1. rewrite mod4_of; lia. }
  destruct (equalize_channel_constant a1 n 1 g ltac:(lia) Hn ltac:(lia) Hg C1') as (L2 & D2 & R2).
  set (a2 := equalize_channel n a1 1) in *.
  assert (C2'' : constant_channel a2 2 b).
  { apply (constant_channel_kept a1); [exact L2| |exact C2'].
    intros k. apply R2. rewrite mod4_of; lia. }
  destruct (equalize_channel_constant a2 n 2 b ltac:(lia) Hn ltac:(lia) Hb C2'') as (L3 & D3 & R3).
  set (a3 := equalize_channel n a2 2) in *.
  split; [lia|]. intros k Hk. split.
  - apply rgb_eq.
    + rewrite <- (Nat.add_0_r (4 * k)).
      rewrite R3, R2 by (rewrite mod4_of; lia). by apply D1.
    + rewrite R3 by (rewrite mod4_of; lia). by apply D2.
    + by apply D3.
  - rewrite R3, R2, R1 by (rewrite mod4_of; lia). reflexivity.
Qed.

(** C2: the code on a flat buffer.  For every buffer in which all pixels
    have the same colour [(r, g, b)], [equalizeImage] returns a buffer in
    which every pixel is black, with the alpha of the input: in each
    channel [cdfMin] equals [totalPixels], the quotient is 0/0 = NaN, and
    the clamped store turns NaN into 0.  The input colour comes back
    only when it is black. *)
Theorem equalize_flat_turns_black (img : ImageData) (s : state) (a : list Z) (r g b : Z) :
  valid s img a ->
  is_byte r -> is_byte g -> is_byte b ->
  (forall k, (k < width img * height img)%nat -> rgb a k = [r; g; b]) ->
  exists out,
    yields (equalizeImage img) s img out /\
    forall k, (k < width img * height img)%nat ->
      rgb out k = [0; 0; 0] /\ out !! (4 * k + 3)%nat = a !! (4 * k + 3)%nat.
Proof.
  intros Hv Hr Hg Hb Hflat.
  pose proof Hv as (_ & Hl & Hw & Hh).
  assert (Hl' : length a = (4 * (width img * height img))%nat) by lia.
  assert (Hn : (0 < width img * height img)%nat) by lia.
  assert (Hc : forall c v, (c < 3)%nat -> [r; g; b] !! c = Some v -> constant_channel a c v).
  { intros c v Hc Hcv k Hk. rewrite <- rgb_lookup by exact Hc.
    rewrite Hflat by lia. exact Hcv. }
  exists (equalizeImage_loop (width img * height img) a).
  split; [by apply equalizeImage_yields|].
  apply (equalizeImage_loop_flat a _ r g b); auto; apply Hc; (lia || reflexivity).
Qed.

Lemma equalize_flat_turns_black_witness :
  exists out,
    yields (equalizeImage img_2x2) (heap_2x2 (px 10 ++ px 10 ++ px 10 ++ px 10)) img_2x2 out /\
    forall k, (k < 2 * 2)%nat ->
      rgb out k = [0; 0; 0] /\
      out !! (4 * k + 3)%nat = (px 10 ++ px 10 ++ px 10 ++ px 10) !! (4 * k + 3)%nat.
Proof.
  apply (equalize_flat_turns_black img_2x2 (heap_2x2 (px 10 ++ px 10 ++ px 10 ++ px 10))
           (px 10 ++ px 10 ++ px 10 ++ px 10) 10 10 10).
  - apply valid_2x2. reflexivity.
  - unfold is_byte. lia.
  - unfold is_byte. lia.
  - unfold is_byte. lia.
  - intros k Hk. simpl in Hk.
    destruct k as [|[|[|[|k]]]]; [reflexivity..|lia].
Defined.

(** * Further properties of the library *)

(** ** Pixel accessors *)

Lemma length_set_at i v a : length (set_at i v a) = length a.
Proof. unfold set_at. destruct (i <? 0); [reflexivity|apply length_store]. Qed.

Lemma get_set_at_eq i v a :
  0 <= i < Z.of_nat (length a) -> get_at (set_at i v a) i = Some (ToUint8Clamp v).
Proof.
  intros Hi. unfold get_at, set_at.
  replace (i <? 0) with false by (symmetry; apply Z.ltb_ge; lia).
  apply store_lookup_eq. lia.
Qed.

Lemma get_set_at_ne i j v a : i <> j -> get_at (set_at i v a) j = get_at a j.
Proof.
  intros Hne. unfold get_at, set_at.
  destruct (j <? 0) eqn:Ej; [reflexivity|]. destruct (i <? 0) eqn:Ei; [reflexivity|].
  apply Z.ltb_ge in Ej, Ei. apply store_lookup_ne. lia.
Qed.

Lemma set_at_outside i v a : i < 0 \/ Z.of_nat (length a) <= i -> set_at i v a = a.
Proof.
  intros Hi. unfold set_at. destruct (i <? 0) eqn:E; [reflexivity|].
  apply Z.ltb_ge in E. unfold store. apply list_insert_id'. lia.
Qed.

Lemma get_at_outside i a : i < 0 \/ Z.of_nat (length a) <= i -> get_at a i = None.
Proof.
  intros Hi. unfold get_at. destruct (i <? 0) eqn:E; [reflexivity|].
  apply Z.ltb_ge in E. apply lookup_ge_None. lia.
Qed.

Lemma pixel_index_in_range img x y (a : list Z) :
  length a = (4 * width img * height img)%nat ->
  0 <= x < Z.of_nat (width img) -> 0 <= y < Z.of_nat (height img) ->
  0 <= pixel_index img x y /\ pixel_index img x y + 4 <= Z.of_nat (length a).
Proof. intros Hl Hx Hy. unfold pixel_index. rewrite Hl. nia. Qed.

Lemma pixel_index_apart img x y x' y' :
  0 <= x < Z.of_nat (width img) -> 0 <= x' < Z.of_nat (width img) ->
  (x, y) <> (x', y') ->
  pixel_index img x y + 4 <= pixel_index img x' y' \/
  pixel_index img x' y' + 4 <= pixel_index img x y.
Proof.
  intros Hx Hx' Hne. unfold pixel_index.
  destruct (Z.lt_trichotomy y y') as [H|[H|H]]; [nia| |nia].
  subst y'. assert (x <> x') by congruence. lia.
Qed.

Lemma setPixel_run img x y r g b al s a :
  heap s !! data img = Some (U8 a) ->
  setPixel img x y r g b al s =
  inr (tt, State (<[data img :=
                      U8 (let i := pixel_index img x y in
                          set_at (i + 3) (default 255%float al)
                            (set_at (i + 2) b (set_at (i + 1) g (set_at i r a))))]> (heap s))
                 (draws s)).
Proof.
  intros Hd. unfold setPixel, update_data.
  rewrite (bind_inr _ _ _ _ _ (read_u8_ok _ _ _ Hd)). reflexivity.
Qed.

Lemma getPixel_run img x y s a :
  heap s !! data img = Some (U8 a) ->
  getPixel img x y s =
  inr (let i := pixel_index img x y in
       (get_at a i, get_at a (i + 1), get_at a (i + 2), get_at a (i + 3)), s).
Proof.
  intros Hd. unfold getPixel. rewrite (bind_inr _ _ _ _ _ (read_u8_ok _ _ _ Hd)). reflexivity.
Qed.

(** Writing a pixel and reading it back: inside the buffer [setPixel]
    followed by [getPixel] at the same coordinates returns the four
    values as the clamped array stores them (alpha 255 when the last
    argument is left out), every array keeps its length, every other
    pixel reads as before, and no other array of the heap changes. *)
Theorem setPixel_getPixel img x y r g b al s a :
  valid s img a ->
  0 <= x < Z.of_nat (width img) -> 0 <= y < Z.of_nat (height img) ->
  exists s' a',
    setPixel img x y r g b al s = inr (tt, s') /\
    valid s' img a' /\
    (forall l, l <> data img -> heap s' !! l = heap s !! l) /\
    getPixel img x y s' =
      inr ((Some (ToUint8Clamp r), Some (ToUint8Clamp g), Some (ToUint8Clamp b),
            Some (ToUint8Clamp (default 255%float al))), s') /\
    forall x' y',
      0 <= x' < Z.of_nat (width img) -> (x', y') <> (x, y) ->
      exists p, getPixel img x' y' s' = inr (p, s') /\ getPixel img x' y' s = inr (p, s).
Proof.
  intros Hv Hx Hy. pose proof Hv as (Hd & Hl & Hw & Hh).
  destruct (pixel_index_in_range img x y a Hl Hx Hy) as [H0 H4].
  set (i := pixel_index img x y) in *.
  set (a' := set_at (i + 3) (default 255%float al)
               (set_at (i + 2) b (set_at (i + 1) g (set_at i r a)))).
  assert (Hl' : length a' = length a) by (unfold a'; by rewrite !length_set_at).
  exists (State (<[data img := U8 a']> (heap s)) (draws s)), a'.
  split; [by apply setPixel_run|].
  assert (Hd' : heap (State (<[data img := U8 a']> (heap s)) (draws s)) !! data img
                = Some (U8 a')) by apply lookup_insert_eq.
  split; [unfold valid; rewrite Hl'; auto|].
  split; [intros l Hne; simpl; by apply lookup_insert_ne|].
  split.
  - rewrite (getPixel_run _ _ _ _ a' Hd'). cbv zeta. fold i. unfold a'.
    repeat f_equal.
    + rewrite !get_set_at_ne by lia. apply get_set_at_eq. lia.
    + rewrite !get_set_at_ne by lia. apply get_set_at_eq. rewrite length_set_at. lia.
    + rewrite !get_set_at_ne by lia. apply get_set_at_eq. rewrite !length_set_at. lia.
    + apply get_set_at_eq. rewrite !length_set_at. lia.
  - intros x' y' Hx' Hne.
    rewrite (getPixel_run _ _ _ _ a' Hd'), (getPixel_run _ _ _ _ a Hd). cbv zeta.
    eexists. split; [|reflexivity].
    destruct (pixel_index_apart img x y x' y' Hx Hx') as [Hap|Hap]; [congruence| |];
      fold i in Hap; unfold a'; rewrite !get_set_at_ne by lia; reflexivity.
Qed.

Lemma setPixel_getPixel_witness :
  exists s' a',
    setPixel img_2x2 1 0 300 7.5 (-3) None (heap_2x2 colours_2x2) = inr (tt, s') /\
    valid s' img_2x2 a' /\
    (forall l, l <> data img_2x2 -> heap s' !! l = heap (heap_2x2 colours_2x2) !! l) /\
    getPixel img_2x2 1 0 s' =
      inr ((Some (ToUint8Clamp 300), Some (ToUint8Clamp 7.5), Some (ToUint8Clamp (-3)),
            Some (ToUint8Clamp (default 255%float None))), s') /\
    forall x' y',
      0 <= x' < Z.of_nat (width img_2x2) -> (x', y') <> (1, 0) ->
      exists p, getPixel img_2x2 x' y' s' = inr (p, s') /\
                getPixel img_2x2 x' y' (heap_2x2 colours_2x2) = inr (p, heap_2x2 colours_2x2).
Proof.
  apply (setPixel_getPixel img_2x2 1 0 300 7.5 (-3) None (heap_2x2 colours_2x2) colours_2x2).
  - apply valid_2x2. reflexivity.
  - simpl. lia.
  - simpl. lia.
Defined.

(** The accessors check no bounds.  A column past the end of a row
    addresses the pixel in the next row; at coordinates whose samples lie
    outside the array [getPixel] returns four [undefined] and [setPixel]
    changes nothing. *)
Theorem pixel_accessors_check_no_bounds img r g b al s a :
  heap s !! data img = Some (U8 a) ->
  (forall x y,
     getPixel img (x + Z.of_nat (width img)) y s = getPixel img x (y + 1) s /\
     setPixel img (x + Z.of_nat (width img)) y r g b al s = setPixel img x (y + 1) r g b al s) /\
  (forall x y,
     pixel_index img x y + 3 < 0 \/ Z.of_nat (length a) <= pixel_index img x y ->
     getPixel img x y s = inr ((None, None, None, None), s) /\
     exists s', setPixel img x y r g b al s = inr (tt, s') /\ heap s' = heap s).
Proof.
  intros Hd. split.
  - intros x y.
    assert (E : pixel_index img (x + Z.of_nat (width img)) y = pixel_index img x (y + 1))
      by (unfold pixel_index; lia).
    split; [unfold getPixel; by rewrite E|unfold setPixel; by rewrite E].
  - intros x y Hout. split.
    + rewrite (getPixel_run _ _ _ _ a Hd). cbv zeta.
      rewrite !get_at_outside by lia. reflexivity.
    + rewrite (setPixel_run _ _ _ _ _ _ _ _ a Hd). eexists. split; [reflexivity|].
      cbv zeta. simpl. rewrite !set_at_outside by (rewrite ?length_set_at; lia).
      by apply insert_id.
Qed.

Lemma pixel_accessors_check_no_bounds_witness :
  let s := heap_2x2 colours_2x2 in
  (forall x y,
     getPixel img_2x2 (x + Z.of_nat (width img_2x2)) y s = getPixel img_2x2 x (y + 1) s /\
     setPixel img_2x2 (x + Z.of_nat (width img_2x2)) y 1 2 3 None s
       = setPixel img_2x2 x (y + 1) 1 2 3 None s) /\
  (forall x y,
     pixel_index img_2x2 x y + 3 < 0 \/ Z.of_nat (length colours_2x2) <= pixel_index img_2x2 x y ->
     getPixel img_2x2 x y s = inr ((None, None, None, None), s) /\
     exists s', setPixel img_2x2 x y 1 2 3 None s = inr (tt, s') /\ heap s' = heap s).
Proof.
  apply (pixel_accessors_check_no_bounds img_2x2 1 2 3 None (heap_2x2 colours_2x2) colours_2x2).
  reflexivity.
Defined.

(** ** Clones *)

(** [cloneImageData] returns a buffer of the same width and height whose
    sample array is new and holds the same samples; a pixel written into
    the clone afterwards leaves the original buffer, and every other
    array that existed before, as it was. *)
Theorem clone_is_independent img s a x y r g b al :
  valid s img a ->
  exists c s1 s2 a',
    cloneImageData img s = inr (c, s1) /\
    (data c ∉ dom (heap s)) /\
    width c = width img /\ height c = height img /\
    valid s1 c a /\
    setPixel c x y r g b al s1 = inr (tt, s2) /\
    valid s2 c a' /\
    valid s2 img a /\
    extends s s2.
Proof.
  intros Hv. pose proof (cloned_valid s img a Hv) as Hc.
  pose proof Hc as (Hd & Hl & Hw & Hh).
  set (i := pixel_index (clone_of s img) x y).
  set (a' := set_at (i + 3) (default 255%float al)
               (set_at (i + 2) b (set_at (i + 1) g (set_at i r a)))).
  exists (clone_of s img), (cloned s a),
         (State (<[data (clone_of s img) := U8 a']> (heap (cloned s a))) (draws (cloned s a))), a'.
  split; [by apply cloneImageData_ok|].
  split; [apply fresh_not_in|]. split; [reflexivity|]. split; [reflexivity|].
  split; [exact Hc|]. split; [by apply setPixel_run|].
  assert (X : extends s (State (<[data (clone_of s img) := U8 a']> (heap (cloned s a)))
                               (draws (cloned s a)))).
  { intros l Hin. cbn [heap]. unfold cloned, clone_of. cbn [heap data].
    assert (l <> fresh (dom (heap s))) by (intros ->; exact (fresh_not_in s Hin)).
    by rewrite !lookup_insert_ne. }
  split.
  - split; [apply lookup_insert_eq|]. unfold a'. rewrite !length_set_at. auto.
  - split; [|exact X]. by apply (extends_valid s).
Qed.

Lemma clone_is_independent_witness :
  exists c s1 s2 a',
    cloneImageData img_2x2 (heap_2x2 colours_2x2) = inr (c, s1) /\
    (data c ∉ dom (heap (heap_2x2 colours_2x2))) /\
    width c = width img_2x2 /\ height c = height img_2x2 /\
    valid s1 c colours_2x2 /\
    setPixel c 0 0 1 2 3 None s1 = inr (tt, s2) /\
    valid s2 c a' /\
    valid s2 img_2x2 colours_2x2 /\
    extends (heap_2x2 colours_2x2) s2.
Proof.
  apply (clone_is_independent img_2x2 (heap_2x2 colours_2x2) colours_2x2 0 0 1 2 3 None).
  apply valid_2x2. reflexivity.
Defined.

(** ** Grey conversion and the achromatic test *)

Lemma sample_of a i v : a !! i = Some v -> sample a i = Z2F v.
Proof. unfold sample. by intros ->. Qed.

(** The samples after the loop of [toGrayscale]. *)
Lemma toGrayscale_loop_lookup (a : list Z) n :
  length a = (4 * n)%nat ->
  length (toGrayscale_loop a) = length a /\
  forall k, (k < n)%nat ->
    (forall c, (c < 3)%nat ->
       toGrayscale_loop a !! (4 * k + c)%nat
       = Some (ToUint8Clamp (luma (sample a (4 * k)) (sample a (4 * k + 1))
                                  (sample a (4 * k + 2))))) /\
    toGrayscale_loop a !! (4 * k + 3)%nat = a !! (4 * k + 3)%nat.
Proof.
  intros Hl. split; [apply toGrayscale_loop_length|].
  unfold toGrayscale_loop. rewrite Hl, steps_4, foldl_fmap.
  assert (H : forall m, (m <= n)%nat ->
            let b := foldl (λ out k,
                       let g := luma (sample out (0 + k * 4)) (sample out (0 + k * 4 + 1))
                                     (sample out (0 + k * 4 + 2)) in
                       store (0 + k * 4 + 2) g (store (0 + k * 4 + 1) g (store (0 + k * 4) g out)))
                     a (seq 0 m) in
            length b = length a /\
            (forall k c, (k < m)%nat -> (c < 3)%nat ->
               b !! (4 * k + c)%nat
               = Some (ToUint8Clamp (luma (sample a (4 * k)) (sample a (4 * k + 1))
                                          (sample a (4 * k + 2))))) /\
            (forall j, (4 * m <= j \/ j mod 4 = 3)%nat -> b !! j = a !! j)).
  { induction m as [|m IH]; intros Hm b; subst b.
    - cbn [seq foldl]. split; [reflexivity|]. split; [intros; lia|reflexivity].
    - rewrite seq_S, foldl_snoc. destruct (IH ltac:(lia)) as (Hlen & Hdone & Hrest).
      set (b := foldl _ _ (seq 0 m)) in *. cbv zeta.
      replace (0 + (0 + m) * 4)%nat with (4 * m)%nat by lia.
      assert (Es : forall c, sample b (4 * m + c) = sample a (4 * m + c)).
      { intros c. unfold sample. rewrite Hrest by lia. reflexivity. }
      assert (Es0 : sample b (4 * m) = sample a (4 * m)).
      { unfold sample. rewrite Hrest by lia. reflexivity. }
      rewrite !Es, Es0.
      split; [by rewrite !length_store|]. split.
      + intros k c Hk Hc. destruct (decide (k = m)) as [->|Hne].
        * rewrite store3_lookup by lia.
          rewrite decide_True by lia.
          by destruct (4 * m + c - 4 * m)%nat as [|[|d]].
        * rewrite store3_lookup by lia. rewrite decide_False by lia.
          apply Hdone; lia.
      + intros j Hj. rewrite store3_lookup by lia.
        rewrite decide_False; [apply Hrest; lia|].
        intros Hin. pose proof (Nat.div_mod_eq j 4). lia. }
  destruct (H n ltac:(lia)) as (Hlen & Hdone & Hrest).
  intros k Hk. split; [intros c Hc; by apply Hdone|]. apply Hrest. right.
  rewrite Nat.add_comm, Nat.mul_comm, Nat.Div0.mod_add. reflexivity.
Qed.

Lemma luma_of_grey v : is_byte v -> ToUint8Clamp (luma (Z2F v) (Z2F v) (Z2F v)) = v.
Proof.
  intros Hv. apply Z.eqb_eq.
  apply (byte_cases (λ v, ToUint8Clamp (luma (Z2F v) (Z2F v) (Z2F v)) =? v));
    [vm_compute; reflexivity | exact Hv].
Qed.

Lemma rgb_inv (a : list Z) k x y z :
  rgb a k = [x; y; z] ->
  a !! (4 * k)%nat = Some x /\ a !! (4 * k + 1)%nat = Some y /\ a !! (4 * k + 2)%nat = Some z.
Proof.
  intros H. rewrite <- (Nat.add_0_r (4 * k)) at 1.
  rewrite <- !rgb_lookup, H by lia. auto.
Qed.

Lemma list_eq_pixels (a b : list Z) n :
  length a = (4 * n)%nat -> length b = length a ->
  (forall k c, (k < n)%nat -> (c < 4)%nat -> b !! (4 * k + c)%nat = a !! (4 * k + c)%nat) ->
  b = a.
Proof.
  intros Ha Hb H. apply list_eq. intros j.
  destruct (decide (j < 4 * n)%nat) as [Hj|Hj].
  - pose proof (Nat.div_mod_eq j 4). pose proof (Nat.mod_upper_bound j 4 ltac:(lia)).
    replace j with (4 * (j / 4) + j mod 4)%nat by lia. apply H; lia.
  - rewrite !lookup_ge_None_2 by lia. reflexivity.
Qed.

(** The loop of [toGrayscale] changes nothing in a buffer whose pixels
    are grey already. *)
Lemma toGrayscale_loop_fixed (a : list Z) n :
  length a = (4 * n)%nat ->
  (forall k, (k < n)%nat -> exists v, is_byte v /\ rgb a k = [v; v; v]) ->
  toGrayscale_loop a = a.
Proof.
  intros Hl Hg. destruct (toGrayscale_loop_lookup a n Hl) as [Hlen Hpix].
  apply (list_eq_pixels a _ n Hl Hlen). intros k c Hk Hc.
  destruct (Hpix k Hk) as [Hrgb Halpha].
  destruct (Hg k Hk) as (v & Hv & Hrgbv). apply rgb_inv in Hrgbv as (H0 & H1 & H2).
  destruct (decide (c = 3%nat)) as [->|Hc3]; [exact Halpha|].
  rewrite Hrgb by lia.
  rewrite (sample_of _ _ _ H0), (sample_of _ _ _ H1), (sample_of _ _ _ H2), luma_of_grey by exact Hv.
  assert (Hcases : (c = 0 \/ c = 1 \/ c = 2)%nat) by lia.
  destruct Hcases as [-> | [-> | ->]]; symmetry;
    [by rewrite Nat.add_0_r|assumption|assumption].
Qed.

Lemma toGrayscale_loop_grey (a : list Z) n :
  length a = (4 * n)%nat ->
  forall k, (k < n)%nat -> exists v, is_byte v /\ rgb (toGrayscale_loop a) k = [v; v; v].
Proof.
  intros Hl k Hk. destruct (toGrayscale_loop_lookup a n Hl) as [_ Hpix].
  destruct (Hpix k Hk) as [Hrgb _].
  eexists. split; [apply ToUint8Clamp_byte|]. apply rgb_all. exact Hrgb.
Qed.

Lemma isGrayscale_scan_spec (a : list Z) n :
  length a = (4 * n)%nat -> isGrayscale_scan a = true <-> achromatic a.
Proof.
  intros Hl. unfold isGrayscale_scan, achromatic. rewrite forallb_forall. split.
  - intros H k Hk.
    destruct (lookup_lt_is_Some_2 a (4 * k)%nat ltac:(lia)) as [v Hv].
    exists v.
    assert (Hin : In (4 * k)%nat (steps 0 (length a) 4)).
    { apply list_elem_of_In. rewrite Hl. apply in_steps_from; [lia|]. exists k. split; lia. }
    apply H in Hin. apply negb_true_iff in Hin. apply orb_false_iff in Hin as [E1 E2].
    apply negb_false_iff in E1, E2. apply bool_decide_eq_true in E1, E2.
    apply rgb_eq; [exact Hv|by rewrite <- E1|by rewrite <- E2, <- E1].
  - intros H i Hi. apply list_elem_of_In in Hi. rewrite Hl in Hi.
    apply in_steps_from in Hi as (k & Hk & ->); [|lia]. rewrite Nat.add_0_r.
    destruct (H k ltac:(lia)) as (v & Hrgbv). apply rgb_inv in Hrgbv as (H0 & H1 & H2).
    rewrite H0, H1, H2. rewrite !bool_decide_eq_true_2 by reflexivity. reflexivity.
Qed.

(** [isGrayscale] returns [true] exactly on the buffers in which every
    pixel has equal red, green and blue samples, and changes nothing. *)
Theorem isGrayscale_iff_achromatic img s a :
  valid s img a ->
  exists b, isGrayscale img s = inr (b, s) /\ (b = true <-> achromatic a).
Proof.
  intros (Hd & Hl & _). exists (isGrayscale_scan a). split.
  - unfold isGrayscale. by rewrite (bind_inr _ _ _ _ _ (read_u8_ok _ _ _ Hd)).
  - apply (isGrayscale_scan_spec a (width img * height img)). lia.
Qed.

Lemma isGrayscale_iff_achromatic_witness :
  exists b, isGrayscale img_2x2 (heap_2x2 colours_2x2) = inr (b, heap_2x2 colours_2x2) /\
            (b = true <-> achromatic colours_2x2).
Proof.
  apply (isGrayscale_iff_achromatic img_2x2 (heap_2x2 colours_2x2) colours_2x2).
  apply valid_2x2. reflexivity.
Defined.

(** The buffer returned by [toGrayscale] passes [isGrayscale]: its pixels
    have three equal samples, and the alpha samples of the input. *)
Theorem toGrayscale_is_achromatic img s a :
  valid s img a ->
  exists g s' b,
    toGrayscale img s = inr (g, s') /\ valid s' g b /\
    achromatic b /\
    (forall k, b !! (4 * k + 3)%nat = a !! (4 * k + 3)%nat) /\
    isGrayscale g s' = inr (true, s').
Proof.
  intros Hv. pose proof Hv as (_ & Hl & _).
  destruct (toGrayscale_yields img s a Hv) as (g & s' & E & _ & Vg & Wg & Hg & _).
  assert (Hl' : length a = (4 * (width img * height img))%nat) by lia.
  assert (Ha : achromatic (toGrayscale_loop a)).
  { intros k Hk. rewrite toGrayscale_loop_length in Hk.
    destruct (toGrayscale_loop_grey a _ Hl' k ltac:(lia)) as (v & _ & Hv'). eauto. }
  exists g, s', (toGrayscale_loop a).
  split; [exact E|]. split; [exact Vg|]. split; [exact Ha|]. split.
  - intros k. destruct (toGrayscale_loop_lookup a _ Hl') as [Hlen Hpix].
    destruct (decide (k < width img * height img)%nat) as [Hk|Hk]; [by apply Hpix|].
    rewrite !lookup_ge_None_2 by lia. reflexivity.
  - destruct Vg as (Hd & Hlg & _). unfold isGrayscale.
    rewrite (bind_inr _ _ _ _ _ (read_u8_ok _ _ _ Hd)). unfold mret, M_ret. do 2 f_equal.
    apply (isGrayscale_scan_spec _ (width img * height img)); [|exact Ha].
    rewrite toGrayscale_loop_length. lia.
Qed.

Lemma toGrayscale_is_achromatic_witness :
  exists g s' b,
    toGrayscale img_2x2 (heap_2x2 colours_2x2) = inr (g, s') /\ valid s' g b /\
    achromatic b /\
    (forall k, b !! (4 * k + 3)%nat = colours_2x2 !! (4 * k + 3)%nat) /\
    isGrayscale g s' = inr (true, s').
Proof.
  apply (toGrayscale_is_achromatic img_2x2 (heap_2x2 colours_2x2) colours_2x2).
  apply valid_2x2. reflexivity.
Defined.

(** Achromatic-conversion idempotence: [toGrayscale] returns the samples
    of its input when the input is achromatic, so converting the result
    of a conversion changes nothing. *)
Theorem toGrayscale_idempotent img s a :
  valid s img a ->
  (Forall is_byte a -> achromatic a -> yields (toGrayscale img) s img a) /\
  exists g s' b,
    toGrayscale img s = inr (g, s') /\ valid s' g b /\ yields (toGrayscale g) s' g b.
Proof.
  intros Hv. pose proof Hv as (_ & Hl & _).
  assert (Hl' : length a = (4 * (width img * height img))%nat) by lia.
  split.
  - intros Hb Ha. pose proof (toGrayscale_yields img s a Hv) as Hy.
    rewrite (toGrayscale_loop_fixed a _ Hl') in Hy; [exact Hy|].
    intros k Hk. destruct (Ha k ltac:(lia)) as (v & Hrgb). exists v. split; [|exact Hrgb].
    apply rgb_inv in Hrgb as (H0 & _). rewrite Forall_forall in Hb. apply Hb.
    by eapply list_elem_of_lookup_2.
  - destruct (toGrayscale_yields img s a Hv) as (g & s' & E & _ & Vg & Wg & Hg & _).
    exists g, s', (toGrayscale_loop a). split; [exact E|]. split; [exact Vg|].
    pose proof (toGrayscale_yields g s' _ Vg) as Hy.
    rewrite (toGrayscale_loop_fixed (toGrayscale_loop a) (width img * height img)) in Hy;
      [exact Hy|by rewrite toGrayscale_loop_length|].
    by apply toGrayscale_loop_grey.
Qed.

Lemma toGrayscale_idempotent_witness :
  (Forall is_byte colours_2x2 -> achromatic colours_2x2 ->
   yields (toGrayscale img_2x2) (heap_2x2 colours_2x2) img_2x2 colours_2x2) /\
  exists g s' b,
    toGrayscale img_2x2 (heap_2x2 colours_2x2) = inr (g, s') /\ valid s' g b /\
    yields (toGrayscale g) s' g b.
Proof.
  apply (toGrayscale_idempotent img_2x2 (heap_2x2 colours_2x2) colours_2x2).
  apply valid_2x2. reflexivity.
Defined.

(** ** Normalize *)

Lemma channel_min_max_spec (a : list Z) n c :
  length a = (4 * n)%nat -> (0 < n)%nat -> (c < 3)%nat -> Forall is_byte a ->
  is_byte (channel_min_max a c).1 /\ is_byte (channel_min_max a c).2 /\
  attains a c (channel_min_max a c).1 /\ attains a c (channel_min_max a c).2 /\
  forall k, (k < n)%nat ->
    (channel_min_max a c).1 <= a !!! (4 * k + c)%nat <= (channel_min_max a c).2.
Proof.
  intros Hl Hn Hc Ha. unfold channel_min_max.
  pose proof (min_max_fold a (steps c (length a) 4) 255 0) as H.
  destruct (foldl _ _ _) as [mn mx]. cbn [fst snd].
  destruct H as (Hmn & Hmn_le & Hall & Hmx & Hmx_ge & Hallx).
  assert (Hin : forall k, (k < n)%nat -> (4 * k + c)%nat ∈ steps c (length a) 4).
  { intros k Hk. rewrite Hl. apply in_steps_from; [lia|]. exists k. auto. }
  assert (Hlk : forall i, i ∈ steps c (length a) 4 -> exists k, a !! (4 * k + c)%nat = Some (a !!! i)).
  { intros i Hi. rewrite Hl in Hi. apply in_steps_from in Hi as (k & Hk & ->); [|lia].
    exists k. apply list_lookup_lookup_total_lt. lia. }
  assert (H0 : is_byte (a !!! (4 * 0 + c)%nat)) by (by apply lookup_total_byte).
  pose proof (Hall _ (Hin 0%nat Hn)) as Hlo. pose proof (Hallx _ (Hin 0%nat Hn)) as Hhi.
  assert (Bmn : is_byte mn).
  { destruct Hmn as [->|(i & Hi & ->)]; [unfold is_byte; lia|by apply lookup_total_byte]. }
  assert (Bmx : is_byte mx).
  { destruct Hmx as [->|(i & Hi & ->)]; [unfold is_byte; lia|by apply lookup_total_byte]. }
  split; [exact Bmn|]. split; [exact Bmx|]. split; [|split].
  - destruct Hmn as [->|(i & Hi & ->)]; [|by apply Hlk].
    exists 0%nat. rewrite list_lookup_lookup_total_lt by lia. f_equal.
    unfold is_byte in H0. lia.
  - destruct Hmx as [->|(i & Hi & ->)]; [|by apply Hlk].
    exists 0%nat. rewrite list_lookup_lookup_total_lt by lia. f_equal.
    unfold is_byte in H0. lia.
  - intros k Hk. split; [apply Hall|apply Hallx]; by apply Hin.
Qed.

(** The samples after the rescaling loop of one channel: each sample of
    the channel is rescaled from its own value, the others stay. *)
Lemma normalize_channel_lookup (a : list Z) n c :
  length a = (4 * n)%nat -> (c < 3)%nat ->
  let mn := (channel_min_max a c).1 in
  let mx := (channel_min_max a c).2 in
  let range := if mx - mn =? 0 then 1 else mx - mn in
  length (normalize_channel a c) = length a /\
  (forall k, (k < n)%nat ->
     normalize_channel a c !! (4 * k + c)%nat
     = Some (ToUint8Clamp (Math_round (Z2F (a !!! (4 * k + c)%nat - mn) / Z2F range * 255))%float)) /\
  (forall j, (j mod 4 <> c)%nat -> normalize_channel a c !! j = a !! j).
Proof.
  intros Hl Hc mn mx range. unfold normalize_channel. subst mn mx range.
  destruct (channel_min_max a c) as [mn mx]. cbn [fst snd].
  set (range := if mx - mn =? 0 then 1 else mx - mn).
  rewrite Hl, steps_from, foldl_fmap by lia.
  assert (H : forall m, (m <= n)%nat ->
            let b := foldl (λ out k,
                       store (c + k * 4)
                         (Math_round (Z2F (out !!! (c + k * 4)%nat - mn) / Z2F range * 255))%float
                         out) a (seq 0 m) in
            length b = length a /\
            (forall k, (k < m)%nat ->
               b !! (4 * k + c)%nat
               = Some (ToUint8Clamp
                         (Math_round (Z2F (a !!! (4 * k + c)%nat - mn) / Z2F range * 255))%float)) /\
            (forall j, (forall k, (k < m)%nat -> j <> (4 * k + c)%nat) -> b !! j = a !! j)).
  { induction m as [|m IH]; intros Hm b; subst b.
    - cbn [seq foldl]. split; [reflexivity|]. split; [intros k Hk; lia|reflexivity].
    - rewrite seq_S, foldl_snoc. destruct (IH ltac:(lia)) as (Hlen & Hdone & Hrest).
      set (b := foldl _ _ (seq 0 m)) in *.
      replace (c + (0 + m) * 4)%nat with (4 * m + c)%nat by lia.
      assert (E : b !!! (4 * m + c)%nat = a !!! (4 * m + c)%nat).
      { rewrite !list_lookup_total_alt, Hrest by (intros k Hk; lia). reflexivity. }
      rewrite E. split; [by rewrite length_store|]. split.
      + intros k Hk. destruct (decide (k = m)) as [->|Hne].
        * rewrite store_lookup_eq by lia. reflexivity.
        * rewrite store_lookup_ne by lia. apply Hdone. lia.
      + intros j Hj. rewrite store_lookup_ne by (specialize (Hj m); lia).
        apply Hrest. intros k Hk. apply Hj. lia. }
  destruct (H n ltac:(lia)) as (Hlen & Hdone & Hrest).
  split; [by rewrite Hlen|]. split; [exact Hdone|].
  intros j Hj. apply Hrest. intros k Hk ->. apply Hj. apply mod4_of. lia.
Qed.

Lemma rescale_extremes d :
  is_byte d -> d <> 0 ->
  ToUint8Clamp (Math_round (Z2F 0 / Z2F d * 255))%float = 0 /\
  ToUint8Clamp (Math_round (Z2F d / Z2F d * 255))%float = 255.
Proof.
  intros Hd Hne.
  pose proof (byte_cases
    (λ d, (d =? 0) || ((ToUint8Clamp (Math_round (Z2F 0 / Z2F d * 255))%float =? 0)
                       && (ToUint8Clamp (Math_round (Z2F d / Z2F d * 255))%float =? 255)))
    ltac:(vm_compute; reflexivity) d Hd) as H.
  apply orb_true_iff in H as [H|H]; [apply Z.eqb_eq in H; contradiction|].
  apply andb_true_iff in H as [H1 H2]. split; by apply Z.eqb_eq.
Qed.

(** What one pass does to a channel: a channel with two levels at least
    comes out with both 0 and 255 in it, a channel with one level comes
    out 0 everywhere; all samples written are bytes. *)
Lemma normalize_channel_range (a : list Z) n c :
  length a = (4 * n)%nat -> (0 < n)%nat -> (c < 3)%nat -> Forall is_byte a ->
  let b := normalize_channel a c in
  Forall is_byte b /\
  (((channel_min_max a c).1 <> (channel_min_max a c).2 /\ attains b c 0 /\ attains b c 255) \/
   ((channel_min_max a c).1 = (channel_min_max a c).2 /\
    forall k, (k < n)%nat -> b !! (4 * k + c)%nat = Some 0)).
Proof.
  intros Hl Hn Hc Ha b. subst b.
  destruct (channel_min_max_spec a n c Hl Hn Hc Ha) as (Bmn & Bmx & [k0 A0] & [k1 A1] & Hbetween).
  destruct (normalize_channel_lookup a n c Hl Hc) as (Hlen & Hdone & Hrest).
  set (mn := (channel_min_max a c).1) in *. set (mx := (channel_min_max a c).2) in *.
  cbv zeta in Hdone.
  assert (Hk0 : (k0 < n)%nat) by (apply lookup_lt_Some in A0; lia).
  assert (Hk1 : (k1 < n)%nat) by (apply lookup_lt_Some in A1; lia).
  split.
  - apply Forall_lookup. intros j v Hj.
    destruct (decide (j mod 4 = c)%nat) as [Hm|Hm].
    + assert (Hjn : (j < 4 * n)%nat) by (apply lookup_lt_Some in Hj; lia).
      pose proof (Nat.div_mod_eq j 4) as Hdm.
      replace j with (4 * (j / 4) + c)%nat in Hj by lia.
      rewrite Hdone in Hj by lia. inversion Hj. apply ToUint8Clamp_byte.
    + rewrite Hrest in Hj by exact Hm. rewrite Forall_lookup in Ha. by apply (Ha j).
  - destruct (decide (mn = mx)) as [Heq|Hne].
    + right. split; [exact Heq|]. intros k Hk. rewrite Hdone by exact Hk.
      pose proof (Hbetween k Hk) as Hb.
      replace (a !!! (4 * k + c)%nat - mn) with 0 by lia.
      replace (mx - mn) with 0 by lia. reflexivity.
    + left. split; [exact Hne|].
      pose proof (Hbetween k0 Hk0) as Hb0.
      assert (Hd : is_byte (mx - mn)) by (unfold is_byte in *; lia).
      destruct (rescale_extremes (mx - mn) Hd ltac:(lia)) as [R0 R1].
      replace (mx - mn =? 0) with false in Hdone by (symmetry; apply Z.eqb_neq; lia).
      split.
      * exists k0. rewrite Hdone by exact Hk0.
        rewrite (list_lookup_total_correct _ _ _ A0), Z.sub_diag. by rewrite R0.
      * exists k1. rewrite Hdone by exact Hk1.
        rewrite (list_lookup_total_correct _ _ _ A1). by rewrite R1.
Qed.

(** A channel that is 0 everywhere is left as it is. *)
Lemma normalize_channel_zero (a : list Z) n c :
  length a = (4 * n)%nat -> (c < 3)%nat ->
  (forall k, (k < n)%nat -> a !! (4 * k + c)%nat = Some 0) ->
  normalize_channel a c = a.
Proof.
  intros Hl Hc Hz.
  assert (Hmm : channel_min_max a c = (if (0 <? n)%nat then 0 else 255, 0)).
  { unfold channel_min_max. rewrite Hl, steps_from, foldl_fmap by lia.
    match goal with
    | |- foldl ?f _ _ = _ =>
        assert (H : forall m, (m <= n)%nat ->
                  foldl f (255, 0) (seq 0 m) = (if (0 <? m)%nat then 0 else 255, 0))
    end.
    { induction m as [|m IH]; intros Hm; [reflexivity|].
      rewrite seq_S, foldl_snoc, IH by lia. cbv beta iota zeta.
      replace (c + (0 + m) * 4)%nat with (4 * m + c)%nat by lia.
      assert (Hm0 : a !! (4 * m + c)%nat = Some 0) by (apply Hz; lia).
      rewrite (list_lookup_total_correct _ _ _ Hm0).
      by destruct (0 <? m)%nat. }
    by apply H. }
  destruct (normalize_channel_lookup a n c Hl Hc) as (Hlen & Hdone & Hrest).
  rewrite Hmm in Hdone. cbn [fst snd] in Hdone. cbv zeta in Hdone.
  apply (list_eq_pixels a _ n Hl Hlen). intros k c' Hk Hc'.
  destruct (decide (c' = c)) as [->|Hne].
  - rewrite Hdone, (Hz k Hk) by exact Hk.
    rewrite (list_lookup_total_correct _ _ _ (Hz k Hk)).
    replace (0 <? n)%nat with true by (symmetry; apply Nat.ltb_lt; lia). reflexivity.
  - apply Hrest. rewrite mod4_of by lia. exact Hne.
Qed.

Lemma channel_kept_attains (a b : list Z) c v :
  (forall k, b !! (4 * k + c)%nat = a !! (4 * k + c)%nat) -> attains a c v -> attains b c v.
Proof. intros H [k Hk]. exists k. by rewrite H. Qed.

Lemma settled_kept (a b : list Z) n c :
  (forall k, b !! (4 * k + c)%nat = a !! (4 * k + c)%nat) -> settled a n c -> settled b n c.
Proof.
  intros H [[H0 H1]|Hz]; [left|right].
  - split; by apply (channel_kept_attains a).
  - intros k Hk. rewrite H. by apply Hz.
Qed.

Lemma two_levels_kept (a b : list Z) c :
  (forall k, b !! (4 * k + c)%nat = a !! (4 * k + c)%nat) -> two_levels a c -> two_levels b c.
Proof. intros H (k & k' & v & v' & Hk & Hk' & Hne). exists k, k', v, v'. by rewrite !H. Qed.

(** One pass on channel [c], on a buffer with [n >= 1] pixels. *)
Lemma normalize_channel_pass (a : list Z) n c :
  length a = (4 * n)%nat -> (0 < n)%nat -> (c < 3)%nat -> Forall is_byte a ->
  let b := normalize_channel a c in
  length b = length a /\ Forall is_byte b /\
  (forall j, (j mod 4 <> c)%nat -> b !! j = a !! j) /\
  settled b n c /\
  (two_levels a c -> attains b c 0 /\ attains b c 255) /\
  (forall v, constant_channel a c v -> forall k, (k < n)%nat -> b !! (4 * k + c)%nat = Some 0).
Proof.
  intros Hl Hn Hc Ha b. subst b.
  destruct (normalize_channel_lookup a n c Hl Hc) as (Hlen & _ & Hrest).
  destruct (normalize_channel_range a n c Hl Hn Hc Ha) as (Hb & Hcases).
  destruct (channel_min_max_spec a n c Hl Hn Hc Ha) as (_ & _ & [k0 A0] & [k1 A1] & Hbetween).
  split; [exact Hlen|]. split; [exact Hb|]. split; [exact Hrest|]. split; [|split].
  - destruct Hcases as [(_ & H0 & H1)|(_ & Hz)]; [by left|by right].
  - intros (k & k' & v & v' & Hk & Hk' & Hne).
    destruct Hcases as [(_ & H0 & H1)|(Heq & _)]; [by split|]. exfalso.
    assert (Hkn : (k < n)%nat) by (apply lookup_lt_Some in Hk; lia).
    assert (Hkn' : (k' < n)%nat) by (apply lookup_lt_Some in Hk'; lia).
    pose proof (Hbetween k Hkn) as B1. pose proof (Hbetween k' Hkn') as B2.
    rewrite (list_lookup_total_correct _ _ _ Hk) in B1.
    rewrite (list_lookup_total_correct _ _ _ Hk') in B2. lia.
  - intros v Hconst k Hk.
    destruct Hcases as [(Hne & _ & _)|(_ & Hz)]; [|by apply Hz]. exfalso.
    rewrite (Hconst k0) in A0 by (apply lookup_lt_Some in A0; lia).
    rewrite (Hconst k1) in A1 by (apply lookup_lt_Some in A1; lia). congruence.
Qed.

Lemma normalize_channel_settled (a : list Z) n c :
  length a = (4 * n)%nat -> (c < 3)%nat -> Forall is_byte a -> settled a n c ->
  normalize_channel a c = a.
Proof.
  intros Hl Hc Ha [[H0 H1]|Hz].
  - by apply (normalize_channel_full a n c).
  - by apply (normalize_channel_zero a n c).
Qed.

Lemma other_channel k c c' : (c < 4)%nat -> (c' < 4)%nat -> c <> c' -> ((4 * k + c) mod 4 <> c')%nat.
Proof. intros Hc Hc' Hne. by rewrite mod4_of. Qed.

(** The three passes of [normalizeImage] on a buffer of bytes. *)
Lemma normalizeImage_loop_result (a : list Z) n :
  length a = (4 * n)%nat -> (0 < n)%nat -> Forall is_byte a ->
  let b := normalizeImage_loop a in
  length b = length a /\ Forall is_byte b /\
  (forall k, b !! (4 * k + 3)%nat = a !! (4 * k + 3)%nat) /\
  forall c, (c < 3)%nat ->
    settled b n c /\
    (two_levels a c -> attains b c 0 /\ attains b c 255) /\
    (forall v, constant_channel a c v -> forall k, (k < n)%nat -> b !! (4 * k + c)%nat = Some 0).
Proof.
  intros Hl Hn Ha b. subst b. unfold normalizeImage_loop. cbn [seq foldl].
  destruct (normalize_channel_pass a n 0 Hl Hn ltac:(lia) Ha) as (L1 & B1 & R1 & S1 & T1 & Z1).
  set (a1 := normalize_channel a 0) in *.
  destruct (normalize_channel_pass a1 n 1 ltac:(lia) Hn ltac:(lia) B1) as (L2 & B2 & R2 & S2 & T2 & Z2).
  set (a2 := normalize_channel a1 1) in *.
  destruct (normalize_channel_pass a2 n 2 ltac:(lia) Hn ltac:(lia) B2) as (L3 & B3 & R3 & S3 & T3 & Z3).
  set (a3 := normalize_channel a2 2) in *.
  assert (K1 : forall c, (c < 4)%nat -> c <> 0%nat -> forall k, a1 !! (4 * k + c)%nat = a !! (4 * k + c)%nat)
    by (intros c Hc Hne k; apply R1; apply other_channel; lia).
  assert (K2 : forall c, (c < 4)%nat -> c <> 1%nat -> forall k, a2 !! (4 * k + c)%nat = a1 !! (4 * k + c)%nat)
    by (intros c Hc Hne k; apply R2; apply other_channel; lia).
  assert (K3 : forall c, (c < 4)%nat -> c <> 2%nat -> forall k, a3 !! (4 * k + c)%nat = a2 !! (4 * k + c)%nat)
    by (intros c Hc Hne k; apply R3; apply other_channel; lia).
  split; [lia|]. split; [exact B3|]. split.
  { intros k. rewrite K3, K2, K1 by lia. reflexivity. }
  intros c Hc.
  assert (Hcases : (c = 0 \/ c = 1 \/ c = 2)%nat) by lia.
  destruct Hcases as [-> | [-> | ->]].
  - assert (K : forall k, a3 !! (4 * k + 0)%nat = a1 !! (4 * k + 0)%nat)
      by (intros k; rewrite K3, K2 by lia; reflexivity).
    split; [by apply (settled_kept a1)|]. split.
    + intros Ht. destruct (T1 Ht). split; by apply (channel_kept_attains a1).
    + intros v Hv k Hk. rewrite K. by apply (Z1 v).
  - assert (K : forall k, a3 !! (4 * k + 1)%nat = a2 !! (4 * k + 1)%nat)
      by (intros k; rewrite K3 by lia; reflexivity).
    split; [by apply (settled_kept a2)|]. split.
    + intros Ht. destruct (T2 (two_levels_kept a a1 1 (K1 1%nat ltac:(lia) ltac:(lia)) Ht)).
      split; by apply (channel_kept_attains a2).
    + intros v Hv k Hk. rewrite K. apply (Z2 v); [|exact Hk].
      apply (constant_channel_kept a); [exact L1|apply K1; lia|exact Hv].
  - split; [exact S3|]. split.
    + intros Ht. apply T3. apply (two_levels_kept a1); [apply K2; lia|].
      apply (two_levels_kept a); [apply K1; lia|exact Ht].
    + intros v Hv k Hk. apply (Z3 v); [|exact Hk].
      apply (constant_channel_kept a1); [exact L2|apply K2; lia|].
      apply (constant_channel_kept a); [exact L1|apply K1; lia|exact Hv].
Qed.

Lemma normalizeImage_loop_settled (b : list Z) n :
  length b = (4 * n)%nat -> Forall is_byte b ->
  (forall c, (c < 3)%nat -> settled b n c) -> normalizeImage_loop b = b.
Proof.
  intros Hl Hb Hs. unfold normalizeImage_loop. apply foldl_fixed.
  intros c Hc%elem_of_seq.
  apply (normalize_channel_settled b n c); [exact Hl|lia|exact Hb|apply Hs; lia].
Qed.

(** What [normalizeImage] returns on a buffer of bytes: in each colour
    channel, both 0 and 255 occur if the channel of the input has two
    levels at least, and every sample is 0 if it has one (the zero range
    is replaced by 1, so a flat channel comes out black, not unchanged);
    the alpha samples are those of the input. *)
Theorem normalize_stretches_or_blackens img s a :
  valid s img a -> Forall is_byte a ->
  exists b,
    yields (normalizeImage img) s img b /\
    Forall is_byte b /\
    (forall k, b !! (4 * k + 3)%nat = a !! (4 * k + 3)%nat) /\
    forall c, (c < 3)%nat ->
      (two_levels a c -> attains b c 0 /\ attains b c 255) /\
      (forall v, constant_channel a c v ->
         forall k, (k < width img * height img)%nat -> b !! (4 * k + c)%nat = Some 0).
Proof.
  intros Hv Ha. pose proof Hv as (_ & Hl & Hw & Hh).
  destruct (normalizeImage_loop_result a (width img * height img)) as (_ & Hb & Halpha & Hc);
    [lia|lia|exact Ha|].
  exists (normalizeImage_loop a). split; [by apply normalizeImage_yields|].
  split; [exact Hb|]. split; [exact Halpha|].
  intros c Hc3. destruct (Hc c Hc3) as (_ & H1 & H2). by split.
Qed.

Lemma normalize_stretches_or_blackens_witness :
  exists b,
    yields (normalizeImage img_2x2) (heap_2x2 colours_2x2) img_2x2 b /\
    Forall is_byte b /\
    (forall k, b !! (4 * k + 3)%nat = colours_2x2 !! (4 * k + 3)%nat) /\
    forall c, (c < 3)%nat ->
      (two_levels colours_2x2 c -> attains b c 0 /\ attains b c 255) /\
      (forall v, constant_channel colours_2x2 c v ->
         forall k, (k < width img_2x2 * height img_2x2)%nat -> b !! (4 * k + c)%nat = Some 0).
Proof.
  apply (normalize_stretches_or_blackens img_2x2 (heap_2x2 colours_2x2) colours_2x2).
  - apply valid_2x2. reflexivity.
  - apply Forall_is_byte_dec. reflexivity.
Defined.

(** [normalizeImage] is idempotent on every buffer of bytes: normalizing
    its result returns the same samples. *)
Theorem normalize_idempotent img s a :
  valid s img a -> Forall is_byte a ->
  exists g s' b,
    normalizeImage img s = inr (g, s') /\ valid s' g b /\
    yields (normalizeImage g) s' g b.
Proof.
  intros Hv Ha. pose proof Hv as (_ & Hl & Hw & Hh).
  destruct (normalizeImage_yields img s a Hv) as (g & s' & E & _ & Vg & Wg & Hg & _).
  destruct (normalizeImage_loop_result a (width img * height img)) as (Hlen & Hb & _ & Hc);
    [lia|lia|exact Ha|].
  exists g, s', (normalizeImage_loop a). split; [exact E|]. split; [exact Vg|].
  pose proof (normalizeImage_yields g s' _ Vg) as Hy.
  rewrite (normalizeImage_loop_settled (normalizeImage_loop a) (width img * height img)) in Hy;
    [exact Hy|lia|exact Hb|].
  intros c Hc3. by destruct (Hc c Hc3).
Qed.

Lemma normalize_idempotent_witness :
  exists g s' b,
    normalizeImage img_2x2 (heap_2x2 colours_2x2) = inr (g, s') /\ valid s' g b /\
    yields (normalizeImage g) s' g b.
Proof.
  apply (normalize_idempotent img_2x2 (heap_2x2 colours_2x2) colours_2x2).
  - apply valid_2x2. reflexivity.
  - apply Forall_is_byte_dec. reflexivity.
Defined.

(** ** The order of binary64 numbers, and [Math.round] *)

Lemma digits2_pos_upper p : Z.pos p < 2 ^ Z.pos (digits2_pos p).
Proof.
  induction p as [p IH|p IH|]; simpl digits2_pos; [| |reflexivity];
    rewrite Pos2Z.inj_succ, Z.pow_succ_r by lia; lia.
Qed.

(** A finite value of [Prim2SF]: the mantissa is below 2^53, and it is
    2^52 at least above the smallest exponent. *)
Lemma valid_finite_bounds s m e :
  valid_binary (S754_finite s m e) = true ->
  Z.pos m < 2 ^ 53 /\ -1074 <= e /\ (-1074 < e -> 2 ^ 52 <= Z.pos m).
Proof.
  unfold SpecFloat.valid_binary, bounded, canonical_mantissa, fexp, SpecFloat.emin, prec, emax.
  intros H. apply andb_true_iff in H as [H _]. apply Z.eqb_eq in H.
  pose proof (digits2_pos_upper m) as Hu. pose proof (digits2_pos_lower m) as Hlo.
  assert (Hd : Z.pos (digits2_pos m) <= 53) by lia.
  split; [|split; [lia|]].
  - eapply Z.lt_le_trans; [exact Hu|]. apply Z.pow_le_mono_r; lia.
  - intros He. assert (Z.pos (digits2_pos m) = 53) by lia.
    replace 52 with (Z.pos (digits2_pos m) - 1) by lia. exact Hlo.
Qed.

Lemma scaled_pos_lt m1 e1 m2 e2 :
  valid_binary (S754_finite false m1 e1) = true ->
  valid_binary (S754_finite false m2 e2) = true ->
  SFcompare (S754_finite false m1 e1) (S754_finite false m2 e2) = Some Lt ->
  scaled (S754_finite false m1 e1) < scaled (S754_finite false m2 e2).
Proof.
  intros V1 V2. apply valid_finite_bounds in V1 as (U1 & L1 & N1).
  apply valid_finite_bounds in V2 as (U2 & L2 & N2).
  cbn [SFcompare scaled]. destruct (e1 ?= e2) eqn:E.
  - apply Z.compare_eq in E. subst e2. intros H.
    injection H as H. assert (Hlt : (m1 < m2)%positive) by (apply Pos.compare_lt_iff; exact H).
    apply Z.mul_lt_mono_pos_r; [apply Z.pow_pos_nonneg; lia|exact Hlt].
  - intros _. change (e1 < e2) in E. specialize (N2 ltac:(lia)).
    assert (Hp : 2 ^ (e2 + 1074) = 2 * 2 ^ (e2 - e1 - 1) * 2 ^ (e1 + 1074)).
    { rewrite <- (Z.pow_succ_r 2 (e2 - e1 - 1)), <- Z.pow_add_r by lia. f_equal. lia. }
    rewrite Hp.
    assert (0 < 2 ^ (e1 + 1074)) by (apply Z.pow_pos_nonneg; lia).
    assert (1 <= 2 ^ (e2 - e1 - 1)) by (apply (Z.pow_le_mono_r 2 0); lia).
    nia.
  - discriminate.
Qed.

Lemma scaled_pos_le m1 e1 m2 e2 :
  valid_binary (S754_finite false m1 e1) = true ->
  valid_binary (S754_finite false m2 e2) = true ->
  SFleb (S754_finite false m1 e1) (S754_finite false m2 e2) = true ->
  scaled (S754_finite false m1 e1) <= scaled (S754_finite false m2 e2).
Proof.
  intros V1 V2 H. unfold SFleb in H.
  destruct (SFcompare _ _) as [[| |]|] eqn:E; try discriminate.
  - cbn [SFcompare] in E. destruct (e1 ?= e2) eqn:Ee; try discriminate.
    apply Z.compare_eq in Ee. subst e2.
    injection E as E. assert (m1 = m2) by (apply Pos.compare_eq; exact E). subst. lia.
  - apply Z.lt_le_incl. by apply scaled_pos_lt.
Qed.

Lemma half_steps v :
  is_byte v ->
  (exists m e, Prim2SF (Z2F v + 0.5) = S754_finite false m e /\ e < 0 /\
               scaled (S754_finite false m e) = (2 * v + 1) * 2 ^ 1073) /\
  (v <> 0 -> exists m e, Prim2SF (Z2F v - 0.5) = S754_finite false m e /\
                         scaled (S754_finite false m e) = (2 * v - 1) * 2 ^ 1073).
Proof.
  intros Hv.
  pose proof (byte_cases half_steps_exact ltac:(vm_compute; reflexivity) v Hv) as H.
  unfold half_steps_exact in H. apply andb_true_iff in H as [H1 H2]. split.
  - destruct (Prim2SF (Z2F v + 0.5)) as [| | |[] m e]; try discriminate.
    apply andb_true_iff in H1 as [He Hm]. exists m, e.
    split; [reflexivity|]. split; [by apply Z.ltb_lt|by apply Z.eqb_eq].
  - intros Hne. apply orb_true_iff in H2 as [H2|H2]; [apply Z.eqb_eq in H2; contradiction|].
    destruct (Prim2SF (Z2F v - 0.5)) as [| | |[] m e]; try discriminate.
    exists m, e. split; [reflexivity|by apply Z.eqb_eq].
Qed.

(** A number that is not negative, seen through [Prim2SF]. *)
Lemma nonneg_cases x :
  (0 <=? x)%float = true ->
  (exists s, Prim2SF x = S754_zero s) \/ Prim2SF x = S754_infinity false \/
  exists m e, Prim2SF x = S754_finite false m e.
Proof.
  rewrite leb_spec. change (Prim2SF 0) with (S754_zero false).
  destruct (Prim2SF x) as [s|[]| |[] m e]; cbn; try discriminate; eauto.
Qed.

Lemma round_Z_upper x v :
  is_byte v -> (0 <=? x)%float = true -> (x <? Z2F v + 0.5)%float = true -> round_Z x <= v.
Proof.
  intros Hv H0 Hlt. destruct (half_steps v Hv) as [(mt & et & Et & Het & St) _].
  pose proof (Prim2SF_valid (Z2F v + 0.5)) as Vt. rewrite Et in Vt.
  pose proof (Prim2SF_valid x) as Vx.
  rewrite ltb_spec, Et in Hlt. unfold round_Z, SFltb in *.
  destruct (nonneg_cases x H0) as [[s E]|[E|(m & e & E)]]; rewrite E in *;
    [unfold is_byte in Hv; lia|discriminate|].
  destruct (SFcompare _ _) as [[| |]|] eqn:Ec; try discriminate.
  pose proof (scaled_pos_lt m e mt et Vx Vt Ec) as Hs. rewrite St in Hs.
  cbn [scaled] in Hs. apply valid_finite_bounds in Vx as (_ & Le & _).
  destruct (0 <=? e) eqn:He.
  - exfalso. apply Z.leb_le in He. cbn [SFcompare] in Ec.
    destruct (e ?= et) eqn:Ecmp; try discriminate;
      [apply Z.compare_eq in Ecmp|change (e < et) in Ecmp]; lia.
  - apply Z.leb_gt in He. cbv zeta.
    assert (Hd : 0 < 2 ^ (- e)) by (apply Z.pow_pos_nonneg; lia).
    assert (Hp : 2 ^ 1073 = 2 ^ (e + 1074) * 2 ^ (- e - 1))
      by (rewrite <- Z.pow_add_r by lia; f_equal; lia).
    assert (H2 : 2 ^ (- e) = 2 * 2 ^ (- e - 1))
      by (rewrite <- Z.pow_succ_r by lia; f_equal; lia).
    assert (Hq : 0 < 2 ^ (e + 1074)) by (apply Z.pow_pos_nonneg; lia).
    assert (Hm : Z.pos m < (2 * v + 1) * 2 ^ (- e - 1)) by nia.
    apply Z.lt_succ_r. apply Z.div_lt_upper_bound; [lia|]. nia.
Qed.

Lemma round_Z_lower x v u :
  is_byte v -> is_byte u -> (0 <=? x)%float = true ->
  (Z2F v - 0.5 <=? x)%float = true -> (x <? Z2F u + 0.5)%float = true -> v <= round_Z x.
Proof.
  intros Hv Hu H0 Hle Hfin.
  assert (Hninf : Prim2SF x <> S754_infinity false).
  { intros E. destruct (half_steps u Hu) as [(mt & et & Et & _) _].
    rewrite ltb_spec, Et, E in Hfin. discriminate. }
  pose proof (Prim2SF_valid x) as Vx. unfold round_Z.
  destruct (decide (v = 0)) as [->|Hne].
  - destruct (nonneg_cases x H0) as [[s E]|[E|(m & e & E)]]; rewrite E in *; [lia|lia|].
    destruct (0 <=? e) eqn:He; [apply Z.leb_le in He; pose proof (Z.pow_nonneg 2 e); nia|].
    apply Z.leb_gt in He. cbv zeta. apply Z.div_pos; [|apply Z.mul_pos_pos; [lia|]];
      pose proof (Z.pow_pos_nonneg 2 (- e)); lia.
  - destruct (half_steps v Hv) as [_ Hlo]. destruct (Hlo Hne) as (mt & et & Et & St).
    pose proof (Prim2SF_valid (Z2F v - 0.5)) as Vt. rewrite Et in Vt.
    rewrite leb_spec, Et in Hle.
    destruct (nonneg_cases x H0) as [[s E]|[E|(m & e & E)]]; rewrite E in *;
      [discriminate|contradiction|].
    pose proof (scaled_pos_le mt et m e Vt Vx Hle) as Hs. rewrite St in Hs.
    cbn [scaled] in Hs. apply valid_finite_bounds in Vx as (_ & Le & _).
    destruct (0 <=? e) eqn:He.
    + apply Z.leb_le in He.
      assert (Hp : 2 ^ (e + 1074) = 2 ^ e * 2 ^ 1074) by (rewrite <- Z.pow_add_r by lia; reflexivity).
      assert (H74 : 2 ^ 1074 = 2 * 2 ^ 1073) by (rewrite <- Z.pow_succ_r by lia; reflexivity).
      assert (0 < 2 ^ 1073) by (apply Z.pow_pos_nonneg; lia).
      assert (0 < 2 ^ e) by (apply Z.pow_pos_nonneg; lia). nia.
    + apply Z.leb_gt in He. cbv zeta.
      assert (Hd : 0 < 2 ^ (- e)) by (apply Z.pow_pos_nonneg; lia).
      assert (Hp : 2 ^ 1073 = 2 ^ (e + 1074) * 2 ^ (- e - 1))
        by (rewrite <- Z.pow_add_r by lia; f_equal; lia).
      assert (H2 : 2 ^ (- e) = 2 * 2 ^ (- e - 1))
        by (rewrite <- Z.pow_succ_r by lia; f_equal; lia).
      assert (Hq : 0 < 2 ^ (e + 1074)) by (apply Z.pow_pos_nonneg; lia).
      assert (Hm : (2 * v - 1) * 2 ^ (- e - 1) <= Z.pos m) by nia.
      apply Z.div_le_lower_bound; [lia|]. nia.
Qed.

Lemma below_half_step_exponent x u m e :
  is_byte u -> (x <? Z2F u + 0.5)%float = true -> Prim2SF x = S754_finite false m e -> e < 0.
Proof.
  intros Hu Hlt E. destruct (half_steps u Hu) as [(mt & et & Et & Het & _) _].
  rewrite ltb_spec, Et, E in Hlt. unfold SFltb in Hlt. cbn [SFcompare] in Hlt.
  destruct (e ?= et) eqn:Ecmp; try discriminate;
    [apply Z.compare_eq in Ecmp|change (e < et) in Ecmp]; lia.
Qed.

(** [Math.round] on a number between 0 and [u + 1/2]: the result is the
    integer [round_Z], as a zero or as a positive number. *)
Lemma Math_round_cases x u :
  is_byte u -> (0 <=? x)%float = true -> (x <? Z2F u + 0.5)%float = true ->
  (round_Z x = 0 /\ exists s, Prim2SF (Math_round x) = S754_zero s) \/
  (0 < round_Z x <= u /\ Math_round x = Z2F (round_Z x)).
Proof.
  intros Hu H0 Hlt. pose proof (round_Z_upper x u Hu H0 Hlt) as Hup.
  pose proof (round_Z_lower x 0 u ltac:(unfold is_byte; lia) Hu H0) as Hlo.
  unfold round_Z, Math_round in *.
  destruct (nonneg_cases x H0) as [[s E]|[E|(m & e & E)]].
  - rewrite E. left. split; [reflexivity|]. exists s. exact E.
  - exfalso. destruct (half_steps u Hu) as [(mt & et & Et & _) _].
    rewrite ltb_spec, Et, E in Hlt. discriminate.
  - pose proof (below_half_step_exponent x u m e Hu Hlt E) as He.
    rewrite E in *. replace (0 <=? e) with false in * by (symmetry; apply Z.leb_gt; lia).
    cbv zeta in *.
    assert (Hlo' : 0 <= (2 * Z.pos m + 2 ^ (- e)) / (2 * 2 ^ (- e))).
    { apply Z.div_pos; pose proof (Z.pow_pos_nonneg 2 (- e)); lia. }
    destruct ((2 * Z.pos m + 2 ^ (- e)) / (2 * 2 ^ (- e)) =? 0) eqn:Er.
    + apply Z.eqb_eq in Er. left. split; [exact Er|]. by exists false.
    + apply Z.eqb_neq in Er. right. split; [lia|reflexivity].
Qed.

Lemma Math_round_stored x u :
  is_byte u -> (0 <=? x)%float = true -> (x <? Z2F u + 0.5)%float = true ->
  ToUint8Clamp (Math_round x) = round_Z x /\ 0 <= round_Z x <= u.
Proof.
  intros Hu H0 Hlt.
  destruct (Math_round_cases x u Hu H0 Hlt) as [(Hz & s & Hs)|(Hr & Hm)].
  - rewrite Hz. split; [|unfold is_byte in Hu; lia]. unfold ToUint8Clamp. by rewrite Hs.
  - rewrite Hm. split; [|lia]. apply clamp_store_byte. unfold is_byte in *. lia.
Qed.

(** *** The weighted sum of the grey conversion *)

Lemma byte_floats_elem v : is_byte v -> In (Z2F v) byte_floats.
Proof.
  intros [H0 H1]. unfold byte_floats, bytes. apply list_elem_of_In.
  rewrite <- list_fmap_compose. apply list_elem_of_fmap.
  exists (Z.to_nat v). split; [simpl; by rewrite Z2Nat.id|]. apply elem_of_seq. lia.
Qed.

Lemma forallb3 {A} (P : A -> A -> A -> bool) (l : list A) :
  forallb (λ a, forallb (λ b, forallb (λ c, P a b c) l) l) l = true ->
  forall a b c, In a l -> In b l -> In c l -> P a b c = true.
Proof.
  intros H a b c Ha Hb Hc. rewrite forallb_forall in H. specialize (H a Ha).
  rewrite forallb_forall in H. specialize (H b Hb).
  rewrite forallb_forall in H. exact (H c Hc).
Qed.

Lemma luma_in_bounds_all :
  forallb (λ a, forallb (λ b, forallb (λ c, luma_in_bounds a b c) byte_floats) byte_floats)
          byte_floats = true.
Proof. vm_cast_no_check (eq_refl true). Qed.

Lemma luma_sum_checked r g b :
  is_byte r -> is_byte g -> is_byte b ->
  let x := luma_sum (Z2F r) (Z2F g) (Z2F b) in
  (0 <=? x)%float = true /\
  ((Z2F r - 0.5 <=? x) || (Z2F g - 0.5 <=? x) || (Z2F b - 0.5 <=? x))%float = true /\
  ((x <? Z2F r + 0.5) || (x <? Z2F g + 0.5) || (x <? Z2F b + 0.5))%float = true.
Proof.
  intros Hr Hg Hb x.
  pose proof (forallb3 luma_in_bounds byte_floats luma_in_bounds_all (Z2F r) (Z2F g) (Z2F b)
                (byte_floats_elem r Hr) (byte_floats_elem g Hg) (byte_floats_elem b Hb)) as H.
  unfold luma_in_bounds in H. fold x in H.
  apply andb_true_iff in H as [H H3]. apply andb_true_iff in H as [H1 H2].
  split; [exact H1|]. split; [exact H2|exact H3].
Qed.
(** The grey level of a pixel of bytes: an integer between the smallest
    and the largest of the three samples. *)
Lemma luma_between r g b :
  is_byte r -> is_byte g -> is_byte b ->
  let x := luma_sum (Z2F r) (Z2F g) (Z2F b) in
  ToUint8Clamp (luma (Z2F r) (Z2F g) (Z2F b)) = round_Z x /\
  Z.min r (Z.min g b) <= round_Z x <= Z.max r (Z.max g b) /\
  ((round_Z x = 0 /\ exists s, Prim2SF (luma (Z2F r) (Z2F g) (Z2F b)) = S754_zero s) \/
   (0 < round_Z x /\ luma (Z2F r) (Z2F g) (Z2F b) = Z2F (round_Z x))).
Proof.
  intros Hr Hg Hb x. destruct (luma_sum_checked r g b Hr Hg Hb) as (H0 & Hlo & Hhi).
  fold x in H0, Hlo, Hhi. change (luma (Z2F r) (Z2F g) (Z2F b)) with (Math_round x).
  assert (Hup : exists u, is_byte u /\ u <= Z.max r (Z.max g b) /\ (x <? Z2F u + 0.5)%float = true).
  { apply orb_true_iff in Hhi as [Hhi|Hhi]; [apply orb_true_iff in Hhi as [Hhi|Hhi]|].
    - exists r. split; [exact Hr|]. split; [lia|exact Hhi].
    - exists g. split; [exact Hg|]. split; [lia|exact Hhi].
    - exists b. split; [exact Hb|]. split; [lia|exact Hhi]. }
  destruct Hup as (u & Hu & Hmax & Hlt).
  assert (Hdown : exists v, is_byte v /\ Z.min r (Z.min g b) <= v /\ (Z2F v - 0.5 <=? x)%float = true).
  { apply orb_true_iff in Hlo as [Hlo|Hlo]; [apply orb_true_iff in Hlo as [Hlo|Hlo]|].
    - exists r. split; [exact Hr|]. split; [lia|exact Hlo].
    - exists g. split; [exact Hg|]. split; [lia|exact Hlo].
    - exists b. split; [exact Hb|]. split; [lia|exact Hlo]. }
  destruct Hdown as (v & Hv & Hmin & Hle).
  pose proof (round_Z_upper x u Hu H0 Hlt). pose proof (round_Z_lower x v u Hv Hu H0 Hle Hlt).
  destruct (Math_round_stored x u Hu H0 Hlt) as [Hst _].
  split; [exact Hst|]. split; [lia|].
  destruct (Math_round_cases x u Hu H0 Hlt) as [Hc|[Hc Hm]]; [by left|right]. split; [lia|exact Hm].
Qed.

(** ** computeHistogram *)

Lemma bytes_lookup j : (j < 256)%nat -> bytes !! j = Some (Z.of_nat j).
Proof.
  intros Hj. unfold bytes. rewrite list_lookup_fmap, lookup_seq_lt by exact Hj. reflexivity.
Qed.

Lemma length_bytes : length bytes = 256%nat.
Proof. reflexivity. Qed.

Lemma pixels_at_S (f : nat -> Z) m v :
  pixels_at f (S m) v = pixels_at f m v + (if f m =? v then 1 else 0).
Proof.
  unfold pixels_at. rewrite seq_S, filter_app, length_app, filter_cons, filter_nil. simpl.
  destruct (decide (f m = v)) as [E|E].
  - replace (f m =? v) with true by (symmetry; by apply Z.eqb_eq). simpl. lia.
  - replace (f m =? v) with false by (symmetry; by apply Z.eqb_neq). simpl. lia.
Qed.

Lemma increment_bins (f : nat -> Z) m :
  is_byte (f m) -> increment (Some (f m)) (bins f m) = bins f (S m).
Proof.
  intros [H0 H1]. unfold increment, bins.
  assert (Hi : (Z.to_nat (f m) < 256)%nat) by lia.
  rewrite list_lookup_fmap, (bytes_lookup _ Hi). cbn [fmap option_fmap option_map].
  apply list_eq. intros j. rewrite list_lookup_fmap.
  destruct (decide (j = Z.to_nat (f m))) as [->|Hne].
  - rewrite list_lookup_insert_eq by (rewrite length_fmap, length_bytes; exact Hi).
    rewrite (bytes_lookup _ Hi). cbn [fmap option_fmap option_map].
    rewrite pixels_at_S. replace (f m =? Z.of_nat (Z.to_nat (f m))) with true
      by (symmetry; apply Z.eqb_eq; lia). reflexivity.
  - rewrite list_lookup_insert_ne by congruence. rewrite list_lookup_fmap.
    destruct (bytes !! j) as [v|] eqn:Ej; [|reflexivity]. cbn [fmap option_fmap option_map].
    assert (Hj : (j < 256)%nat) by (apply lookup_lt_Some in Ej; by rewrite length_bytes in Ej).
    rewrite bytes_lookup in Ej by exact Hj. inversion Ej; subst v.
    rewrite pixels_at_S. replace (f m =? Z.of_nat j) with false
      by (symmetry; apply Z.eqb_neq; lia). by rewrite Z.add_0_r.
Qed.

Lemma bins_0 (f : nat -> Z) : bins f 0 = replicate 256 (Count 0).
Proof. reflexivity. Qed.

Lemma sum_fmap_add {A} (f g : A -> Z) (l : list A) :
  foldr Z.add 0 ((λ v, f v + g v) <$> l) = foldr Z.add 0 (f <$> l) + foldr Z.add 0 (g <$> l).
Proof.
  induction l as [|x l IH]; [reflexivity|]. rewrite !fmap_cons. cbn [foldr]. lia.
Qed.

Lemma sum_indicator u :
  is_byte u -> foldr Z.add 0 ((λ v, if u =? v then 1 else 0) <$> bytes) = 1.
Proof.
  intros Hu. apply Z.eqb_eq.
  apply (byte_cases (λ w, foldr Z.add 0 ((λ v, if w =? v then 1 else 0) <$> bytes) =? 1));
    [vm_compute; reflexivity|exact Hu].
Qed.

(** The bins of levels that are bytes sum to the number of pixels. *)
Lemma pixels_at_sum (f : nat -> Z) n :
  (forall k, (k < n)%nat -> is_byte (f k)) ->
  foldr Z.add 0 (pixels_at f n <$> bytes) = Z.of_nat n.
Proof.
  induction n as [|n IH]; intros Hf.
  - vm_compute. reflexivity.
  - erewrite (list_fmap_ext (pixels_at f (S n))); [|intros i v _; apply pixels_at_S].
    rewrite (sum_fmap_add (pixels_at f n) (λ v, if f n =? v then 1 else 0)).
    rewrite IH, sum_indicator by (auto with lia). lia.
Qed.

Lemma array_index_byte v : is_byte v -> array_index (Z2F v) = Some v.
Proof.
  intros Hv.
  pose proof (byte_cases (λ w, match array_index (Z2F w) with Some k => k =? w | None => false end)
                ltac:(vm_compute; reflexivity) v Hv) as H.
  cbv beta in H. destruct (array_index (Z2F v)) as [k|]; [|discriminate].
  apply Z.eqb_eq in H. by subst.
Qed.

Lemma index_of_byte v : is_byte v -> index_of_sample (Some v) = Some v.
Proof.
  intros [H0 H1]. unfold index_of_sample. cbn [mbind option_bind].
  replace (0 <=? v) with true by (symmetry; apply Z.leb_le; lia).
  replace (v <? 2 ^ 32 - 1) with true by (symmetry; apply Z.ltb_lt; lia). reflexivity.
Qed.

(** The index that the grey level of a pixel of bytes is. *)
Lemma array_index_luma r g b :
  is_byte r -> is_byte g -> is_byte b ->
  array_index (luma (Z2F r) (Z2F g) (Z2F b)) = Some (ToUint8Clamp (luma (Z2F r) (Z2F g) (Z2F b))) /\
  is_byte (ToUint8Clamp (luma (Z2F r) (Z2F g) (Z2F b))).
Proof.
  intros Hr Hg Hb. split; [|apply ToUint8Clamp_byte].
  destruct (luma_between r g b Hr Hg Hb) as (Hst & Hbet & Hcases). cbv zeta in *.
  rewrite Hst. destruct Hcases as [(Hz & s & Hs)|(Hpos & Hm)].
  - rewrite Hz. unfold array_index. by rewrite Hs.
  - rewrite Hm. apply array_index_byte. unfold is_byte in *. lia.
Qed.

Lemma isGray_fold (a : list Z) (l : list nat) : forall h,
  isGray (foldl (λ h i,
           let grayVal := Math_round (0.299 * sample a i + 0.587 * sample a (i + 1)
                                      + 0.114 * sample a (i + 2))%float in
           {| hist_r := increment (index_of_sample (a !! i)) (hist_r h);
              hist_g := increment (index_of_sample (a !! (i + 1)%nat)) (hist_g h);
              hist_b := increment (index_of_sample (a !! (i + 2)%nat)) (hist_b h);
              hist_gray := increment (array_index grayVal) (hist_gray h);
              isGray := if negb (bool_decide (a !! i = a !! (i + 1)%nat))
                           || negb (bool_decide (a !! (i + 1)%nat = a !! (i + 2)%nat))
                        then false else isGray h |}) h l)
  = isGray h
    && forallb (λ i, negb (negb (bool_decide (a !! i = a !! (i + 1)%nat))
                           || negb (bool_decide (a !! (i + 1)%nat = a !! (i + 2)%nat)))) l.
Proof.
  induction l as [|i l IH]; intros h; cbn [foldl forallb]; [by rewrite andb_true_r|].
  rewrite IH. cbn [isGray].
  destruct (negb (bool_decide (a !! i = a !! (i + 1)%nat))
            || negb (bool_decide (a !! (i + 1)%nat = a !! (i + 2)%nat)));
    destruct (isGray h); reflexivity.
Qed.

Lemma computeHistogram_loop_bins (a : list Z) n :
  length a = (4 * n)%nat -> Forall is_byte a ->
  let level := λ c k, a !!! (4 * k + c)%nat in
  let grey := λ k, ToUint8Clamp (luma (Z2F (level 0%nat k)) (Z2F (level 1%nat k))
                                      (Z2F (level 2%nat k))) in
  hist_r (computeHistogram_loop a) = bins (level 0%nat) n /\
  hist_g (computeHistogram_loop a) = bins (level 1%nat) n /\
  hist_b (computeHistogram_loop a) = bins (level 2%nat) n /\
  hist_gray (computeHistogram_loop a) = bins grey n.
Proof.
  intros Hl Ha level grey. unfold computeHistogram_loop. rewrite Hl, steps_4, foldl_fmap.
  match goal with
  | |- context [foldl ?f ?h0 _] =>
      assert (H : forall m, (m <= n)%nat ->
                hist_r (foldl f h0 (seq 0 m)) = bins (level 0%nat) m /\
                hist_g (foldl f h0 (seq 0 m)) = bins (level 1%nat) m /\
                hist_b (foldl f h0 (seq 0 m)) = bins (level 2%nat) m /\
                hist_gray (foldl f h0 (seq 0 m)) = bins grey m)
  end.
  { induction m as [|m IH]; intros Hm; [by rewrite !bins_0|].
    rewrite seq_S, foldl_snoc. destruct (IH ltac:(lia)) as (Hr & Hg & Hb & Hgray).
    cbv zeta. cbn [hist_r hist_g hist_b hist_gray]. rewrite Hr, Hg, Hb, Hgray.
    replace (0 + (0 + m) * 4)%nat with (4 * m + 0)%nat by lia.
    assert (E : forall c, (c < 3)%nat ->
              a !! (4 * m + c)%nat = Some (level c m) /\ is_byte (level c m)).
    { intros c Hc. split; [apply list_lookup_lookup_total_lt; lia|by apply lookup_total_byte]. }
    destruct (E 0%nat ltac:(lia)) as [E0 B0]. destruct (E 1%nat ltac:(lia)) as [E1 B1].
    destruct (E 2%nat ltac:(lia)) as [E2 B2].
    replace (4 * m + 0 + 1)%nat with (4 * m + 1)%nat by lia.
    replace (4 * m + 0 + 2)%nat with (4 * m + 2)%nat by lia.
    rewrite E0, E1, E2, !index_of_byte by assumption.
    rewrite (sample_of _ _ _ E0), (sample_of _ _ _ E1), (sample_of _ _ _ E2).
    destruct (array_index_luma _ _ _ B0 B1 B2) as [Ei Bi].
    change (Math_round (0.299 * Z2F (level 0%nat m) + 0.587 * Z2F (level 1%nat m)
                        + 0.114 * Z2F (level 2%nat m)))%float
      with (luma (Z2F (level 0%nat m)) (Z2F (level 1%nat m)) (Z2F (level 2%nat m))).
    rewrite Ei. fold (grey m).
    rewrite (increment_bins (level 0%nat)), (increment_bins (level 1%nat)),
      (increment_bins (level 2%nat)), (increment_bins grey) by assumption.
    auto. }
  by apply H.
Qed.

Lemma bins_ext (f g : nat -> Z) n :
  (forall k, (k < n)%nat -> f k = g k) -> bins f n = bins g n.
Proof.
  intros H. unfold bins. apply list_fmap_ext. intros _ v _. f_equal. unfold pixels_at. f_equal.
  f_equal. assert (G : forall m, (m <= n)%nat ->
    filter (λ k, f k = v) (seq 0 m) = filter (λ k, g k = v) (seq 0 m)).
  { induction m as [|m IH]; intros Hm; [reflexivity|].
    rewrite seq_S, !filter_app, IH by lia. f_equal. cbn [seq Nat.add].
    rewrite !filter_cons, !filter_nil, (H m) by lia. reflexivity. }
  by apply G.
Qed.

Lemma computeHistogram_run img s a :
  heap s !! data img = Some (U8 a) ->
  computeHistogram img s = inr (computeHistogram_loop a, s).
Proof.
  intros Hd. unfold computeHistogram. by rewrite (bind_inr _ _ _ _ _ (read_u8_ok _ _ _ Hd)).
Qed.

(** [computeHistogram] on a buffer of bytes: bin [v] of [r], [g], [b]
    counts the pixels whose red, green, blue sample is [v], bin [v] of
    [gray] counts the pixels to which [toGrayscale] gives the level [v];
    each of the four arrays has 256 bins that sum to width x height; and
    [isGray] is the answer of [isGrayscale].  The buffer is not changed. *)
Theorem computeHistogram_counts_pixels img s a :
  valid s img a -> Forall is_byte a ->
  let n := (width img * height img)%nat in
  let level := λ c k, a !!! (4 * k + c)%nat in
  let grey := λ k, ToUint8Clamp (luma (Z2F (level 0%nat k)) (Z2F (level 1%nat k))
                                      (Z2F (level 2%nat k))) in
  exists h,
    computeHistogram img s = inr (h, s) /\
    hist_r h = bins (level 0%nat) n /\ hist_g h = bins (level 1%nat) n /\
    hist_b h = bins (level 2%nat) n /\ hist_gray h = bins grey n /\
    (forall k, (k < n)%nat -> toGrayscale_loop a !! (4 * k)%nat = Some (grey k)) /\
    foldr Z.add 0 (pixels_at (level 0%nat) n <$> bytes) = Z.of_nat n /\
    foldr Z.add 0 (pixels_at (level 1%nat) n <$> bytes) = Z.of_nat n /\
    foldr Z.add 0 (pixels_at (level 2%nat) n <$> bytes) = Z.of_nat n /\
    foldr Z.add 0 (pixels_at grey n <$> bytes) = Z.of_nat n /\
    isGrayscale img s = inr (isGray h, s).
Proof.
  intros Hv Ha n level grey. pose proof Hv as (Hd & Hl & _).
  assert (Hl' : length a = (4 * n)%nat) by (subst n; lia).
  destruct (computeHistogram_loop_bins a n Hl' Ha) as (Hr & Hg & Hb & Hgray).
  exists (computeHistogram_loop a).
  split; [by apply computeHistogram_run|].
  split; [exact Hr|]. split; [exact Hg|]. split; [exact Hb|]. split; [exact Hgray|].
  split.
  { intros k Hk. destruct (toGrayscale_loop_lookup a n Hl') as [_ Hpix].
    destruct (Hpix k Hk) as [Hrgb _]. rewrite <- (Nat.add_0_r (4 * k)) at 1.
    rewrite (Hrgb 0%nat) by lia. unfold grey, level.
    rewrite !(sample_of a _ (a !!! _)) by (apply list_lookup_lookup_total_lt; lia).
    by rewrite Nat.add_0_r. }
  assert (Hlev : forall c k, is_byte (level c k)) by (intros c k; by apply lookup_total_byte).
  split; [apply pixels_at_sum; auto|]. split; [apply pixels_at_sum; auto|].
  split; [apply pixels_at_sum; auto|].
  split; [apply pixels_at_sum; intros k _; apply ToUint8Clamp_byte|].
  unfold isGrayscale. rewrite (bind_inr _ _ _ _ _ (read_u8_ok _ _ _ Hd)).
  unfold mret, M_ret. do 2 f_equal. unfold computeHistogram_loop, isGrayscale_scan.
  by rewrite isGray_fold.
Qed.

Lemma computeHistogram_counts_pixels_witness :
  let n := (width img_2x2 * height img_2x2)%nat in
  let level := λ c k, colours_2x2 !!! (4 * k + c)%nat in
  let grey := λ k, ToUint8Clamp (luma (Z2F (level 0%nat k)) (Z2F (level 1%nat k))
                                      (Z2F (level 2%nat k))) in
  exists h,
    computeHistogram img_2x2 (heap_2x2 colours_2x2) = inr (h, heap_2x2 colours_2x2) /\
    hist_r h = bins (level 0%nat) n /\ hist_g h = bins (level 1%nat) n /\
    hist_b h = bins (level 2%nat) n /\ hist_gray h = bins grey n /\
    (forall k, (k < n)%nat -> toGrayscale_loop colours_2x2 !! (4 * k)%nat = Some (grey k)) /\
    foldr Z.add 0 (pixels_at (level 0%nat) n <$> bytes) = Z.of_nat n /\
    foldr Z.add 0 (pixels_at (level 1%nat) n <$> bytes) = Z.of_nat n /\
    foldr Z.add 0 (pixels_at (level 2%nat) n <$> bytes) = Z.of_nat n /\
    foldr Z.add 0 (pixels_at grey n <$> bytes) = Z.of_nat n /\
    isGrayscale img_2x2 (heap_2x2 colours_2x2) = inr (isGray h, heap_2x2 colours_2x2).
Proof.
  apply (computeHistogram_counts_pixels img_2x2 (heap_2x2 colours_2x2) colours_2x2).
  - apply valid_2x2. reflexivity.
  - apply Forall_is_byte_dec. reflexivity.
Defined.

(** On an achromatic buffer of bytes the four arrays of bins of
    [computeHistogram] are the same, and [isGray] is [true]. *)
Theorem computeHistogram_of_achromatic img s a :
  valid s img a -> Forall is_byte a -> achromatic a ->
  exists h,
    computeHistogram img s = inr (h, s) /\
    isGray h = true /\
    hist_g h = hist_r h /\ hist_b h = hist_r h /\ hist_gray h = hist_r h.
Proof.
  intros Hv Ha Hg. pose proof Hv as (Hd & Hl & _).
  set (n := (width img * height img)%nat).
  assert (Hl' : length a = (4 * n)%nat) by (subst n; lia).
  destruct (computeHistogram_loop_bins a n Hl' Ha) as (Hr & Hgr & Hb & Hgray).
  exists (computeHistogram_loop a). split; [by apply computeHistogram_run|].
  assert (Hsame : forall k, (k < n)%nat ->
            a !!! (4 * k + 1)%nat = a !!! (4 * k + 0)%nat /\
            a !!! (4 * k + 2)%nat = a !!! (4 * k + 0)%nat /\
            is_byte (a !!! (4 * k + 0)%nat)).
  { intros k Hk. destruct (Hg k ltac:(lia)) as (v & Hrgb).
    apply rgb_inv in Hrgb as (H0 & H1 & H2). rewrite Nat.add_0_r.
    rewrite (list_lookup_total_correct _ _ _ H0), (list_lookup_total_correct _ _ _ H1),
      (list_lookup_total_correct _ _ _ H2).
    split; [reflexivity|]. split; [reflexivity|].
    rewrite Forall_forall in Ha. apply Ha. by eapply list_elem_of_lookup_2. }
  split.
  { unfold computeHistogram_loop. rewrite isGray_fold. cbn [isGray andb].
    by apply (isGrayscale_scan_spec a n Hl'). }
  rewrite Hr, Hgr, Hb, Hgray.
  split; [apply bins_ext; intros k Hk; by destruct (Hsame k Hk)|].
  split; [apply bins_ext; intros k Hk; by destruct (Hsame k Hk) as (_ & ? & _)|].
  apply bins_ext. intros k Hk. destruct (Hsame k Hk) as (E1 & E2 & Bk).
  rewrite E1, E2. by apply luma_of_grey.
Qed.

Lemma computeHistogram_of_achromatic_witness :
  exists h,
    computeHistogram img_3x1 heap_3x1 = inr (h, heap_3x1) /\
    isGray h = true /\
    hist_g h = hist_r h /\ hist_b h = hist_r h /\ hist_gray h = hist_r h.
Proof.
  apply (computeHistogram_of_achromatic img_3x1 heap_3x1 row_20_10_30).
  - exact valid_3x1.
  - apply Forall_is_byte_dec. reflexivity.
  - intros k Hk. simpl in Hk.
    destruct k as [|[|[|k]]]; [by exists 20|by exists 10|by exists 30|lia].
Defined.

(** The grey level that [toGrayscale] gives to a pixel of bytes lies
    between the smallest and the largest of its three colour samples. *)
Theorem toGrayscale_between_channels img s a :
  valid s img a -> Forall is_byte a ->
  exists b,
    yields (toGrayscale img) s img b /\
    forall k, (k < width img * height img)%nat ->
      exists r g bl v,
        rgb a k = [r; g; bl] /\ rgb b k = [v; v; v] /\
        Z.min r (Z.min g bl) <= v <= Z.max r (Z.max g bl).
Proof.
  intros Hv Ha. pose proof Hv as (_ & Hl & _).
  assert (Hl' : length a = (4 * (width img * height img))%nat) by lia.
  exists (toGrayscale_loop a). split; [by apply toGrayscale_yields|].
  intros k Hk. destruct (toGrayscale_loop_lookup a _ Hl') as [_ Hpix].
  destruct (Hpix k Hk) as [Hrgb _].
  assert (E : forall c, (c < 3)%nat ->
            a !! (4 * k + c)%nat = Some (a !!! (4 * k + c)%nat) /\ is_byte (a !!! (4 * k + c)%nat)).
  { intros c Hc. split; [apply list_lookup_lookup_total_lt; lia|by apply lookup_total_byte]. }
  destruct (E 0%nat ltac:(lia)) as [E0 B0]. destruct (E 1%nat ltac:(lia)) as [E1 B1].
  destruct (E 2%nat ltac:(lia)) as [E2 B2]. rewrite Nat.add_0_r in E0, B0.
  destruct (luma_between _ _ _ B0 B1 B2) as (Hst & Hbet & _). cbv zeta in Hst, Hbet.
  eexists _, _, _, _. split; [by apply rgb_eq|]. split.
  - apply rgb_all. intros c Hc. rewrite (Hrgb c Hc).
    rewrite (sample_of _ _ _ E0), (sample_of _ _ _ E1), (sample_of _ _ _ E2).
    rewrite Hst. reflexivity.
  - exact Hbet.
Qed.

Lemma toGrayscale_between_channels_witness :
  exists b,
    yields (toGrayscale img_2x2) (heap_2x2 colours_2x2) img_2x2 b /\
    forall k, (k < width img_2x2 * height img_2x2)%nat ->
      exists r g bl v,
        rgb colours_2x2 k = [r; g; bl] /\ rgb b k = [v; v; v] /\
        Z.min r (Z.min g bl) <= v <= Z.max r (Z.max g bl).
Proof.
  apply (toGrayscale_between_channels img_2x2 (heap_2x2 colours_2x2) colours_2x2).
  - apply valid_2x2. reflexivity.
  - apply Forall_is_byte_dec. reflexivity.
Defined.

(** ** [nextPow2] *)

Lemma pow2_bounds i : 0 <= i <= 30 -> 0 < 2 ^ i <= 2 ^ 30.
Proof.
  intros H. split; [apply Z.pow_pos_nonneg; lia|apply Z.pow_le_mono_r; lia].
Qed.

(** While the powers reached stay below [2 ^ 31], the loop stops at the
    first one that is not below [n]. *)
Lemma nextPow2_loop_least n : forall turns i,
  0 <= i <= 30 -> 30 - i < Z.of_nat turns -> Z.of_nat n <= 2 ^ 30 ->
  (forall j, 0 <= j < i -> 2 ^ j < Z.of_nat n) ->
  exists k, i <= k <= 30 /\ nextPow2_loop turns n (2 ^ i) = Some (2 ^ k) /\
            Z.of_nat n <= 2 ^ k /\ forall j, 0 <= j < k -> 2 ^ j < Z.of_nat n.
Proof.
  induction turns as [|turns IH]; intros i Hi Ht Hn Hlow.
  - lia.
  - cbn [nextPow2_loop]. destruct (2 ^ i <? Z.of_nat n) eqn:E.
    + apply Z.ltb_lt in E. assert (i < 30).
      { destruct (decide (i = 30)) as [->|]; lia. }
      replace (2 ^ i * 2) with (2 ^ (i + 1)) by (rewrite Z.pow_add_r; lia).
      pose proof (pow2_bounds (i + 1) ltac:(lia)).
      rewrite int32_small by lia.
      destruct (IH (i + 1)) as (k & Hk & Hrun & Hge & Hlt); [lia|lia|exact Hn| |].
      * intros j Hj. destruct (decide (j = i)) as [->|]; [exact E|apply Hlow; lia].
      * exists k. split; [lia|]. split; [exact Hrun|]. split; [exact Hge|exact Hlt].
    + apply Z.ltb_ge in E. exists i. split; [lia|]. split; [reflexivity|].
      split; [exact E|exact Hlow].
Qed.

(** Once [p] is 0 the loop cannot leave it. *)
Lemma nextPow2_loop_stuck n : (0 < n)%nat -> forall turns, nextPow2_loop turns n 0 = None.
Proof.
  intros Hn. induction turns as [|turns IH]; cbn [nextPow2_loop].
  - destruct (0 <? Z.of_nat n) eqn:E; [reflexivity|apply Z.ltb_ge in E; lia].
  - destruct (0 <? Z.of_nat n) eqn:E; [exact IH|apply Z.ltb_ge in E; lia].
Qed.

Lemma nextPow2_loop_overflow n : 2 ^ 30 < Z.of_nat n ->
  forall d i turns, i = 30 - Z.of_nat d -> 0 <= i -> nextPow2_loop turns n (2 ^ i) = None.
Proof.
  intros Hn. induction d as [|d IH]; intros i turns Hi H0.
  - assert (i = 30) as -> by lia.
    destruct turns as [|turns]; cbn [nextPow2_loop].
    { destruct (2 ^ 30 <? Z.of_nat n) eqn:E; [reflexivity|apply Z.ltb_ge in E; lia]. }
    destruct (2 ^ 30 <? Z.of_nat n) eqn:E; [|apply Z.ltb_ge in E; lia].
    change (int32 (2 ^ 30 * 2)) with (- 2 ^ 31).
    destruct turns as [|turns]; cbn [nextPow2_loop].
    { destruct (- 2 ^ 31 <? Z.of_nat n) eqn:E'; [reflexivity|apply Z.ltb_ge in E'; lia]. }
    destruct (- 2 ^ 31 <? Z.of_nat n) eqn:E'; [|apply Z.ltb_ge in E'; lia].
    change (int32 (- 2 ^ 31 * 2)) with 0. apply nextPow2_loop_stuck. lia.
  - pose proof (pow2_bounds i ltac:(lia)).
    destruct turns as [|turns]; cbn [nextPow2_loop].
    { destruct (2 ^ i <? Z.of_nat n) eqn:E; [reflexivity|apply Z.ltb_ge in E; lia]. }
    destruct (2 ^ i <? Z.of_nat n) eqn:E; [|apply Z.ltb_ge in E; lia].
    replace (2 ^ i * 2) with (2 ^ (i + 1)) by (rewrite Z.pow_add_r; lia).
    pose proof (pow2_bounds (i + 1) ltac:(lia)).
    rewrite int32_small by lia. apply IH; lia.
Qed.

Lemma nextPow2_least (n : nat) :
  Z.of_nat n <= 2 ^ 30 ->
  exists k, (k <= 30)%nat /\ nextPow2 n = Some (2 ^ k)%nat /\ (n <= 2 ^ k)%nat /\
            forall j, (n <= 2 ^ j)%nat -> (k <= j)%nat.
Proof.
  intros Hn.
  destruct (nextPow2_loop_least n 33 0) as (k & Hk & Hrun & Hge & Hlt);
    [lia|lia|exact Hn|intros; lia|].
  assert (E : forall j : nat, 2 ^ Z.of_nat j = Z.of_nat (2 ^ j)).
  { intros j. rewrite Nat2Z.inj_pow. reflexivity. }
  exists (Z.to_nat k). split; [lia|]. unfold nextPow2.
  change (2 ^ 0) with 1 in Hrun. rewrite Hrun. cbn [fmap option_fmap option_map].
  assert (Ek : 2 ^ k = Z.of_nat (2 ^ Z.to_nat k)) by (rewrite <- E, Z2Nat.id; lia).
  split; [by rewrite Ek, Nat2Z.id|]. split; [lia|].
  intros j Hj. destruct (decide (Z.to_nat k <= j)%nat) as [|Hc]; [assumption|exfalso].
  specialize (Hlt (Z.of_nat j) ltac:(lia)). rewrite E in Hlt. lia.
Qed.

(** [nextPow2 n] is the least power of two that is at least [n], as long
    as [n] is at most [2 ^ 30]; above that the 32-bit shift wraps to a
    negative number and then to 0, and the loop never ends, whatever the
    number of turns it is given. *)
Theorem nextPow2_least_power_or_no_return (n : nat) :
  (Z.of_nat n <= 2 ^ 30 ->
   exists k, (k <= 30)%nat /\ nextPow2 n = Some (2 ^ k)%nat /\ (n <= 2 ^ k)%nat /\
             forall j, (n <= 2 ^ j)%nat -> (k <= j)%nat) /\
  (2 ^ 30 < Z.of_nat n -> forall turns, nextPow2_loop turns n 1 = None).
Proof.
  split; [apply nextPow2_least|].
  intros Hn turns. change 1 with (2 ^ 0).
  by apply (nextPow2_loop_overflow n Hn 30 0 turns).
Qed.

Lemma nextPow2_least_power_or_no_return_witness :
  exists k, (k <= 30)%nat /\ nextPow2 5 = Some (2 ^ k)%nat /\ (5 <= 2 ^ k)%nat /\
            forall j, (5 <= 2 ^ j)%nat -> (k <= j)%nat.
Proof.
  apply (nextPow2_least_power_or_no_return 5). vm_compute. discriminate.
Defined.

(** ** Loops that write an opaque grey pixel *)

Lemma opaque_writes_lookup w h (G : nat -> nat -> float) (a : list Z) :
  length a = (4 * w * h)%nat ->
  let b := foldl (λ out y,
             foldl (λ out x,
                      store ((y * w + x) * 4 + 3) 255
                        (store ((y * w + x) * 4 + 2) (G x y)
                           (store ((y * w + x) * 4 + 1) (G x y)
                              (store ((y * w + x) * 4) (G x y) out))))
                   out (seq 0 w))
             a (seq 0 h) in
  length b = length a /\
  forall x y, (x < w)%nat -> (y < h)%nat ->
    (forall c, (c < 3)%nat -> b !! ((y * w + x) * 4 + c)%nat = Some (ToUint8Clamp (G x y))) /\
    b !! ((y * w + x) * 4 + 3)%nat = Some 255.
Proof.
  intros Hl b. subst b.
  rewrite (foldl_pairs (λ out y x,
             store ((y * w + x) * 4 + 3) 255
               (store ((y * w + x) * 4 + 2) (G x y)
                  (store ((y * w + x) * 4 + 1) (G x y)
                     (store ((y * w + x) * 4) (G x y) out))))).
  set (pos := λ p : nat * nat, ((p.1 * w + p.2) * 4)%nat).
  set (V := λ (p : nat * nat) (c : nat),
         if (c <? 3)%nat then ToUint8Clamp (G p.2 p.1) else 255).
  set (body := λ (o : list Z) (p : nat * nat),
         store (pos p + 3) 255
           (store (pos p + 2) (G p.2 p.1)
              (store (pos p + 1) (G p.2 p.1) (store (pos p) (G p.2 p.1) o)))).
  assert (Hbl : forall o p, length (body o p) = length o)
    by (intros; unfold body; by rewrite !length_store).
  assert (Hbk : forall o p j, (pos p + 4 <= length o)%nat ->
            body o p !! j = if decide (pos p <= j < pos p + 4)%nat
                            then Some (V p (j - pos p)%nat) else o !! j).
  { intros o p j Hp. unfold body, V.
    destruct (decide (pos p <= j < pos p + 4)%nat) as [Hj|Hj]; [|by stores].
    destruct (j - pos p)%nat as [|[|[|[|d]]]] eqn:E; [| | | |lia].
    - replace j with (pos p) by lia. by stores.
    - replace j with (pos p + 1)%nat by lia. by stores.
    - replace j with (pos p + 2)%nat by lia. by stores.
    - replace j with (pos p + 3)%nat by lia. by stores. }
  assert (Hin : forall p, p ∈ pairs (seq 0 h) (seq 0 w) -> (p.2 < w)%nat /\ (p.1 < h)%nat).
  { intros [y x] [Hy%elem_of_seq Hx%elem_of_seq]%elem_of_pairs. simpl. lia. }
  assert (Hbound : forall p, p ∈ pairs (seq 0 h) (seq 0 w) -> (pos p + 4 <= length a)%nat).
  { intros p Hp. destruct (Hin p Hp) as [Hx Hy].
    pose proof (pixel_index_bound w h _ _ Hx Hy). unfold pos. cbv beta. lia. }
  change (foldl _ a (pairs (seq 0 h) (seq 0 w))) with (foldl body a (pairs (seq 0 h) (seq 0 w))).
  split; [apply (write_loop_length body Hbl)|].
  intros x y Hx Hy.
  assert (Hw : forall c, (c < 4)%nat ->
            foldl body a (pairs (seq 0 h) (seq 0 w)) !! ((y * w + x) * 4 + c)%nat
            = Some (V (y, x) c)).
  { intros c Hc.
    change ((y * w + x) * 4 + c)%nat with (pos (y, x) + c)%nat.
    apply (write_loop_written 4 pos V body ltac:(lia) Hbl Hbk a _ (y, x) c);
      [|exact Hc|exact Hbound| |].
    - apply elem_of_pairs. split; apply elem_of_seq; lia.
    - intros p _. unfold pos. apply Nat.Div0.mod_mul.
    - intros [y' x'] Hp E. destruct (Hin _ Hp) as [Hx' _].
      unfold pos in E. unfold V. cbn [fst snd] in *.
      destruct (pixel_index_inj w x' y' x y Hx' Hx E) as [-> ->]. reflexivity. }
  split.
  - intros c Hc. rewrite Hw by lia. unfold V. cbn [fst snd].
    by replace (c <? 3)%nat with true by (symmetry; apply Nat.ltb_lt; lia).
  - rewrite Hw by lia. reflexivity.
Qed.

Lemma pixel_of_index w h k :
  (k < w * h)%nat -> exists x y, (x < w)%nat /\ (y < h)%nat /\ k = (y * w + x)%nat.
Proof.
  intros Hk. assert (0 < w)%nat by (destruct w; lia).
  exists (k mod w)%nat, (k / w)%nat.
  split; [apply Nat.mod_upper_bound; lia|].
  split; [apply Nat.Div0.div_lt_upper_bound; lia|].
  pose proof (Nat.div_mod k w). lia.
Qed.

(** ** Canny *)

Lemma cannyEdgeDetector_result `{ML : MathLib} img size s a :
  valid s img a -> 0 <= size ->
  exists gxd gyd,
    yields (cannyEdgeDetector img size) s img
           (canny_loop (width img) (height img) gxd gyd a).
Proof.
  intros Hv Hs. unfold cannyEdgeDetector.
  destruct (toGrayscale_yields img s a Hv) as (g & s1 & E1 & _ & Vg & Wg & Hg & X1).
  destruct (gaussianFilter_yields g size s1 _ Vg Hs) as (bl & Yb).
  destruct Yb as (blurred & s2 & E2 & _ & Vb & Wb & Hb & X2).
  destruct (convolve_yields blurred sobel_kx false s2 bl Vb) as (gx & s3 & E3 & _ & Vx & _ & _ & X3);
    [done|].
  destruct (convolve_yields blurred sobel_ky false s3 bl) as (gy & s4 & E4 & _ & Vy & _ & _ & X4);
    [by apply (extends_valid s2)|done|].
  assert (X04 : extends s s4).
  { apply (extends_trans s s1 s4); [exact X1|].
    apply (extends_trans s1 s2 s4); [exact X2|].
    by apply (extends_trans s2 s3 s4). }
  match type of Vx with valid _ _ ?b => set (gxd := b) in * end.
  match type of Vy with valid _ _ ?b => set (gyd := b) in * end.
  destruct (yields_clone_read2 img s4 a (data gx) gxd (data gy) gyd
              (canny_loop (width img) (height img)))
    as (out & s5 & E5 & F5 & V5 & W5 & H5 & X5).
  { by apply (extends_valid s). }
  { apply (extends_valid s3 s4 gx gxd X4 Vx). }
  { apply Vy. }
  { intros o. apply canny_loop_length. }
  exists gxd, gyd, out, s5.
  split.
  { rewrite (bind_inr _ _ _ _ _ E1), (bind_inr _ _ _ _ _ E2),
      (bind_inr _ _ _ _ _ E3), (bind_inr _ _ _ _ _ E4). exact E5. }
  split; [intros Hin; apply F5; by apply (extends_dom s)|].
  split; [exact V5|]. split; [exact W5|]. split; [exact H5|].
  by apply (extends_trans s s4 s5).
Qed.

(** [cannyEdgeDetector] returns an image of three levels: every pixel is
    black, grey 128 or white, and every alpha sample is 255, whatever the
    alpha of the input. *)
Theorem canny_writes_three_levels `{ML : MathLib} img size s a :
  valid s img a -> 0 <= size ->
  exists b,
    yields (cannyEdgeDetector img size) s img b /\
    forall k, (k < width img * height img)%nat ->
      (rgb b k = [0; 0; 0] \/ rgb b k = [128; 128; 128] \/ rgb b k = [255; 255; 255]) /\
      b !! (4 * k + 3)%nat = Some 255.
Proof.
  intros Hv Hs. destruct (cannyEdgeDetector_result img size s a Hv Hs) as (gxd & gyd & Hy).
  eexists. split; [exact Hy|]. intros k Hk.
  destruct Hv as (_ & Hl & _).
  unfold canny_loop. destruct (canny_gradient _ _ gxd gyd) as [[mag dir] maxMag].
  unfold canny_threshold. cbv zeta.
  match goal with |- context [foldl ?f a (seq 0 (height img))] =>
    set (b := foldl f a (seq 0 (height img))) end.
  set (G := λ x y : nat,
         if ((maxMag * 0.15)%float
               <=? f32_get (canny_suppress (width img) (height img) mag dir)
                     (y * width img + x))%float then 255%float
         else if ((maxMag * 0.15 * 0.4)%float
                    <=? f32_get (canny_suppress (width img) (height img) mag dir)
                          (y * width img + x))%float then 128%float
         else 0%float).
  destruct (opaque_writes_lookup (width img) (height img) G a Hl) as [_ Hpix].
  cbv zeta in Hpix. fold b in Hpix.
  destruct (pixel_of_index _ _ k Hk) as (x & y & Hx & Hy' & ->).
  destruct (Hpix x y Hx Hy') as [Hrgb Halpha].
  replace (4 * (y * width img + x))%nat with ((y * width img + x) * 4)%nat by lia.
  split; [|exact Halpha].
  assert (E : forall v, (forall c, (c < 3)%nat ->
              b !! ((y * width img + x) * 4 + c)%nat = Some v) ->
            rgb b (y * width img + x) = [v; v; v]).
  { intros v Hc. apply rgb_all. intros c Hc'.
    replace (4 * (y * width img + x))%nat with ((y * width img + x) * 4)%nat by lia. auto. }
  unfold G in Hrgb.
  destruct (_ <=? _)%float in Hrgb; [right; right; by apply E|].
  destruct (_ <=? _)%float in Hrgb; [right; left; by apply E|left; by apply E].
Qed.

Lemma canny_writes_three_levels_witness :
  exists b,
    yields (cannyEdgeDetector (ML := no_math) img_2x2 3) (heap_2x2 colours_2x2) img_2x2 b /\
    forall k, (k < width img_2x2 * height img_2x2)%nat ->
      (rgb b k = [0; 0; 0] \/ rgb b k = [128; 128; 128] \/ rgb b k = [255; 255; 255]) /\
      b !! (4 * k + 3)%nat = Some 255.
Proof.
  apply (canny_writes_three_levels (ML := no_math) img_2x2 3 (heap_2x2 colours_2x2) colours_2x2).
  - apply valid_2x2. reflexivity.
  - lia.
Defined.

(** ** Windows of one pixel *)

Lemma clamp_coord_inside n v : 0 <= v < Z.of_nat n -> clamp_coord n v = v.
Proof. unfold clamp_coord. lia. Qed.

Lemma sample_at_byte (a : list Z) (i : nat) :
  (i < length a)%nat -> sample_at a (Z.of_nat i) = Z2F (a !!! i).
Proof.
  intros Hi. unfold sample_at.
  destruct (Z.of_nat i <? 0) eqn:E; [apply Z.ltb_lt in E; lia|].
  rewrite Nat2Z.id. apply sample_of. by apply list_lookup_lookup_total_lt.
Qed.

Lemma sample_at_pixel w h (a : list Z) x y c vx vy :
  length a = (4 * w * h)%nat -> (x < w)%nat -> (y < h)%nat -> (c < 3)%nat ->
  vx = Z.of_nat x -> vy = Z.of_nat y ->
  sample_at a ((clamp_coord h vy * Z.of_nat w + clamp_coord w vx) * 4 + Z.of_nat c)
  = Z2F (a !!! ((y * w + x) * 4 + c)%nat).
Proof.
  intros Hl Hx Hy Hc -> ->. rewrite !clamp_coord_inside by lia.
  replace ((Z.of_nat y * Z.of_nat w + Z.of_nat x) * 4 + Z.of_nat c)
    with (Z.of_nat ((y * w + x) * 4 + c)) by lia.
  apply sample_at_byte. pose proof (pixel_index_bound w h x y Hx Hy). lia.
Qed.

Lemma average_of_one v :
  is_byte v ->
  ToUint8Clamp (Math_max 0 (Math_min 255 (Math_round ((0 + Z2F v * 1) / (0 + 1))))) = v.
Proof.
  intros Hv. apply Z.eqb_eq.
  apply (byte_cases (λ w,
           ToUint8Clamp (Math_max 0 (Math_min 255 (Math_round ((0 + Z2F w * 1) / (0 + 1))))) =? w));
    [vm_compute; reflexivity | exact Hv].
Qed.

Lemma unchanged_pixels w h (a b : list Z) :
  length a = (4 * w * h)%nat -> Forall is_byte a ->
  length b = length a ->
  (forall x y c, (x < w)%nat -> (y < h)%nat -> (c < 3)%nat ->
     b !! ((y * w + x) * 4 + c)%nat = Some (a !!! ((y * w + x) * 4 + c)%nat)) ->
  (forall k, b !! (4 * k + 3)%nat = a !! (4 * k + 3)%nat) ->
  b = a.
Proof.
  intros Hl Ha Hb Hpix Halpha. apply (list_eq_pixels a b (w * h)); [lia|exact Hb|].
  intros k c Hk Hc. destruct (decide (c = 3%nat)) as [->|Hc3]; [apply Halpha|].
  destruct (pixel_of_index w h k Hk) as (x & y & Hx & Hy & ->).
  replace (4 * (y * w + x))%nat with ((y * w + x) * 4)%nat by lia.
  rewrite Hpix by lia. symmetry. apply list_lookup_lookup_total_lt.
  pose proof (pixel_index_bound w h x y Hx Hy). lia.
Qed.

(** A window of one pixel changes nothing: on a buffer of bytes,
    [averageFilter] with size 1 and [medianFilter] with size 0 or 1 return
    a copy of the input. *)
Theorem unit_window_filters_copy img s a size :
  valid s img a -> Forall is_byte a -> 0 <= size <= 1 ->
  yields (averageFilter img 1) s img a /\ yields (medianFilter img size) s img a.
Proof.
  intros Hv Ha Hs. pose proof Hv as (_ & Hl & _).
  split.
  - assert (Y : yields (averageFilter img 1) s img
                  (convolve_loop (width img) (height img) [[1%float]] 1 true a a)).
    { apply (convolve_yields img [[1%float]] true s a Hv). done. }
    assert (E : convolve_loop (width img) (height img) [[1%float]] 1 true a a = a);
      [|by rewrite E in Y].
    destruct (pixel_writes_lookup (width img) (height img)
                (λ x y c,
                   let s := from_option id nan
                              (window_sums (width img) (height img) a [[1%float]] 1 1 0 0 x y !! c) in
                   Math_max 0 (Math_min 255 (Math_round (s / (0 + 1))))%float) a Hl)
      as (Hlen & Hpix & Halpha).
    apply (unchanged_pixels (width img) (height img)); [exact Hl|exact Ha|exact Hlen| |exact Halpha].
    intros x y c Hx Hy Hc. etransitivity; [apply (Hpix x y c Hx Hy Hc)|]. f_equal. cbv zeta.
    unfold window_sums. cbn [seq foldl].
    rewrite !(sample_at_pixel (width img) (height img) a x y _ _ _ Hl Hx Hy) by lia.
    change (kernel_at [[1%float]] 0 0) with 1%float.
    destruct c as [|[|[|c]]]; [| | |lia]; cbn [lookup list_lookup insert list_insert from_option id];
      apply average_of_one; by apply lookup_total_byte.
  - pose proof (medianFilter_yields img size s a Hv) as Y.
    assert (Eh : size / 2 = 0) by (apply Z.div_small; lia || (assert (size = 0 \/ size = 1) as [->| ->] by lia; reflexivity)).
    assert (E : medianFilter_loop (width img) (height img) (size / 2) a a = a);
      [|by rewrite E in Y].
    rewrite Eh.
    destruct (pixel_writes_lookup (width img) (height img)
                (λ x y c,
                   let sorted := sort_ascending (neighborhood (width img) (height img) a 0 x y c) in
                   from_option Z2F nan (sorted !! (length sorted / 2)%nat)) a Hl)
      as (Hlen & Hpix & Halpha).
    apply (unchanged_pixels (width img) (height img)); [exact Hl|exact Ha|exact Hlen| |exact Halpha].
    intros x y c Hx Hy Hc. etransitivity; [apply (Hpix x y c Hx Hy Hc)|]. f_equal. cbv zeta.
    assert (En : neighborhood (width img) (height img) a 0 x y c
                 = [a !!! ((y * width img + x) * 4 + c)%nat]).
    { unfold neighborhood. change (offsets 0) with [0].
      cbn [mbind list_bind app]. f_equal.
      rewrite !clamp_coord_inside by lia. f_equal. lia. }
    rewrite En. change (sort_ascending [?v]) with [v]. cbn [length Nat.div lookup list_lookup from_option].
    apply clamp_store_byte. by apply lookup_total_byte.
Qed.

Lemma unit_window_filters_copy_witness :
  yields (averageFilter img_2x2 1) (heap_2x2 colours_2x2) img_2x2 colours_2x2 /\
  yields (medianFilter img_2x2 1) (heap_2x2 colours_2x2) img_2x2 colours_2x2.
Proof.
  apply (unit_window_filters_copy img_2x2 (heap_2x2 colours_2x2) colours_2x2 1).
  - apply valid_2x2. reflexivity.
  - apply Forall_is_byte_dec. reflexivity.
  - lia.
Defined.

(** ** Edge detectors on a flat image *)

Lemma foldl_ext_in {A B} (f g : A -> B -> A) (l : list B) (a : A) :
  (forall a x, x ∈ l -> f a x = g a x) -> foldl f a l = foldl g a l.
Proof.
  revert a. induction l as [|x l IH]; intros a H; [reflexivity|].
  cbn [foldl]. rewrite H by (by left). apply IH. intros a' y Hy. apply H. by right.
Qed.

Lemma clamp_coord_range n v : (0 < n)%nat -> 0 <= clamp_coord n v < Z.of_nat n.
Proof. unfold clamp_coord. lia. Qed.

Lemma sample_at_flat w h (src : list Z) (colour : nat -> Z) vx vy c :
  (0 < w)%nat -> (0 < h)%nat ->
  (forall k c, (k < w * h)%nat -> (c < 3)%nat -> src !! (4 * k + c)%nat = Some (colour c)) ->
  (c < 3)%nat ->
  sample_at src ((clamp_coord h vy * Z.of_nat w + clamp_coord w vx) * 4 + Z.of_nat c)
  = Z2F (colour c).
Proof.
  intros Hw Hh Hflat Hc.
  pose proof (clamp_coord_range w vx Hw). pose proof (clamp_coord_range h vy Hh).
  set (px := Z.to_nat (clamp_coord w vx)). set (py := Z.to_nat (clamp_coord h vy)).
  replace ((clamp_coord h vy * Z.of_nat w + clamp_coord w vx) * 4 + Z.of_nat c)
    with (Z.of_nat (4 * (py * w + px) + c)) by (subst px py; lia).
  unfold sample_at. destruct (_ <? 0) eqn:E; [apply Z.ltb_lt in E; lia|].
  rewrite Nat2Z.id. apply sample_of. apply Hflat; [|exact Hc].
  assert (px < w)%nat by (subst px; lia). assert (py < h)%nat by (subst py; lia). nia.
Qed.

Lemma window_sums_flat w h (src : list Z) kernel kh kw hh hw x y (colour : nat -> Z) :
  (0 < w)%nat -> (0 < h)%nat ->
  (forall k c, (k < w * h)%nat -> (c < 3)%nat -> src !! (4 * k + c)%nat = Some (colour c)) ->
  window_sums w h src kernel kh kw hh hw x y = flat_sums kernel kh kw colour.
Proof.
  intros Hw Hh Hflat. unfold window_sums, flat_sums.
  apply foldl_ext_in. intros sums ky _. apply foldl_ext_in. intros sums' kx _.
  apply foldl_ext_in. intros sums'' c Hc%elem_of_seq.
  by rewrite (sample_at_flat w h src colour) by (assumption || lia).
Qed.

(** An unnormalised 3 x 3 convolution of a flat grey buffer. *)
Lemma convolve_loop_flat w h kernel (src : list Z) v :
  length kernel = 3%nat ->
  (0 < w)%nat -> (0 < h)%nat -> length src = (4 * w * h)%nat ->
  (forall k c, (k < w * h)%nat -> (c < 3)%nat -> src !! (4 * k + c)%nat = Some v) ->
  forall k, (k < w * h)%nat ->
    sample (convolve_loop w h kernel 3 false src src) (4 * k) = Z2F (flat_response kernel v).
Proof.
  intros Hker Hw Hh Hl Hflat k Hk.
  destruct (pixel_writes_lookup w h
              (λ x y c,
                 let s := from_option id nan
                            (window_sums w h src kernel (length kernel) 3
                               (length kernel / 2) (3 / 2) x y !! c) in
                 Math_max 0 (Math_min 255 (Math_round s))%float) src Hl)
    as (_ & Hpix & _).
  destruct (pixel_of_index w h k Hk) as (x & y & Hx & Hy & ->).
  apply sample_of.
  replace (4 * (y * w + x))%nat with ((y * w + x) * 4 + 0)%nat by lia.
  etransitivity; [apply (Hpix x y 0%nat Hx Hy); lia|]. cbv zeta.
  rewrite (window_sums_flat w h src kernel _ _ _ _ x y (λ _, v) Hw Hh Hflat).
  unfold flat_response. by rewrite Hker.
Qed.

Lemma flat_is_black_sobel v :
  is_byte v ->
  ToUint8Clamp (magnitude (Z2F (flat_response sobel_kx v)) (Z2F (flat_response sobel_ky v))) = 0.
Proof.
  intros Hv. apply Z.eqb_eq.
  apply (byte_cases (λ w, ToUint8Clamp (magnitude (Z2F (flat_response sobel_kx w))
                                                  (Z2F (flat_response sobel_ky w))) =? 0));
    [vm_compute; reflexivity | exact Hv].
Qed.

Lemma flat_is_black_prewitt v :
  is_byte v ->
  ToUint8Clamp (magnitude (Z2F (flat_response prewitt_kx v)) (Z2F (flat_response prewitt_ky v))) = 0.
Proof.
  intros Hv. apply Z.eqb_eq.
  apply (byte_cases (λ w, ToUint8Clamp (magnitude (Z2F (flat_response prewitt_kx w))
                                                  (Z2F (flat_response prewitt_ky w))) =? 0));
    [vm_compute; reflexivity | exact Hv].
Qed.

Lemma flat_is_black_roberts v :
  is_byte v -> ToUint8Clamp (magnitude (Z2F v - Z2F v) (Z2F v - Z2F v)) = 0.
Proof.
  intros Hv. apply Z.eqb_eq.
  apply (byte_cases (λ w, ToUint8Clamp (magnitude (Z2F w - Z2F w) (Z2F w - Z2F w)) =? 0));
    [vm_compute; reflexivity | exact Hv].
Qed.

(** The grey buffer of a flat image is flat. *)
Lemma toGrayscale_loop_flat (a : list Z) n r g b :
  length a = (4 * n)%nat ->
  (forall k, (k < n)%nat -> rgb a k = [r; g; b]) ->
  forall k c, (k < n)%nat -> (c < 3)%nat ->
    toGrayscale_loop a !! (4 * k + c)%nat
    = Some (ToUint8Clamp (luma (Z2F r) (Z2F g) (Z2F b))).
Proof.
  intros Hl Hflat k c Hk Hc.
  destruct (toGrayscale_loop_lookup a n Hl) as [_ Hpix].
  destruct (Hpix k Hk) as [Hrgb _]. rewrite (Hrgb c Hc).
  destruct (rgb_inv a k r g b (Hflat k Hk)) as (E0 & E1 & E2).
  by rewrite (sample_of _ _ _ E0), (sample_of _ _ _ E1), (sample_of _ _ _ E2).
Qed.

Lemma gradient_of_flat kx ky img s a v :
  valid s img a -> length kx = 3%nat -> length ky = 3%nat ->
  length (default [] (head kx)) = 3%nat -> length (default [] (head ky)) = 3%nat ->
  (forall k c, (k < width img * height img)%nat -> (c < 3)%nat ->
     toGrayscale_loop a !! (4 * k + c)%nat = Some v) ->
  (ToUint8Clamp (magnitude (Z2F (flat_response kx v)) (Z2F (flat_response ky v))) = 0) ->
  exists out,
    yields (gradientFilter kx ky img) s img out /\
    forall k, (k < width img * height img)%nat ->
      rgb out k = [0; 0; 0] /\ out !! (4 * k + 3)%nat = a !! (4 * k + 3)%nat.
Proof.
  intros Hv Hkx Hky Hwx Hwy Hflat Hzero. pose proof Hv as (_ & Hl & Hw & Hh).
  eexists. split.
  { apply (gradientFilter_yields kx ky img s a Hv); intros ->; discriminate. }
  cbv zeta. rewrite Hwx, Hwy.
  assert (Hlg : length (toGrayscale_loop a) = (4 * width img * height img)%nat)
    by (by rewrite toGrayscale_loop_length).
  match goal with |- forall k, _ -> rgb (gradient_loop ?gx ?gy a) k = _ /\ _ =>
    destruct (gradient_loop_lookup gx gy a (width img * height img) ltac:(lia)) as [Hpix Halpha]
  end.
  cbv zeta in Hpix, Halpha. intros k Hk. split; [|apply Halpha].
  apply rgb_all. intros c Hc. rewrite (Hpix k c Hk Hc).
  rewrite !(convolve_loop_flat (width img) (height img) _ (toGrayscale_loop a) v)
    by assumption.
  by rewrite Hzero.
Qed.

(** On an image whose pixels all have the same colour, [sobelFilter]
    and [prewittFilter] return a black image, and [robertsFilter] one
    that is black except for its last row and last column, which keep the
    colour.  Alpha samples are the input's. *)
Theorem edge_detectors_blacken_flat img s a r g b :
  valid s img a -> is_byte r -> is_byte g -> is_byte b ->
  (forall k, (k < width img * height img)%nat -> rgb a k = [r; g; b]) ->
  let w := width img in
  let h := height img in
  (exists out,
     yields (sobelFilter img) s img out /\
     forall k, (k < w * h)%nat ->
       rgb out k = [0; 0; 0] /\ out !! (4 * k + 3)%nat = a !! (4 * k + 3)%nat) /\
  (exists out,
     yields (prewittFilter img) s img out /\
     forall k, (k < w * h)%nat ->
       rgb out k = [0; 0; 0] /\ out !! (4 * k + 3)%nat = a !! (4 * k + 3)%nat) /\
  (exists out,
     yields (robertsFilter img) s img out /\
     (forall x y, (x < w - 1)%nat -> (y < h - 1)%nat -> rgb out (y * w + x) = [0; 0; 0]) /\
     (forall x y, (x < w)%nat -> (y < h)%nat -> (x = w - 1 \/ y = h - 1)%nat ->
        rgb out (y * w + x) = [r; g; b]) /\
     (forall k, out !! (4 * k + 3)%nat = a !! (4 * k + 3)%nat)).
Proof.
  intros Hv Hr Hg Hb Hflat w h. pose proof Hv as (_ & Hl & Hw & Hh).
  set (v := ToUint8Clamp (luma (Z2F r) (Z2F g) (Z2F b))).
  assert (Bv : is_byte v) by apply ToUint8Clamp_byte.
  assert (Hgrey : forall k c, (k < w * h)%nat -> (c < 3)%nat ->
            toGrayscale_loop a !! (4 * k + c)%nat = Some v).
  { apply (toGrayscale_loop_flat a (w * h) r g b); [subst w h; lia|exact Hflat]. }
  split; [|split].
  - apply (gradient_of_flat sobel_kx sobel_ky img s a v Hv); try reflexivity; [exact Hgrey|].
    by apply flat_is_black_sobel.
  - apply (gradient_of_flat prewitt_kx prewitt_ky img s a v Hv); try reflexivity; [exact Hgrey|].
    by apply flat_is_black_prewitt.
  - eexists. split; [by apply robertsFilter_yields|].
    destruct (robertsFilter_loop_lookup w h (toGrayscale_loop a) a Hl) as (Hin & Hborder & Halpha).
    cbv zeta in Hin, Hborder, Halpha. fold w h.
    assert (Hs : forall k, (k < w * h)%nat -> sample (toGrayscale_loop a) (k * 4) = Z2F v).
    { intros k Hk. apply sample_of. replace (k * 4)%nat with (4 * k + 0)%nat by lia.
      apply Hgrey; [exact Hk|lia]. }
    split; [|split; [|exact Halpha]].
    + intros x y Hx Hy. apply rgb_all. intros c Hc.
      replace (4 * (y * w + x))%nat with ((y * w + x) * 4)%nat by lia.
      rewrite (Hin x y c Hx Hy Hc), !Hs by nia. by rewrite flat_is_black_roberts.
    + intros x y Hx Hy Hedge. rewrite <- (Hflat (y * w + x)%nat) by (subst w h; nia).
      apply rgb_ext; [apply robertsFilter_loop_length|]. intros c Hc.
      replace (4 * (y * w + x))%nat with ((y * w + x) * 4)%nat by lia.
      by apply Hborder.
Qed.

Lemma edge_detectors_blacken_flat_witness :
  let a := [9; 200; 31; 7; 9; 200; 31; 255; 9; 200; 31; 0; 9; 200; 31; 128] in
  let w := width img_2x2 in
  let h := height img_2x2 in
  (exists out,
     yields (sobelFilter img_2x2) (heap_2x2 a) img_2x2 out /\
     forall k, (k < w * h)%nat ->
       rgb out k = [0; 0; 0] /\ out !! (4 * k + 3)%nat = a !! (4 * k + 3)%nat) /\
  (exists out,
     yields (prewittFilter img_2x2) (heap_2x2 a) img_2x2 out /\
     forall k, (k < w * h)%nat ->
       rgb out k = [0; 0; 0] /\ out !! (4 * k + 3)%nat = a !! (4 * k + 3)%nat) /\
  (exists out,
     yields (robertsFilter img_2x2) (heap_2x2 a) img_2x2 out /\
     (forall x y, (x < w - 1)%nat -> (y < h - 1)%nat -> rgb out (y * w + x) = [0; 0; 0]) /\
     (forall x y, (x < w)%nat -> (y < h)%nat -> (x = w - 1 \/ y = h - 1)%nat ->
        rgb out (y * w + x) = [9; 200; 31]) /\
     (forall k, out !! (4 * k + 3)%nat = a !! (4 * k + 3)%nat)).
Proof.
  apply (edge_detectors_blacken_flat img_2x2
           (heap_2x2 [9; 200; 31; 7; 9; 200; 31; 255; 9; 200; 31; 0; 9; 200; 31; 128])
           [9; 200; 31; 7; 9; 200; 31; 255; 9; 200; 31; 0; 9; 200; 31; 128] 9 200 31).
  - apply valid_2x2. reflexivity.
  - unfold is_byte. lia.
  - unfold is_byte. lia.
  - unfold is_byte. lia.
  - intros k Hk. simpl in Hk. destruct k as [|[|[|[|k]]]]; [reflexivity..|lia].
Defined.

(** ** Smoothing a flat image *)

Lemma flat_sums_channels kernel kh kw (colour : nat -> Z) :
  flat_sums kernel kh kw colour
  = (λ c, foldl (λ acc ky,
                   foldl (λ acc kx, acc + Z2F (colour c) * kernel_at kernel ky kx)%float
                         acc (seq 0 kw))
                0%float (seq 0 kh)) <$> [0; 1; 2]%nat.
Proof.
  unfold flat_sums. generalize (seq 0 kh) as ys. generalize (seq 0 kw) as xs.
  intros xs ys. cbn [fmap list_fmap].
  generalize 0%float at 1 4. generalize 0%float at 1 3. generalize 0%float at 1 2.
  intros s2 s1 s0. revert s0 s1 s2.
  induction ys as [|ky ys IH]; intros s0 s1 s2; [reflexivity|].
  cbn [foldl]. rewrite <- IH. f_equal. clear IH.
  revert s0 s1 s2. induction xs as [|kx xs IH]; intros s0 s1 s2; [reflexivity|].
  cbn [foldl seq]. rewrite <- IH. reflexivity.
Qed.

Lemma box_kernel_at n ky kx :
  (ky < n)%nat -> (kx < n)%nat -> kernel_at (replicate n (replicate n 1%float)) ky kx = 1%float.
Proof.
  intros Hy Hx. unfold kernel_at.
  rewrite lookup_replicate_2 by exact Hy. cbn [mbind option_bind].
  by rewrite lookup_replicate_2 by exact Hx.
Qed.

Lemma flat_sums_box n (colour : nat -> Z) c :
  (c < 3)%nat ->
  from_option id nan (flat_sums (replicate n (replicate n 1%float)) n n colour !! c)
  = box_sum n (colour c).
Proof.
  intros Hc. rewrite flat_sums_channels.
  assert (E : forall c0, ((λ c, foldl (λ acc ky,
                   foldl (λ acc kx, acc + Z2F (colour c)
                                          * kernel_at (replicate n (replicate n 1%float)) ky kx)%float
                         acc (seq 0 n))
                0%float (seq 0 n)) c0) = box_sum n (colour c0)).
  { intros c0. unfold box_sum. apply foldl_ext_in. intros acc ky Hy%elem_of_seq.
    apply foldl_ext_in. intros acc' kx Hx%elem_of_seq. by rewrite box_kernel_at by lia. }
  destruct c as [|[|[|c]]]; [| | |lia]; cbn [fmap list_fmap lookup list_lookup from_option id];
    apply E.
Qed.

Lemma box_average_id n v : (1 <= n <= 15)%nat -> is_byte v -> box_average n v = v.
Proof.
  intros Hn Hv.
  assert (H : forallb (λ m, forallb (λ u, box_average m u =? u) bytes) (seq 1 15) = true)
    by (vm_compute; reflexivity).
  rewrite forallb_forall in H. specialize (H n).
  apply Z.eqb_eq. apply (byte_cases (λ u, box_average n u =? u)); [|exact Hv].
  apply H. apply in_seq. lia.
Qed.

Lemma neighborhood_flat w h (src : list Z) (colour : nat -> Z) half x y c :
  (0 < w)%nat -> (0 < h)%nat ->
  (forall k c, (k < w * h)%nat -> (c < 3)%nat -> src !! (4 * k + c)%nat = Some (colour c)) ->
  (c < 3)%nat ->
  Forall (λ u, u = colour c) (neighborhood w h src half x y c).
Proof.
  intros Hw Hh Hflat Hc. unfold neighborhood.
  apply Forall_bind, Forall_forall. intros ky _.
  apply Forall_bind, Forall_forall. intros kx _.
  apply Forall_singleton.
  pose proof (clamp_coord_range w (Z.of_nat x + kx) Hw).
  pose proof (clamp_coord_range h (Z.of_nat y + ky) Hh).
  set (px := Z.to_nat (clamp_coord w (Z.of_nat x + kx))).
  set (py := Z.to_nat (clamp_coord h (Z.of_nat y + ky))).
  replace (Z.to_nat ((clamp_coord h (Z.of_nat y + ky) * Z.of_nat w
                      + clamp_coord w (Z.of_nat x + kx)) * 4 + Z.of_nat c))
    with (4 * (py * w + px) + c)%nat by (subst px py; lia).
  apply list_lookup_total_correct, Hflat; [|exact Hc].
  assert (px < w)%nat by (subst px; lia). assert (py < h)%nat by (subst py; lia). nia.
Qed.

(** Smoothing a flat image changes nothing: on an image whose pixels all
    have the same colour, [averageFilter] with a size from 1 to 15 (the
    panel offers 3 to 15) and [medianFilter] with any size return a copy
    of the input. *)
Theorem smoothing_keeps_flat img s a r g b :
  valid s img a -> Forall is_byte a ->
  (forall k, (k < width img * height img)%nat -> rgb a k = [r; g; b]) ->
  (forall size, 1 <= size <= 15 -> yields (averageFilter img size) s img a) /\
  (forall size, 0 <= size -> yields (medianFilter img size) s img a).
Proof.
  intros Hv Ha Hflat. pose proof Hv as (_ & Hl & Hw & Hh).
  set (colour := λ c : nat, default 0 ([r; g; b] !! c)).
  assert (Hcol : forall k c, (k < width img * height img)%nat -> (c < 3)%nat ->
            a !! (4 * k + c)%nat = Some (colour c)).
  { intros k c Hk Hc. destruct (rgb_inv a k r g b (Hflat k Hk)) as (E0 & E1 & E2).
    destruct c as [|[|[|c]]]; [by rewrite Nat.add_0_r|done|done|lia]. }
  assert (Hsame : forall x y c, (x < width img)%nat -> (y < height img)%nat -> (c < 3)%nat ->
            a !!! ((y * width img + x) * 4 + c)%nat = colour c).
  { intros x y c Hx Hy Hc. apply list_lookup_total_correct.
    replace ((y * width img + x) * 4)%nat with (4 * (y * width img + x))%nat by lia.
    apply Hcol; [nia|exact Hc]. }
  assert (Bcol : forall c, (c < 3)%nat -> is_byte (colour c)).
  { intros c Hc. rewrite <- (Hsame 0%nat 0%nat c) by lia. by apply lookup_total_byte. }
  split.
  - intros size Hs. set (n := Z.to_nat size).
    set (K := replicate n (replicate n 1%float)).
    assert (Hhead : length (default [] (head K)) = n).
    { subst K. unfold n. destruct (Z.to_nat size) as [|n'] eqn:En; [lia|].
      simpl. by rewrite length_replicate. }
    assert (Y : yields (averageFilter img size) s img
                  (convolve_loop (width img) (height img) K n true a a)).
    { assert (HK : K <> []) by (subst K; unfold n; destruct (Z.to_nat size) eqn:En; [lia|done]).
      pose proof (convolve_yields img K true s a Hv HK) as Y'. by rewrite Hhead in Y'. }
    assert (E : convolve_loop (width img) (height img) K n true a a = a);
      [|by rewrite E in Y].
    destruct (pixel_writes_lookup (width img) (height img)
                (λ x y c,
                   let s := from_option id nan
                              (window_sums (width img) (height img) a K (length K) n
                                 (length K / 2) (n / 2) x y !! c) in
                   Math_max 0 (Math_min 255
                     (Math_round (s / (if (kernel_sum K =? 0)%float then 1 else kernel_sum K)))))%float
                a Hl)
      as (Hlen & Hpix & Halpha).
    apply (unchanged_pixels (width img) (height img)); [exact Hl|exact Ha|exact Hlen| |exact Halpha].
    intros x y c Hx Hy Hc. etransitivity; [apply (Hpix x y c Hx Hy Hc)|]. f_equal. cbv zeta.
    rewrite (window_sums_flat _ _ a K _ _ _ _ x y colour Hw Hh Hcol).
    assert (LK : length K = n) by (subst K; apply length_replicate). rewrite LK.
    subst K. rewrite (flat_sums_box n colour c Hc), (Hsame x y c Hx Hy Hc).
    apply (box_average_id n (colour c)); [lia|by apply Bcol].
  - intros size Hs. pose proof (medianFilter_yields img size s a Hv) as Y.
    assert (E : medianFilter_loop (width img) (height img) (size / 2) a a = a);
      [|by rewrite E in Y].
    destruct (pixel_writes_lookup (width img) (height img)
                (λ x y c,
                   let sorted := sort_ascending
                                   (neighborhood (width img) (height img) a (size / 2) x y c) in
                   from_option Z2F nan (sorted !! (length sorted / 2)%nat)) a Hl)
      as (Hlen & Hpix & Halpha).
    apply (unchanged_pixels (width img) (height img)); [exact Hl|exact Ha|exact Hlen| |exact Halpha].
    intros x y c Hx Hy Hc. etransitivity; [apply (Hpix x y c Hx Hy Hc)|]. f_equal. cbv zeta.
    set (window := neighborhood (width img) (height img) a (size / 2) x y c).
    pose proof (merge_sort_Permutation Z.le window) as Hperm.
    assert (Hhalf : 0 <= size / 2) by (apply Z.div_pos; lia).
    assert (Hn : (0 < length window)%nat).
    { subst window. rewrite length_neighborhood. nia. }
    assert (Hlen' : length (sort_ascending window) = length window)
      by (unfold sort_ascending; by rewrite Hperm).
    destruct (sort_ascending window !! (length (sort_ascending window) / 2)%nat) as [u|] eqn:Eu.
    2:{ apply lookup_ge_None in Eu.
        pose proof (Nat.Div0.div_lt_upper_bound (length (sort_ascending window)) 2
                      (length (sort_ascending window))). lia. }
    cbn [from_option].
    assert (Hu : u = colour c).
    { pose proof (neighborhood_flat (width img) (height img) a colour (size / 2) x y c
                    Hw Hh Hcol Hc) as Hall.
      fold window in Hall. rewrite <- Hperm in Hall. rewrite Forall_forall in Hall.
      apply Hall. by eapply list_elem_of_lookup_2. }
    rewrite Hu, (Hsame x y c Hx Hy Hc). apply clamp_store_byte. by apply Bcol.
Qed.

Lemma smoothing_keeps_flat_witness :
  let a := [9; 200; 31; 7; 9; 200; 31; 255; 9; 200; 31; 0; 9; 200; 31; 128] in
  (forall size, 1 <= size <= 15 -> yields (averageFilter img_2x2 size) (heap_2x2 a) img_2x2 a) /\
  (forall size, 0 <= size -> yields (medianFilter img_2x2 size) (heap_2x2 a) img_2x2 a).
Proof.
  apply (smoothing_keeps_flat img_2x2
           (heap_2x2 [9; 200; 31; 7; 9; 200; 31; 255; 9; 200; 31; 0; 9; 200; 31; 128])
           [9; 200; 31; 7; 9; 200; 31; 255; 9; 200; 31; 0; 9; 200; 31; 128] 9 200 31).
  - apply valid_2x2. reflexivity.
  - apply Forall_is_byte_dec. reflexivity.
  - intros k Hk. simpl in Hk. destruct k as [|[|[|[|k]]]]; [reflexivity..|lia].
Defined.

(** ** The spectrum as an image *)

Section SpectrumFacts.
Context `{ML : MathLib}.
Variable square : float -> float.

Lemma fftToImage_magnitudes_total w h (mre mim : matrix) :
  shaped w h mre -> shaped w h mim ->
  exists p, fftToImage_magnitudes square w h mre mim = Some p.
Proof.
  intros Sre Sim. unfold fftToImage_magnitudes.
  rewrite (foldl_pairs (λ (acc : option (list float * float)) y x,
             p ← acc;
             vr ← entry mre y x;
             vi ← entry mim y x;
             let mag := PrimFloat.sqrt (square vr + square vi) in
             let logMag := Math_log (1 + mag) in
             Some (<[(y * w + x)%nat := logMag]> p.1,
                   if (p.2 <? logMag)%float then logMag else p.2))).
  assert (Hin : forall p, p ∈ pairs (seq 0 h) (seq 0 w) -> (p.1 < h)%nat).
  { intros [y x] [Hy%elem_of_seq _]%elem_of_pairs. simpl. lia. }
  revert Hin. generalize (pairs (seq 0 h) (seq 0 w)).
  generalize (replicate (w * h) 0%float, 0%float).
  match goal with |- forall acc l, _ -> exists p, foldl ?f _ _ = _ => set (F := f) end.
  intros acc l. revert acc. induction l as [|q l IH]; intros acc Hin; [by exists acc|].
  destruct (shaped_row w h mre q.1 Sre) as (r1 & Hr1 & _); [apply Hin; by left|].
  destruct (shaped_row w h mim q.1 Sim) as (r2 & Hr2 & _); [apply Hin; by left|].
  change (foldl F (Some acc) (q :: l)) with (foldl F (F (Some acc) q) l).
  assert (EF : exists acc', F (Some acc) q = Some acc').
  { unfold F, entry. rewrite Hr1, Hr2. cbn [mbind option_bind]. eauto. }
  destruct EF as [acc' ->]. apply IH. intros p Hp. apply Hin. by right.
Qed.

Lemma fftToImage_result fft s mre mim :
  valid_spectrum s fft mre mim ->
  let w := fft_width fft in
  let h := fft_height fft in
  ((0 < w)%nat -> (0 < h)%nat ->
   exists out s' b,
     fftToImage square fft s = inr (out, s') /\
     (data out ∉ dom (heap s)) /\
     valid s' out b /\ width out = w /\ height out = h /\
     extends s s' /\
     forall k, (k < w * h)%nat ->
       exists m, rgb b k = [m; m; m] /\ b !! (4 * k + 3)%nat = Some 255) /\
  ((w = 0 \/ h = 0)%nat -> fftToImage square fft s = inl IndexSizeError).
Proof.
  intros (Rre & Rim & Lre & Lim & Wre & Wim) w h.
  destruct (fftToImage_magnitudes_total w h mre mim) as ([mags maxLog] & Escan); [done|done|].
  assert (Erun : forall k : list float * float -> M ImageData,
            (mre ← read_rows (re fft); mim ← read_rows (im fft);
             p ← lift TypeError (fftToImage_magnitudes square w h mre mim); k p) s
            = k (mags, maxLog) s).
  { intros k. unfold mbind, M_bind.
    by rewrite (read_rows_ok _ _ _ Rre), (read_rows_ok _ _ _ Rim), Escan. }
  split.
  - intros Hw Hh. set (l := fresh (dom (heap s))).
    set (b := fftToImage_loop w h mags maxLog (replicate (4 * w * h) 0)).
    exists {| data := l; width := w; height := h |},
           (State (<[l := U8 b]> (<[l := U8 (replicate (4 * w * h) 0)]> (heap s))) (draws s)), b.
    destruct (opaque_writes_lookup w h
                (λ x y, Math_round
                          (f64_get mags (y * w + x)
                           / (if (maxLog =? 0)%float || PrimFloat.is_nan maxLog
                              then 1 else maxLog) * 255)%float)
                (replicate (4 * w * h) 0)) as [Hlen Hpix]; [apply length_replicate|].
    cbv zeta in Hlen, Hpix.
    split.
    { unfold fftToImage. fold w h. rewrite Erun. cbn [fst snd].
      unfold new_ImageData.
      replace ((w =? 0) || (h =? 0))%nat with false
        by (symmetry; apply orb_false_iff; split; apply Nat.eqb_neq; lia).
      unfold mbind, M_bind, alloc, mret, M_ret. fold l.
      cbn [data]. unfold read_u8. cbn [heap]. rewrite lookup_insert_eq. reflexivity. }
    split; [apply fresh_not_in|].
    split.
    { split; [cbn [heap data]; apply lookup_insert_eq|].
      cbn [width height]. subst b. unfold fftToImage_loop. cbv zeta.
      rewrite Hlen, length_replicate. repeat split; lia. }
    split; [reflexivity|]. split; [reflexivity|].
    split.
    { intros k Hk. cbn [heap].
      assert (k <> l) by (intros ->; exact (fresh_not_in s Hk)).
      by rewrite !lookup_insert_ne. }
    intros k Hk. destruct (pixel_of_index w h k Hk) as (x & y & Hx & Hy & ->).
    destruct (Hpix x y Hx Hy) as [Hrgb Halpha].
    replace (4 * (y * w + x))%nat with ((y * w + x) * 4)%nat by lia.
    eexists. split; [|exact Halpha].
    apply rgb_all. intros c Hc.
    replace (4 * (y * w + x))%nat with ((y * w + x) * 4)%nat by lia.
    by apply Hrgb.
  - intros H0. unfold fftToImage. fold w h. rewrite Erun. unfold new_ImageData.
    replace ((w =? 0) || (h =? 0))%nat with true; [reflexivity|].
    symmetry. apply orb_true_iff. destruct H0 as [->| ->]; [by left|by right].
Qed.

(** [fftToImage] draws a spectrum as a new opaque grey image of the size
    of the spectrum, the padded one, and leaves the heap as it was; a
    spectrum of width or height 0 is an [IndexSizeError] of
    [new ImageData]. *)
Theorem fftToImage_is_opaque_grey fft s mre mim :
  valid_spectrum s fft mre mim ->
  let w := fft_width fft in
  let h := fft_height fft in
  ((0 < w)%nat -> (0 < h)%nat ->
   exists out s' b,
     fftToImage square fft s = inr (out, s') /\
     (data out ∉ dom (heap s)) /\
     valid s' out b /\ width out = w /\ height out = h /\
     extends s s' /\
     forall k, (k < w * h)%nat ->
       exists m, rgb b k = [m; m; m] /\ b !! (4 * k + 3)%nat = Some 255) /\
  ((w = 0 \/ h = 0)%nat -> fftToImage square fft s = inl IndexSizeError).
Proof. apply fftToImage_result. Qed.

End SpectrumFacts.

Lemma fftToImage_is_opaque_grey_witness :
  exists out s' b,
    fftToImage (ML := no_math) (λ v, v * v)%float spectrum_1x1 heap_spectrum_1x1 = inr (out, s') /\
    (data out ∉ dom (heap heap_spectrum_1x1)) /\
    valid s' out b /\ width out = 1%nat /\ height out = 1%nat /\
    extends heap_spectrum_1x1 s' /\
    forall k, (k < 1 * 1)%nat ->
      exists m, rgb b k = [m; m; m] /\ b !! (4 * k + 3)%nat = Some 255.
Proof.
  apply (fftToImage_is_opaque_grey (ML := no_math) (λ v, v * v)%float
           spectrum_1x1 heap_spectrum_1x1 [[128%float]] [[0%float]]).
  - exact valid_spectrum_1x1.
  - simpl. lia.
  - simpl. lia.
Defined.

(** ** The hybrid image *)

Lemma corner_sum_shaped w h m1 m2 : shaped w h (corner_sum w h m1 m2).
Proof.
  unfold shaped, corner_sum. split; [by rewrite length_fmap, length_seq|].
  apply Forall_fmap, Forall_forall. intros y _. cbn. by rewrite length_fmap, length_seq.
Qed.

Lemma corner_sum_entry w h m1 m2 x y :
  (x < w)%nat -> (y < h)%nat ->
  entry (corner_sum w h m1 m2) y x
  = Some (f64_get (m1 !!! y) x + f64_get (m2 !!! y) x)%float.
Proof.
  intros Hx Hy. unfold entry, corner_sum.
  rewrite list_lookup_fmap, lookup_seq_lt by lia. cbn [fmap option_fmap option_map mbind option_bind].
  unfold f64_get at 1. rewrite list_lookup_fmap, lookup_seq_lt by lia. reflexivity.
Qed.

(** The inner loop fills the row pushed last. *)
Lemma combine_row w y (re1 im1 re2 im2 cre cim : matrix) :
  (y < length re1)%nat -> (y < length im1)%nat ->
  (y < length re2)%nat -> (y < length im2)%nat ->
  length cre = y -> length cim = y ->
  foldl (λ (acc : option (matrix * matrix)) x,
           p ← acc;
           r1 ← entry re1 y x;
           r2 ← entry re2 y x;
           i1 ← entry im1 y x;
           i2 ← entry im2 y x;
           Some (set_entry p.1 y x (r1 + r2), set_entry p.2 y x (i1 + i2)))
        (Some (cre ++ [replicate w 0%float], cim ++ [replicate w 0%float])) (seq 0 w)
  = Some (cre ++ [(λ x, (f64_get (re1 !!! y) x + f64_get (re2 !!! y) x)%float) <$> seq 0 w],
          cim ++ [(λ x, (f64_get (im1 !!! y) x + f64_get (im2 !!! y) x)%float) <$> seq 0 w]).
Proof.
  intros H1 H2 H3 H4 Lre Lim.
  match goal with |- foldl ?f _ _ = _ => set (F := f) end.
  set (fr := λ x, (f64_get (re1 !!! y) x + f64_get (re2 !!! y) x)%float).
  set (fi := λ x, (f64_get (im1 !!! y) x + f64_get (im2 !!! y) x)%float).
  assert (He : forall (m : matrix) x, (y < length m)%nat ->
            entry m y x = Some (f64_get (m !!! y) x)).
  { intros m x Hm. unfold entry.
    destruct (lookup_lt_is_Some_2 m y Hm) as [row Hrow].
    by rewrite Hrow, (list_lookup_total_correct _ _ _ Hrow). }
  assert (Hstep : forall (f : nat -> float) (c : matrix) n, length c = y -> (n < w)%nat ->
            set_entry (c ++ [(f <$> seq 0 n) ++ replicate (w - n) 0%float]) y n (f n)
            = c ++ [(f <$> seq 0 (S n)) ++ replicate (w - S n) 0%float]).
  { intros f c n Hc Hn. unfold set_entry. rewrite alter_app_r_alt by lia.
    rewrite Hc, Nat.sub_diag. cbn [alter list_alter]. do 2 f_equal.
    rewrite insert_app_r_alt by (rewrite length_fmap, length_seq; lia).
    rewrite length_fmap, length_seq, Nat.sub_diag.
    replace (w - n)%nat with (S (w - S n)) by lia. cbn [replicate insert list_insert].
    rewrite seq_S, fmap_app, <- app_assoc. reflexivity. }
  assert (G : forall n, (n <= w)%nat ->
            foldl F (Some (cre ++ [replicate w 0%float], cim ++ [replicate w 0%float])) (seq 0 n)
            = Some (cre ++ [(fr <$> seq 0 n) ++ replicate (w - n) 0%float],
                    cim ++ [(fi <$> seq 0 n) ++ replicate (w - n) 0%float])).
  { induction n as [|n IH]; intros Hn.
    - cbn [seq foldl fmap list_fmap app]. by rewrite Nat.sub_0_r.
    - rewrite seq_S, foldl_snoc, IH by lia. cbn [Nat.add]. unfold F.
      rewrite !He by assumption. cbn [mbind option_bind fst snd].
      change (f64_get (re1 !!! y) n + f64_get (re2 !!! y) n)%float with (fr n).
      change (f64_get (im1 !!! y) n + f64_get (im2 !!! y) n)%float with (fi n).
      rewrite (Hstep fr cre n Lre), (Hstep fi cim n Lim) by lia. rewrite !seq_S. reflexivity. }
  rewrite (G w) by lia. by rewrite Nat.sub_diag, !app_nil_r.
Qed.

(** [combine_loop] adds the top-left corners of the two spectra. *)
Lemma combine_loop_sums w h (re1 im1 re2 im2 : matrix) :
  (h <= length re1)%nat -> (h <= length im1)%nat ->
  (h <= length re2)%nat -> (h <= length im2)%nat ->
  combine_loop w h re1 im1 re2 im2
  = Some (corner_sum w h re1 re2, corner_sum w h im1 im2).
Proof.
  intros H1 H2 H3 H4. unfold combine_loop.
  match goal with |- foldl ?f _ _ = _ => set (F := f) end.
  assert (G : forall n, (n <= h)%nat ->
            foldl F (Some ([], [])) (seq 0 n)
            = Some (corner_sum w n re1 re2, corner_sum w n im1 im2)).
  { induction n as [|n IH]; intros Hn; [reflexivity|].
    rewrite seq_S, foldl_snoc, IH by lia. cbn [Nat.add]. unfold F.
    cbn [fmap option_fmap option_map fst snd].
    rewrite (combine_row w n re1 im1 re2 im2) by
      (lia || (unfold corner_sum; by rewrite length_fmap, length_seq)).
    unfold corner_sum. by rewrite !seq_S, !fmap_app. }
  by apply G.
Qed.

Lemma entry_shaped w h (m : matrix) x y :
  shaped w h m -> (y < h)%nat -> entry m y x = Some (f64_get (m !!! y) x).
Proof.
  intros Sm Hy. destruct (shaped_row w h m y Sm Hy) as (row & Hrow & _).
  unfold entry. by rewrite Hrow, (list_lookup_total_correct _ _ _ Hrow).
Qed.

(** The loop of [createHybridImage] aligns the two spectra at their
    top-left corner: over the common [w] columns and [h] rows, the
    combined coefficient at [(y, x)] is the sum of the two coefficients
    at [(y, x)]. *)
Theorem hybrid_adds_corner_coefficients w1 h1 w2 h2 (re1 im1 re2 im2 : matrix) :
  shaped w1 h1 re1 -> shaped w1 h1 im1 -> shaped w2 h2 re2 -> shaped w2 h2 im2 ->
  let w := Nat.min w1 w2 in
  let h := Nat.min h1 h2 in
  exists cre cim,
    combine_loop w h re1 im1 re2 im2 = Some (cre, cim) /\
    shaped w h cre /\ shaped w h cim /\
    forall x y, (x < w)%nat -> (y < h)%nat ->
      exists r1 r2 i1 i2,
        entry re1 y x = Some r1 /\ entry re2 y x = Some r2 /\
        entry im1 y x = Some i1 /\ entry im2 y x = Some i2 /\
        entry cre y x = Some (r1 + r2)%float /\ entry cim y x = Some (i1 + i2)%float.
Proof.
  intros S1 S2 S3 S4 w h.
  exists (corner_sum w h re1 re2), (corner_sum w h im1 im2).
  split.
  { apply combine_loop_sums; [destruct S1 as [-> _]|destruct S2 as [-> _]
                              |destruct S3 as [-> _]|destruct S4 as [-> _]]; lia. }
  split; [apply corner_sum_shaped|]. split; [apply corner_sum_shaped|].
  intros x y Hx Hy. eexists _, _, _, _.
  split; [apply (entry_shaped w1 h1); [done|lia]|].
  split; [apply (entry_shaped w2 h2); [done|lia]|].
  split; [apply (entry_shaped w1 h1); [done|lia]|].
  split; [apply (entry_shaped w2 h2); [done|lia]|].
  split; by apply corner_sum_entry.
Qed.

Lemma hybrid_adds_corner_coefficients_witness :
  exists cre cim,
    combine_loop 1 1 [[1; 2]; [3; 4]]%float [[5; 6]; [7; 8]]%float [[10]]%float [[20]]%float
    = Some (cre, cim) /\
    shaped 1 1 cre /\ shaped 1 1 cim /\
    forall x y, (x < 1)%nat -> (y < 1)%nat ->
      exists r1 r2 i1 i2,
        entry [[1; 2]; [3; 4]]%float y x = Some r1 /\ entry [[10]]%float y x = Some r2 /\
        entry [[5; 6]; [7; 8]]%float y x = Some i1 /\ entry [[20]]%float y x = Some i2 /\
        entry cre y x = Some (r1 + r2)%float /\ entry cim y x = Some (i1 + i2)%float.
Proof.
  apply (hybrid_adds_corner_coefficients 2 2 1 1
           [[1; 2]; [3; 4]]%float [[5; 6]; [7; 8]]%float [[10]]%float [[20]]%float);
    (split; [reflexivity|repeat constructor]).
Defined.

Section FrequencyFacts.
Context `{ML : MathLib}.

Lemma valid_spectrum_shaped s fft mre mim :
  valid_spectrum s fft mre mim ->
  shaped (fft_width fft) (fft_height fft) mre /\ shaped (fft_width fft) (fft_height fft) mim.
Proof. intros (_ & _ & Lre & Lim & Wre & Wim). by repeat split. Qed.

(** The pixels that [ifft2d] writes are grey and opaque. *)
Lemma ifft2d_grey_opaque fft s mre mim :
  valid_spectrum s fft mre mim ->
  (0 < originalWidth fft)%nat -> (0 < originalHeight fft)%nat ->
  (originalHeight fft <= fft_height fft)%nat ->
  Z.of_nat (fft_width fft) < 2 ^ 30 -> Z.of_nat (fft_height fft) < 2 ^ 30 ->
  exists out s' b,
    ifft2d fft s = inr (out, s') /\
    (data out ∉ dom (heap s)) /\
    valid s' out b /\
    width out = originalWidth fft /\ height out = originalHeight fft /\
    extends s s' /\
    forall k, (k < originalWidth fft * originalHeight fft)%nat ->
      exists m, rgb b k = [m; m; m] /\ b !! (4 * k + 3)%nat = Some 255.
Proof.
  intros Vs Hw Hh Hhh Hw30 Hh30.
  destruct (ifft2d_result fft s mre mim Vs Hw Hh Hhh Hw30 Hh30)
    as (c1 & c2 & q1 & q2 & out & s2 & b & _ & _ & Sq & Eb & Ei & Hfresh & Vo & Wo & Ho & X2).
  destruct (ifft2d_loop_lookup (fft_width fft) (fft_height fft)
              (originalWidth fft) (originalHeight fft) q1
              (replicate (4 * originalWidth fft * originalHeight fft) 0) Sq Hhh)
    as (b' & Eb' & Lb & Hpix); [apply length_replicate|].
  rewrite Eb in Eb'. inversion Eb'; subst b'. clear Eb'.
  exists out, s2, b. do 6 (split; [assumption|]).
  intros k Hk. destruct (pixel_of_index _ _ k Hk) as (x & y & Hx & Hy & ->).
  destruct (Hpix x y Hx Hy) as (v & _ & Hrgb & Halpha).
  replace (4 * (y * originalWidth fft + x))%nat
    with ((y * originalWidth fft + x) * 4)%nat by lia.
  eexists. split; [|exact Halpha]. apply rgb_all. intros c Hc.
  replace (4 * (y * originalWidth fft + x))%nat
    with ((y * originalWidth fft + x) * 4)%nat by lia.
  by apply Hrgb.
Qed.

(** The filter of the frequency panel, for every radius and either pass
    type: a new opaque grey image of the size of the input (of width and
    height at most 2^29), with the input left as it was. *)
Theorem frequency_filter_is_grey_and_opaque img radius type s a :
  valid s img a ->
  Z.of_nat (width img) <= 2 ^ 29 -> Z.of_nat (height img) <= 2 ^ 29 ->
  exists b,
    yields (frequency_filter img radius type) s img b /\
    forall k, (k < width img * height img)%nat ->
      exists m, rgb b k = [m; m; m] /\ b !! (4 * k + 3)%nat = Some 255.
Proof.
  intros Hv Hw Hh.
  destruct (fft2d_result img s a Hv Hw Hh)
    as (w & h & r1 & r2 & mre & mim & fft & s1 &
        Ew & Eh & Er & Ec & Ef & Vs & Fw & Fh & Ow & Oh & Hhh & Hw30 & Hh30 & X1).
  pose proof Hv as (_ & Hl & Wpos & Hpos).
  destruct (applyFrequencyFilter_spec fft radius type s1 mre mim Vs)
    as (flt & s2 & Ea & Vf & Fw' & Fh' & Ow' & Oh' & _ & X2).
  destruct (ifft2d_grey_opaque flt s2 _ _ Vf)
    as (out & s3 & b & Ei & Hfresh & Vo & Wo & Ho & X3 & Hpix); [lia..|].
  exists b. split.
  - exists out, s3. split.
    { unfold frequency_filter. by rewrite (bind_inr _ _ _ _ _ Ef), (bind_inr _ _ _ _ _ Ea). }
    split; [intros Hd; apply Hfresh; apply (extends_dom s1 s2); [exact X2|];
            by apply (extends_dom s s1)|].
    split; [exact Vo|]. split; [lia|]. split; [lia|].
    apply (extends_trans s s1 s3); [exact X1|]. by apply (extends_trans s1 s2 s3).
  - intros k Hk. apply Hpix. rewrite Ow', Oh', Ow, Oh. exact Hk.
Qed.

(** [createHybridImage] returns a new opaque grey image whose width and
    height are the smaller of the two original widths and heights; the
    two spectra and everything else in the heap are left as they were. *)
Theorem createHybridImage_takes_smaller_size
    fft1 fft2 img1Mode img2Mode radius1 radius2 s mre1 mim1 mre2 mim2 :
  valid_spectrum s fft1 mre1 mim1 -> valid_spectrum s fft2 mre2 mim2 ->
  let ow := Nat.min (originalWidth fft1) (originalWidth fft2) in
  let oh := Nat.min (originalHeight fft1) (originalHeight fft2) in
  (0 < ow)%nat -> (0 < oh)%nat ->
  (oh <= Nat.min (fft_height fft1) (fft_height fft2))%nat ->
  Z.of_nat (Nat.min (fft_width fft1) (fft_width fft2)) < 2 ^ 30 ->
  Z.of_nat (Nat.min (fft_height fft1) (fft_height fft2)) < 2 ^ 30 ->
  exists out s' b,
    createHybridImage fft1 fft2 img1Mode img2Mode radius1 radius2 s = inr (out, s') /\
    (data out ∉ dom (heap s)) /\
    valid s' out b /\ width out = ow /\ height out = oh /\
    extends s s' /\
    forall k, (k < ow * oh)%nat ->
      exists m, rgb b k = [m; m; m] /\ b !! (4 * k + 3)%nat = Some 255.
Proof.
  intros V1 V2 ow oh Hw Hh Hhh Hw30 Hh30.
  destruct (applyFrequencyFilter_spec fft1 radius1 img1Mode s mre1 mim1 V1)
    as (f1 & s1 & E1 & Vf1 & Fw1 & Fh1 & Ow1 & Oh1 & _ & X1).
  destruct (applyFrequencyFilter_spec fft2 radius2 img2Mode s1 mre2 mim2
              (valid_spectrum_extends s s1 _ _ _ X1 V2))
    as (f2 & s2 & E2 & Vf2 & Fw2 & Fh2 & Ow2 & Oh2 & _ & X2).
  pose proof (valid_spectrum_extends s1 s2 _ _ _ X2 Vf1) as Vf1'.
  match type of Vf1' with valid_spectrum _ _ ?a ?b => set (re1 := a) in *; set (im1 := b) in * end.
  match type of Vf2 with valid_spectrum _ _ ?a ?b => set (re2 := a) in *; set (im2 := b) in * end.
  destruct (valid_spectrum_shaped _ _ _ _ Vf1') as [S1r S1i].
  destruct (valid_spectrum_shaped _ _ _ _ Vf2) as [S2r S2i].
  set (w := Nat.min (fft_width f1) (fft_width f2)).
  set (h := Nat.min (fft_height f1) (fft_height f2)).
  assert (Ec : combine_loop w h re1 im1 re2 im2
               = Some (corner_sum w h re1 re2, corner_sum w h im1 im2)).
  { apply combine_loop_sums; [destruct S1r as [-> _]|destruct S1i as [-> _]
                              |destruct S2r as [-> _]|destruct S2i as [-> _]]; lia. }
  destruct (alloc_rows_ok (corner_sum w h re1 re2) s2) as (lre & s3 & Ea & Rre & X3 & _ & _).
  destruct (alloc_rows_ok (corner_sum w h im1 im2) s3) as (lim & s4 & Eb & Rim & X4 & _ & _).
  set (comb := {| re := lre; im := lim; fft_width := w; fft_height := h;
                  originalWidth := Nat.min (originalWidth f1) (originalWidth f2);
                  originalHeight := Nat.min (originalHeight f1) (originalHeight f2) |}).
  assert (Vc : valid_spectrum s4 comb (corner_sum w h re1 re2) (corner_sum w h im1 im2)).
  { destruct (corner_sum_shaped w h re1 re2) as [L1 W1].
    destruct (corner_sum_shaped w h im1 im2) as [L2 W2].
    split; [by apply (rows_in_extends s3 s4)|]. split; [exact Rim|]. by repeat split. }
  destruct (ifft2d_grey_opaque comb s4 _ _ Vc)
    as (out & s5 & b & Ei & Hfresh & Vo & Wo & Ho & X5 & Hpix);
    [subst comb; cbn [originalWidth originalHeight fft_width fft_height]; subst w h; lia..|].
  assert (X04 : extends s s4).
  { apply (extends_trans s s1 s4); [exact X1|].
    apply (extends_trans s1 s2 s4); [exact X2|]. by apply (extends_trans s2 s3 s4). }
  exists out, s5, b. split.
  { unfold createHybridImage.
    rewrite (bind_inr _ _ _ _ _ E1), (bind_inr _ _ _ _ _ E2). cbv zeta. fold w h.
    destruct Vf1' as (R1r & R1i & _). destruct Vf2 as (R2r & R2i & _).
    rewrite (bind_inr _ _ _ _ _ (read_rows_ok _ _ _ R1r)),
      (bind_inr _ _ _ _ _ (read_rows_ok _ _ _ R1i)),
      (bind_inr _ _ _ _ _ (read_rows_ok _ _ _ R2r)),
      (bind_inr _ _ _ _ _ (read_rows_ok _ _ _ R2i)).
    assert (El : lift TypeError (combine_loop w h re1 im1 re2 im2) s2
                 = inr ((corner_sum w h re1 re2, corner_sum w h im1 im2), s2))
      by (by rewrite Ec).
    rewrite (bind_inr _ _ _ _ _ El). cbn [fst snd].
    rewrite (bind_inr _ _ _ _ _ Ea), (bind_inr _ _ _ _ _ Eb). exact Ei. }
  split; [intros Hd; apply Hfresh; by apply (extends_dom s s4)|].
  split; [exact Vo|].
  split; [rewrite Wo; subst comb ow; cbn [originalWidth]; lia|].
  split; [rewrite Ho; subst comb oh; cbn [originalHeight]; lia|].
  split; [by apply (extends_trans s s4 s5)|].
  intros k Hk. apply Hpix. subst comb ow oh. cbn [originalWidth originalHeight].
  by rewrite Ow1, Ow2, Oh1, Oh2.
Qed.

End FrequencyFacts.

Lemma frequency_filter_is_grey_and_opaque_witness :
  exists b,
    yields (frequency_filter (ML := no_math) img_1x1 1 low) (one_pixel 10 20 30 40) img_1x1 b /\
    forall k, (k < width img_1x1 * height img_1x1)%nat ->
      exists m, rgb b k = [m; m; m] /\ b !! (4 * k + 3)%nat = Some 255.
Proof.
  apply (frequency_filter_is_grey_and_opaque (ML := no_math) img_1x1 1 low
           (one_pixel 10 20 30 40) [10; 20; 30; 40]).
  - unfold valid. simpl. repeat split; lia.
  - simpl. lia.
  - simpl. lia.
Defined.

Lemma createHybridImage_takes_smaller_size_witness :
  exists out s' b,
    createHybridImage (ML := no_math) spectrum_1x1 spectrum_1x1 low high 1 1 heap_spectrum_1x1
    = inr (out, s') /\
    (data out ∉ dom (heap heap_spectrum_1x1)) /\
    valid s' out b /\ width out = 1%nat /\ height out = 1%nat /\
    extends heap_spectrum_1x1 s' /\
    forall k, (k < 1 * 1)%nat ->
      exists m, rgb b k = [m; m; m] /\ b !! (4 * k + 3)%nat = Some 255.
Proof.
  apply (createHybridImage_takes_smaller_size (ML := no_math) spectrum_1x1 spectrum_1x1
           low high 1 1 heap_spectrum_1x1 [[128%float]] [[0%float]] [[128%float]] [[0%float]]).
  - exact valid_spectrum_1x1.
  - exact valid_spectrum_1x1.
  - simpl. lia.
  - simpl. lia.
  - simpl. lia.
  - simpl. lia.
  - simpl. lia.
Defined.

(** ** Equalize *)

Lemma pixels_upto_S (f : nat -> Z) m v :
  pixels_upto f (S m) v = pixels_upto f m v + (if f m <=? v then 1 else 0).
Proof.
  unfold pixels_upto. rewrite seq_S, filter_app, length_app, filter_cons, filter_nil. simpl.
  destruct (decide (f m <= v)) as [E|E].
  - replace (f m <=? v) with true by (symmetry; by apply Z.leb_le). simpl. lia.
  - replace (f m <=? v) with false by (symmetry; by apply Z.leb_gt; lia). simpl. lia.
Qed.

Lemma pixels_upto_step (f : nat -> Z) n v :
  pixels_upto f n v = pixels_upto f n (v - 1) + pixels_at f n v.
Proof.
  induction n as [|n IH]; [reflexivity|].
  rewrite !pixels_upto_S, pixels_at_S, IH.
  destruct (f n <=? v) eqn:E1, (f n <=? v - 1) eqn:E2, (f n =? v) eqn:E3; lia.
Qed.

Lemma pixels_upto_none (f : nat -> Z) n v :
  (forall k, (k < n)%nat -> v < f k) -> pixels_upto f n v = 0.
Proof.
  induction n as [|n IH]; intros H; [reflexivity|].
  rewrite pixels_upto_S, IH by (intros k Hk; apply H; lia).
  specialize (H n ltac:(lia)). destruct (f n <=? v) eqn:E; lia.
Qed.

Lemma pixels_at_nonneg (f : nat -> Z) n v : 0 <= pixels_at f n v.
Proof. unfold pixels_at. lia. Qed.

Lemma pixels_at_some (f : nat -> Z) n k : (k < n)%nat -> 0 < pixels_at f n (f k).
Proof.
  induction n as [|n IH]; intros Hk; [lia|]. rewrite pixels_at_S.
  destruct (decide (k = n)) as [->|Hne].
  - rewrite Z.eqb_refl. pose proof (pixels_at_nonneg f n (f n)). lia.
  - specialize (IH ltac:(lia)). destruct (f n =? f k); lia.
Qed.

(** The histogram of a channel counts the pixels of each level. *)
Lemma histogram_counts (a : list Z) n c (f : nat -> Z) :
  length a = (4 * n)%nat -> (c < 4)%nat ->
  (forall k, (k < n)%nat -> a !! (4 * k + c)%nat = Some (f k) /\ is_byte (f k)) ->
  histogram a c = pixels_at f n <$> bytes.
Proof.
  intros Hl Hc Hf. unfold histogram. rewrite Hl, steps_from, foldl_fmap by exact Hc.
  assert (H : forall m, (m <= n)%nat ->
            foldl (λ hist k, let v := Z.to_nat (a !!! (c + k * 4)%nat) in
                             <[v := hist !!! v + 1]> hist) (replicate 256 0) (seq 0 m)
            = pixels_at f m <$> bytes).
  { induction m as [|m IH]; intros Hm; [reflexivity|].
    rewrite seq_S, foldl_snoc, IH by lia. cbv zeta.
    destruct (Hf m ltac:(lia)) as [Em [B0 B1]].
    replace (c + (0 + m) * 4)%nat with (4 * m + c)%nat by lia.
    rewrite (list_lookup_total_correct _ _ _ Em).
    assert (Hi : (Z.to_nat (f m) < 256)%nat) by lia.
    apply list_eq. intros j. rewrite list_lookup_fmap.
    destruct (decide (j = Z.to_nat (f m))) as [->|Hne].
    - rewrite list_lookup_insert_eq by (rewrite length_fmap, length_bytes; exact Hi).
      rewrite (bytes_lookup _ Hi). cbn [fmap option_fmap option_map]. f_equal.
      rewrite list_lookup_total_alt, list_lookup_fmap, (bytes_lookup _ Hi).
      cbn [fmap option_fmap option_map default]. rewrite pixels_at_S.
      replace (f m =? Z.of_nat (Z.to_nat (f m))) with true
        by (symmetry; apply Z.eqb_eq; lia).
      by rewrite Z2Nat.id by lia.
    - rewrite list_lookup_insert_ne by congruence. rewrite list_lookup_fmap.
      destruct (bytes !! j) as [v|] eqn:Ej; [|reflexivity]. cbn [fmap option_fmap option_map].
      assert (Hj : (j < 256)%nat) by (apply lookup_lt_Some in Ej; by rewrite length_bytes in Ej).
      rewrite bytes_lookup in Ej by exact Hj. inversion Ej; subst v.
      rewrite pixels_at_S. replace (f m =? Z.of_nat j) with false
        by (symmetry; apply Z.eqb_neq; lia). by rewrite Z.add_0_r. }
  by apply H.
Qed.

(** The cumulative sums count the pixels up to each level. *)
Lemma cumulative_counts (f : nat -> Z) n :
  (forall k, (k < n)%nat -> is_byte (f k)) ->
  length (cumulative (pixels_at f n <$> bytes)) = 256%nat /\
  forall i, (i < 256)%nat ->
    cumulative (pixels_at f n <$> bytes) !!! i = pixels_upto f n (Z.of_nat i).
Proof.
  intros Hf. unfold cumulative. set (hist := pixels_at f n <$> bytes).
  assert (Hh : forall i, (i < 256)%nat -> hist !!! i = pixels_at f n (Z.of_nat i)).
  { intros i Hi. unfold hist. rewrite list_lookup_total_alt, list_lookup_fmap, bytes_lookup by exact Hi.
    reflexivity. }
  assert (H : forall m, (m <= 255)%nat ->
            let cdf := foldl (λ cdf i, <[i := cdf !!! (i - 1)%nat + hist !!! i]> cdf)
                             (<[0%nat := hist !!! 0%nat]> (replicate 256 0)) (seq 1 m) in
            length cdf = 256%nat /\
            forall i, (i <= m)%nat -> cdf !!! i = pixels_upto f n (Z.of_nat i)).
  { induction m as [|m IH]; intros Hm cdf; subst cdf.
    - cbn [seq foldl]. split; [by rewrite length_insert, length_replicate|].
      intros i Hi. replace i with 0%nat by lia.
      rewrite list_lookup_total_insert_eq by (rewrite length_replicate; lia).
      rewrite Hh by lia. rewrite (pixels_upto_step f n (Z.of_nat 0)).
      rewrite pixels_upto_none; [reflexivity|].
      intros k Hk. destruct (Hf k Hk). simpl. lia.
    - rewrite seq_S, foldl_snoc. destruct (IH ltac:(lia)) as [Hlen Hval].
      set (cdf := foldl _ _ (seq 1 m)) in *.
      split; [by rewrite length_insert|].
      intros i Hi. destruct (decide (i = S m)) as [->|Hne].
      + replace (1 + m)%nat with (S m) by lia.
        rewrite list_lookup_total_insert_eq by lia.
        replace (S m - 1)%nat with m by lia. rewrite Hval, Hh by lia.
        rewrite (pixels_upto_step f n (Z.of_nat (S m))). do 2 f_equal. lia.
      + rewrite list_lookup_total_insert_ne by lia. apply Hval. lia. }
  destruct (H 255%nat ltac:(lia)) as [Hlen Hval].
  split; [exact Hlen|]. intros i Hi. apply Hval. lia.
Qed.

(** [cdfMin] is the number of the pixels of the lowest level. *)
Lemma cdf_min_counts (f : nat -> Z) n m :
  (forall k, (k < n)%nat -> is_byte (f k)) -> lowest f n m ->
  cdf_min (cumulative (pixels_at f n <$> bytes)) = pixels_at f n m.
Proof.
  intros Hf [(k0 & Hk0 & Em) Hlow]. destruct (cumulative_counts f n Hf) as [Hlen Hval].
  assert (Bm : is_byte m) by (rewrite <- Em; by apply Hf).
  assert (Hi : (Z.to_nat m < 256)%nat) by (unfold is_byte in Bm; lia).
  assert (Eup : pixels_upto f n m = pixels_at f n m).
  { rewrite pixels_upto_step, pixels_upto_none; [reflexivity|].
    intros k Hk. specialize (Hlow k Hk). lia. }
  unfold cdf_min. rewrite (find_first _ _ (Z.to_nat m) (pixels_at f n m)); [reflexivity| | |].
  - rewrite list_lookup_lookup_total_lt by lia. rewrite Hval by lia.
    rewrite Z2Nat.id by (unfold is_byte in Bm; lia). by rewrite Eup.
  - apply Z.ltb_lt. rewrite <- Em. by apply pixels_at_some.
  - intros j x Hj Hx. apply list_lookup_total_correct in Hx.
    rewrite Hval in Hx by lia. subst x.
    rewrite pixels_upto_none; [reflexivity|].
    intros k Hk. specialize (Hlow k Hk). unfold is_byte in Bm. lia.
Qed.

(** A loop that replaces each sample of one channel by a function of
    its own value. *)
Lemma channel_map_lookup (F : Z -> float) (a : list Z) n c :
  length a = (4 * n)%nat -> (c < 4)%nat ->
  let b := foldl (λ out i, store i (F (out !!! i)) out) a (steps c (length a) 4) in
  length b = length a /\
  (forall k, (k < n)%nat ->
     b !! (4 * k + c)%nat = Some (ToUint8Clamp (F (a !!! (4 * k + c)%nat)))) /\
  (forall j, (j mod 4 <> c)%nat -> b !! j = a !! j).
Proof.
  intros Hl Hc b. subst b. rewrite Hl, steps_from, foldl_fmap by lia.
  assert (H : forall m, (m <= n)%nat ->
            let b := foldl (λ out k, store (c + k * 4) (F (out !!! (c + k * 4)%nat)) out)
                           a (seq 0 m) in
            length b = length a /\
            (forall k, (k < m)%nat ->
               b !! (4 * k + c)%nat = Some (ToUint8Clamp (F (a !!! (4 * k + c)%nat)))) /\
            (forall j, (forall k, (k < m)%nat -> j <> (4 * k + c)%nat) -> b !! j = a !! j)).
  { induction m as [|m IH]; intros Hm b; subst b.
    - cbn [seq foldl]. split; [reflexivity|]. split; [intros k Hk; lia|reflexivity].
    - rewrite seq_S, foldl_snoc. destruct (IH ltac:(lia)) as (Hlen & Hdone & Hrest).
      set (b := foldl _ _ (seq 0 m)) in *.
      replace (c + (0 + m) * 4)%nat with (4 * m + c)%nat by lia.
      assert (E : b !!! (4 * m + c)%nat = a !!! (4 * m + c)%nat).
      { rewrite !list_lookup_total_alt, Hrest by (intros k Hk; lia). reflexivity. }
      rewrite E. split; [by rewrite length_store|]. split.
      + intros k Hk. destruct (decide (k = m)) as [->|Hne].
        * rewrite store_lookup_eq by lia. reflexivity.
        * rewrite store_lookup_ne by lia. apply Hdone. lia.
      + intros j Hj. rewrite store_lookup_ne by (specialize (Hj m); lia).
        apply Hrest. intros k Hk. apply Hj. lia. }
  destruct (H n ltac:(lia)) as (Hlen & Hdone & Hrest).
  split; [by rewrite Hlen|]. split; [exact Hdone|].
  intros j Hj. apply Hrest. intros k Hk ->. apply Hj. apply mod4_of. lia.
Qed.

(** A zero numerator gives the sample 0, whatever the denominator. *)
Lemma zero_ratio_stored (x : float) : ToUint8Clamp (Math_round (Z2F 0 / x * 255)) = 0.
Proof.
  assert (H : (Z2F 0 / x)%float = 0%float \/ (Z2F 0 / x)%float = (-0)%float
              \/ (Z2F 0 / x)%float = nan).
  { rewrite <- (SF2Prim_Prim2SF (Z2F 0 / x)), div_spec.
    change (Prim2SF (Z2F 0)) with (S754_zero false).
    destruct (Prim2SF x) as [[|]|[|]| |[|] m e]; cbn; auto. }
  destruct H as [-> | [-> | ->]]; reflexivity.
Qed.

(** One pass of [equalizeImage]: the samples of the channel are replaced
    according to the rank of their level. *)
Lemma equalize_channel_rank (a : list Z) n c (f : nat -> Z) m :
  length a = (4 * n)%nat -> (c < 3)%nat ->
  (forall k, (k < n)%nat -> a !! (4 * k + c)%nat = Some (f k) /\ is_byte (f k)) ->
  lowest f n m ->
  length (equalize_channel n a c) = length a /\
  (forall k, (k < n)%nat ->
     equalize_channel n a c !! (4 * k + c)%nat
     = Some (ToUint8Clamp
               (Math_round (Z2F (pixels_upto f n (f k) - pixels_at f n m)
                            / Z2F (Z.of_nat n - pixels_at f n m) * 255))%float)) /\
  (forall j, (j mod 4 <> c)%nat -> equalize_channel n a c !! j = a !! j).
Proof.
  intros Hl Hc Hf Hlow. unfold equalize_channel.
  rewrite (histogram_counts a n c f Hl ltac:(lia) Hf).
  assert (Hb : forall k, (k < n)%nat -> is_byte (f k)) by (intros k Hk; by destruct (Hf k Hk)).
  rewrite (cdf_min_counts f n m Hb Hlow).
  destruct (cumulative_counts f n Hb) as [_ Hcdf].
  set (cdf := cumulative _) in *.
  destruct (channel_map_lookup
              (λ v, Math_round (Z2F (cdf !!! Z.to_nat v - pixels_at f n m)
                                / Z2F (Z.of_nat n - pixels_at f n m) * 255))%float
              a n c Hl ltac:(lia)) as (Hlen & Hdone & Hrest).
  split; [exact Hlen|]. split; [|exact Hrest].
  intros k Hk. rewrite (Hdone k Hk). destruct (Hf k Hk) as [Ek [B0 B1]].
  rewrite (list_lookup_total_correct _ _ _ Ek), Hcdf by lia.
  by rewrite Z2Nat.id by lia.
Qed.

Lemma lowest_exists (a : list Z) n c :
  length a = (4 * n)%nat -> (0 < n)%nat -> (c < 3)%nat -> Forall is_byte a ->
  exists m, lowest (λ k, a !!! (4 * k + c)%nat) n m.
Proof.
  intros Hl Hn Hc Ha.
  destruct (channel_min_max_spec a n c Hl Hn Hc Ha) as (_ & _ & (k & Hk) & _ & Hall).
  exists (channel_min_max a c).1. split.
  - assert (k < n)%nat by (apply lookup_lt_Some in Hk; lia).
    exists k. split; [assumption|]. by apply list_lookup_total_correct.
  - intros j Hj. by destruct (Hall j Hj).
Qed.

(** [equalizeImage] on a buffer of bytes: in each colour channel a
    sample of level [v] becomes [round((upto(v) - least) / (n - least) * 255)],
    where [upto(v)] is the number of pixels whose level in the channel is
    at most [v], [least] the number of pixels of the lowest level of the
    channel and [n] the number of pixels; so the lowest level of each
    channel becomes 0.  The alpha samples are those of the input. *)
Theorem equalize_maps_levels_by_rank img s a :
  valid s img a -> Forall is_byte a ->
  let n := (width img * height img)%nat in
  exists out,
    yields (equalizeImage img) s img out /\
    (forall k, out !! (4 * k + 3)%nat = a !! (4 * k + 3)%nat) /\
    forall c, (c < 3)%nat ->
      let level := λ k, a !!! (4 * k + c)%nat in
      exists m,
        lowest level n m /\
        forall k, (k < n)%nat ->
          out !! (4 * k + c)%nat
          = Some (ToUint8Clamp
                    (Math_round (Z2F (pixels_upto level n (level k) - pixels_at level n m)
                                 / Z2F (Z.of_nat n - pixels_at level n m) * 255))%float) /\
          (level k = m -> out !! (4 * k + c)%nat = Some 0).
Proof.
  intros Hv Ha n. pose proof Hv as (_ & Hl & Hw & Hh).
  assert (Hl' : length a = (4 * n)%nat) by (subst n; lia).
  assert (Hn : (0 < n)%nat) by (subst n; nia).
  exists (equalizeImage_loop n a). split; [by apply equalizeImage_yields|].
  unfold equalizeImage_loop. cbn [seq foldl].
  assert (Hlev : forall c k, (c < 3)%nat -> (k < n)%nat ->
            a !! (4 * k + c)%nat = Some (a !!! (4 * k + c)%nat)
            /\ is_byte (a !!! (4 * k + c)%nat)).
  { intros c k Hc Hk. split; [apply list_lookup_lookup_total_lt; lia|by apply lookup_total_byte]. }
  destruct (lowest_exists a n 0 Hl' Hn ltac:(lia) Ha) as [m0 L0].
  destruct (lowest_exists a n 1 Hl' Hn ltac:(lia) Ha) as [m1 L1].
  destruct (lowest_exists a n 2 Hl' Hn ltac:(lia) Ha) as [m2 L2].
  destruct (equalize_channel_rank a n 0 _ m0 Hl' ltac:(lia)
              (λ k Hk, Hlev 0%nat k ltac:(lia) Hk) L0) as (E1 & P1 & R1).
  set (a1 := equalize_channel n a 0) in *.
  assert (K1 : forall c, (c < 4)%nat -> c <> 0%nat ->
            forall k, a1 !! (4 * k + c)%nat = a !! (4 * k + c)%nat)
    by (intros c Hc Hne k; apply R1; apply other_channel; lia).
  destruct (equalize_channel_rank a1 n 1 (λ k, a !!! (4 * k + 1)%nat) m1 ltac:(lia) ltac:(lia))
    as (E2 & P2 & R2); [intros k Hk; rewrite K1 by lia; apply Hlev; lia|exact L1|].
  set (a2 := equalize_channel n a1 1) in *.
  assert (K2 : forall c, (c < 4)%nat -> c <> 1%nat ->
            forall k, a2 !! (4 * k + c)%nat = a1 !! (4 * k + c)%nat)
    by (intros c Hc Hne k; apply R2; apply other_channel; lia).
  destruct (equalize_channel_rank a2 n 2 (λ k, a !!! (4 * k + 2)%nat) m2 ltac:(lia) ltac:(lia))
    as (E3 & P3 & R3); [intros k Hk; rewrite K2, K1 by lia; apply Hlev; lia|exact L2|].
  set (a3 := equalize_channel n a2 2) in *.
  assert (K3 : forall c, (c < 4)%nat -> c <> 2%nat ->
            forall k, a3 !! (4 * k + c)%nat = a2 !! (4 * k + c)%nat)
    by (intros c Hc Hne k; apply R3; apply other_channel; lia).
  split; [intros k; rewrite K3, K2, K1 by lia; reflexivity|].
  assert (Hzero : forall (f : nat -> Z) m k (o : option Z),
            lowest f n m -> f k = m ->
            o = Some (ToUint8Clamp
                        (Math_round (Z2F (pixels_upto f n (f k) - pixels_at f n m)
                                     / Z2F (Z.of_nat n - pixels_at f n m) * 255))%float) ->
            o = Some 0).
  { intros f m k o [_ Hlow] Ek ->. f_equal.
    assert (Eup : pixels_upto f n m = pixels_at f n m).
    { rewrite pixels_upto_step, pixels_upto_none; [reflexivity|].
      intros j Hj. specialize (Hlow j Hj). lia. }
    rewrite Ek, Eup, Z.sub_diag. apply zero_ratio_stored. }
  intros c Hc.
  assert (Hcases : (c = 0 \/ c = 1 \/ c = 2)%nat) by lia.
  destruct Hcases as [-> | [-> | ->]];
    match goal with |- context [pixels_upto ?f n _] => set (level := f) end.
  - exists m0. split; [exact L0|]. intros k Hk.
    assert (E : a3 !! (4 * k + 0)%nat
                = Some (ToUint8Clamp
                          (Math_round (Z2F (pixels_upto level n (level k) - pixels_at level n m0)
                                       / Z2F (Z.of_nat n - pixels_at level n m0) * 255))%float))
      by (rewrite K3, K2 by lia; by apply P1).
    split; [exact E|]. intros Em. by apply (Hzero level m0 k).
  - exists m1. split; [exact L1|]. intros k Hk.
    assert (E : a3 !! (4 * k + 1)%nat
                = Some (ToUint8Clamp
                          (Math_round (Z2F (pixels_upto level n (level k) - pixels_at level n m1)
                                       / Z2F (Z.of_nat n - pixels_at level n m1) * 255))%float))
      by (rewrite K3 by lia; by apply P2).
    split; [exact E|]. intros Em. by apply (Hzero level m1 k).
  - exists m2. split; [exact L2|]. intros k Hk.
    assert (E : a3 !! (4 * k + 2)%nat
                = Some (ToUint8Clamp
                          (Math_round (Z2F (pixels_upto level n (level k) - pixels_at level n m2)
                                       / Z2F (Z.of_nat n - pixels_at level n m2) * 255))%float))
      by (by apply P3).
    split; [exact E|]. intros Em. by apply (Hzero level m2 k).
Qed.

Lemma equalize_maps_levels_by_rank_witness :
  let n := (width img_3x1 * height img_3x1)%nat in
  exists out,
    yields (equalizeImage img_3x1) heap_3x1 img_3x1 out /\
    (forall k, out !! (4 * k + 3)%nat = row_20_10_30 !! (4 * k + 3)%nat) /\
    forall c, (c < 3)%nat ->
      let level := λ k, row_20_10_30 !!! (4 * k + c)%nat in
      exists m,
        lowest level n m /\
        forall k, (k < n)%nat ->
          out !! (4 * k + c)%nat
          = Some (ToUint8Clamp
                    (Math_round (Z2F (pixels_upto level n (level k) - pixels_at level n m)
                                 / Z2F (Z.of_nat n - pixels_at level n m) * 255))%float) /\
          (level k = m -> out !! (4 * k + c)%nat = Some 0).
Proof.
  apply (equalize_maps_levels_by_rank img_3x1 heap_3x1 row_20_10_30).
  - exact valid_3x1.
  - apply Forall_is_byte_dec. reflexivity.
Defined.

(** ** The forward transform pads to powers of two *)

Section ForwardFacts.
Context `{ML : MathLib}.

Lemma nextPow2_small (n : nat) :
  Z.of_nat n <= 2 ^ 29 ->
  exists k, nextPow2 n = Some (2 ^ k)%nat /\ (n <= 2 ^ k)%nat /\
            (forall j, (n <= 2 ^ j)%nat -> (k <= j)%nat) /\ Z.of_nat (2 ^ k) < 2 ^ 30.
Proof.
  intros Hn. destruct (nextPow2_least n ltac:(lia)) as (k & _ & Ek & Hge & Hleast).
  exists k. split; [exact Ek|]. split; [exact Hge|]. split; [exact Hleast|].
  assert (k <= 29)%nat.
  { apply Hleast. apply Nat2Z.inj_le. rewrite Nat2Z.inj_pow. exact Hn. }
  rewrite Nat2Z.inj_pow. apply Z.pow_lt_mono_r; lia.
Qed.

Lemma fft2d_padded img s a :
  valid s img a ->
  Z.of_nat (width img) <= 2 ^ 29 -> Z.of_nat (height img) <= 2 ^ 29 ->
  exists fft s' mre mim kw kh,
    fft2d img s = inr (fft, s') /\
    valid_spectrum s' fft mre mim /\
    fft_width fft = (2 ^ kw)%nat /\ fft_height fft = (2 ^ kh)%nat /\
    (width img <= 2 ^ kw)%nat /\ (forall j, (width img <= 2 ^ j)%nat -> (kw <= j)%nat) /\
    (height img <= 2 ^ kh)%nat /\ (forall j, (height img <= 2 ^ j)%nat -> (kh <= j)%nat) /\
    originalWidth fft = width img /\ originalHeight fft = height img /\
    Forall (λ l, l ∉ dom (heap s)) (re fft ++ im fft) /\
    extends s s'.
Proof.
  intros Hv Hw Hh.
  destruct (nextPow2_small (width img) Hw) as (kw & Ew & Hwge & Hwleast & Hw30).
  destruct (nextPow2_small (height img) Hh) as (kh & Eh & Hhge & Hhleast & Hh30).
  set (w := (2 ^ kw)%nat) in *. set (h := (2 ^ kh)%nat) in *.
  destruct (toGrayscale_yields img s a Hv)
    as (gray & s1 & Eg & _ & (Hg & _) & _ & _ & X1).
  destruct (fft_rows_total w h false
              (shifted_rows (width img) (height img) w h (toGrayscale_loop a))
              (replicate h (replicate w 0%float)))
    as (r1 & r2 & Er & Sr1 & Sr2); [lia|apply shaped_shifted_rows|apply shaped_zero|].
  destruct (fft_cols_total w h false r1 r2) as (mre & mim & Ec & Sre & Sim); [lia|done|done|].
  destruct (alloc_rows_ok mre s1) as (lre & s2 & Ea1 & R1 & X2 & _ & F1).
  destruct (alloc_rows_ok mim s2) as (lim & s3 & Ea2 & R2 & X3 & _ & F2).
  exists {| re := lre; im := lim; fft_width := w; fft_height := h;
            originalWidth := width img; originalHeight := height img |}, s3, mre, mim, kw, kh.
  split.
  { unfold fft2d. rewrite (bind_inr _ _ _ _ _ Eg). rewrite Ew, Eh.
    cbn [lift]. unfold mbind at 1 2, M_bind at 1 2. cbn [mret M_ret].
    rewrite (bind_inr _ _ _ _ _ (read_u8_ok _ _ _ Hg)). fold w h. rewrite Er.
    cbn [lift]. unfold mbind at 1, M_bind at 1. cbn [mret M_ret fst snd]. rewrite Ec.
    cbn [lift]. unfold mbind at 1, M_bind at 1. cbn [mret M_ret fst snd].
    rewrite (bind_inr _ _ _ _ _ Ea1), (bind_inr _ _ _ _ _ Ea2). reflexivity. }
  split.
  { apply shaped_valid_spectrum; cbn [re im fft_width fft_height]; try done.
    by apply (rows_in_extends s2 s3). }
  do 8 (split; [reflexivity || assumption|]).
  split.
  { cbn [re im]. apply Forall_app. split.
    - eapply Forall_impl; [exact F1|]. intros l Hl Hin. apply Hl. by apply (extends_dom s s1).
    - eapply Forall_impl; [exact F2|]. intros l Hl Hin. apply Hl.
      apply (extends_dom s1 s2); [exact X2|]. by apply (extends_dom s s1). }
  eauto using extends_trans.
Qed.

(** [fft2d] returns the spectrum of the grey image padded with zeros to
    the least powers of two that hold its width and its height (for
    images of width and height at most 2^29); it records the original
    size, its rows are new arrays, and the image is left as it was. *)
Theorem fft2d_pads_to_powers_of_two img s a :
  valid s img a ->
  Z.of_nat (width img) <= 2 ^ 29 -> Z.of_nat (height img) <= 2 ^ 29 ->
  exists fft s' mre mim kw kh,
    fft2d img s = inr (fft, s') /\
    valid_spectrum s' fft mre mim /\
    fft_width fft = (2 ^ kw)%nat /\ fft_height fft = (2 ^ kh)%nat /\
    (width img <= 2 ^ kw)%nat /\ (forall j, (width img <= 2 ^ j)%nat -> (kw <= j)%nat) /\
    (height img <= 2 ^ kh)%nat /\ (forall j, (height img <= 2 ^ j)%nat -> (kh <= j)%nat) /\
    originalWidth fft = width img /\ originalHeight fft = height img /\
    Forall (λ l, l ∉ dom (heap s)) (re fft ++ im fft) /\
    extends s s'.
Proof. apply fft2d_padded. Qed.

(** The spectrum shown by the frequency panels, [fftToImage(fft2d(img))]:
    a new opaque grey image whose width and height are the least powers
    of two that hold the width and the height of the image (at most 2^29
    each); the image is left as it was. *)
Theorem spectrum_view_is_padded_image (square : float -> float) img s a :
  valid s img a ->
  Z.of_nat (width img) <= 2 ^ 29 -> Z.of_nat (height img) <= 2 ^ 29 ->
  exists out s' b kw kh,
    spectrum_view square img s = inr (out, s') /\
    (data out ∉ dom (heap s)) /\
    valid s' out b /\ extends s s' /\
    width out = (2 ^ kw)%nat /\ height out = (2 ^ kh)%nat /\
    (width img <= 2 ^ kw)%nat /\ (forall j, (width img <= 2 ^ j)%nat -> (kw <= j)%nat) /\
    (height img <= 2 ^ kh)%nat /\ (forall j, (height img <= 2 ^ j)%nat -> (kh <= j)%nat) /\
    forall k, (k < 2 ^ kw * 2 ^ kh)%nat ->
      exists m, rgb b k = [m; m; m] /\ b !! (4 * k + 3)%nat = Some 255.
Proof.
  intros Hv Hw Hh. pose proof Hv as (_ & _ & Wpos & Hpos).
  destruct (fft2d_padded img s a Hv Hw Hh)
    as (fft & s1 & mre & mim & kw & kh & Ef & Vs & Fw & Fh & Gw & Lw & Gh & Lh & _ & _ & _ & X1).
  destruct (fftToImage_result square fft s1 mre mim Vs) as [Hdraw _].
  destruct Hdraw as (out & s2 & b & Ei & Hfresh & Vo & Wo & Ho & X2 & Hpix); [lia|lia|].
  exists out, s2, b, kw, kh.
  split; [unfold spectrum_view; by rewrite (bind_inr _ _ _ _ _ Ef)|].
  split; [intros Hd; apply Hfresh; by apply (extends_dom s s1)|].
  split; [exact Vo|]. split; [by apply (extends_trans s s1 s2)|].
  split; [congruence|]. split; [congruence|].
  do 4 (split; [assumption|]).
  intros k Hk. apply Hpix. by rewrite Fw, Fh.
Qed.

End ForwardFacts.

Lemma spectrum_view_is_padded_image_witness :
  exists out s' b kw kh,
    spectrum_view (ML := no_math) (λ v, v * v)%float img_3x1 heap_3x1 = inr (out, s') /\
    (data out ∉ dom (heap heap_3x1)) /\
    valid s' out b /\ extends heap_3x1 s' /\
    width out = (2 ^ kw)%nat /\ height out = (2 ^ kh)%nat /\
    (width img_3x1 <= 2 ^ kw)%nat /\ (forall j, (width img_3x1 <= 2 ^ j)%nat -> (kw <= j)%nat) /\
    (height img_3x1 <= 2 ^ kh)%nat /\ (forall j, (height img_3x1 <= 2 ^ j)%nat -> (kh <= j)%nat) /\
    forall k, (k < 2 ^ kw * 2 ^ kh)%nat ->
      exists m, rgb b k = [m; m; m] /\ b !! (4 * k + 3)%nat = Some 255.
Proof.
  apply (spectrum_view_is_padded_image (ML := no_math) (λ v, v * v)%float
           img_3x1 heap_3x1 row_20_10_30).
  - exact valid_3x1.
  - simpl. lia.
  - simpl. lia.
Defined.

Lemma fft2d_pads_to_powers_of_two_witness :
  exists fft s' mre mim kw kh,
    fft2d (ML := no_math) img_3x1 heap_3x1 = inr (fft, s') /\
    valid_spectrum s' fft mre mim /\
    fft_width fft = (2 ^ kw)%nat /\ fft_height fft = (2 ^ kh)%nat /\
    (width img_3x1 <= 2 ^ kw)%nat /\ (forall j, (width img_3x1 <= 2 ^ j)%nat -> (kw <= j)%nat) /\
    (height img_3x1 <= 2 ^ kh)%nat /\ (forall j, (height img_3x1 <= 2 ^ j)%nat -> (kh <= j)%nat) /\
    originalWidth fft = width img_3x1 /\ originalHeight fft = height img_3x1 /\
    Forall (λ l, l ∉ dom (heap heap_3x1)) (re fft ++ im fft) /\
    extends heap_3x1 s'.
Proof.
  apply (fft2d_pads_to_powers_of_two (ML := no_math) img_3x1 heap_3x1 row_20_10_30).
  - exact valid_3x1.
  - simpl. lia.
  - simpl. lia.
Defined.

(** ** The median filter and an isolated pixel *)

(** The middle of a sorted list of odd length is the value that more
    than half of its elements have. *)
Lemma majority_middle (l : list Z) (v : Z) (n : nat) :
  Sorted Z.le l -> length l = (2 * n + 1)%nat ->
  (n < length (filter (λ z, z = v) l))%nat ->
  l !! n = Some v.
Proof.
  intros Hs Hl Hmaj. apply Sorted_StronglySorted in Hs; [|apply _].
  destruct (lookup_lt_is_Some_2 l n ltac:(lia)) as [u Hu].
  destruct (decide (u = v)) as [->|Hne]; [exact Hu|exfalso].
  assert (Hcount : forall l' : list Z, Forall (λ z, z <> v) l' ->
            length (filter (λ z, z = v) l') = 0%nat).
  { intros l' H. induction H as [|z l' Hz _ IH]; [reflexivity|].
    by rewrite filter_cons, decide_False. }
  assert (Hle : forall l' : list Z, (length (filter (λ z, z = v) l') <= length l')%nat)
    by (intros l'; apply length_filter).
  assert (A : forall z, z ∈ take n l -> z <= u).
  { intros z Hz. pose proof Hs as Hs'. rewrite <- (take_drop n l) in Hs'.
    apply (StronglySorted_app_1_elem_of _ _ _ z u Hs' Hz).
    rewrite (drop_S l u n Hu). by left. }
  assert (B : forall z, z ∈ drop (S n) l -> u <= z).
  { intros z Hz. pose proof Hs as Hs'. rewrite <- (take_drop (S n) l) in Hs'.
    apply (StronglySorted_app_1_elem_of _ _ _ u z Hs'); [|exact Hz].
    rewrite (take_S_r l n u Hu). apply elem_of_app. right. by left. }
  destruct (Z.lt_trichotomy u v) as [Hlt|[Heq|Hgt]]; [|done|].
  - rewrite <- (take_drop (S n) l), filter_app, length_app in Hmaj.
    rewrite (Hcount (take (S n) l)) in Hmaj.
    + pose proof (Hle (drop (S n) l)) as H. rewrite length_drop in H. lia.
    + apply Forall_forall. intros z Hz.
      rewrite (take_S_r l n u Hu) in Hz.
      apply elem_of_app in Hz as [Hz|Hz%list_elem_of_singleton]; [|lia].
      specialize (A z Hz). lia.
  - rewrite <- (take_drop n l), filter_app, length_app in Hmaj.
    rewrite (Hcount (drop n l)) in Hmaj.
    + pose proof (Hle (take n l)) as H. rewrite length_take in H. lia.
    + apply Forall_forall. intros z Hz.
      rewrite (drop_S l u n Hu) in Hz. apply elem_of_cons in Hz as [->|Hz]; [lia|].
      specialize (B z Hz). lia.
Qed.

Lemma count_hit (v : Z) (l : list Z) k :
  (k <= length (filter (λ z, z = v) l))%nat -> (S k <= length (filter (λ z, z = v) (v :: l)))%nat.
Proof. intros H. rewrite filter_cons, decide_True by reflexivity. simpl. lia. Qed.

Lemma count_skip (v z : Z) (l : list Z) k :
  (k <= length (filter (λ z, z = v) l))%nat -> (k <= length (filter (λ z, z = v) (z :: l)))%nat.
Proof. intros H. rewrite filter_cons. case_decide; simpl; lia. Qed.

(** Of nine samples on a grid of three rows and three columns, all of
    which are [v] except where a marked row meets a marked column, at
    least five are [v] when neither all rows nor all columns are marked. *)
Lemma grid_majority (e : Z -> Z -> Z) (v : Z) (P Q : Z -> Prop)
    `{!forall i, Decision (P i)} `{!forall j, Decision (Q j)} :
  (forall i j, ~ (P i /\ Q j) -> e i j = v) ->
  ~ (P (-1) /\ P 0 /\ P 1) -> ~ (Q (-1) /\ Q 0 /\ Q 1) ->
  (5 <= length (filter (λ z, z = v)
                  [e (-1) (-1); e (-1) 0; e (-1) 1;
                   e 0 (-1); e 0 0; e 0 1;
                   e 1 (-1); e 1 0; e 1 1]%Z))%nat.
Proof.
  intros He HP HQ.
  destruct (decide (P (-1))), (decide (P 0)), (decide (P 1)); try tauto;
    destruct (decide (Q (-1))), (decide (Q 0)), (decide (Q 1)); try tauto;
    repeat match goal with
    | |- context [e ?i ?j] =>
        first [ rewrite (He i j) by tauto
              | let z := fresh "z" in generalize (e i j); intros z ]
    end;
    repeat first [apply count_hit | apply count_skip]; apply Nat.le_0_l.
Qed.

(** With two columns at least, the three clamped columns of a window
    are not all the same column. *)
Lemma clamp_coord_spread n (x : nat) (x0 : nat) :
  (2 <= n)%nat -> (x < n)%nat ->
  ~ (Z.to_nat (clamp_coord n (Z.of_nat x + -1)) = x0 /\
     Z.to_nat (clamp_coord n (Z.of_nat x + 0)) = x0 /\
     Z.to_nat (clamp_coord n (Z.of_nat x + 1)) = x0).
Proof. unfold clamp_coord. lia. Qed.

(** The 3 x 3 median of an image that is flat except for one pixel. *)
Lemma median_window_isolated w h (a : list Z) (colour : nat -> Z) k0 x y c :
  (2 <= w)%nat -> (2 <= h)%nat -> (x < w)%nat -> (y < h)%nat -> (c < 3)%nat ->
  (forall k c, (k < w * h)%nat -> k <> k0 -> (c < 3)%nat ->
     a !! (4 * k + c)%nat = Some (colour c)) ->
  let sorted := sort_ascending (neighborhood w h a 1 x y c) in
  sorted !! (length sorted / 2)%nat = Some (colour c).
Proof.
  intros Hw Hh Hx Hy Hc Hflat sorted.
  set (window := neighborhood w h a 1 x y c) in *.
  pose proof (merge_sort_Permutation Z.le window) as Hperm. fold (sort_ascending window) in Hperm.
  fold sorted in Hperm.
  assert (Hlen : length sorted = 9%nat).
  { rewrite Hperm. unfold window. by rewrite length_neighborhood. }
  rewrite Hlen. change (9 / 2)%nat with 4%nat.
  apply majority_middle; [apply Sorted_merge_sort; apply _|by rewrite Hlen|].
  rewrite Hperm.
  set (e := λ i j : Z,
         a !!! Z.to_nat ((clamp_coord h (Z.of_nat y + i) * Z.of_nat w
                          + clamp_coord w (Z.of_nat x + j)) * 4 + Z.of_nat c)).
  change window with [e (-1) (-1); e (-1) 0; e (-1) 1;
                      e 0 (-1); e 0 0; e 0 1;
                      e 1 (-1); e 1 0; e 1 1].
  apply (grid_majority e (colour c)
           (λ i, Z.to_nat (clamp_coord h (Z.of_nat y + i)) = (k0 / w)%nat)
           (λ j, Z.to_nat (clamp_coord w (Z.of_nat x + j)) = (k0 mod w)%nat)).
  - intros i j Hij. unfold e.
    pose proof (clamp_coord_range w (Z.of_nat x + j) ltac:(lia)).
    pose proof (clamp_coord_range h (Z.of_nat y + i) ltac:(lia)).
    set (px := Z.to_nat (clamp_coord w (Z.of_nat x + j))) in *.
    set (py := Z.to_nat (clamp_coord h (Z.of_nat y + i))) in *.
    replace (Z.to_nat ((clamp_coord h (Z.of_nat y + i) * Z.of_nat w
                        + clamp_coord w (Z.of_nat x + j)) * 4 + Z.of_nat c))
      with (4 * (py * w + px) + c)%nat by (subst px py; lia).
    assert (Hpx : (px < w)%nat) by (subst px; lia).
    assert (Hpy : (py < h)%nat) by (subst py; lia).
    apply list_lookup_total_correct, Hflat; [nia| |exact Hc].
    intros E. apply Hij. subst k0.
    rewrite Nat.div_add_l, Nat.div_small, Nat.add_0_r by lia.
    rewrite Nat.add_comm, Nat.Div0.mod_add, Nat.mod_small by lia. auto.
  - apply clamp_coord_spread; lia.
  - apply clamp_coord_spread; lia.
Qed.

(** The 3 x 3 median filter removes an isolated pixel: on an image of
    at least two rows and two columns in which every pixel but one has
    the same colour, [medianFilter] with size 3 returns the image in which
    every pixel has that colour; the alpha samples are those of the
    input. *)
Theorem median_removes_isolated_pixel img s a r g b k0 :
  valid s img a -> Forall is_byte a ->
  (2 <= width img)%nat -> (2 <= height img)%nat ->
  (forall k, (k < width img * height img)%nat -> k <> k0 -> rgb a k = [r; g; b]) ->
  exists out,
    yields (medianFilter img 3) s img out /\
    forall k, (k < width img * height img)%nat ->
      rgb out k = [r; g; b] /\ out !! (4 * k + 3)%nat = a !! (4 * k + 3)%nat.
Proof.
  intros Hv Ha Hw Hh Hflat. pose proof Hv as (_ & Hl & _).
  set (colour := λ c : nat, default 0 ([r; g; b] !! c)).
  assert (Hcol : forall k c, (k < width img * height img)%nat -> k <> k0 -> (c < 3)%nat ->
            a !! (4 * k + c)%nat = Some (colour c)).
  { intros k c Hk Hne Hc. destruct (rgb_inv a k r g b (Hflat k Hk Hne)) as (E0 & E1 & E2).
    destruct c as [|[|[|c]]]; [by rewrite Nat.add_0_r|done|done|lia]. }
  assert (Bcol : forall c, (c < 3)%nat -> is_byte (colour c)).
  { intros c Hc.
    assert (Hk : exists k, (k < width img * height img)%nat /\ k <> k0).
    { destruct (decide (k0 = 0%nat)) as [->|]; [exists 1%nat|exists 0%nat]; split; nia. }
    destruct Hk as (k & Hk & Hne). rewrite Forall_forall in Ha. apply Ha.
    eapply list_elem_of_lookup_2. by apply (Hcol k c). }
  exists (medianFilter_loop (width img) (height img) (3 / 2) a a).
  split; [by apply medianFilter_yields|].
  destruct (pixel_writes_lookup (width img) (height img)
              (λ x y c,
                 let sorted := sort_ascending
                                 (neighborhood (width img) (height img) a (3 / 2) x y c) in
                 from_option Z2F nan (sorted !! (length sorted / 2)%nat)) a Hl)
    as (Hlen & Hpix & Halpha).
  intros k Hk. split; [|apply Halpha].
  destruct (pixel_of_index _ _ k Hk) as (x & y & Hx & Hy & ->).
  assert (E : forall c, (c < 3)%nat ->
            medianFilter_loop (width img) (height img) (3 / 2) a a
              !! (4 * (y * width img + x) + c)%nat = Some (colour c)).
  { intros c Hc. replace (4 * (y * width img + x))%nat with ((y * width img + x) * 4)%nat by lia.
    etransitivity; [apply (Hpix x y c Hx Hy Hc)|]. cbv zeta. change (3 / 2) with 1.
    rewrite (median_window_isolated (width img) (height img) a colour k0 x y c) by assumption.
    cbn [from_option]. f_equal. apply clamp_store_byte. by apply Bcol. }
  apply rgb_eq; [rewrite <- (Nat.add_0_r (4 * (y * width img + x)))| |]; apply E; lia.
Qed.

Lemma median_removes_isolated_pixel_witness :
  let a := [9; 200; 31; 7; 255; 0; 255; 255; 9; 200; 31; 0; 9; 200; 31; 128] in
  exists out,
    yields (medianFilter img_2x2 3) (heap_2x2 a) img_2x2 out /\
    forall k, (k < width img_2x2 * height img_2x2)%nat ->
      rgb out k = [9; 200; 31] /\ out !! (4 * k + 3)%nat = a !! (4 * k + 3)%nat.
Proof.
  apply (median_removes_isolated_pixel img_2x2
           (heap_2x2 [9; 200; 31; 7; 255; 0; 255; 255; 9; 200; 31; 0; 9; 200; 31; 128])
           [9; 200; 31; 7; 255; 0; 255; 255; 9; 200; 31; 0; 9; 200; 31; 128] 9 200 31 1).
  - apply valid_2x2. reflexivity.
  - apply Forall_is_byte_dec. reflexivity.
  - simpl. lia.
  - simpl. lia.
  - intros k Hk Hne. simpl in Hk. destruct k as [|[|[|[|k]]]]; [reflexivity|done|reflexivity..|lia].
Defined.

(** ** Masking twice *)

Lemma digits2_pos_iter (m k : positive) :
  digits2_pos (Pos.iter xO m k) = (digits2_pos m + k)%positive.
Proof.
  induction k as [|k IH] using Pos.peano_ind.
  - cbn [Pos.iter digits2_pos]. by rewrite Pos.add_1_r.
  - rewrite Pos.iter_succ. cbn [digits2_pos]. by rewrite IH, Pos.add_succ_r.
Qed.

Lemma digits2_pos_shift (m : positive) :
  digits2_pos (m * 4503599627370496) = (digits2_pos m + 52)%positive.
Proof.
  rewrite <- digits2_pos_iter. f_equal. by rewrite Pos.mul_comm.
Qed.

(** Multiplying a number by 1 changes nothing. *)
Lemma mul_one (x : float) : (x * 1)%float = x.
Proof.
  apply Prim2SF_inj. rewrite mul_spec.
  pose proof (Prim2SF_valid x) as Hvalid.
  change (Prim2SF 1) with (S754_finite false 4503599627370496 (-52)).
  unfold SF64mul, SFmul.
  destruct (Prim2SF x) as [sx|sx| |sx mx ex];
    [by destruct sx|by destruct sx|reflexivity|].
  rewrite xorb_false_r.
  unfold valid_binary, bounded, canonical_mantissa in Hvalid.
  apply andb_true_iff in Hvalid as [Hcan Hex]. apply Z.eqb_eq in Hcan.
  assert (E1 : shr_fexp prec emax (Z.pos (mx * 4503599627370496)) (ex + -52) loc_Exact
               = ({| shr_m := Z.pos mx; shr_r := false; shr_s := false |}, ex)).
  { unfold shr_fexp. unfold Zdigits2. rewrite digits2_pos_shift.
    replace (Z.pos (digits2_pos mx + 52) + (ex + -52)) with (Z.pos (digits2_pos mx) + ex) by lia.
    rewrite Hcan. replace (ex - (ex + -52)) with 52 by lia.
    unfold shr. f_equal; [|lia]. rewrite Pos.mul_comm. reflexivity. }
  assert (E2 : shr_fexp prec emax (Z.pos mx) ex loc_Exact
               = ({| shr_m := Z.pos mx; shr_r := false; shr_s := false |}, ex)).
  { unfold shr_fexp. unfold Zdigits2. rewrite Hcan, Z.sub_diag. reflexivity. }
  unfold binary_round_aux. rewrite E1.
  cbn [shr_m loc_of_shr_record shr_r shr_s round_nearest_even]. rewrite E2.
  cbn [shr_m]. by rewrite Hex.
Qed.

(** Multiplying by 0 or by 1 a second time changes nothing. *)
Lemma mul_pass_twice type radius w h x y (v : float) :
  (v * pass type radius w h x y * pass type radius w h x y
   = v * pass type radius w h x y)%float.
Proof.
  unfold pass. destruct (passes type radius w h x y); [by rewrite !mul_one|].
  apply Prim2SF_inj. rewrite !mul_spec.
  change (Prim2SF 0) with (S754_zero false).
  by destruct (Prim2SF v) as [[|]|[|]| |[|] m e].
Qed.

Lemma masked_twice type radius w h (m : matrix) :
  shaped w h m ->
  masked type radius w h h (masked type radius w h h m) = masked type radius w h h m.
Proof.
  intros [Hl Hw].
  set (m1 := masked type radius w h h m).
  assert (S1 : shaped w h m1).
  { split; [unfold m1; by rewrite length_masked|by apply masked_shape]. }
  assert (S2 : shaped w h (masked type radius w h h m1)).
  { destruct S1 as [L1 W1]. split; [by rewrite length_masked|by apply masked_shape]. }
  apply list_eq. intros y.
  destruct (decide (y < h)%nat) as [Hy|Hy].
  2:{ destruct S1 as [L1 _], S2 as [L2 _]. rewrite !lookup_ge_None_2 by lia. reflexivity. }
  destruct (shaped_row w h m y (conj Hl Hw) Hy) as (row & Hrow & Lrow).
  destruct (shaped_row w h m1 y S1 Hy) as (row1 & Hrow1 & Lrow1).
  destruct (shaped_row w h _ y S2 Hy) as (row2 & Hrow2 & Lrow2).
  rewrite Hrow1, Hrow2. f_equal. apply list_eq. intros x.
  destruct (decide (x < w)%nat) as [Hx|Hx].
  2:{ rewrite !lookup_ge_None_2 by lia. reflexivity. }
  destruct (lookup_lt_is_Some_2 row x ltac:(lia)) as [v Hv].
  destruct (masked_lookup type radius w h m y x row v Hy Hx Hrow Hv) as (r1 & Er1 & Ev1).
  fold m1 in Er1. rewrite Hrow1 in Er1. inversion Er1; subst r1.
  destruct (masked_lookup type radius w h m1 y x row1 _ Hy Hx Hrow1 Ev1) as (r2 & Er2 & Ev2).
  rewrite Hrow2 in Er2. inversion Er2; subst r2.
  by rewrite Ev1, Ev2, mul_pass_twice.
Qed.

(** [applyFrequencyFilter] is idempotent: filtering a filtered spectrum
    again, with the same radius and pass type, gives new arrays that hold
    the same coefficients. *)
Theorem applyFrequencyFilter_idempotent fft radius type s mre mim :
  valid_spectrum s fft mre mim ->
  exists out1 s1 out2 s2 mre' mim',
    applyFrequencyFilter fft radius type s = inr (out1, s1) /\
    applyFrequencyFilter out1 radius type s1 = inr (out2, s2) /\
    valid_spectrum s1 out1 mre' mim' /\
    valid_spectrum s2 out2 mre' mim' /\
    valid_spectrum s2 out1 mre' mim' /\
    Forall (λ l, l ∉ dom (heap s1)) (re out2 ++ im out2).
Proof.
  intros Vs. pose proof Vs as (_ & _ & Lre & Lim & Wre & Wim).
  destruct (applyFrequencyFilter_spec fft radius type s mre mim Vs)
    as (out1 & s1 & E1 & V1 & Fw & Fh & _ & _ & _ & X1).
  destruct (applyFrequencyFilter_spec out1 radius type s1 _ _ V1)
    as (out2 & s2 & E2 & V2 & _ & _ & _ & _ & Fresh & X2).
  rewrite Fw, Fh in V2.
  rewrite !masked_twice in V2 by (by split).
  eexists out1, s1, out2, s2, _, _.
  split; [exact E1|]. split; [exact E2|]. split; [exact V1|]. split; [exact V2|].
  split; [by apply (valid_spectrum_extends s1 s2)|exact Fresh].
Qed.

Lemma applyFrequencyFilter_idempotent_witness :
  exists out1 s1 out2 s2 mre' mim',
    applyFrequencyFilter spectrum_1x1 1 low heap_spectrum_1x1 = inr (out1, s1) /\
    applyFrequencyFilter out1 1 low s1 = inr (out2, s2) /\
    valid_spectrum s1 out1 mre' mim' /\
    valid_spectrum s2 out2 mre' mim' /\
    valid_spectrum s2 out1 mre' mim' /\
    Forall (λ l, l ∉ dom (heap s1)) (re out2 ++ im out2).
Proof.
  apply (applyFrequencyFilter_idempotent spectrum_1x1 1 low heap_spectrum_1x1
           [[128%float]] [[0%float]]).
  exact valid_spectrum_1x1.
Defined.

(** ** A radius that is not a number *)

Lemma passes_nan type radius w h x y :
  PrimFloat.is_nan radius = true -> passes type radius w h x y = false.
Proof.
  rewrite is_nan_spec. intros Hr. unfold passes. cbv zeta.
  destruct type; rewrite leb_spec; unfold SFleb.
  - destruct (Prim2SF radius); try discriminate.
    by destruct (Prim2SF (distance w h x y)).
  - by destruct (Prim2SF radius).
Qed.

(** With a radius that is NaN neither pass type lets anything through:
    [applyFrequencyFilter] multiplies every coefficient by 0. *)
Theorem nan_radius_blocks_everything fft radius type s mre mim :
  valid_spectrum s fft mre mim ->
  PrimFloat.is_nan radius = true ->
  exists out s' mre' mim',
    applyFrequencyFilter fft radius type s = inr (out, s') /\
    valid_spectrum s' out mre' mim' /\
    forall x y, (x < fft_width fft)%nat -> (y < fft_height fft)%nat ->
      exists vr vi,
        entry mre y x = Some vr /\ entry mim y x = Some vi /\
        entry mre' y x = Some (vr * 0)%float /\ entry mim' y x = Some (vi * 0)%float.
Proof.
  intros Vs Hnan. pose proof Vs as (_ & _ & Lre & Lim & Wre & Wim).
  destruct (applyFrequencyFilter_spec fft radius type s mre mim Vs)
    as (out & s' & E & V & _).
  eexists out, s', _, _. split; [exact E|]. split; [exact V|].
  intros x y Hx Hy.
  destruct (shaped_row _ _ mre y (conj Lre Wre) Hy) as (r1 & Hr1 & L1).
  destruct (shaped_row _ _ mim y (conj Lim Wim) Hy) as (r2 & Hr2 & L2).
  destruct (lookup_lt_is_Some_2 r1 x ltac:(lia)) as [vr Hvr].
  destruct (lookup_lt_is_Some_2 r2 x ltac:(lia)) as [vi Hvi].
  destruct (masked_lookup type radius _ _ mre y x r1 vr Hy Hx Hr1 Hvr) as (r1' & Er1 & Ev1).
  destruct (masked_lookup type radius _ _ mim y x r2 vi Hy Hx Hr2 Hvi) as (r2' & Er2 & Ev2).
  unfold pass in Ev1, Ev2. rewrite passes_nan in Ev1, Ev2 by exact Hnan.
  exists vr, vi. unfold entry, f64_get.
  rewrite Hr1, Hr2, Er1, Er2. cbn [mbind option_bind].
  by rewrite Hvr, Hvi, Ev1, Ev2.
Qed.

Lemma nan_radius_blocks_everything_witness :
  exists out s' mre' mim',
    applyFrequencyFilter spectrum_1x1 nan high heap_spectrum_1x1 = inr (out, s') /\
    valid_spectrum s' out mre' mim' /\
    forall x y, (x < fft_width spectrum_1x1)%nat -> (y < fft_height spectrum_1x1)%nat ->
      exists vr vi,
        entry [[128%float]] y x = Some vr /\ entry [[0%float]] y x = Some vi /\
        entry mre' y x = Some (vr * 0)%float /\ entry mim' y x = Some (vi * 0)%float.
Proof.
  apply (nan_radius_blocks_everything spectrum_1x1 nan high heap_spectrum_1x1
           [[128%float]] [[0%float]]).
  - exact valid_spectrum_1x1.
  - reflexivity.
Defined.

(** ** The two masks at one radius *)

Lemma masked_entry type radius w h (m : matrix) x y :
  shaped w h m -> (x < w)%nat -> (y < h)%nat ->
  exists v, entry m y x = Some v /\
            entry (masked type radius w h h m) y x
            = Some (v * pass type radius w h x y)%float.
Proof.
  intros Hs Hx Hy.
  destruct (shaped_row w h m y Hs Hy) as (row & Hrow & Hlen).
  destruct (lookup_lt_is_Some_2 row x) as [v Hv]; [lia|].
  destruct (masked_lookup type radius w h m y x row v Hy Hx Hrow Hv) as (row' & Hr' & Hx').
  exists v. unfold entry, f64_get. rewrite Hrow, Hr'. simpl. by rewrite Hv, Hx'.
Qed.

(** The two comparisons of [applyFrequencyFilter] by the order of the
    distance and the radius. *)
Lemma passes_by_compare radius w h x y :
  match (distance w h x y ?= radius)%float with
  | FLt => passes low radius w h x y = true /\ passes high radius w h x y = false
  | FEq => passes low radius w h x y = true /\ passes high radius w h x y = true
  | FGt => passes low radius w h x y = false /\ passes high radius w h x y = true
  | FNotComparable =>
      PrimFloat.is_nan radius = true /\
      passes low radius w h x y = false /\ passes high radius w h x y = false
  end.
Proof.
  pose proof (distance_number w h x y) as Hd.
  unfold passes. cbv zeta. set (d := distance w h x y) in *.
  rewrite is_nan_spec in Hd.
  rewrite FloatAxioms.compare_spec, !leb_spec, is_nan_spec. unfold SFleb.
  rewrite (SFcompare_antisym (Prim2SF d) (Prim2SF radius)).
  destruct (Prim2SF radius) as [sr|sr| |sr mr er] eqn:Er.
  4:{ destruct (SFcompare_not_nan (Prim2SF d) (S754_finite sr mr er)) as [c ->];
        [by destruct (Prim2SF d)|done|]. by destruct c. }
  3:{ by destruct (Prim2SF d). }
  - destruct (SFcompare_not_nan (Prim2SF d) (S754_zero sr)) as [c ->];
      [by destruct (Prim2SF d)|done|]. by destruct c.
  - destruct (SFcompare_not_nan (Prim2SF d) (S754_infinity sr)) as [c ->];
      [by destruct (Prim2SF d)|done|]. by destruct c.
Qed.

Lemma compare_nan_r (d radius : float) :
  PrimFloat.is_nan radius = true -> (d ?= radius)%float = FNotComparable.
Proof.
  rewrite is_nan_spec, FloatAxioms.compare_spec. intros Hr.
  destruct (Prim2SF radius); try discriminate. by destruct (Prim2SF d).
Qed.

(** C4: for every spectrum and every radius, each of the two masks
    returns a spectrum of the same shape whose rows are new arrays, and
    leaves the rows of its input as they were.  With [dist] the distance
    of [(x, y)] from the centre [(w/2, h/2)], the coefficient at [(x, y)]
    is kept by the low-pass mask alone when [dist < r], by the high-pass
    mask alone when [dist > r], and by both when [dist == r]; the mask
    that does not keep it multiplies it by 0.  The fourth case, in which
    neither mask keeps the coefficient, arises exactly when [r] is NaN. *)
Theorem low_high_masks_split_at_radius
    (fft : FFTResult) (radius : float) (s : state) (mre mim : matrix) :
  valid_spectrum s fft mre mim ->
  let w := fft_width fft in
  let h := fft_height fft in
  exists lo s_lo lre lim hi s_hi hre him,
    applyFrequencyFilter fft radius low s = inr (lo, s_lo) /\
    applyFrequencyFilter fft radius high s = inr (hi, s_hi) /\
    (valid_spectrum s_lo lo lre lim /\
     fft_width lo = w /\ fft_height lo = h /\
     originalWidth lo = originalWidth fft /\ originalHeight lo = originalHeight fft /\
     Forall (λ l, l ∉ dom (heap s)) (re lo ++ im lo) /\
     extends s s_lo /\ valid_spectrum s_lo fft mre mim) /\
    (valid_spectrum s_hi hi hre him /\
     fft_width hi = w /\ fft_height hi = h /\
     originalWidth hi = originalWidth fft /\ originalHeight hi = originalHeight fft /\
     Forall (λ l, l ∉ dom (heap s)) (re hi ++ im hi) /\
     extends s s_hi /\ valid_spectrum s_hi fft mre mim) /\
    forall x y, (x < w)%nat -> (y < h)%nat ->
      let dx := (N2F x - N2F w / 2)%float in
      let dy := (N2F y - N2F h / 2)%float in
      let dist := PrimFloat.sqrt (dx * dx + dy * dy) in
      (PrimFloat.is_nan radius = true -> (dist ?= radius)%float = FNotComparable) /\
      exists vr vi,
        entry mre y x = Some vr /\ entry mim y x = Some vi /\
        match (dist ?= radius)%float with
        | FLt =>
            entry lre y x = Some vr /\ entry lim y x = Some vi /\
            entry hre y x = Some (vr * 0)%float /\ entry him y x = Some (vi * 0)%float
        | FEq =>
            entry lre y x = Some vr /\ entry lim y x = Some vi /\
            entry hre y x = Some vr /\ entry him y x = Some vi
        | FGt =>
            entry lre y x = Some (vr * 0)%float /\ entry lim y x = Some (vi * 0)%float /\
            entry hre y x = Some vr /\ entry him y x = Some vi
        | FNotComparable =>
            PrimFloat.is_nan radius = true /\
            entry lre y x = Some (vr * 0)%float /\ entry lim y x = Some (vi * 0)%float /\
            entry hre y x = Some (vr * 0)%float /\ entry him y x = Some (vi * 0)%float
        end.
Proof.
  intros Hv w h.
  destruct (applyFrequencyFilter_spec fft radius low s mre mim Hv)
    as (lo & s_lo & El & Vl & Wl & Hl & OWl & OHl & Fl & Xl).
  destruct (applyFrequencyFilter_spec fft radius high s mre mim Hv)
    as (hi & s_hi & Eh & Vh & Wh & Hh & OWh & OHh & Fh & Xh).
  fold w h in Vl, Vh.
  eexists lo, s_lo, _, _, hi, s_hi, _, _.
  split; [exact El|]. split; [exact Eh|].
  split. { split; [exact Vl|]. split; [exact Wl|]. split; [exact Hl|]. split; [exact OWl|].
           split; [exact OHl|]. split; [exact Fl|]. split; [exact Xl|].
           apply (valid_spectrum_extends s s_lo fft mre mim Xl Hv). }
  split. { split; [exact Vh|]. split; [exact Wh|]. split; [exact Hh|]. split; [exact OWh|].
           split; [exact OHh|]. split; [exact Fh|]. split; [exact Xh|].
           apply (valid_spectrum_extends s s_hi fft mre mim Xh Hv). }
  intros x y Hx Hy dx dy dist.
  change dist with (distance w h x y).
  split; [apply compare_nan_r|].
  destruct Hv as (_ & _ & Hlre & Hlim & Hwre & Hwim).
  destruct (masked_entry low radius w h mre x y (conj Hlre Hwre) Hx Hy) as (vr & Er & Elr).
  destruct (masked_entry high radius w h mre x y (conj Hlre Hwre) Hx Hy) as (vr' & Er' & Ehr).
  destruct (masked_entry low radius w h mim x y (conj Hlim Hwim) Hx Hy) as (vi & Ei & Eli).
  destruct (masked_entry high radius w h mim x y (conj Hlim Hwim) Hx Hy) as (vi' & Ei' & Ehi).
  rewrite Er in Er'. inversion Er'; subst vr'. rewrite Ei in Ei'. inversion Ei'; subst vi'.
  exists vr, vi. split; [exact Er|]. split; [exact Ei|].
  rewrite Elr, Eli, Ehr, Ehi. unfold pass.
  pose proof (passes_by_compare radius w h x y) as Hc.
  destruct (distance w h x y ?= radius)%float.
  - destruct Hc as [-> ->]. by rewrite !mul_one.
  - destruct Hc as [-> ->]. by rewrite !mul_one.
  - destruct Hc as [-> ->]. by rewrite !mul_one.
  - destruct Hc as (Hn & -> & ->). done.
Qed.

Lemma valid_spectrum_2x2 : valid_spectrum heap_spectrum_2x2 spectrum_2x2 re_2x2 im_2x2.
Proof.
  unfold valid_spectrum, rows_in. simpl.
  repeat split; try reflexivity; repeat constructor.
Qed.

Lemma low_high_masks_split_at_radius_witness :
  let w := 2%nat in
  let h := 2%nat in
  exists lo s_lo lre lim hi s_hi hre him,
    applyFrequencyFilter spectrum_2x2 1 low heap_spectrum_2x2 = inr (lo, s_lo) /\
    applyFrequencyFilter spectrum_2x2 1 high heap_spectrum_2x2 = inr (hi, s_hi) /\
    (valid_spectrum s_lo lo lre lim /\
     fft_width lo = w /\ fft_height lo = h /\
     originalWidth lo = 2%nat /\ originalHeight lo = 2%nat /\
     Forall (λ l, l ∉ dom (heap heap_spectrum_2x2)) (re lo ++ im lo) /\
     extends heap_spectrum_2x2 s_lo /\ valid_spectrum s_lo spectrum_2x2 re_2x2 im_2x2) /\
    (valid_spectrum s_hi hi hre him /\
     fft_width hi = w /\ fft_height hi = h /\
     originalWidth hi = 2%nat /\ originalHeight hi = 2%nat /\
     Forall (λ l, l ∉ dom (heap heap_spectrum_2x2)) (re hi ++ im hi) /\
     extends heap_spectrum_2x2 s_hi /\ valid_spectrum s_hi spectrum_2x2 re_2x2 im_2x2) /\
    forall x y, (x < w)%nat -> (y < h)%nat ->
      let dx := (N2F x - N2F w / 2)%float in
      let dy := (N2F y - N2F h / 2)%float in
      let dist := PrimFloat.sqrt (dx * dx + dy * dy) in
      (PrimFloat.is_nan 1 = true -> (dist ?= 1)%float = FNotComparable) /\
      exists vr vi,
        entry re_2x2 y x = Some vr /\ entry im_2x2 y x = Some vi /\
        match (dist ?= 1)%float with
        | FLt =>
            entry lre y x = Some vr /\ entry lim y x = Some vi /\
            entry hre y x = Some (vr * 0)%float /\ entry him y x = Some (vi * 0)%float
        | FEq =>
            entry lre y x = Some vr /\ entry lim y x = Some vi /\
            entry hre y x = Some vr /\ entry him y x = Some vi
        | FGt =>
            entry lre y x = Some (vr * 0)%float /\ entry lim y x = Some (vi * 0)%float /\
            entry hre y x = Some vr /\ entry him y x = Some vi
        | FNotComparable =>
            PrimFloat.is_nan 1 = true /\
            entry lre y x = Some (vr * 0)%float /\ entry lim y x = Some (vi * 0)%float /\
            entry hre y x = Some (vr * 0)%float /\ entry him y x = Some (vi * 0)%float
        end.
Proof.
  apply (low_high_masks_split_at_radius spectrum_2x2 1 heap_spectrum_2x2 re_2x2 im_2x2).
  exact valid_spectrum_2x2.
Defined.

(** On the 2x2 spectrum with radius 1 the three cases occur: the corner
    [(0, 0)] lies at distance [sqrt 2] and is kept by the high-pass mask
    alone, [(1, 0)] and [(0, 1)] lie at distance 1 and are kept by both,
    and [(1, 1)], the centre, is kept by the low-pass mask alone. *)
Lemma masks_2x2_radius_1 :
  exists lo s_lo hi s_hi,
    applyFrequencyFilter spectrum_2x2 1 low heap_spectrum_2x2 = inr (lo, s_lo) /\
    applyFrequencyFilter spectrum_2x2 1 high heap_spectrum_2x2 = inr (hi, s_hi) /\
    read_rows (re lo) s_lo = inr ([[0; 20]; [30; 40]]%float, s_lo) /\
    read_rows (im lo) s_lo = inr ([[0; 2]; [3; 4]]%float, s_lo) /\
    read_rows (re hi) s_hi = inr ([[10; 20]; [30; 0]]%float, s_hi) /\
    read_rows (im hi) s_hi = inr ([[1; 2]; [3; 0]]%float, s_hi).
Proof.
  eexists _, _, _, _. split; [vm_compute; reflexivity|]. split; [vm_compute; reflexivity|].
  repeat split; vm_compute; reflexivity.
Qed.

(** C4, as stated, fails when the radius is NaN: both comparisons are
    false, both masks multiply every coefficient by 0, and no coordinate
    of the 2x2 spectrum is kept by either of them. *)
Lemma nan_radius_keeps_no_coordinate :
  (exists out s',
     applyFrequencyFilter spectrum_2x2 nan low heap_spectrum_2x2 = inr (out, s') /\
     read_rows (re out) s' = inr ([[0; 0]; [0; 0]]%float, s') /\
     read_rows (im out) s' = inr ([[0; 0]; [0; 0]]%float, s')) /\
  (exists out s',
     applyFrequencyFilter spectrum_2x2 nan high heap_spectrum_2x2 = inr (out, s') /\
     read_rows (re out) s' = inr ([[0; 0]; [0; 0]]%float, s') /\
     read_rows (im out) s' = inr ([[0; 0]; [0; 0]]%float, s')).
Proof.
  split; eexists _, _; (split; [vm_compute; reflexivity|]); split; vm_compute; reflexivity.
Qed.

(** ** Edge detectors work on the grey image *)

Lemma toGrayscale_loop_twice (a : list Z) n :
  length a = (4 * n)%nat -> toGrayscale_loop (toGrayscale_loop a) = toGrayscale_loop a.
Proof.
  intros Hl. apply (toGrayscale_loop_fixed _ n); [by rewrite toGrayscale_loop_length|].
  by apply toGrayscale_loop_grey.
Qed.

Lemma gradient_loop_alpha_only gx gy (a g : list Z) n :
  length a = (4 * n)%nat -> length g = length a ->
  (forall k, g !! (4 * k + 3)%nat = a !! (4 * k + 3)%nat) ->
  gradient_loop gx gy g = gradient_loop gx gy a.
Proof.
  intros Hl Hg Halpha.
  destruct (gradient_loop_lookup gx gy a n Hl) as [Pa Aa].
  destruct (gradient_loop_lookup gx gy g n ltac:(lia)) as [Pg Ag].
  cbv zeta in Pa, Aa, Pg, Ag.
  apply (list_eq_pixels _ _ n); [by rewrite gradient_loop_length|
                                 by rewrite !gradient_loop_length|].
  intros k c Hk Hc. destruct (decide (c = 3%nat)) as [->|Hne].
  - by rewrite Ag, Aa, Halpha.
  - by rewrite Pg, Pa by lia.
Qed.

Section GreyFirst.
Context `{ML : MathLib}.

Lemma canny_loop_overwrites w h gx gy (a g : list Z) :
  length a = (4 * w * h)%nat -> length g = length a ->
  canny_loop w h gx gy g = canny_loop w h gx gy a.
Proof.
  intros Hl Hg. unfold canny_loop.
  destruct (canny_gradient w h gx gy) as [[mag dir] maxMag].
  unfold canny_threshold. cbv zeta.
  set (G := λ x y : nat,
         if ((maxMag * 0.15)%float
               <=? f32_get (canny_suppress w h mag dir) (y * w + x))%float then 255%float
         else if ((maxMag * 0.15 * 0.4)%float
                    <=? f32_get (canny_suppress w h mag dir) (y * w + x))%float then 128%float
         else 0%float).
  destruct (opaque_writes_lookup w h G a Hl) as [La Pa].
  destruct (opaque_writes_lookup w h G g ltac:(lia)) as [Lg Pg].
  cbv zeta in La, Pa, Lg, Pg.
  apply (list_eq_pixels _ _ (w * h));
    [etransitivity; [exact La|lia]
    |etransitivity; [exact Lg|]; etransitivity; [exact Hg|]; symmetry; exact La|].
  intros k c Hk Hc. destruct (pixel_of_index w h k Hk) as (x & y & Hx & Hy & ->).
  replace (4 * (y * w + x))%nat with ((y * w + x) * 4)%nat by lia.
  destruct (Pa x y Hx Hy) as [Ca Aa]. destruct (Pg x y Hx Hy) as [Cg Ag].
  destruct (decide (c = 3%nat)) as [->|Hne].
  - etransitivity; [exact Ag|]. symmetry. exact Aa.
  - etransitivity; [apply Cg; lia|]. symmetry. apply Ca. lia.
Qed.

Lemma cannyEdgeDetector_from_grey img size s a :
  valid s img a -> 0 <= size ->
  let w := width img in
  let h := height img in
  let gray := toGrayscale_loop a in
  let K := gaussian_kernel size in
  let blurred := convolve_loop w h K (length (default [] (head K))) true gray gray in
  let gxd := convolve_loop w h sobel_kx 3 false blurred blurred in
  let gyd := convolve_loop w h sobel_ky 3 false blurred blurred in
  yields (cannyEdgeDetector img size) s img (canny_loop w h gxd gyd a).
Proof.
  intros Hv Hs w h gray K blurred gxd gyd. unfold cannyEdgeDetector.
  destruct (toGrayscale_yields img s a Hv) as (g & s1 & E1 & _ & Vg & Wg & Hg & X1).
  assert (HK : K <> []).
  { unfold K, gaussian_kernel. intros E. apply fmap_nil_inv in E.
    revert E. apply offsets_nonempty. apply Z.div_pos; lia. }
  destruct (convolve_yields g K true s1 _ Vg HK) as (bl & s2 & E2 & _ & Vb & Wb & Hb & X2).
  rewrite Wg, Hg in Vb. fold w h gray blurred in Vb.
  destruct (convolve_yields bl sobel_kx false s2 _ Vb) as (gx & s3 & E3 & _ & Vx & _ & _ & X3);
    [done|].
  destruct (convolve_yields bl sobel_ky false s3 blurred)
    as (gy & s4 & E4 & _ & Vy & _ & _ & X4); [by apply (extends_valid s2)|done|].
  rewrite Wb, Hb, Wg, Hg in Vx, Vy.
  change (length (default [] (head sobel_kx))) with 3%nat in Vx.
  change (length (default [] (head sobel_ky))) with 3%nat in Vy.
  fold w h gxd in Vx. fold w h gyd in Vy.
  assert (X04 : extends s s4).
  { apply (extends_trans s s1 s4); [exact X1|].
    apply (extends_trans s1 s2 s4); [exact X2|].
    by apply (extends_trans s2 s3 s4). }
  destruct (yields_clone_read2 img s4 a (data gx) gxd (data gy) gyd (canny_loop w h))
    as (out & s5 & E5 & F5 & V5 & W5 & H5 & X5).
  { by apply (extends_valid s). }
  { apply (extends_valid s3 s4 gx gxd X4 Vx). }
  { apply Vy. }
  { intros o. apply canny_loop_length. }
  exists out, s5. split.
  { rewrite (bind_inr _ _ _ _ _ E1). unfold gaussianFilter. fold K.
    rewrite (bind_inr _ _ _ _ _ E2), (bind_inr _ _ _ _ _ E3), (bind_inr _ _ _ _ _ E4).
    exact E5. }
  split; [intros Hin; apply F5; by apply (extends_dom s)|].
  split; [exact V5|]. split; [exact W5|]. split; [exact H5|].
  by apply (extends_trans s s4 s5).
Qed.

(** [sobelFilter], [prewittFilter] and [cannyEdgeDetector] see an image
    through its grey conversion only: they return the same samples for an
    image and for the result of [toGrayscale] on it. *)
Theorem edge_detectors_ignore_colour img size s a :
  valid s img a -> 0 <= size ->
  exists g sg,
    toGrayscale img s = inr (g, sg) /\
    valid sg g (toGrayscale_loop a) /\
    (exists b, yields (sobelFilter img) s img b /\ yields (sobelFilter g) sg g b) /\
    (exists b, yields (prewittFilter img) s img b /\ yields (prewittFilter g) sg g b) /\
    (exists b, yields (cannyEdgeDetector img size) s img b /\
               yields (cannyEdgeDetector g size) sg g b).
Proof.
  intros Hv Hs. pose proof Hv as (_ & Hl & _).
  destruct (toGrayscale_yields img s a Hv) as (g & sg & Eg & _ & Vg & Wg & Hg & _).
  exists g, sg. split; [exact Eg|]. split; [exact Vg|].
  set (n := (width img * height img)%nat).
  assert (Hl' : length a = (4 * n)%nat) by (subst n; lia).
  assert (Hfix : toGrayscale_loop (toGrayscale_loop a) = toGrayscale_loop a)
    by (by apply (toGrayscale_loop_twice a n)).
  assert (Halpha : forall k, toGrayscale_loop a !! (4 * k + 3)%nat = a !! (4 * k + 3)%nat).
  { intros k. destruct (decide (k < n)%nat) as [Hk|Hk].
    - destruct (toGrayscale_loop_lookup a n Hl') as [_ Hpix]. by destruct (Hpix k Hk).
    - rewrite !lookup_ge_None_2; [done|lia|rewrite toGrayscale_loop_length; lia]. }
  assert (Grad : forall kx ky, kx <> [] -> ky <> [] ->
            exists b, yields (gradientFilter kx ky img) s img b
                      /\ yields (gradientFilter kx ky g) sg g b).
  { intros kx ky Hkx Hky. eexists. split; [by apply gradientFilter_yields|].
    pose proof (gradientFilter_yields kx ky g sg _ Vg Hkx Hky) as Y. cbv zeta in Y.
    rewrite Hfix, Wg, Hg in Y.
    rewrite (gradient_loop_alpha_only _ _ a (toGrayscale_loop a) n) in Y;
      [exact Y|exact Hl'|apply toGrayscale_loop_length|exact Halpha]. }
  split; [by apply Grad|]. split; [by apply Grad|].
  eexists. split; [by apply cannyEdgeDetector_from_grey|].
  pose proof (cannyEdgeDetector_from_grey g size sg _ Vg Hs) as Y. cbv zeta in Y.
  rewrite Hfix, Wg, Hg in Y.
  rewrite (canny_loop_overwrites _ _ _ _ a (toGrayscale_loop a)) in Y;
    [exact Y|exact Hl|apply toGrayscale_loop_length].
Qed.

End GreyFirst.

Lemma edge_detectors_ignore_colour_witness :
  exists g sg,
    toGrayscale img_2x2 (heap_2x2 colours_2x2) = inr (g, sg) /\
    valid sg g (toGrayscale_loop colours_2x2) /\
    (exists b, yields (sobelFilter img_2x2) (heap_2x2 colours_2x2) img_2x2 b
               /\ yields (sobelFilter g) sg g b) /\
    (exists b, yields (prewittFilter img_2x2) (heap_2x2 colours_2x2) img_2x2 b
               /\ yields (prewittFilter g) sg g b) /\
    (exists b, yields (cannyEdgeDetector (ML := no_math) img_2x2 3) (heap_2x2 colours_2x2) img_2x2 b
               /\ yields (cannyEdgeDetector (ML := no_math) g 3) sg g b).
Proof.
  apply (edge_detectors_ignore_colour (ML := no_math) img_2x2 3 (heap_2x2 colours_2x2) colours_2x2).
  - apply valid_2x2. reflexivity.
  - lia.
Defined.
